(** * Nolia ask pipeline: a shallow embedding of the server-side core

    The development embeds the TypeScript sources of the server
    (rate limiter, LLM adapter, URL canonicalisation, evidence ranking,
    citation mapping, follow-up sanitising and the ask pipeline itself)
    as Rocq functions and states the properties of the specification
    over them.  It goes on with the code around these: the guard against
    requests to private addresses and the page fetch, the list of free
    models and its cache, the ids and profiles of the routes, the text
    helpers, and the calls and failures of whole runs of the pipeline.

    Conventions.
    - A JavaScript string is the list of its code units; the model covers
      code units below 256, so a string is a [list ascii].  String literals
      in scope [js] denote such lists.
    - JavaScript numbers that hold integers (counts, scores, millisecond
      timestamps, citation numbers) are [Z] or [nat].
    - A JavaScript [Map] whose iteration order is observed is an
      insertion-ordered association list; the rate limiter's hit table,
      whose order is never observed, is a [gmap].
    - Outbound I/O is an event of a small interaction monad [Prog]; a
      [World] answers the events, and [run] returns the log of the calls. *)

From Stdlib Require QArith.
From Stdlib Require Import ZArith Ascii String List Bool Lia ZifyBool Sorted Permutation.
From stdpp Require Import gmap strings list fin_maps.

Import ListNotations.
Local Open Scope Z_scope.

(** ** JavaScript strings *)

Module JsString.

Abbreviation jsstring := (list ascii).

Definition literal := list ascii.

Inductive jslit := JNil | JCons (a : ascii) (l : jslit).

Fixpoint lit_of_bytes (l : list Byte.byte) : jslit :=
  match l with
  | [] => JNil
  | b :: r => JCons (ascii_of_byte b) (lit_of_bytes r)
  end.

Fixpoint bytes_of_lit (l : jslit) : list Byte.byte :=
  match l with
  | JNil => []
  | JCons a r => byte_of_ascii a :: bytes_of_lit r
  end.

Declare Scope js_scope.
Delimit Scope js_scope with js.

#[warnings="-via-type-remapping,-via-type-mismatch"]
String Notation literal lit_of_bytes bytes_of_lit
  (via jslit mapping [[nil] => JNil, [cons] => JCons]) : js_scope.

Definition code (c : ascii) : N := N_of_ascii c.

Definition in_range (lo hi : N) (c : ascii) : bool :=
  ((lo <=? code c) && (code c <=? hi))%N.

Definition chr_eqb (a b : ascii) : bool := Ascii.eqb a b.

(** [\d], [\w] and [\s] of the regular-expression syntax, and the ASCII
    letters.  [\s] is the WhiteSpace and LineTerminator set restricted to
    the modelled code units: TAB, LF, VT, FF, CR, SPACE and NBSP. *)
Definition is_digit (c : ascii) : bool := in_range 48 57 c.
Definition is_upper (c : ascii) : bool := in_range 65 90 c.
Definition is_lower (c : ascii) : bool := in_range 97 122 c.
Definition is_alpha (c : ascii) : bool := is_upper c || is_lower c.
Definition is_alnum (c : ascii) : bool := is_alpha c || is_digit c.
Definition is_word (c : ascii) : bool := is_alnum c || chr_eqb c "_".
Definition is_space (c : ascii) : bool :=
  in_range 9 13 c || chr_eqb c " " || (code c =? 160)%N.

(** [String.prototype.toLowerCase] on one code unit: A-Z, and the Latin-1
    capitals 0xC0-0xDE except the multiplication sign 0xD7. *)
Definition lower_chr (c : ascii) : ascii :=
  if is_upper c || (in_range 192 222 c && negb (code c =? 215)%N)
  then ascii_of_N (code c + 32) else c.

Definition toLowerCase (s : jsstring) : jsstring := map lower_chr s.

Fixpoint eqb (a b : jsstring) : bool :=
  match a, b with
  | [], [] => true
  | x :: a', y :: b' => chr_eqb x y && eqb a' b'
  | _, _ => false
  end.

Fixpoint startsWith (s p : jsstring) {struct p} : bool :=
  match p, s with
  | [], _ => true
  | x :: p', y :: s' => chr_eqb x y && startsWith s' p'
  | _ :: _, [] => false
  end.

Definition endsWith (s p : jsstring) : bool := startsWith (rev s) (rev p).

Fixpoint includes (s p : jsstring) : bool :=
  startsWith s p ||
  match s with
  | [] => false
  | _ :: s' => includes s' p
  end.

(** [s.indexOf(p)]; [None] stands for -1. *)
Fixpoint indexOf (s p : jsstring) : option nat :=
  if startsWith s p then Some 0%nat
  else match s with
       | [] => None
       | _ :: s' => option_map S (indexOf s' p)
       end.

(** [s.slice(a, b)] for 0 <= a, b. *)
Definition slice (s : jsstring) (a b : nat) : jsstring :=
  firstn (b - a) (skipn a s).

Fixpoint trimStart (s : jsstring) : jsstring :=
  match s with
  | c :: r => if is_space c then trimStart r else s
  | [] => []
  end.

Definition trimEnd (s : jsstring) : jsstring := rev (trimStart (rev s)).
Definition trim (s : jsstring) : jsstring := trimEnd (trimStart s).

(** Truthiness of a string: non-empty. *)
Definition truthy (s : jsstring) : bool :=
  match s with [] => false | _ => true end.

Fixpoint join (sep : jsstring) (l : list jsstring) : jsstring :=
  match l with
  | [] => []
  | [x] => x
  | x :: r => x ++ sep ++ join sep r
  end.

(** Decimal rendering of a natural number, as template literals do. *)
Fixpoint digits_fuel (fuel : nat) (n : N) (acc : jsstring) : jsstring :=
  match fuel with
  | O => acc
  | S f =>
      let d := ascii_of_N (48 + n mod 10) in
      if (n <? 10)%N then d :: acc else digits_fuel f (n / 10)%N (d :: acc)
  end.

Definition of_N (n : N) : jsstring := digits_fuel (S (N.to_nat (N.log2 n))) n [].
Definition of_nat (n : nat) : jsstring := of_N (N.of_nat n).

End JsString.
Export JsString.

(** ** Regular expressions

    The sources drive intent detection, text clean-up and parsing with
    regular-expression literals.  [re] is the fragment of the syntax they
    use and [exec] is the backtracking matcher of the language: alternatives
    are tried left to right, a greedy star prefers one more iteration, a
    lazy star prefers to stop, and an iteration that consumes nothing is
    rejected. *)

Module Regex.

Inductive re :=
| Eps
| Chr (p : ascii -> bool)
| Seq (a b : re)
| Alt (a b : re)
| Star (greedy : bool) (a : re)
| Bol
| Eol
| WordB
| Mark.

(** A position in the subject: the code unit before it (if any), the
    remaining input and the capture marks set so far, most recent first,
    each mark being the length of the input that remained when it was set. *)
Record cursor := Cursor {
  prev : option ascii;
  rest : jsstring;
  marks : list nat
}.

Definition word_before (c : cursor) : bool :=
  match prev c with Some a => is_word a | None => false end.

Definition word_after (c : cursor) : bool :=
  match rest c with a :: _ => is_word a | [] => false end.

Fixpoint exec (r : re) (k : cursor -> option cursor) (c : cursor) : option cursor :=
  match r with
  | Eps => k c
  | Chr p =>
      match rest c with
      | a :: s => if p a then k (Cursor (Some a) s (marks c)) else None
      | [] => None
      end
  | Seq a b => exec a (exec b k) c
  | Alt a b =>
      match exec a k c with
      | Some c' => Some c'
      | None => exec b k c
      end
  | Star greedy a =>
      (fix loop (fuel : nat) (c : cursor) {struct fuel} : option cursor :=
         match fuel with
         | O => k c
         | S f =>
             let more c' :=
               if (length (rest c') <? length (rest c))%nat then loop f c' else None in
             if greedy then
               match exec a more c with
               | Some c' => Some c'
               | None => k c
               end
             else
               match k c with
               | Some c' => Some c'
               | None => exec a more c
               end
         end) (S (length (rest c))) c
  | Bol => match prev c with None => k c | Some _ => None end
  | Eol => match rest c with [] => k c | _ :: _ => None end
  | WordB => if xorb (word_before c) (word_after c) then k c else None
  | Mark => k (Cursor (prev c) (rest c) (length (rest c) :: marks c))
  end.

(** A match attempt anchored at cursor position [(p, s)]. *)
Definition match_here (r : re) (p : option ascii) (s : jsstring) : option cursor :=
  exec r Some (Cursor p s []).

(** The leftmost match at or after the cursor: the text skipped before
    it, the matched text, and the cursor after it. *)
Fixpoint find (r : re) (p : option ascii) (s : jsstring)
  : option (jsstring * jsstring * cursor) :=
  match match_here r p s with
  | Some c => Some ([], firstn (length s - length (rest c)) s, c)
  | None =>
      match s with
      | [] => None
      | a :: s' =>
          match find r (Some a) s' with
          | Some (skipped, m, c) => Some (a :: skipped, m, c)
          | None => None
          end
      end
  end.

(** [re.test(s)] *)
Definition test (r : re) (s : jsstring) : bool :=
  match find r None s with Some _ => true | None => false end.

(** [s.replace(re, repl)] without the [g] flag. *)
Definition replace (r : re) (repl s : jsstring) : jsstring :=
  match find r None s with
  | Some (skipped, _, c) => skipped ++ repl ++ rest c
  | None => s
  end.

Fixpoint replace_all_from (fuel : nat) (r : re) (repl : jsstring)
    (p : option ascii) (s : jsstring) : jsstring :=
  match fuel with
  | O => s
  | S f =>
      match find r p s with
      | None => s
      | Some (skipped, m, c) =>
          match m, rest c with
          | [], a :: s' =>
              skipped ++ repl ++ a :: replace_all_from f r repl (Some a) s'
          | [], [] => skipped ++ repl
          | _ :: _, _ =>
              skipped ++ repl ++ replace_all_from f r repl (prev c) (rest c)
          end
      end
  end.

(** [s.replace(re, repl)] with the [g] flag (also [replaceAll]). *)
Definition replace_all (r : re) (repl s : jsstring) : jsstring :=
  replace_all_from (S (length s)) r repl None s.

Fixpoint match_all_from (fuel : nat) (r : re) (p : option ascii) (s : jsstring)
  : list jsstring :=
  match fuel with
  | O => []
  | S f =>
      match find r p s with
      | None => []
      | Some (_, m, c) =>
          match m, rest c with
          | [], a :: s' => m :: match_all_from f r (Some a) s'
          | [], [] => [m]
          | _ :: _, _ => m :: match_all_from f r (prev c) (rest c)
          end
      end
  end.

(** [s.match(re)] with the [g] flag; the empty list stands for [null]. *)
Definition match_all (r : re) (s : jsstring) : list jsstring :=
  match_all_from (S (length s)) r None s.

(** [s.split(re)]: [cur] is the current piece, reversed. *)
Fixpoint split_from (fuel : nat) (r : re) (p : option ascii)
    (cur s : jsstring) : list jsstring :=
  match fuel with
  | O => [rev cur ++ s]
  | S f =>
      match s with
      | [] => [rev cur]
      | a :: s' =>
          match match_here r p s with
          | Some c =>
              if (length (rest c) =? length s)%nat && negb (truthy cur)
              then split_from f r (Some a) (a :: cur) s'
              else rev cur :: split_from f r (prev c) [] (rest c)
          | None => split_from f r (Some a) (a :: cur) s'
          end
      end
  end.

Definition split (r : re) (s : jsstring) : list jsstring :=
  split_from (2 * length s + 2) r None [] s.

(** The text between the two most recent marks of a match of subject [s]. *)
Definition captured (s : jsstring) (c : cursor) : jsstring :=
  match marks c with
  | e :: b :: _ => firstn (b - e) (skipn (length s - b) s)
  | _ => []
  end.

(** *** Notation for the literals of the sources *)

Definition one_of_chars (l : jsstring) (c : ascii) : bool := existsb (chr_eqb c) l.

Definition chr (a : ascii) : re := Chr (chr_eqb a).
(** A character under the [i] flag. *)
Definition chri (a : ascii) : re := Chr (fun b => chr_eqb (lower_chr b) (lower_chr a)).
Definition any : re := Chr (fun _ => true).
Definition space : re := Chr is_space.
Definition digit : re := Chr is_digit.
Definition star (a : re) : re := Star true a.
Definition lazy (a : re) : re := Star false a.
Definition plus (a : re) : re := Seq a (Star true a).
Definition opt (a : re) : re := Alt a Eps.
Definition group (a : re) : re := Seq Mark (Seq a Mark).

Fixpoint seqs (l : list re) : re :=
  match l with
  | [] => Eps
  | [a] => a
  | a :: l' => Seq a (seqs l')
  end.

Fixpoint alts (l : list re) : re :=
  match l with
  | [] => Chr (fun _ => false)
  | [a] => a
  | a :: l' => Alt a (alts l')
  end.

Definition lit (s : jsstring) : re := seqs (map chr s).
Definition liti (s : jsstring) : re := seqs (map chri s).

Fixpoint rep (n : nat) (a : re) : re :=
  match n with
  | O => Eps
  | S n' => Seq a (rep n' a)
  end.

(** Words of a literal separated by [\s+]: [phrase ["kill"; "myself"]] is
    [kill\s+myself] under the [i] flag. *)
Fixpoint phrase (ws : list jsstring) : re :=
  match ws with
  | [] => Eps
  | [w] => liti w
  | w :: ws' => Seq (liti w) (Seq (plus space) (phrase ws'))
  end.

End Regex.
(** ** Numbers read from text *)

Module JsNumber.

(** The result of [Number.parseInt(s, 10)]: the double nearest to the
    integer that the digits denote.  A finite result is kept as the
    integer value of that double; a digit string whose value rounds to
    [Infinity] is kept apart because [Number.isFinite] rejects it.
    ECMAScript lets an engine read the digits after the twentieth as
    zeros; the engine of Node rounds the number that all the digits
    denote, and so does the model. *)
Inductive num :=
| Finite (z : Z)
| Infinite
| NaN.

Definition isFinite (n : num) : bool :=
  match n with Finite _ => true | _ => false end.

Definition digit_value (c : ascii) : Z := Z.of_N (code c) - 48.

Fixpoint digits_value (acc : Z) (ds : jsstring) : Z :=
  match ds with
  | [] => acc
  | c :: r => digits_value (10 * acc + digit_value c) r
  end.

Fixpoint take_digits (s : jsstring) : jsstring :=
  match s with
  | c :: r => if is_digit c then c :: take_digits r else []
  | [] => []
  end.

(** Integers at or above 2^1024 - 2^970 round to [Infinity]. *)
Definition overflow_bound : Z := 2 ^ 1024 - 2 ^ 970.

(** The double nearest to a natural number, ties to even: the number
    itself below 2^53; from there on the nearest multiple of the spacing
    of the doubles around it, which keep 53 binary digits. *)
Definition round_double (v : Z) : Z :=
  if v <? 2 ^ 53 then v
  else
    let ulp := 2 ^ (Z.log2 v - 52) in
    let q := v / ulp in
    let r := v mod ulp in
    if 2 * r <? ulp then q * ulp
    else if ulp <? 2 * r then (q + 1) * ulp
    else if Z.even q then q * ulp else (q + 1) * ulp.

Definition of_magnitude (negative : bool) (v : Z) : num :=
  if overflow_bound <=? v then Infinite
  else Finite (if negative then - round_double v else round_double v).

Definition parseInt10 (s : jsstring) : num :=
  let s := trimStart s in
  let '(negative, body) :=
    match s with
    | c :: r =>
        if chr_eqb c "-" then (true, r)
        else if chr_eqb c "+" then (false, r)
        else (false, s)
    | [] => (false, s)
    end in
  match take_digits body with
  | [] => NaN
  | ds => of_magnitude negative (digits_value 0 ds)
  end.

End JsNumber.

(** ** server/lib/rateLimiter.ts *)

Module RateLimiter.

Record RateLimitOptions := {
  windowMs : Z;
  max : Z;
  keyPrefix : jsstring
}.

Record HitCounter := { count : Z; resetAtMs : Z }.

(** The part of the Express request the limiter reads: [req.ip], which may
    be undefined, and [req.requestId], kept only when it is a string. *)
Record Request := { ip : option jsstring; requestId : option jsstring }.

(** The headers the limiter sets; the values are the numbers whose decimal
    rendering is written to the response. *)
Record Headers := {
  X_RateLimit_Limit : Z;
  X_RateLimit_Remaining : Z;
  X_RateLimit_Reset : Z;
  Retry_After : option Z
}.

Record JsonBody := { message : jsstring; body_requestId : option jsstring }.

Inductive Outcome :=
| Next (h : Headers)
| Respond (status : Z) (h : Headers) (b : JsonBody).

(** [Math.ceil(a / 1000)] on an integer [a]. *)
Definition ceil_div_1000 (a : Z) : Z := - ((- a) / 1000).

(** The template literal [`${options.keyPrefix}:${req.ip}`]. *)
Definition hit_key (o : RateLimitOptions) (r : Request) : jsstring :=
  keyPrefix o ++ ":"%js ++ match ip r with Some a => a | None => "undefined"%js end.

(** One call of the middleware returned by [createMemoryRateLimiter]: the
    closure's [hits] map is threaded explicitly and [now] is [Date.now()]. *)
Definition rateLimiter (o : RateLimitOptions) (hits : gmap (list ascii) HitCounter)
    (now : Z) (r : Request) : gmap (list ascii) HitCounter * Outcome :=
  let key := hit_key o r in
  let fresh :=
    let reset := now + windowMs o in
    (<[key := {| count := 1; resetAtMs := reset |}]> hits,
     Next {| X_RateLimit_Limit := max o;
             X_RateLimit_Remaining := Z.max 0 (max o - 1);
             X_RateLimit_Reset := ceil_div_1000 reset;
             Retry_After := None |}) in
  match hits !! key with
  | None => fresh
  | Some existing =>
      if resetAtMs existing <=? now then fresh
      else
        let c := count existing + 1 in
        let hits' := <[key := {| count := c; resetAtMs := resetAtMs existing |}]> hits in
        let limit := max o in
        let remaining := Z.max 0 (max o - c) in
        let reset := ceil_div_1000 (resetAtMs existing) in
        if max o <? c then
          let retryAfterSeconds := Z.max 1 (ceil_div_1000 (resetAtMs existing - now)) in
          (hits',
           Respond 429
             {| X_RateLimit_Limit := limit; X_RateLimit_Remaining := remaining;
                X_RateLimit_Reset := reset; Retry_After := Some retryAfterSeconds |}
             {| message := "Too Many Requests, please try again later"%js;
                body_requestId := requestId r |})
        else
          (hits',
           Next {| X_RateLimit_Limit := limit; X_RateLimit_Remaining := remaining;
                   X_RateLimit_Reset := reset; Retry_After := None |})
  end.

(** A sequence of calls, each with its clock reading. *)
Fixpoint serve (o : RateLimitOptions) (hits : gmap (list ascii) HitCounter)
    (calls : list (Z * Request)) : gmap (list ascii) HitCounter * list Outcome :=
  match calls with
  | [] => (hits, [])
  | (now, r) :: calls' =>
      let '(hits1, out) := rateLimiter o hits now r in
      let '(hits2, outs) := serve o hits1 calls' in
      (hits2, out :: outs)
  end.

(** The limiter of [/api/ask] in server/routes.ts. *)
Definition askRateLimit : RateLimitOptions :=
  {| windowMs := 60000; max := 10; keyPrefix := "ask"%js |}.

(** What the limiter answers to the [n]-th request of a window that ends
    at [reset], when the request arrives at [now]. *)
Definition expected (n reset now : Z) (r : Request) : Outcome :=
  let h retry :=
    {| X_RateLimit_Limit := 10;
       X_RateLimit_Remaining := Z.max 0 (10 - n);
       X_RateLimit_Reset := ceil_div_1000 reset;
       Retry_After := retry |} in
  if n <=? 10 then Next (h None)
  else Respond 429 (h (Some (Z.max 1 (ceil_div_1000 (reset - now)))))
         {| message := "Too Many Requests, please try again later"%js;
            body_requestId := requestId r |}.

Definition from_ip (a : option jsstring) (before : Z) (call : Z * Request) : Prop :=
  ip (snd call) = a /\ fst call < before.

(** A request of the client at address [call.2], arriving at [call.1]. *)
Definition client (call : Z * jsstring) : Z * Request :=
  (call.1, {| ip := Some call.2; requestId := None |}).

End RateLimiter.

(** ** server/services/llm/openrouter.ts *)

(** What a function of the server throws: an [HttpError(status, message)]
    of server/lib/httpError, or a foreign value (a network error of
    [fetch], a [TypeError] of the platform). *)
Module Errors.

(** The fields of a thrown value that the sources inspect; [NotAnObject]
    is a thrown primitive. *)
Inductive JsError :=
| NotAnObject
| ErrorObject (name : option jsstring) (code : option jsstring).

Inductive Thrown :=
| HttpError (status : Z) (message : jsstring)
| Foreign (e : JsError).

Definition TypeError : Thrown := Foreign (ErrorObject (Some "TypeError"%js) None).

End Errors.
Export Errors.

Module OpenRouter.
Import JsNumber.

(** The outcome of one [fetchWithTimeout] call and of reading the reply:
    the call rejects, or a response arrives with its status, its
    [retry-after] header and its body.  [JSON.parse] and the response
    schema classify the body text; the classification is the input here. *)
Inductive Body :=
| InvalidJson
| UnexpectedShape
| Completion (content : jsstring).

Inductive FetchOutcome :=
| Rejected (err : JsError)
| Responded (status : Z) (retry_after : option jsstring) (body : Body).

Inductive Action :=
| Fetch
| Sleep (ms : Z).

Definition getRetryAfterMs (retry_after : option jsstring) : option Z :=
  match retry_after with
  | None => None
  | Some h =>
      if negb (truthy h) then None
      else match parseInt10 h with
           | Finite seconds => if seconds <=? 0 then None else Some (Z.min 10000 (seconds * 1000))
           | _ => None
           end
  end.

Definition isTransientStatus (status : Z) : bool :=
  (status =? 429) || (status =? 502) || (status =? 503) || (status =? 504).

Definition has (o : option jsstring) (s : jsstring) : bool :=
  match o with Some x => JsString.eqb x s | None => false end.

Definition isRetryableNetworkError (err : JsError) : bool :=
  match err with
  | NotAnObject => false
  | ErrorObject name code =>
      has name "AbortError"%js
      || has code "ETIMEDOUT"%js || has code "ECONNRESET"%js || has code "EAI_AGAIN"%js
      || has code "ENOTFOUND"%js || has code "ECONNREFUSED"%js
  end.

(** [res.ok] *)
Definition ok (status : Z) : bool := (200 <=? status) && (status <=? 299).

Definition maxAttempts : nat := 2.

(** The attempt loop of [openRouterChatCompletion], from attempt number
    [attempt] with [remaining] iterations left; [world n] is what the
    [n]-th call of [fetch] meets.  The result is the log of fetches and
    sleeps and either the thrown value or the returned content. *)
Fixpoint attempt_loop (remaining attempt : nat) (world : nat -> FetchOutcome)
  : list Action * (Thrown + jsstring) :=
  match remaining with
  | O => ([], inl (HttpError 502 "LLM provider error"%js))
  | S remaining' =>
      let retry ms :=
        let '(log, r) := attempt_loop remaining' (S attempt) world in
        (Fetch :: Sleep ms :: log, r) in
      let throw e : list Action * (Thrown + jsstring) := ([Fetch], inl e) in
      match world attempt with
      | Rejected err =>
          if (attempt <? maxAttempts)%nat && isRetryableNetworkError err
          then retry 350
          else throw (Foreign err)
      | Responded status retry_after body =>
          if negb (ok status) then
            if (status =? 401) || (status =? 403)
            then throw (HttpError 401 "LLM provider authentication failed"%js)
            else if (attempt <? maxAttempts)%nat && isTransientStatus status
            then retry (default 350 (getRetryAfterMs retry_after))
            else throw (HttpError 502
                   ("LLM provider error ("%js ++ of_N (Z.to_N status) ++ ")"%js))
          else
            match body with
            | InvalidJson =>
                if (attempt <? maxAttempts)%nat then retry 200
                else throw (HttpError 502 "Invalid JSON from LLM provider"%js)
            | UnexpectedShape =>
                if (attempt <? maxAttempts)%nat then retry 200
                else throw (HttpError 502 "Unexpected response from LLM provider"%js)
            | Completion content => ([Fetch], inr content)
            end
      end
  end.

Definition openRouterChatCompletion (world : nat -> FetchOutcome)
  : list Action * (Thrown + jsstring) :=
  attempt_loop maxAttempts 1 world.

Definition fetches (log : list Action) : nat :=
  length (List.filter (fun a => match a with Fetch => true | Sleep _ => false end) log).

(** The last iteration of the loop: no retry is left. *)
Definition last_attempt (o : FetchOutcome) : Thrown + jsstring :=
  match o with
  | Rejected err => inl (Foreign err)
  | Responded status _ body =>
      if negb (ok status) then
        if (status =? 401) || (status =? 403)
        then inl (HttpError 401 "LLM provider authentication failed"%js)
        else inl (HttpError 502 ("LLM provider error ("%js ++ of_N (Z.to_N status) ++ ")"%js))
      else match body with
           | InvalidJson => inl (HttpError 502 "Invalid JSON from LLM provider"%js)
           | UnexpectedShape => inl (HttpError 502 "Unexpected response from LLM provider"%js)
           | Completion content => inr content
           end
  end.

(** The first iteration either ends the call or sleeps and hands over to
    the last one. *)
Definition first_attempt (o : FetchOutcome) : option Z + (Thrown + jsstring) :=
  match o with
  | Rejected err =>
      if isRetryableNetworkError err then inl (Some 350) else inr (inl (Foreign err))
  | Responded status retry_after body =>
      if negb (ok status) then
        if (status =? 401) || (status =? 403)
        then inr (inl (HttpError 401 "LLM provider authentication failed"%js))
        else if isTransientStatus status
        then inl (Some (default 350 (getRetryAfterMs retry_after)))
        else inr (inl (HttpError 502 ("LLM provider error ("%js ++ of_N (Z.to_N status) ++ ")"%js)))
      else match body with
           | InvalidJson | UnexpectedShape => inl (Some 200)
           | Completion content => inr (inr content)
           end
  end.


End OpenRouter.

(** The earlier revision of the adapter, kept in the tree next to the one
    above: a single attempt, no sleep. *)
Module OpenRouterSingleAttempt.
Import OpenRouter.

Definition openRouterChatCompletion (world : nat -> FetchOutcome)
  : list Action * (Thrown + jsstring) :=
  match world 1%nat with
  | Rejected err => ([Fetch], inl (Foreign err))
  | Responded status _ body =>
      if negb (ok status) then
        if (status =? 401) || (status =? 403)
        then ([Fetch], inl (HttpError 401 "LLM provider authentication failed"%js))
        else ([Fetch], inl (HttpError 502
                ("LLM provider error ("%js ++ of_N (Z.to_N status) ++ ")"%js)))
      else
        match body with
        | InvalidJson => ([Fetch], inl (HttpError 502 "Invalid JSON from LLM provider"%js))
        | UnexpectedShape => ([Fetch], inl (HttpError 502 "Unexpected response from LLM provider"%js))
        | Completion content => ([Fetch], inr content)
        end
  end.

End OpenRouterSingleAttempt.

(** ** The list of free models (server/services/llm/openrouter.ts) *)

Module FreeModels.
Import OpenRouter.

(** A number read by [Number.parseFloat]. *)
Inductive float :=
| NotANumber
| Infinity (negative : bool)
| Fin (q : QArith_base.Q).

(** [Number.parseFloat] *)
Class Floats := { parseFloat : jsstring -> float }.

Record Pricing := {
  prompt : option jsstring;
  completion : option jsstring;
  request : option jsstring
}.

Record ModelInfo := { model_id : jsstring; pricing : option Pricing }.

(** What [JSON.parse] and [modelsResponseSchema] make of the body. *)
Inductive ModelsBody :=
| InvalidJsonList
| UnexpectedList
| ModelList (data : option (list ModelInfo)).

Inductive ListOutcome :=
| ListRejected (err : JsError)
| ListResponded (status : Z) (body : ModelsBody).

Record Cached := { models : list jsstring; expiresAtMs : Z }.

Section WithFloats.
Context {F : Floats}.

(** [x === undefined ? 0 : Number.parseFloat(x)] *)
Definition cost (x : option jsstring) : float :=
  match x with
  | None => Fin (QArith_base.Qmake 0 1)
  | Some s => parseFloat s
  end.

(** [Number.isFinite(c) && c <= 0] *)
Definition finite_and_free (c : float) : bool :=
  match c with
  | Fin q => QArith_base.Qle_bool q (QArith_base.Qmake 0 1)
  | _ => false
  end.

Definition is_free (m : ModelInfo) : bool :=
  let promptCost := cost (p ← pricing m; prompt p) in
  let completionCost := cost (p ← pricing m; completion p) in
  let requestCost := cost (p ← pricing m; request p) in
  finite_and_free promptCost && finite_and_free completionCost && finite_and_free requestCost.

(** [listFreeOpenRouterModels]: the state is [cachedFreeModels]; [key] is
    [env.OPENROUTER_API_KEY], [now] what [Date.now()] returns and
    [outcome] what the request meets, if it is made.  The result is the
    state after the call, the requests made and the outcome. *)
Definition listFreeOpenRouterModels (cachedFreeModels : option Cached) (key : option jsstring)
    (now : Z) (outcome : ListOutcome)
  : option Cached * list Action * (Thrown + list jsstring) :=
  let fresh :=
    match cachedFreeModels with
    | Some c => if now <? expiresAtMs c then Some (models c) else None
    | None => None
    end in
  match fresh with
  | Some ms => (cachedFreeModels, [], inr ms)
  | None =>
      if negb (match key with Some k => truthy k | None => false end)
      then (cachedFreeModels, [], inr [])
      else
        match outcome with
        | ListRejected err => (cachedFreeModels, [Fetch], inl (Foreign err))
        | ListResponded status body =>
            if negb (ok status)
            then (cachedFreeModels, [Fetch],
                  inl (HttpError 502 ("Failed to list models ("%js
                                      ++ of_N (Z.to_N status) ++ ")"%js)))
            else
              match body with
              | InvalidJsonList =>
                  (cachedFreeModels, [Fetch],
                   inl (HttpError 502 "Invalid JSON from model list"%js))
              | UnexpectedList =>
                  (cachedFreeModels, [Fetch],
                   inl (HttpError 502 "Unexpected model list response"%js))
              | ModelList data =>
                  let all := default [] data in
                  let free := firstn 100 (map model_id (List.filter is_free all)) in
                  (Some {| models := free; expiresAtMs := now + 10 * 60 * 1000 |},
                   [Fetch], inr free)
              end
        end
  end.

End WithFloats.
End FreeModels.

(** ** The platform: URLs, collation, dates, JSON

    [new URL(raw)], [URLSearchParams], [String.prototype.localeCompare],
    [Date.parse] and [JSON.parse] are not code of the repository.  The sources are embedded
    over an arbitrary [Platform]; [Reference] further down is a concrete
    platform for http(s) URLs on which examples are evaluated. *)

Module Url.

(** The properties of a [URL] object that the sources read: [protocol]
    (with its colon), [hostname], [pathname] and the decoded name/value
    pairs of [searchParams], in order. *)
Record URL := {
  protocol : jsstring;
  hostname : jsstring;
  pathname : jsstring;
  searchParams : list (jsstring * jsstring)
}.

(** A parsed JSON text.  A number is a double; its value is kept when it
    is an integer. *)
#[warnings="-register-all"]
Inductive Json :=
| JNull
| JBool (b : bool)
| JNumber (n : option Z)
| JString (s : jsstring)
| JArray (l : list Json)
| JObject (fields : list (jsstring * Json)).

Class Platform := {
  (** [new URL(raw)]; [None] when the constructor throws. *)
  new_URL : jsstring -> option URL;
  (** [url.search] once [url.search = ""] was followed by an [append] of
      each pair. *)
  search_of : list (jsstring * jsstring) -> jsstring;
  (** The sign of [a.localeCompare(b)]. *)
  localeCompare : jsstring -> jsstring -> Z;
  (** [Date.parse] of a [YYYY-MM-DD] text, in milliseconds; [None] is NaN. *)
  date_parse : jsstring -> option Z;
  (** [JSON.parse]; [None] when it throws. *)
  json_parse : jsstring -> option Json
}.

End Url.
Export Url.

(** ** URL canonicalisation (services/ask/askPipeline.ts) *)

Module Canon.
Section WithPlatform.
Context {P : Platform}.

(** [s.replace(/^www\./, "")] *)
Definition strip_www (s : jsstring) : jsstring :=
  if startsWith s "www."%js then skipn 4 s else s.

Fixpoint drop_slashes (s : jsstring) : jsstring :=
  match s with
  | c :: r => if chr_eqb c "/" then drop_slashes r else s
  | [] => []
  end.

(** [s.replace(/\/+$/, "")] *)
Definition strip_trailing_slashes (s : jsstring) : jsstring :=
  rev (drop_slashes (rev s)).

Definition is_tracking (k : jsstring) : bool :=
  let key := toLowerCase k in
  startsWith key "utm_"%js
  || JsString.eqb key "gclid"%js
  || JsString.eqb key "fbclid"%js
  || JsString.eqb key "igshid"%js
  || JsString.eqb key "mc_cid"%js
  || JsString.eqb key "mc_eid"%js
  || JsString.eqb key "ref"%js
  || JsString.eqb key "ref_src"%js.

(** [entries.sort(([a], [b]) => a.localeCompare(b))]: the sort of arrays
    is stable. *)
Fixpoint insert_entry (e : jsstring * jsstring) (l : list (jsstring * jsstring))
  : list (jsstring * jsstring) :=
  match l with
  | [] => [e]
  | f :: l' =>
      if localeCompare (fst e) (fst f) <=? 0 then e :: l
      else f :: insert_entry e l'
  end.

Definition sort_entries (l : list (jsstring * jsstring)) : list (jsstring * jsstring) :=
  fold_right insert_entry [] l.

Record Normalized := { key : jsstring; cleanedUrl : jsstring }.

(** The canonical form of a parsed URL. *)
Definition normalize_parsed (url : URL) : Normalized :=
  let kept := List.filter (fun e => negb (is_tracking (fst e))) (searchParams url) in
  let entries := sort_entries kept in
  let host := strip_www (toLowerCase (hostname url)) in
  let path :=
    let p := strip_trailing_slashes (pathname url) in
    if truthy p then p else "/"%js in
  let search := search_of entries in
  {| key := host ++ path ++ search;
     cleanedUrl := protocol url ++ "//"%js ++ host ++ path ++ search |}.

(** [normalizeUrlForDedupe]; [None] is the [null] of the [catch]. *)
Definition normalizeUrlForDedupe (raw : jsstring) : option Normalized :=
  match new_URL raw with
  | Some url => Some (normalize_parsed url)
  | None => None
  end.

Definition getHostnameSafe (url : jsstring) : jsstring :=
  match new_URL url with
  | Some u => strip_www (toLowerCase (hostname u))
  | None => []
  end.

End WithPlatform.
End Canon.

(** ** The parts of a canonical form *)

Module CanonParts.
Import Canon.
Section WithPlatform.
Context {P : Platform}.

(** The host, the path and the query entries that [normalizeUrlForDedupe]
    assembles into the key and the cleaned URL. *)
Definition host_of (u : URL) : jsstring := strip_www (toLowerCase (hostname u)).

Definition path_of (u : URL) : jsstring :=
  let p := strip_trailing_slashes (pathname u) in
  if truthy p then p else "/"%js.

Definition entries_of (u : URL) : list (jsstring * jsstring) :=
  sort_entries (List.filter (fun e => negb (is_tracking (fst e))) (searchParams u)).

(** [back] has the parts that the cleaned URL of [u] was assembled from:
    the protocol of [u] and its canonical host, path and query entries. *)
Definition reads_back (u back : URL) : Prop :=
  protocol back = protocol u
  /\ hostname back = host_of u
  /\ pathname back = path_of u
  /\ searchParams back = entries_of u.

(** [localeCompare] puts no two names of the entries each after the
    other. *)
Definition comparable (l : list (jsstring * jsstring)) : bool :=
  forallb (fun e =>
             forallb (fun f => (localeCompare (fst e) (fst f) <=? 0)
                               || (localeCompare (fst f) (fst e) <=? 0)) l) l.

(** Each entry is at most its successor. *)
Fixpoint in_order (l : list (jsstring * jsstring)) : Prop :=
  match l with
  | e :: (f :: _) as r => (localeCompare (fst e) (fst f) <=? 0) = true /\ in_order r
  | _ => True
  end.

End WithPlatform.
End CanonParts.

(** ** A reference platform

    A model of the URL parser of the WHATWG URL standard for the inputs
    [scheme:][//]host[:port][/path][?query][#fragment] with scheme http or
    https.  It accepts an input only where the standard leaves the parts
    unchanged apart from lower-casing scheme and host: no credentials, no
    IPv4 or IPv6 literal, no dot segment, no character that the standard
    would strip or escape, no escape of a byte above 0x7F in the query.
    On every other input it answers [None], which for inputs that the
    standard accepts is outside what is modelled. *)

Module Reference.
Import JsNumber.

(** The longest prefix without a character satisfying [p], and the rest. *)
Fixpoint split_at (p : ascii -> bool) (s : jsstring) : jsstring * jsstring :=
  match s with
  | [] => ([], [])
  | c :: r =>
      if p c then ([], s)
      else let '(a, b) := split_at p r in (c :: a, b)
  end.

Definition one_of (l : jsstring) (c : ascii) : bool := existsb (chr_eqb c) l.

Definition is_hex (c : ascii) : bool :=
  is_digit c || in_range 65 70 c || in_range 97 102 c.

Definition hex_value (c : ascii) : N :=
  if is_digit c then (code c - 48)%N
  else if in_range 65 70 c then (code c - 55)%N
  else (code c - 87)%N.

Definition hex_digit (n : N) : ascii :=
  if (n <? 10)%N then ascii_of_N (48 + n) else ascii_of_N (55 + n).

(** *** Host *)

Definition host_char (c : ascii) : bool :=
  is_alnum c || one_of "-._"%js c.

(** The first character of the last label is not a digit (so the host is
    not read as an IPv4 address); a single trailing dot is allowed. *)
Fixpoint last_label_ok (verdict at_start : bool) (s : jsstring) : bool :=
  match s with
  | [] => verdict
  | c :: r =>
      if chr_eqb c "." then
        match r with
        | [] => verdict
        | _ => negb at_start && last_label_ok false true r
        end
      else last_label_ok (if at_start then negb (is_digit c) else verdict) false r
  end.

Definition host_ok (h : jsstring) : bool :=
  truthy h && forallb host_char h && last_label_ok false true h
  && negb (startsWith h "xn--"%js) && negb (includes h ".xn--"%js).

(** *** Path *)

Definition path_char (c : ascii) : bool :=
  is_alnum c || one_of "/-._~!$&'()*+,;=:@%"%js c.

Definition path_ok (p : jsstring) : bool :=
  forallb path_char p
  && negb (includes p "/."%js) && negb (includes p "/%2e"%js) && negb (includes p "/%2E"%js).

(** *** Query: application/x-www-form-urlencoded *)

Definition query_char (c : ascii) : bool :=
  in_range 33 126 c && negb (chr_eqb c "#").

(** Every [%] escape of two hexadecimal digits stays below 0x80. *)
Fixpoint escapes_ok (s : jsstring) : bool :=
  match s with
  | [] => true
  | c :: r =>
      (if chr_eqb c "%" then
         match r with
         | h :: l :: _ => if is_hex h && is_hex l then (hex_value h <? 8)%N else true
         | _ => true
         end
       else true)
      && escapes_ok r
  end.

Fixpoint decode (s : jsstring) : jsstring :=
  match s with
  | [] => []
  | c :: r =>
      if chr_eqb c "+" then " "%char :: decode r
      else if chr_eqb c "%" then
        match r with
        | h :: l :: r' =>
            if is_hex h && is_hex l
            then ascii_of_N (16 * hex_value h + hex_value l) :: decode r'
            else c :: decode r
        | _ => c :: decode r
        end
      else c :: decode r
  end.

Definition parse_pair (piece : jsstring) : jsstring * jsstring :=
  let '(name, rest) := split_at (chr_eqb "=") piece in
  (decode name, decode (tl rest)).

Fixpoint parse_pieces (fuel : nat) (q : jsstring) : list (jsstring * jsstring) :=
  match fuel with
  | O => []
  | S f =>
      let '(piece, rest) := split_at (chr_eqb "&") q in
      let here := match piece with [] => [] | _ => [parse_pair piece] end in
      match rest with
      | [] => here
      | _ :: q' => here ++ parse_pieces f q'
      end
  end.

Definition parse_query (q : jsstring) : list (jsstring * jsstring) :=
  parse_pieces (S (length q)) q.

Definition form_safe (c : ascii) : bool := is_alnum c || one_of "*-._"%js c.

Definition encode_chr (c : ascii) : jsstring :=
  if form_safe c then [c]
  else if chr_eqb c " " then "+"%js
  else ["%"%char; hex_digit (code c / 16); hex_digit (code c mod 16)].

Definition encode (s : jsstring) : jsstring := flat_map encode_chr s.

Definition encode_pair (e : jsstring * jsstring) : jsstring :=
  encode (fst e) ++ "="%js ++ encode (snd e).

(** The serialisation of the pairs; it is only reached with names and
    values below 0x80, for which no UTF-8 encoding is involved. *)
Definition serialize (l : list (jsstring * jsstring)) : jsstring :=
  match l with
  | [] => []
  | _ => "?"%char :: join "&"%js (map encode_pair l)
  end.

(** *** The parser *)

Fixpoint skip_slashes (s : jsstring) : jsstring :=
  match s with
  | c :: r => if one_of "/\"%js c then skip_slashes r else s
  | [] => []
  end.

Definition parse_authority (a : jsstring) : option jsstring :=
  let '(host, port) := split_at (chr_eqb ":") a in
  let host := toLowerCase host in
  let port_ok :=
    match port with
    | [] => true
    | _ :: ds => forallb is_digit ds && (length ds <=? 4)%nat
    end in
  if host_ok host && port_ok then Some host else None.

Definition parse_rest (scheme rest : jsstring) : option URL :=
  let '(authority, rest3) := split_at (one_of "/\?#"%js) (skip_slashes rest) in
  let '(path, rest4) := split_at (one_of "?#"%js) rest3 in
  let '(query, fragment) :=
    match rest4 with
    | c :: r => if chr_eqb c "?" then split_at (chr_eqb "#") r else ([], rest4)
    | [] => ([], [])
    end in
  match parse_authority authority with
  | None => None
  | Some host =>
      if path_ok path && forallb query_char query && escapes_ok query
         && forallb (in_range 33 126) (tl fragment)
      then Some {| protocol := scheme ++ ":"%js;
                   hostname := host;
                   pathname := if truthy path then path else "/"%js;
                   searchParams := parse_query query |}
      else None
  end.

Definition parse (raw : jsstring) : option URL :=
  let '(scheme, rest) := split_at (chr_eqb ":") raw in
  let scheme := toLowerCase scheme in
  match rest with
  | _ :: rest' =>
      if JsString.eqb scheme "http"%js || JsString.eqb scheme "https"%js
      then parse_rest scheme rest'
      else None
  | [] => None
  end.

(** *** Collation

    A stand-in for [localeCompare]: the comparison of the lower-cased texts
    by code unit.  It orders names made of lower-case letters and digits
    as the root collation does (digits before letters, letters
    alphabetically); on other names it need not agree with it, which
    compares upper and lower case, punctuation and accents by its own
    levels.  The theorems on every platform do not depend on it; it
    decides the order of the query in examples only. *)
Fixpoint compare_units (a b : jsstring) : Z :=
  match a, b with
  | [], [] => 0
  | [], _ :: _ => -1
  | _ :: _, [] => 1
  | x :: a', y :: b' =>
      if (code x <? code y)%N then -1
      else if (code y <? code x)%N then 1
      else compare_units a' b'
  end.

Definition compare (a b : jsstring) : Z :=
  compare_units (toLowerCase a) (toLowerCase b).

(** *** Dates: [Date.parse("YYYY-MM-DD")], UTC midnight in milliseconds *)

Definition days_from_civil (y m d : Z) : Z :=
  let y' := if m <=? 2 then y - 1 else y in
  let era := y' / 400 in
  let yoe := y' - era * 400 in
  let mp := (m + 9) mod 12 in
  let doy := (153 * mp + 2) / 5 + d - 1 in
  let doe := yoe * 365 + yoe / 4 - yoe / 100 + doy in
  era * 146097 + doe - 719468.

Definition parse_date (s : jsstring) : option Z :=
  let y := digits_value 0 (slice s 0 4) in
  let m := digits_value 0 (slice s 5 7) in
  let d := digits_value 0 (slice s 8 10) in
  if (1 <=? m) && (m <=? 12) && (1 <=? d) && (d <=? 31)
  then Some (days_from_civil y m d * 86400000)
  else None.

(** *** JSON

    A parser for JSON texts.  A [\u] escape is read when it denotes a code
    unit below 256; one that denotes another code unit is outside the
    modelled strings and the text is answered with [None].  A number is
    read as the double nearest to the decimal. *)

Fixpoint skip_ws (s : jsstring) : jsstring :=
  match s with
  | c :: r => if one_of [" "%char; "009"%char; "010"%char; "013"%char] c then skip_ws r else s
  | [] => []
  end.

(** The characters of a string literal after its opening quote. *)
Fixpoint json_string (s : jsstring) : option (jsstring * jsstring) :=
  match s with
  | [] => None
  | c :: r =>
      if chr_eqb c "034" then Some ([], r)
      else if (code c <? 32)%N then None
      else if chr_eqb c "\" then
        match r with
        | e :: r' =>
            if chr_eqb e "u" then
              match r' with
              | h1 :: h2 :: h3 :: h4 :: r'' =>
                  if is_hex h1 && is_hex h2 && is_hex h3 && is_hex h4
                     && (hex_value h1 =? 0)%N && (hex_value h2 =? 0)%N
                  then
                    match json_string r'' with
                    | Some (body, rest) =>
                        Some (ascii_of_N (16 * hex_value h3 + hex_value h4) :: body, rest)
                    | None => None
                    end
                  else None
              | _ => None
              end
            else
              let unescaped :=
                if one_of [ "034"%char; "\"%char; "/"%char ] e then Some e
                else if chr_eqb e "n" then Some "010"%char
                else if chr_eqb e "t" then Some "009"%char
                else if chr_eqb e "r" then Some "013"%char
                else if chr_eqb e "b" then Some "008"%char
                else if chr_eqb e "f" then Some "012"%char
                else None in
              match unescaped, json_string r' with
              | Some u, Some (body, rest) => Some (u :: body, rest)
              | _, _ => None
              end
        | [] => None
        end
      else
        match json_string r with
        | Some (body, rest) => Some (c :: body, rest)
        | None => None
        end
  end.

(** The double nearest to [m / d], for [0 <= m] and [0 < d], when that
    double is an integer.  The doubles around [m / d] are the multiples of
    [2 ^ t], where [t] is 52 below the binary exponent of [m / d] and at
    least -1074; a tie goes to the even multiple.  From [2 ^ 1024] on the
    result is [Infinity], which is no integer. *)
Definition integral_double (m d : Z) : option Z :=
  if m =? 0 then Some 0
  else
    let e0 := Z.log2 m - Z.log2 d in
    let below := if 0 <=? e0 then m <? d * 2 ^ e0 else m * 2 ^ (- e0) <? d in
    let e := if below then e0 - 1 else e0 in
    let t := Z.max (e - 52) (-1074) in
    let num := if 0 <=? t then m else m * 2 ^ (- t) in
    let den := if 0 <=? t then d * 2 ^ t else d in
    let q := num / den in
    let r := num mod den in
    let n := if 2 * r <? den then q
             else if den <? 2 * r then q + 1
             else if Z.even q then q else q + 1 in
    if 0 <=? t then
      if 2 ^ 1024 <=? n * 2 ^ t then None else Some (n * 2 ^ t)
    else if n mod 2 ^ (- t) =? 0 then Some (n / 2 ^ (- t)) else None.

(** The value of the digits [ds] times [10 ^ ex].  Beyond [10 ^ 400] it
    is [Infinity] and below [10 ^ -400] it is 0, whatever the digits. *)
Definition decimal_value (ds : jsstring) (ex : Z) : option Z :=
  let m := digits_value 0 ds in
  if m =? 0 then Some 0
  else if 400 <? ex then None
  else if ex + Z.of_nat (length ds) <? -400 then Some 0
  else if 0 <=? ex then integral_double (m * 10 ^ ex) 1
  else integral_double m (10 ^ (- ex)).

(** The fraction of a number, if there is one: its digits and the rest. *)
Definition fraction (s : jsstring) : option (jsstring * jsstring) :=
  match s with
  | c :: r =>
      if chr_eqb c "." then
        match take_digits r with
        | [] => None
        | fs => Some (fs, skipn (length fs) r)
        end
      else Some ([], s)
  | [] => Some ([], s)
  end.

(** The exponent of a number, 0 if there is none, and the rest. *)
Definition exponent (s : jsstring) : option (Z * jsstring) :=
  match s with
  | c :: r =>
      if one_of "eE"%js c then
        let '(negative, r') :=
          match r with
          | sign :: r' =>
              if chr_eqb sign "-" then (true, r')
              else if chr_eqb sign "+" then (false, r')
              else (false, r)
          | [] => (false, r)
          end in
        match take_digits r' with
        | [] => None
        | es => Some (if negative then - digits_value 0 es else digits_value 0 es,
                      skipn (length es) r')
        end
      else Some (0, s)
  | [] => Some (0, s)
  end.

Definition json_number (s : jsstring) : option (Json * jsstring) :=
  let '(negative, body) :=
    match s with
    | c :: r => if chr_eqb c "-" then (true, r) else (false, s)
    | [] => (false, s)
    end in
  let ds := take_digits body in
  let rest := skipn (length ds) body in
  let leading_zero :=
    match ds with
    | c :: _ :: _ => chr_eqb c "0"
    | _ => false
    end in
  match ds with
  | [] => None
  | _ =>
      if leading_zero then None
      else
        match fraction rest with
        | None => None
        | Some (fs, rest1) =>
            match exponent rest1 with
            | None => None
            | Some (ex, rest2) =>
                let value := decimal_value (ds ++ fs) (ex - Z.of_nat (length fs)) in
                Some (JNumber (option_map (fun z => if negative then - z else z) value),
                      rest2)
            end
        end
  end.

Fixpoint json_value (fuel : nat) (s : jsstring) : option (Json * jsstring) :=
  match fuel with
  | O => None
  | S f =>
      let s := skip_ws s in
      let elements :=
        fix elements (n : nat) (s : jsstring) : option (list Json * jsstring) :=
          match n with
          | O => None
          | S n' =>
              match json_value f s with
              | None => None
              | Some (v, rest) =>
                  match skip_ws rest with
                  | c :: r =>
                      if chr_eqb c "," then
                        match elements n' r with
                        | Some (vs, rest') => Some (v :: vs, rest')
                        | None => None
                        end
                      else if chr_eqb c "]" then Some ([v], r)
                      else None
                  | [] => None
                  end
              end
          end in
      let members :=
        fix members (n : nat) (s : jsstring) : option (list (jsstring * Json) * jsstring) :=
          match n with
          | O => None
          | S n' =>
              match skip_ws s with
              | q :: r =>
                  if chr_eqb q "034" then
                    match json_string r with
                    | Some (name, rest) =>
                        match skip_ws rest with
                        | c :: r' =>
                            if chr_eqb c ":" then
                              match json_value f r' with
                              | Some (v, rest') =>
                                  match skip_ws rest' with
                                  | c' :: r'' =>
                                      if chr_eqb c' "," then
                                        match members n' r'' with
                                        | Some (ms, rest'') => Some ((name, v) :: ms, rest'')
                                        | None => None
                                        end
                                      else if chr_eqb c' "}" then Some ([(name, v)], r'')
                                      else None
                                  | [] => None
                                  end
                              | None => None
                              end
                            else None
                        | [] => None
                        end
                    | None => None
                    end
                  else None
              | [] => None
              end
          end in
      match s with
      | [] => None
      | c :: r =>
          if startsWith s "null"%js then Some (JNull, skipn 4 s)
          else if startsWith s "true"%js then Some (JBool true, skipn 4 s)
          else if startsWith s "false"%js then Some (JBool false, skipn 5 s)
          else if chr_eqb c "034" then
            match json_string r with
            | Some (body, rest) => Some (JString body, rest)
            | None => None
            end
          else if chr_eqb c "[" then
            match skip_ws r with
            | c' :: r' =>
                if chr_eqb c' "]" then Some (JArray [], r')
                else match elements (length r) r with
                     | Some (vs, rest) => Some (JArray vs, rest)
                     | None => None
                     end
            | [] => None
            end
          else if chr_eqb c "{" then
            match skip_ws r with
            | c' :: r' =>
                if chr_eqb c' "}" then Some (JObject [], r')
                else match members (length r) r with
                     | Some (ms, rest) => Some (JObject ms, rest)
                     | None => None
                     end
            | [] => None
            end
          else json_number s
      end
  end.

Definition parse_json (s : jsstring) : option Json :=
  match json_value (S (length s)) s with
  | Some (v, rest) => match skip_ws rest with [] => Some v | _ => None end
  | None => None
  end.

#[export] Instance platform : Platform := {|
  new_URL := parse;
  search_of := serialize;
  localeCompare := compare;
  date_parse := parse_date;
  json_parse := parse_json
|}.

End Reference.

(** ** Canonical forms on the reference platform *)

Module CanonicalForm.
Import Canon Reference.

#[local] Existing Instance Reference.platform.

(** The path of the canonical form. *)
Definition canonical_path (p : jsstring) : jsstring :=
  if truthy (strip_trailing_slashes p) then strip_trailing_slashes p else "/"%js.

Definition ascii7 (c : ascii) : bool := (code c <? 128)%N.

(** Neither a separator of the query nor the start of a fragment. *)
Definition plain (c : ascii) : bool :=
  query_char c && negb (chr_eqb "&" c) && negb (chr_eqb "=" c).

Definition clean (s : jsstring) : bool := forallb query_char s && escapes_ok s.

Definition ascii_entry (e : jsstring * jsstring) : Prop :=
  forallb ascii7 (fst e) = true /\ forallb ascii7 (snd e) = true.

(** Each entry is at most its successor. *)
Fixpoint ordered (l : list (jsstring * jsstring)) : Prop :=
  match l with
  | e :: (f :: _) as r => (compare (fst e) (fst f) <=? 0) = true /\ ordered r
  | _ => True
  end.

(** The query entries of the canonical form. *)
Definition canonical_entries (l : list (jsstring * jsstring)) : list (jsstring * jsstring) :=
  sort_entries (List.filter (fun e => negb (is_tracking (fst e))) l).

End CanonicalForm.

(** ** Data of the ask pipeline (validators/ask.ts, services/ask/askPipeline.ts) *)

Module Ask.

Inductive Mode := mode_fast | mode_verified.
Inductive Language := lang_auto | lang_en | lang_hi.
Inductive Style := Concise | Balanced | Detailed | Creative.
Inductive WebTopic := topic_general | topic_news | topic_finance.
Inductive WebTimeRange :=
| range_day | range_week | range_month | range_year | range_d | range_w | range_m | range_y.

(** A request that passed [askRequestSchema]. *)
Record AskRequest := {
  question : jsstring;
  model : option jsstring;
  mode : option Mode;
  language : option Language;
  style : option Style;
  useWeb : option bool;
  webTopic : option WebTopic;
  webTimeRange : option WebTimeRange
}.

Record Citation := { cite_url : jsstring; cite_title : jsstring }.

Record AskResponse := {
  provider : jsstring;
  response_model : jsstring;
  answer : jsstring;
  citations : list Citation;
  followUps : list jsstring;
  latencyMs : Z
}.

Record EvidenceSource := {
  title : jsstring;
  url : jsstring;
  snippet : jsstring;
  extractedText : option jsstring
}.

Record SourceCandidate := {
  source : EvidenceSource;
  score : Z;
  normUrl : jsstring
}.

Record GroundedFact := { fact : jsstring; fact_citations : list Z }.

Inductive SafetyReason := self_harm | violence | weapons | drugs | hacking | sexual_content.

Record RecencyIntent := { wantsFresh : bool; wantsVeryFresh : bool; isFinance : bool }.

Inductive ClockIntent := asks_date | asks_time | asks_datetime.

(** [env] of server/config.ts; an absent variable is [None], and a present
    one is a non-empty string. *)
Record Env := {
  OPENROUTER_API_KEY : option jsstring;
  OPENROUTER_DEFAULT_MODEL : option jsstring;
  BRAVE_SEARCH_API_KEY : option jsstring;
  TAVILY_API_KEY : option jsstring
}.

(** *** Messages sent to the model

    A chat request is kept as the parameters from which the sources build
    its texts: the options of [buildSystemPrompt] and the template of the
    user message with its arguments. *)

Record SystemPrompt := {
  prompt_style : Style;
  prompt_mode : Mode;
  prompt_language : Language;
  strictCitations : bool;
  sourcesCount : option nat
}.

Inductive SystemMessage :=
| Nolia (p : SystemPrompt)
| HelpfulAssistant.

(** [userContent]: the question followed by the evidence block, or by the
    note that no web sources were available. *)
Inductive UserContent :=
| WithEvidence (question : jsstring) (sources : list EvidenceSource)
| WithoutSources (question : jsstring).

Inductive UserMessage :=
| FactsPrompt (language : Language) (question : jsstring) (content : UserContent)
| ComposeFromFactsPrompt (question : jsstring) (facts : list GroundedFact)
| Content (content : UserContent)
(** [userContent] followed by the directive "CRITICAL: You have N sources.
    ... Each paragraph or bullet must include at least one citation [n]
    ... say you couldn't verify it from the sources." *)
| ContentWithCitationDirective (content : UserContent) (n : nat)
| FollowUpsPrompt (language : Language) (question answer : jsstring).

(** Temperatures are in tenths: 0.2 is 2. *)
Record ChatRequest := {
  chat_model : jsstring;
  timeoutMs : Z;
  temperature : Z;
  maxTokens : option Z;
  system : SystemMessage;
  user : UserMessage
}.

(** *** Search providers *)

Record WebSearchResult := { result_title : jsstring; result_url : jsstring; result_snippet : jsstring }.

(** An entry of [results] accepted by [tavilyResponseSchema]. *)
Record TavilyItem := {
  tavily_title : jsstring;
  tavily_url : jsstring;
  tavily_content : jsstring;
  raw_content : option jsstring;
  rawContent : option jsstring;
  published_date : option jsstring;
  publishedDate : option jsstring
}.

Inductive SearchDepth := depth_basic | depth_advanced | depth_fast.

Record TavilyRequest := {
  tavily_query : jsstring;
  max_results : Z;
  topic : WebTopic;
  time_range : option WebTimeRange;
  search_depth : SearchDepth;
  include_raw_content : bool
}.

(** An entry of [web.results] accepted by [braveResponseSchema]. *)
Record BraveItem := { brave_title : jsstring; brave_url : jsstring; description : jsstring }.

(** The texts of [Intl.DateTimeFormat] for the current instant. *)
Record ClockText := { dateStr : jsstring; timeStr : jsstring; tz : jsstring }.

End Ask.
Export Ask.

(** ** Effects

    Every interaction of the pipeline with the outside is an event.  The
    events of the two search adapters stand for the HTTP exchange and the
    validation of the reply by the adapter's schema; [FetchPage] stands for
    [fetchPageText]; [ChatCompletion] for [openRouterChatCompletion]. *)

Module Effects.

Inductive Event : Type -> Type :=
| Now : Event Z
| LocalClock (hindi : bool) : Event ClockText
| ListFreeModels : Event (Thrown + list jsstring)
| TavilySearch (req : TavilyRequest) : Event (Thrown + list TavilyItem)
| BraveSearch (query : jsstring) (count : Z) : Event (Thrown + list BraveItem)
| FetchPage (url : jsstring) : Event (Thrown + jsstring)
| ChatCompletion (req : ChatRequest) : Event (Thrown + jsstring).

(** The events that leave the process. *)
Definition outbound {X} (e : Event X) : bool :=
  match e with
  | Now | LocalClock _ => false
  | _ => true
  end.

Inductive Prog (A : Type) : Type :=
| Ret (a : A)
| Throw (e : Thrown)
| Vis {X : Type} (e : Event X) (k : X -> Prog A).

Arguments Ret {A} a.
Arguments Throw {A} e.
Arguments Vis {A X} e k.

Fixpoint bind {A B} (p : Prog A) (f : A -> Prog B) : Prog B :=
  match p with
  | Ret a => f a
  | Throw e => Throw e
  | Vis e k => Vis e (fun x => bind (k x) f)
  end.

Definition trigger {X} (e : Event X) : Prog X := Vis e Ret.

(** [try { p } catch (e) { h e }] *)
Fixpoint catch {A} (p : Prog A) (h : Thrown -> Prog A) : Prog A :=
  match p with
  | Ret a => Ret a
  | Throw e => h e
  | Vis e k => Vis e (fun x => catch (k x) h)
  end.

(** [await] of a call that may reject. *)
Definition await {A} (r : Thrown + A) : Prog A :=
  match r with
  | inl e => Throw e
  | inr a => Ret a
  end.

#[export] Instance prog_ret : MRet Prog := @Ret.
#[export] Instance prog_bind : MBind Prog := fun A B f p => bind p f.

Fixpoint mapM {A B} (f : A -> Prog B) (l : list A) : Prog (list B) :=
  match l with
  | [] => Ret []
  | a :: l' => b ← f a; bs ← mapM f l'; Ret (b :: bs)
  end.

(** *** Running a program

    A [World] answers the [n]-th event of a run; [run] returns the log of
    the events with their answers and what the program threw or returned. *)

Record World := { respond : forall X, nat -> Event X -> X }.

Inductive LogEntry :=
| Entry {X : Type} (e : Event X) (answer : X).

Fixpoint run {A} (p : Prog A) (w : World) (n : nat) : list LogEntry * (Thrown + A) :=
  match p with
  | Ret a => ([], inr a)
  | Throw e => ([], inl e)
  | Vis e k =>
      let x := respond w _ n e in
      let '(log, r) := run (k x) w (S n) in
      (Entry e x :: log, r)
  end.

Definition is_outbound (l : LogEntry) : bool :=
  match l with Entry e _ => outbound e end.

Definition outbound_calls (log : list LogEntry) : list LogEntry :=
  List.filter is_outbound log.

(** [post p Q]: every value that [p] can return satisfies [Q], whatever
    the world answers. *)
Fixpoint post {A} (p : Prog A) (Q : A -> Prop) : Prop :=
  match p with
  | Ret a => Q a
  | Throw _ => True
  | Vis e k => forall x, post (k x) Q
  end.

(** [nothrow p]: [p] returns, whatever the world answers. *)
Fixpoint nothrow {A} (p : Prog A) : Prop :=
  match p with
  | Ret _ => True
  | Throw _ => False
  | Vis e k => forall x, nothrow (k x)
  end.

(** [silent p]: [p] triggers no outbound event. *)
Fixpoint silent {A} (p : Prog A) : Prop :=
  match p with
  | Ret _ | Throw _ => True
  | Vis e k => outbound e = false /\ forall x, silent (k x)
  end.

End Effects.
Export Effects.

(** ** Text helpers of services/ask/askPipeline.ts *)

Module Text.
Import Regex.

Definition normalizeForMatching (input : jsstring) : jsstring :=
  trim (replace_all (plus space) " "%js input).

Definition truncate (input : jsstring) (maxChars : nat) : jsstring :=
  if (length input <=? maxChars)%nat then input
  else slice input 0 maxChars ++ "..."%js.

Definition stop_words : list jsstring :=
  [ "the"; "and"; "for"; "with"; "that"; "this"; "what"; "when"; "where"; "who";
    "why"; "how"; "latest"; "current"; "today"; "news"; "update"; "updates";
    "explain"; "define"; "tell" ]%js.

Definition member (t : jsstring) (l : list jsstring) : bool :=
  existsb (JsString.eqb t) l.

Definition tokenizeForMatch (text : jsstring) : list jsstring :=
  let lowered := toLowerCase text in
  let spaced :=
    replace_all (Chr (fun c => negb (is_lower c || is_digit c || is_space c))) " "%js lowered in
  let parts := map trim (split (plus space) spaced) in
  List.filter (fun t => negb (member t stop_words))
    (List.filter (fun t => (3 <=? length t)%nat) parts).

(** *** Intent detection *)

(** [\b(a|b|...)\b] under the [i] flag *)
Definition words (l : list re) : re := seqs [WordB; alts l; WordB].

Definition detectRecencyIntent (question : jsstring) : RecencyIntent :=
  let q := toLowerCase question in
  let veryFresh :=
    test (words [liti "today"%js; phrase ["right"; "now"]%js; phrase ["as"; "of"; "now"]%js;
                 liti "breaking"%js]) q
    || test (words [liti "aaj"%js; liti "abhi"%js; liti "breaking"%js; liti "taaza"%js;
                    liti "taza"%js]) q in
  let fresh :=
    veryFresh
    || test (words [liti "latest"%js; liti "current"%js; liti "recent"%js; liti "news"%js;
                    liti "update"%js; liti "updates"%js; phrase ["this"; "week"]%js;
                    phrase ["this"; "month"]%js; liti "trending"%js]) q
    || test (words [liti "haal"%js; phrase ["haal"; "hi"]%js; liti "latest"%js;
                    liti "current"%js; liti "news"%js; liti "update"%js; liti "updates"%js;
                    phrase ["is"; "hafte"]%js; phrase ["iss"; "week"]%js]) q in
  let finance :=
    test (words [liti "stock"%js; liti "stocks"%js; liti "share"%js; liti "shares"%js;
                 liti "market"%js; liti "price"%js; liti "forecast"%js; liti "nifty"%js;
                 liti "sensex"%js; liti "nasdaq"%js; liti "dow"%js; liti "s&p"%js;
                 liti "crypto"%js; liti "bitcoin"%js; liti "ethereum"%js; liti "forex"%js;
                 liti "usd"%js; liti "inr"%js; liti "rupee"%js; liti "inflation"%js;
                 seqs [liti "interest"%js; star space; liti "rate"%js]]) q in
  {| wantsFresh := fresh; wantsVeryFresh := veryFresh; isFinance := finance |}.

Definition safety_patterns : list (re * SafetyReason) :=
  [ (alts [liti "suicide"%js; phrase ["kill"; "myself"]%js;
           seqs [liti "self"%js; star space; liti "harm"%js];
           phrase ["cut"; "myself"]%js; phrase ["want"; "to"; "die"]%js], self_harm);
    (alts [phrase ["how"; "to"; "make"; "a"; "bomb"]%js; phrase ["make"; "an"; "explosive"]%js;
           phrase ["pressure"; "cooker"; "bomb"]%js], violence);
    (alts [phrase ["build"; "a"; "gun"]%js; phrase ["make"; "a"; "gun"]%js;
           phrase ["ghost"; "gun"]%js;
           seqs [liti "3d"%js; star space; liti "print"%js; plus space; liti "a"%js;
                 plus space; liti "gun"%js]], weapons);
    (alts [phrase ["how"; "to"; "make"; "meth"]%js; phrase ["cook"; "meth"]%js;
           phrase ["make"; "cocaine"]%js; phrase ["synthesize"; "fentanyl"]%js], drugs);
    (alts [liti "ddos"%js; phrase ["sql"; "injection"]%js; Seq (liti "xss"%js) WordB;
           phrase ["hack"; "into"]%js; phrase ["steal"; "password"]%js; liti "phishing"%js;
           liti "malware"%js; liti "ransomware"%js], hacking);
    (alts [phrase ["child"; "porn"]%js; phrase ["minor"; "sex"]%js;
           phrase ["underage"; "sex"]%js], sexual_content) ].

(** [detectSafetyBlock]: the first pattern that matches decides. *)
Definition detectSafetyBlock (question : jsstring) : option SafetyReason :=
  let q := toLowerCase question in
  option_map snd (List.find (fun p => test (fst p) q) safety_patterns).

Definition classifyLocalClockIntent (question : jsstring) : option ClockIntent :=
  let q := toLowerCase (trim question) in
  let asksDate :=
    test (words [seqs [liti "today"%js; opt (chr "'"); liti "s"%js; plus space; liti "date"%js];
                 phrase ["today"; "date"]%js; phrase ["date"; "today"]%js;
                 seqs [liti "what"%js; plus space; liti "is"%js; plus space;
                       opt (Seq (liti "the"%js) (plus space)); liti "date"%js; WordB];
                 phrase ["current"; "date"]%js]) q
    || test (words [phrase ["aaj"; "ki"; "date"]%js; phrase ["aaj"; "ki"; "tarikh"]%js;
                    phrase ["aaj"; "tarikh"]%js]) q in
  let asksTime :=
    test (words [phrase ["what"; "time"; "is"; "it"]%js; phrase ["time"; "now"]%js;
                 phrase ["current"; "time"]%js; phrase ["time"; "right"; "now"]%js]) q
    || test (words [phrase ["abhi"; "time"]%js; phrase ["abhi"; "ka"; "time"]%js;
                    phrase ["abhi"; "kitna"; "baja"]%js]) q in
  if asksDate && asksTime then Some asks_datetime
  else if asksDate then Some asks_date
  else if asksTime then Some asks_time
  else None.

(** The Devanagari test [/[ऀ-ॿ]/] is constantly false on the
    modelled code units. *)
Definition has_devanagari (s : jsstring) : bool := false.

Definition looksHindiQuestion (input : AskRequest) : bool :=
  match language input with
  | Some lang_hi => true
  | Some lang_en => false
  | _ =>
      has_devanagari (question input)
      || test (words [liti "aaj"%js; liti "abhi"%js; liti "kya"%js; liti "kaise"%js;
                      liti "kyu"%js; liti "kyon"%js; liti "kab"%js; liti "kaha"%js])
           (question input)
  end.

(** [looksHindi] of [buildLocalClockAnswer]: an absent language is not
    ["auto"]. *)
Definition clockLooksHindi (input : AskRequest) : bool :=
  match language input with
  | Some lang_hi => true
  | Some lang_auto =>
      has_devanagari (question input)
      || test (words [liti "aaj"%js; liti "abhi"%js; liti "tarikh"%js]) (question input)
  | _ => false
  end.

Definition localClockAnswer (looksHindi : bool) (intent : ClockIntent) (c : ClockText)
  : jsstring :=
  if looksHindi then
    match intent with
    | asks_date => "Aaj ki tareekh "%js ++ dateStr c ++ " hai ("%js ++ tz c ++ " ke hisaab se)."%js
    | asks_time => "Abhi ka samay "%js ++ timeStr c ++ " hai ("%js ++ tz c ++ " ke hisaab se)."%js
    | asks_datetime =>
        "Abhi "%js ++ timeStr c ++ " ho rahe hain aur tareekh "%js ++ dateStr c
        ++ " hai ("%js ++ tz c ++ " ke hisaab se)."%js
    end
  else
    match intent with
    | asks_date => "Today's date is "%js ++ dateStr c ++ " (local time: "%js ++ tz c ++ ")."%js
    | asks_time => "The current time is "%js ++ timeStr c ++ " (local time: "%js ++ tz c ++ ")."%js
    | asks_datetime =>
        "Right now it's "%js ++ timeStr c ++ " on "%js ++ dateStr c
        ++ " (local time: "%js ++ tz c ++ ")."%js
    end.

Definition extractTopicFromQuestion (question : jsstring) : jsstring :=
  let cleaned :=
    trim (replace_all (plus space) " "%js
           (replace_all (plus (Chr (one_of_chars "?!."%js))) []
              (replace_all (plus (Chr (one_of_chars [ "013"%char; "010"%char ]))) " "%js question))) in
  let withoutLead :=
    replace (seqs [Bol; star space;
                   alts [liti "what"%js; liti "who"%js; liti "where"%js; liti "when"%js;
                         liti "why"%js; liti "how"%js; liti "explain"%js; liti "tell me"%js;
                         liti "define"%js; liti "latest"%js; liti "current"%js];
                   WordB; star space]) [] cleaned in
  if truthy (trim withoutLead) then trim withoutLead else cleaned.

(** *** Citation checks on an answer *)

Definition fence : re := lit "```"%js.

Definition stripCodeFences (input : jsstring) : jsstring :=
  replace_all (seqs [fence; lazy any; fence]) " "%js input.

Definition citation_marker : re := seqs [chr "["; plus digit; chr "]"].

Definition hasAnyCitation (text : jsstring) : bool := test citation_marker text.

Definition newline : re := chr "010".

(** [/^(-|\*|\d+[.)])\s+/] *)
Definition bullet : re :=
  seqs [Bol; alts [chr "-"; chr "*"; Seq (plus digit) (Chr (one_of_chars ".)"%js))]; plus space].

Definition bullet_defect (l : jsstring) : bool :=
  let meaningful := trim (replace bullet [] l) in
  if (length meaningful <? 20)%nat then false else negb (hasAnyCitation l).

Definition block_defect (block : jsstring) : bool :=
  let lines :=
    List.filter truthy (map trim (split (Seq (opt (chr "013")) newline) block)) in
  let bulletLines := List.filter (test bullet) lines in
  match bulletLines with
  | _ :: _ => existsb bullet_defect bulletLines
  | [] =>
      let plain := trim (replace (seqs [Bol; plus (chr "#"); plus space]) [] block) in
      if (length plain <? 40)%nat then false else negb (hasAnyCitation block)
  end.

Definition hasMissingCitations (answer : jsstring) : bool :=
  let withoutCode := stripCodeFences answer in
  let blocks :=
    List.filter truthy (map trim (split (seqs [newline; star space; newline]) withoutCode)) in
  existsb block_defect blocks.

End Text.

(** ** Citation numbers (services/ask/askPipeline.ts) *)

Module Citations.
Import JsNumber.

(** The matches of [/\[(\d+)\]/g] in [s], as their digit strings, found by
    one pass over the text.  The state is [None] outside a candidate and
    [Some acc] after an opening bracket followed by the digits [rev acc].
    A candidate that breaks off is abandoned; none of its characters but an
    opening bracket can start another match. *)
Fixpoint scan_markers (state : option jsstring) (s : jsstring) : list jsstring :=
  match s with
  | [] => []
  | c :: r =>
      if chr_eqb c "[" then scan_markers (Some []) r
      else
        match state with
        | None => scan_markers None r
        | Some acc =>
            if is_digit c then scan_markers (Some (c :: acc)) r
            else if chr_eqb c "]" && truthy acc then rev acc :: scan_markers None r
            else scan_markers None r
        end
  end.

Definition markers (s : jsstring) : list jsstring := scan_markers None s.

(** [Array.from(new Set(l))]: the first occurrence of each value, in order. *)
Fixpoint dedupe (seen l : list Z) : list Z :=
  match l with
  | [] => []
  | n :: r =>
      if existsb (Z.eqb n) seen then dedupe seen r
      else n :: dedupe (n :: seen) r
  end.

Fixpoint insert_number (n : Z) (l : list Z) : list Z :=
  match l with
  | [] => [n]
  | k :: l' => if n <=? k then n :: l else k :: insert_number n l'
  end.

(** [l.sort((a, b) => a - b)] *)
Definition sort_numbers (l : list Z) : list Z := fold_right insert_number [] l.

Definition finite_values (l : list num) : list Z :=
  flat_map (fun n => match n with Finite z => [z] | _ => [] end) l.

Definition extractCitationNumbers (answer : jsstring) : list Z :=
  let numbers := finite_values (map parseInt10 (markers answer)) in
  sort_numbers (dedupe [] numbers).

Definition sanitizeCitationNumbers (nums : list Z) (max : nat) : list Z :=
  let filtered := List.filter (fun n => (1 <=? n) && (n <=? Z.of_nat max)) nums in
  sort_numbers (dedupe [] filtered).

(** The citation mapping at the end of [askPipeline]. *)
Definition cite (s : EvidenceSource) : Citation :=
  {| cite_url := url s; cite_title := title s |}.

Definition citationsOf (sources : list EvidenceSource) (answer : jsstring) : list Citation :=
  let usedSourceNumbers :=
    sanitizeCitationNumbers (extractCitationNumbers answer) (length sources) in
  map cite
    (flat_map (fun n => match nth_error sources (Z.to_nat (n - 1)) with
                        | Some s => [s]
                        | None => []
                        end) usedSourceNumbers).

(** The defects that trigger the strict re-call. *)
Definition citation_defect (sources : list EvidenceSource) (answer : jsstring) : bool :=
  let extracted := extractCitationNumbers answer in
  let sanitized := sanitizeCitationNumbers extracted (length sources) in
  let hasInvalid := negb (length extracted =? length sanitized)%nat in
  let hasNone := (length sanitized =? 0)%nat in
  let hasMissing := Text.hasMissingCitations answer in
  hasNone || hasInvalid || hasMissing.

(** [n] appears as a marker [[n]] in the answer: an opening bracket, a
    non-empty run of decimal digits whose value is [n], a closing bracket. *)
Definition appears (answer : jsstring) (n : Z) : Prop :=
  exists pre ds post,
    answer = pre ++ "["%char :: ds ++ "]"%char :: post
    /\ ds <> [] /\ forallb is_digit ds = true /\ digits_value 0 ds = n.

(** The numbers behind the citations of an answer. *)
Definition used (sources : list EvidenceSource) (answer : jsstring) : list Z :=
  sanitizeCitationNumbers (extractCitationNumbers answer) (length sources).

End Citations.

(** ** Evidence: excerpts, scoring, dedupe and selection *)

Module Evidence.
Import Regex Text Canon JsNumber.

Section WithPlatform.
Context {P : Platform}.

(** *** [buildRelevantExcerpt] *)

Record Window := { w_start : nat; w_end : nat; w_score : nat }.

Definition window_score (qTokens : list jsstring) (chunk : jsstring) : nat :=
  length (List.filter (includes chunk) qTokens).

(** The loop over the window starts 0, 320, 640, ... *)
Fixpoint windows (fuel : nat) (qTokens : list jsstring) (lower : jsstring) (start : nat)
  : list Window :=
  match fuel with
  | O => []
  | S f =>
      if (start <? length lower)%nat then
        let stop := Nat.min (length lower) (start + 520) in
        let sc := window_score qTokens (slice lower start stop) in
        let here := if (0 <? sc)%nat then [{| w_start := start; w_end := stop; w_score := sc |}]
                    else [] in
        if (length lower <=? stop)%nat then here
        else here ++ windows f qTokens lower (start + 320)
      else []
  end.

Fixpoint insert_by {A} (before : A -> A -> bool) (x : A) (l : list A) : list A :=
  match l with
  | [] => [x]
  | y :: l' => if before x y then x :: l else y :: insert_by before x l'
  end.

(** A stable sort: [before x y] holds when the comparator of [sort] does
    not place [y] before [x]. *)
Definition sort_by {A} (before : A -> A -> bool) (l : list A) : list A :=
  fold_right (insert_by before) [] l.

Definition distance (a b : nat) : nat := (a - b) + (b - a).

Fixpoint pick_windows (maxChunks : nat) (picked scored : list Window) : list Window :=
  match scored with
  | [] => picked
  | c :: rest =>
      if (maxChunks <=? length picked)%nat then picked
      else if existsb (fun p => (distance (w_start p) (w_start c) <? 220)%nat) picked
      then pick_windows maxChunks picked rest
      else pick_windows maxChunks (picked ++ [c]) rest
  end.

Definition buildRelevantExcerpt (text question : jsstring) (maxTotalChars maxChunks : nat)
  : jsstring :=
  let text := normalizeForMatching text in
  if negb (truthy text) then []
  else
    let qTokens := tokenizeForMatch question in
    match qTokens with
    | [] => truncate text maxTotalChars
    | _ =>
        let scored := windows (S (length text)) qTokens (toLowerCase text) 0 in
        match scored with
        | [] => truncate text maxTotalChars
        | _ =>
            let ranked :=
              sort_by (fun a b =>
                         if (w_score a =? w_score b)%nat then (w_start a <=? w_start b)%nat
                         else (w_score b <? w_score a)%nat) scored in
            let picked := pick_windows maxChunks [] ranked in
            let parts :=
              List.filter truthy
                (map (fun p => trim (slice text (w_start p) (w_end p)))
                   (sort_by (fun a b => (w_start a <=? w_start b)%nat) picked)) in
            truncate (join [ "010"%char; "010"%char ] parts) maxTotalChars
        end
    end.

(** *** [scoreSource] *)

Definition ends (dot : bool) (name : jsstring) : re :=
  seqs ((if dot then [chr "."] else []) ++ [liti name; Alt (chr ".") Eol]).

Definition domain_score (host : jsstring) : Z :=
  (if test (ends true "gov"%js) host then 6
   else if test (ends true "edu"%js) host then 5
   else if test (ends true "org"%js) host then 2
   else 0)
  + (if test (seqs [liti "wikipedia.org"%js; Eol]) host then 3 else 0)
  + (if test (seqs [liti "github.com"%js; Eol]) host then 2 else 0)
  + (if test (alts [seqs [liti "medium.com"%js; Eol]; liti "blogspot."%js;
                    liti "wordpress."%js; seqs [liti "substack.com"%js; Eol];
                    liti "tumblr."%js; seqs [liti "reddit.com"%js; Eol];
                    seqs [liti "quora.com"%js; Eol]]) host
     then -2 else 0).

Definition overlap_score (question title snippet : jsstring) : Z :=
  let qTokens := fold_right (fun t acc => if member t acc then acc else t :: acc) []
                   (tokenizeForMatch question) in
  let hay := toLowerCase (title ++ " "%js ++ snippet) in
  Z.min 6 (Z.of_nat (length (List.filter (includes hay) qTokens))).

(** The capture of [/\bpublished:\s*(\d{4}-\d{2}-\d{2})\b/i]. *)
Definition published (snippet : jsstring) : option jsstring :=
  match find (seqs [WordB; liti "published:"%js; star space;
                    group (seqs [rep 4 digit; chr "-"; rep 2 digit; chr "-"; rep 2 digit]);
                    WordB]) None snippet with
  | Some (_, _, c) => Some (captured snippet c)
  | None => None
  end.

Definition age_score (now ts : Z) : Z :=
  let ageDays := Z.max 0 ((now - ts) / 86400000) in
  if ageDays <=? 2 then 4
  else if ageDays <=? 7 then 3
  else if ageDays <=? 30 then 2
  else 1.

(** The host that [scoreSource] inspects; [None] when the unguarded
    [new URL(norm.cleanedUrl)] throws. *)
Definition score_host (u : jsstring) : option jsstring :=
  match normalizeUrlForDedupe u with
  | None => Some []
  | Some norm =>
      match new_URL (cleanedUrl norm) with
      | Some parsed => Some (hostname parsed)
      | None => None
      end
  end.

Definition scoreSource (u ttl snip q : jsstring) (fresh : bool) : Prog Z :=
  match score_host u with
  | None => Throw TypeError
  | Some host =>
      let base := domain_score host + overlap_score q ttl snip in
      if fresh then
        match published snip with
        | None => Ret base
        | Some date =>
            match date_parse date with
            | Some ts => now ← trigger Now; Ret (base + age_score now ts)
            | None => Ret (base + 2)
            end
        end
      else Ret base
  end.

(** *** [byNormUrl]: a [Map] from canonical key to candidate, in insertion
    order *)

Definition map_get (k : jsstring) (m : list SourceCandidate) : option SourceCandidate :=
  List.find (fun c => JsString.eqb (normUrl c) k) m.

Fixpoint map_set (c : SourceCandidate) (m : list SourceCandidate) : list SourceCandidate :=
  match m with
  | [] => [c]
  | c' :: m' =>
      if JsString.eqb (normUrl c') (normUrl c) then c :: m'
      else c' :: map_set c m'
  end.

Definition upsertCandidate (q : jsstring) (fresh : bool)
    (byNormUrl : list SourceCandidate) (src : EvidenceSource) : Prog (list SourceCandidate) :=
  let norm := normalizeUrlForDedupe (url src) in
  let normKey := match norm with Some n => key n | None => url src end in
  let cleaned := match norm with Some n => cleanedUrl n | None => url src end in
  let s := {| title := title src; url := cleaned; snippet := snippet src;
              extractedText := extractedText src |} in
  sc ← scoreSource cleaned (title s) (snippet s) q fresh;
  match map_get normKey byNormUrl with
  | Some existing =>
      if score existing <? sc
      then Ret (map_set {| source := s; score := sc; normUrl := normKey |} byNormUrl)
      else Ret byNormUrl
  | None => Ret (map_set {| source := s; score := sc; normUrl := normKey |} byNormUrl)
  end.

(** The [for] loops over the results of one provider sit in a [try] whose
    [catch] only logs: an upsert that throws ends the loop, and the entries
    written before it stay in the map. *)
Fixpoint upsert_loop (q : jsstring) (fresh : bool)
    (srcs : list EvidenceSource) (byNormUrl : list SourceCandidate)
  : Prog (list SourceCandidate) :=
  match srcs with
  | [] => Ret byNormUrl
  | src :: rest =>
      o ← catch (m ← upsertCandidate q fresh byNormUrl src; Ret (Some m))
                (fun _ => Ret None);
      match o with
      | Some m => upsert_loop q fresh rest m
      | None => Ret byNormUrl
      end
  end.

(** *** The adapters' view of a reply *)

Definition nullish_or (a b : option jsstring) : option jsstring :=
  match a with Some _ => a | None => b end.

Definition tavily_raw (r : TavilyItem) : option jsstring :=
  nullish_or (raw_content r) (rawContent r).

(** The [results] of [tavilyWebSearch]. *)
Definition tavily_results (items : list TavilyItem) (maxResults : nat) : list WebSearchResult :=
  firstn maxResults
    (List.filter (fun r => truthy (result_url r))
       (map (fun r =>
               let published := nullish_or (published_date r) (publishedDate r) in
               {| result_title := tavily_title r;
                  result_url := tavily_url r;
                  result_snippet :=
                    match published with
                    | Some p => if truthy p
                                then tavily_content r ++ [ "010"%char ] ++ "Published: "%js ++ p
                                else tavily_content r
                    | None => tavily_content r
                    end |}) items)).

(** [rawByUrl.get(u)]: the last truthy raw content recorded for [u]. *)
Definition rawByUrl_get (items : list TavilyItem) (u : jsstring) : option jsstring :=
  match List.find (fun r => JsString.eqb (tavily_url r) u
                            && match tavily_raw r with Some raw => truthy raw | None => false end)
          (rev items) with
  | Some r => tavily_raw r
  | None => None
  end.

Definition tavily_sources (q : jsstring) (items : list TavilyItem) (maxResults : nat)
  : list EvidenceSource :=
  map (fun r =>
         {| title := result_title r; url := result_url r; snippet := result_snippet r;
            extractedText :=
              match rawByUrl_get items (result_url r) with
              | Some raw =>
                  if truthy (trim raw) then Some (buildRelevantExcerpt raw q 1200 3) else None
              | None => None
              end |})
    (List.filter (fun r => truthy (result_url r)) (tavily_results items maxResults)).

Definition brave_sources (items : list BraveItem) (count : nat) : list EvidenceSource :=
  map (fun r => {| title := result_title r; url := result_url r; snippet := result_snippet r;
                   extractedText := None |})
    (List.filter (fun r => truthy (result_url r))
       (firstn count
          (List.filter (fun r => truthy (result_url r))
             (map (fun r => {| result_title := brave_title r; result_url := brave_url r;
                               result_snippet := description r |}) items)))).

(** *** Rank, host cap, backfill *)

Definition rank (m : list SourceCandidate) : list SourceCandidate :=
  sort_by (fun a b => score b <=? score a) m.

Definition host_count (host : jsstring) (hostCounts : list (jsstring * nat)) : nat :=
  match List.find (fun e => JsString.eqb (fst e) host) hostCounts with
  | Some e => snd e
  | None => 0
  end.

(** The first loop: at most [preferredMaxPerHost] candidates of a host. *)
Fixpoint pick_capped (maxSources preferredMaxPerHost : nat)
    (hostCounts : list (jsstring * nat)) (picked ranked : list SourceCandidate)
  : list SourceCandidate :=
  match ranked with
  | [] => picked
  | c :: rest =>
      if (maxSources <=? length picked)%nat then picked
      else
        let h := getHostnameSafe (url (source c)) in
        let host := if truthy h then h else url (source c) in
        let count := host_count host hostCounts in
        if (preferredMaxPerHost <=? count)%nat
        then pick_capped maxSources preferredMaxPerHost hostCounts picked rest
        else pick_capped maxSources preferredMaxPerHost
               ((host, S count) :: hostCounts) (picked ++ [c]) rest
  end.

(** The second loop: fill up with candidates whose [url] is not picked yet. *)
Fixpoint backfill (maxSources : nat) (picked ranked : list SourceCandidate)
  : list SourceCandidate :=
  match ranked with
  | [] => picked
  | c :: rest =>
      if (maxSources <=? length picked)%nat then picked
      else if existsb (fun p => JsString.eqb (url (source p)) (url (source c))) picked
      then backfill maxSources picked rest
      else backfill maxSources (picked ++ [c]) rest
  end.

(** The candidates behind [sources]; the pipeline keeps their [source]
    parts (the object rest [...rest] drops [score] and [normUrl]). *)
Definition pick (fresh : bool) (byNormUrl : list SourceCandidate) : list SourceCandidate :=
  let ranked := rank byNormUrl in
  let maxSources := if fresh then 8%nat else 6%nat in
  let preferredMaxPerHost := if fresh then 1%nat else 2%nat in
  let picked := pick_capped maxSources preferredMaxPerHost [] [] ranked in
  if (length picked <? maxSources)%nat then backfill maxSources picked ranked else picked.

Definition select_sources (fresh : bool) (byNormUrl : list SourceCandidate)
  : list EvidenceSource :=
  map source (pick fresh byNormUrl).

(** A candidate is stored under the canonical key of the result URL it
    came from, or under the URL itself when that one does not parse. *)
Definition keyed (c : SourceCandidate) : Prop :=
  exists raw,
    match normalizeUrlForDedupe raw with
    | Some n => normUrl c = key n /\ url (source c) = cleanedUrl n
    | None => normUrl c = raw /\ url (source c) = raw
    end.

Definition distinct_keys (m : list SourceCandidate) : Prop :=
  NoDup (map normUrl m).

(** The invariant of [byNormUrl]. *)
Definition well_formed (m : list SourceCandidate) : Prop :=
  distinct_keys m /\ Forall keyed m.

(** What one upsert does to the map, given the score that [scoreSource]
    returned. *)
Definition upserted (raw_source : EvidenceSource) (sc : Z) (m : list SourceCandidate)
  : list SourceCandidate :=
  let norm := normalizeUrlForDedupe (url raw_source) in
  let normKey := match norm with Some n => key n | None => url raw_source end in
  let cleaned := match norm with Some n => cleanedUrl n | None => url raw_source end in
  let c := {| source := {| title := title raw_source; url := cleaned;
                           snippet := snippet raw_source;
                           extractedText := extractedText raw_source |};
              score := sc; normUrl := normKey |} in
  match map_get normKey m with
  | Some existing => if score existing <? sc then map_set c m else m
  | None => map_set c m
  end.

Definition same_but_text (s : EvidenceSource) (c : SourceCandidate) : Prop :=
  title s = title (source c) /\ url s = url (source c) /\ snippet s = snippet (source c).

(** The source list stems from candidates of a well-formed map. *)
Definition from_candidates (sources : list EvidenceSource) : Prop :=
  exists cands,
    Forall2 same_but_text sources cands
    /\ distinct_keys cands /\ Forall keyed cands
    /\ (length sources <= 8)%nat.

(** The key under which a search result is upserted. *)
Definition normKey (src : EvidenceSource) : jsstring :=
  match normalizeUrlForDedupe (url src) with
  | Some n => key n
  | None => url src
  end.

(** What is stored for a result, given its score. *)
Definition stored (src : EvidenceSource) (sc : Z) : SourceCandidate :=
  {| source := {| title := title src;
                  url := match normalizeUrlForDedupe (url src) with
                         | Some n => cleanedUrl n
                         | None => url src
                         end;
                  snippet := snippet src;
                  extractedText := extractedText src |};
     score := sc; normUrl := normKey src |}.

End WithPlatform.
End Evidence.

(** ** Replies of the model: grounded facts and follow-ups *)

Module Replies.
Import Regex Text Citations JsNumber.

Section WithPlatform.
Context {P : Platform}.

Definition lastIndexOf (s p : jsstring) : option nat :=
  match indexOf (rev s) (rev p) with
  | Some i => Some (length s - length p - i)%nat
  | None => None
  end.

Definition bracketed (s : jsstring) : bool :=
  startsWith s "["%js && endsWith s "]"%js.

Definition extractJsonArrayString (text : jsstring) : option jsstring :=
  let trimmed := trim text in
  if bracketed trimmed then Some trimmed
  else
    let fenced :=
      match find (seqs [fence; opt (liti "json"%js); star space; group (lazy any);
                        star space; fence]) None trimmed with
      | Some (_, _, c) =>
          let inside := trim (captured trimmed c) in
          if truthy (captured trimmed c) && bracketed inside then Some inside else None
      | None => None
      end in
    match fenced with
    | Some inside => Some inside
    | None =>
        match indexOf trimmed "["%js, lastIndexOf trimmed "]"%js with
        | Some first, Some last =>
            if (first <? last)%nat then
              let candidate := trim (slice trimmed first (last + 1)) in
              if bracketed candidate then Some candidate else None
            else None
        | _, _ => None
        end
    end.

(** *** Schemas *)

Fixpoint all_some {A} (l : list (option A)) : option (list A) :=
  match l with
  | [] => Some []
  | Some a :: r => option_map (cons a) (all_some r)
  | None :: _ => None
  end.

Definition between (lo hi n : nat) : bool := (lo <=? n)%nat && (n <=? hi)%nat.

(** [z.string().trim().min(lo).max(hi)] *)
Definition trimmed_string (lo hi : nat) (j : Json) : option jsstring :=
  match j with
  | JString s => let t := trim s in if between lo hi (length t) then Some t else None
  | _ => None
  end.

(** [followUpsSchema.safeParse] *)
Definition followUpsSchema (j : Json) : option (list jsstring) :=
  match j with
  | JArray l =>
      if between 1 3 (length l) then all_some (map (trimmed_string 1 140) l) else None
  | _ => None
  end.

(** [citationNumberSchema]: a number, or a string read by [parseInt]; then
    an integer that is at least 1. *)
Definition citationNumberSchema (j : Json) : option Z :=
  let n :=
    match j with
    | JNumber n => n
    | JString v => match parseInt10 v with Finite z => Some z | _ => None end
    | _ => None
    end in
  match n with
  | Some z => if 1 <=? z then Some z else None
  | None => None
  end.

(** The value of a key of a parsed object: the last member wins. *)
Definition field (name : jsstring) (fields : list (jsstring * Json)) : option Json :=
  option_map snd (List.find (fun f => JsString.eqb (fst f) name) (rev fields)).

Definition groundedFactSchema (j : Json) : option GroundedFact :=
  match j with
  | JObject fields =>
      match field "fact"%js fields, field "citations"%js fields with
      | Some f, Some (JArray cs) =>
          match trimmed_string 1 500 f, all_some (map citationNumberSchema cs) with
          | Some text, Some nums =>
              if between 1 3 (length cs)
              then Some {| fact := text; fact_citations := nums |}
              else None
          | _, _ => None
          end
      | _, _ => None
      end
  | _ => None
  end.

Definition groundedFactsSchema (j : Json) : option (list GroundedFact) :=
  match j with
  | JArray l =>
      if between 1 15 (length l) then all_some (map groundedFactSchema l) else None
  | _ => None
  end.

(** [parseGroundedFacts]; [None] is [undefined]. *)
Definition parseGroundedFacts (raw : jsstring) (maxSource : nat) : option (list GroundedFact) :=
  match extractJsonArrayString raw with
  | None => None
  | Some text =>
      match json_parse text with
      | None => None
      | Some json =>
          match groundedFactsSchema json with
          | None => None
          | Some facts =>
              let cleaned :=
                flat_map (fun f =>
                            match sanitizeCitationNumbers (fact_citations f) maxSource with
                            | [] => []
                            | cites => [{| fact := fact f; fact_citations := cites |}]
                            end) facts in
              match cleaned with
              | [] => None
              | _ => Some cleaned
              end
          end
      end
  end.

(** *** Follow-ups *)

Definition quote : ascii := "034".

(** Case-insensitive dedupe: [seen] holds the lower-cased texts. *)
Fixpoint unique_ci (seen : list jsstring) (l : list jsstring) : list jsstring :=
  match l with
  | [] => []
  | s :: r =>
      let k := toLowerCase s in
      if member k seen then unique_ci seen r else s :: unique_ci (k :: seen) r
  end.

Definition sanitizeFollowUps (items : list jsstring) : list jsstring :=
  let cleaned :=
    firstn 3
      (List.filter truthy
         (map (fun s => trim (replace_all (Alt (Seq Bol (chr quote)) (Seq (chr quote) Eol)) [] s))
            (map (fun s => trim (replace
                                   (seqs [Bol; plus (Chr (fun c => one_of_chars "-*."%js c
                                                                   || is_digit c || is_space c))])
                                   [] s))
               items))) in
  firstn 3 (unique_ci [] cleaned).

Definition parseFollowUpsLoose (raw : jsstring) : option (list jsstring) :=
  let lines :=
    List.filter (fun l => negb (test (Seq Bol fence) l))
      (List.filter truthy (map trim (split (Seq (opt (chr "013")) newline) raw))) in
  match sanitizeFollowUps lines with
  | [] => None
  | cleaned => Some cleaned
  end.

Definition buildHeuristicFollowUps (input : AskRequest) : list jsstring :=
  let topic := slice (extractTopicFromQuestion (question input)) 0 80 in
  let items :=
    if looksHindiQuestion input then
      [ topic ++ " ke baare me key facts kya hain?"%js;
        topic ++ " ke latest updates kya hain?"%js;
        topic ++ " ka short summary 5 points me do."%js ]
    else
      [ "What are the key facts about "%js ++ topic ++ "?"%js;
        "Any recent updates or news about "%js ++ topic ++ "?"%js;
        "Summarize "%js ++ topic ++ " in 5 bullet points."%js ] in
  sanitizeFollowUps items.

(** What [generateFollowUps] makes of the model's reply [raw]. *)
Definition followUps_of_reply (raw : jsstring) : option (list jsstring) :=
  let trimmed := trim raw in
  match extractJsonArrayString trimmed with
  | None => parseFollowUpsLoose trimmed
  | Some text =>
      match json_parse text with
      | None => parseFollowUpsLoose trimmed
      | Some json =>
          match followUpsSchema json with
          | None => parseFollowUpsLoose trimmed
          | Some data =>
              match sanitizeFollowUps data with
              | [] => parseFollowUpsLoose trimmed
              | sanitized => Some sanitized
              end
          end
      end
  end.

Definition safety_message (hindi : bool) : jsstring :=
  if hindi
  then "Main is request me madad nahi kar sakti. Agar aap turant khatre me ho, apne area ki emergency services ya kisi trusted person se turant baat karein."%js
  else "I can't help with that. If you're in immediate danger, contact local emergency services or someone you trust right now."%js.

Definition safety_followUps (hindi : bool) : list jsstring :=
  if hindi
  then [ "Kya aap safe hain abhi?"%js;
         "Aap kis type ki help chahte hain (support/resources)?"%js;
         "Main aapko safe alternatives ke saath guide kar sakti hoon."%js ]
  else [ "Are you safe right now?"%js;
         "What kind of help or resources are you looking for?"%js;
         "I can offer safer alternatives or general guidance."%js ].

Definition reason_name (r : SafetyReason) : jsstring :=
  match r with
  | self_harm => "self_harm"%js
  | violence => "violence"%js
  | weapons => "weapons"%js
  | drugs => "drugs"%js
  | hacking => "hacking"%js
  | sexual_content => "sexual_content"%js
  end.

End WithPlatform.
End Replies.

(** ** [askPipeline] (services/ask/askPipeline.ts) *)

Module Pipeline.
Import Text Citations Evidence Replies.

Section WithPlatform.
Context {P : Platform}.

Definition provider_name : jsstring := "openrouter"%js.

Definition effective_mode (input : AskRequest) : Mode := default mode_verified (mode input).

(** [input.mode === "verified"], on the field as it was sent. *)
Definition sent_verified (input : AskRequest) : bool :=
  match mode input with Some mode_verified => true | _ => false end.

Definition sent_fast (input : AskRequest) : bool :=
  match mode input with Some mode_fast => true | _ => false end.

Definition systemPrompt (input : AskRequest) (strict : bool) (n : option nat) : SystemMessage :=
  Nolia {| prompt_style := default Balanced (style input);
           prompt_mode := effective_mode input;
           prompt_language := default lang_auto (language input);
           strictCitations := strict;
           sourcesCount := n |}.

(** *** The shortcuts *)

Definition clockShortcut (input : AskRequest) (start : Z) (intent : ClockIntent)
  : Prog AskResponse :=
  let hindi := clockLooksHindi input in
  c ← trigger (LocalClock hindi);
  finish ← trigger Now;
  Ret {| provider := provider_name;
         response_model := "local-clock"%js;
         answer := localClockAnswer hindi intent c;
         citations := [];
         followUps := buildHeuristicFollowUps input;
         latencyMs := finish - start |}.

Definition buildSafetyRefusal (input : AskRequest) (reason : SafetyReason) : Prog AskResponse :=
  start ← trigger Now;
  let hindi := looksHindiQuestion input in
  finish ← trigger Now;
  Ret {| provider := provider_name;
         response_model := "policy-"%js ++ reason_name reason;
         answer := safety_message hindi;
         citations := [];
         followUps := safety_followUps hindi;
         latencyMs := finish - start |}.

(** *** Model selection *)

Definition selectModel (env : Env) (input : AskRequest) : Prog jsstring :=
  let configured :=
    match model input with
    | Some m => Some m
    | None => OPENROUTER_DEFAULT_MODEL env
    end in
  chosen ←
    match configured with
    | Some m => if truthy m then Ret (Some m) else
                  (r ← trigger ListFreeModels; freeModels ← await r; Ret (head freeModels))
    | None => r ← trigger ListFreeModels; freeModels ← await r; Ret (head freeModels)
    end;
  match chosen with
  | Some m => if truthy m then Ret m
              else Throw (HttpError 503 "No free OpenRouter models available"%js)
  | None => Throw (HttpError 503 "No free OpenRouter models available"%js)
  end.

(** *** Evidence gathering *)

Definition nonblank (q : jsstring) : bool := truthy q && (0 <? length (trim q))%nat.

Fixpoint dedupe_queries (seen queries candidates : list jsstring) : list jsstring :=
  match candidates with
  | [] => queries
  | q :: rest =>
      let k := toLowerCase q in
      if member k seen then dedupe_queries seen queries rest
      else if (3 <=? length (queries ++ [q]))%nat then queries ++ [q]
      else dedupe_queries (k :: seen) (queries ++ [q]) rest
  end.

Definition buildQueries (input : AskRequest) (recency : RecencyIntent) : list jsstring :=
  let base := trim (question input) in
  let core := slice (extractTopicFromQuestion (question input)) 0 120 in
  let stem := if truthy core then core else base in
  let queryCandidates :=
    [base]
    ++ (if truthy core && negb (JsString.eqb core base) then [core] else [])
    ++ (if wantsFresh recency then [stem ++ " latest"%js] else [])
    ++ (if wantsVeryFresh recency then [stem ++ " today"%js] else [])
    ++ (if isFinance recency then [stem ++ " price"%js] else [])
    ++ (if sent_verified input then [stem ++ " official"%js] else []) in
  dedupe_queries [] [] (List.filter nonblank queryCandidates).

Definition tavilyRequest (input : AskRequest) (recency : RecencyIntent) (q : jsstring)
  : TavilyRequest :=
  let fresh := wantsFresh recency in
  {| tavily_query := q;
     max_results := if fresh then 6 else 4;
     topic := match webTopic input with
              | Some t => t
              | None => if isFinance recency then topic_finance
                        else if fresh then topic_news else topic_general
              end;
     time_range := match webTimeRange input with
                   | Some r => Some r
                   | None => if wantsVeryFresh recency then Some range_day
                             else if fresh then Some range_week else None
                   end;
     search_depth := if sent_verified input
                     then (if fresh then depth_advanced else depth_basic)
                     else depth_fast;
     include_raw_content := sent_verified input |}.

Definition fulfilled {A} (settled : list (Thrown + A)) : list A :=
  flat_map (fun s => match s with inr v => [v] | inl _ => [] end) settled.

Definition tavilyStage (input : AskRequest) (recency : RecencyIntent)
    (queries : list jsstring) (byNormUrl : list SourceCandidate)
  : Prog (list SourceCandidate) :=
  let maxResultsPerQuery := if wantsFresh recency then 6%nat else 4%nat in
  settled ← mapM (fun q => trigger (TavilySearch (tavilyRequest input recency q))) queries;
  upsert_loop (question input) (wantsFresh recency)
    (flat_map (fun items => tavily_sources (question input) items maxResultsPerQuery)
       (fulfilled settled))
    byNormUrl.

Definition braveStage (input : AskRequest) (recency : RecencyIntent)
    (queries : list jsstring) (byNormUrl : list SourceCandidate)
  : Prog (list SourceCandidate) :=
  let maxResultsPerQuery := if wantsFresh recency then 6%nat else 4%nat in
  settled ← mapM (fun q => trigger (BraveSearch q (Z.of_nat maxResultsPerQuery)))
              (firstn 2 queries);
  upsert_loop (question input) (wantsFresh recency)
    (flat_map (fun items => brave_sources items maxResultsPerQuery) (fulfilled settled))
    byNormUrl.

(** The page fetches of the first [maxFetch] sources without extracted
    text; a fetch that fails leaves its source as it is. *)
Fixpoint fetchStage (q : jsstring) (toFetch : list nat) (sources : list EvidenceSource)
  : Prog (list EvidenceSource) :=
  match toFetch with
  | [] => Ret sources
  | idx :: rest =>
      match sources !! idx with
      | None => fetchStage q rest sources
      | Some s =>
          r ← trigger (FetchPage (url s));
          let sources' :=
            match r with
            | inr pageText =>
                <[idx := {| title := title s; url := url s; snippet := snippet s;
                            extractedText := Some (buildRelevantExcerpt pageText q 1200 3) |}]>
                  sources
            | inl _ => sources
            end in
          fetchStage q rest sources'
      end
  end.

Definition has_text (s : EvidenceSource) : bool :=
  match extractedText s with Some t => truthy t | None => false end.

Definition gatherEvidence (env : Env) (input : AskRequest) : Prog (list EvidenceSource) :=
  if default true (useWeb input) then
    let recency := detectRecencyIntent (question input) in
    let fresh := wantsFresh recency in
    let queries := buildQueries input recency in
    m1 ← match TAVILY_API_KEY env with
         | Some _ => tavilyStage input recency queries []
         | None => Ret []
         end;
    m2 ← match BRAVE_SEARCH_API_KEY env with
         | Some _ => braveStage input recency queries m1
         | None => Ret m1
         end;
    let sources := select_sources fresh m2 in
    let maxFetch :=
      (if sent_verified input then (if fresh then 5 else 4) else (if fresh then 4 else 3))%nat in
    let toFetch :=
      List.filter (fun i => match sources !! i with
                            | Some s => negb (has_text s)
                            | None => false
                            end)
        (seq 0 (Nat.min maxFetch (length sources))) in
    fetchStage (question input) toFetch sources
  else Ret [].

(** *** Answer composition *)

Definition userContent (input : AskRequest) (sources : list EvidenceSource) : UserContent :=
  match sources with
  | [] => WithoutSources (question input)
  | _ => WithEvidence (question input) sources
  end.

Definition factsRequest (m : jsstring) (input : AskRequest) (sources : list EvidenceSource)
  : ChatRequest :=
  {| chat_model := m; timeoutMs := 25000; temperature := 1; maxTokens := Some 520;
     system := systemPrompt input true (Some (length sources));
     user := FactsPrompt (default lang_auto (language input)) (question input)
               (userContent input sources) |}.

Definition composeRequest (m : jsstring) (input : AskRequest)
    (facts : list GroundedFact) (n : nat) : ChatRequest :=
  {| chat_model := m; timeoutMs := 30000; temperature := 2; maxTokens := Some 900;
     system := systemPrompt input true (Some n);
     user := ComposeFromFactsPrompt (question input) facts |}.

Definition directRequest (m : jsstring) (input : AskRequest) (sources : list EvidenceSource)
  : ChatRequest :=
  {| chat_model := m; timeoutMs := 30000;
     temperature := if sent_fast input then 7 else 3;
     maxTokens := None;
     system := systemPrompt input false (Some (length sources));
     user := Content (userContent input sources) |}.

(** The strict re-call. *)
Definition strictRequest (m : jsstring) (input : AskRequest) (sources : list EvidenceSource)
  : ChatRequest :=
  {| chat_model := m; timeoutMs := 30000; temperature := 2; maxTokens := None;
     system := systemPrompt input true (Some (length sources));
     user := ContentWithCitationDirective (userContent input sources) (length sources) |}.

Definition followUpsRequest (m : jsstring) (input : AskRequest) (ans : jsstring) : ChatRequest :=
  {| chat_model := m; timeoutMs := 12000; temperature := 5; maxTokens := Some 140;
     system := HelpfulAssistant;
     user := FollowUpsPrompt (default lang_auto (language input)) (question input) ans |}.

Definition chat (req : ChatRequest) : Prog jsstring :=
  r ← trigger (ChatCompletion req); await r.

Definition wantsRetryForCitations (input : AskRequest) (sources : list EvidenceSource) : bool :=
  match effective_mode input, sources with
  | mode_verified, _ :: _ => true
  | _, _ => false
  end.

Definition generateGroundedFacts (m : jsstring) (input : AskRequest)
    (sources : list EvidenceSource) : Prog (option (list GroundedFact)) :=
  raw ← chat (factsRequest m input sources);
  Ret (parseGroundedFacts raw (length sources)).

Definition composeAnswer (m : jsstring) (input : AskRequest) (sources : list EvidenceSource)
  : Prog jsstring :=
  if wantsRetryForCitations input sources then
    facts ← catch (generateGroundedFacts m input sources) (fun _ => Ret None);
    match facts with
    | Some (f :: fs) => chat (composeRequest m input (f :: fs) (length sources))
    | _ => chat (directRequest m input sources)
    end
  else chat (directRequest m input sources).

(** Citation verification and the strict re-call. *)
Definition verifyCitations (m : jsstring) (input : AskRequest)
    (sources : list EvidenceSource) (ans : jsstring) : Prog jsstring :=
  if wantsRetryForCitations input sources && citation_defect sources ans
  then chat (strictRequest m input sources)
  else Ret ans.

Definition generateFollowUps (m : jsstring) (input : AskRequest) (ans : jsstring)
  : Prog (option (list jsstring)) :=
  raw ← chat (followUpsRequest m input ans);
  Ret (followUps_of_reply raw).

(** Citation mapping, follow-ups and the response. *)
Definition finish (m : jsstring) (input : AskRequest) (sources : list EvidenceSource)
    (start : Z) (ans : jsstring) : Prog AskResponse :=
  now ← trigger Now;
  let latency := now - start in
  let cites := citationsOf sources ans in
  generated ← catch (generateFollowUps m input ans) (fun _ => Ret None);
  let finalFollowUps :=
    match generated with
    | Some (f :: fs) => f :: fs
    | _ => buildHeuristicFollowUps input
    end in
  Ret {| provider := provider_name;
         response_model := m;
         answer := ans;
         citations := cites;
         followUps := finalFollowUps;
         latencyMs := latency |}.

(** What follows the first composition. *)
Definition afterCompose (m : jsstring) (input : AskRequest) (sources : list EvidenceSource)
    (start : Z) (first : jsstring) : Prog AskResponse :=
  ans ← verifyCitations m input sources first;
  finish m input sources start ans.

(** What follows evidence gathering. *)
Definition afterGather (m : jsstring) (input : AskRequest) (start : Z)
    (sources : list EvidenceSource) : Prog AskResponse :=
  first ← composeAnswer m input sources;
  afterCompose m input sources start first.

Definition askPipeline (env : Env) (input : AskRequest) : Prog AskResponse :=
  start ← trigger Now;
  match classifyLocalClockIntent (question input) with
  | Some intent => clockShortcut input start intent
  | None =>
      match detectSafetyBlock (question input) with
      | Some reason => buildSafetyRefusal input reason
      | None =>
          match OPENROUTER_API_KEY env with
          | None => Throw (HttpError 503 "OPENROUTER_API_KEY is not configured"%js)
          | Some _ =>
              m ← selectModel env input;
              sources ← gatherEvidence env input;
              afterGather m input start sources
          end
      end
  end.

(** The source list behind a response: the one that evidence gathering
    returned in this run, or no source at all when a shortcut answered. *)
Definition sources_of_run (env : Env) (input : AskRequest) (w : World)
    (sources : list EvidenceSource) : Prop :=
  (sources = []
   /\ (classifyLocalClockIntent (question input) <> None
       \/ detectSafetyBlock (question input) <> None))
  \/ exists k, (run (gatherEvidence env input) w k).2 = inr sources.

End WithPlatform.
End Pipeline.

(** ** server/routes.ts: the response cache and the profile map

    A [Map] is kept in insertion order, the order in which [forEach]
    visits it; deleting the visited entry during [forEach] does not disturb
    the visit of the others. *)

Module Routes.

Record AnonProfile := {
  anonId : jsstring;
  createdAtMs : Z;
  lastSeenAtMs : Z;
  askCount : Z;
  lastLanguage : option jsstring;
  lastStyle : option jsstring;
  topicCounts : list (jsstring * Z)
}.

Record AskCacheEntry := { expiresAtMs : Z; value : AskResponse }.

(** [m.forEach((_v, k) => { if (m.size <= maxEntries) return; m.delete(k); })]:
    the oldest entries are deleted until [maxEntries] are left. *)
Definition delete_oldest {A} (maxEntries : nat) (m : list A) : list A :=
  skipn (length m - maxEntries) m.

(** [maybePruneAnonProfiles]; the state is [anonProfileOps] and
    [anonProfiles]. *)
Definition maybePruneAnonProfiles (st : Z * list (jsstring * AnonProfile)) (now : Z)
  : Z * list (jsstring * AnonProfile) :=
  let anonProfileOps := st.1 + 1 in
  let anonProfiles := st.2 in
  if negb (anonProfileOps mod 50 =? 0) && (length anonProfiles <? 2000)%nat
  then (anonProfileOps, anonProfiles)
  else
    let staleMs := 30 * 24 * 60 * 60 * 1000 in
    let cutoff := now - staleMs in
    let anonProfiles := List.filter (fun e => negb (lastSeenAtMs e.2 <? cutoff)) anonProfiles in
    let maxEntries := 5000%nat in
    if (length anonProfiles <=? maxEntries)%nat then (anonProfileOps, anonProfiles)
    else (anonProfileOps, delete_oldest maxEntries anonProfiles).

(** [maybePruneAskCache]; the state is [askCacheOps] and [askCache]. *)
Definition maybePruneAskCache (st : Z * list (jsstring * AskCacheEntry)) (now : Z)
  : Z * list (jsstring * AskCacheEntry) :=
  let askCacheOps := st.1 + 1 in
  let askCache := st.2 in
  if negb (askCacheOps mod 50 =? 0) && (length askCache <? 200)%nat
  then (askCacheOps, askCache)
  else
    let askCache := List.filter (fun e => negb (expiresAtMs e.2 <=? now)) askCache in
    let maxEntries := 500%nat in
    if (length askCache <=? maxEntries)%nat then (askCacheOps, askCache)
    else (askCacheOps, delete_oldest maxEntries askCache).

End Routes.

(** ** server/routes.ts: anonymous ids and profiles; server/index.ts: request ids *)

Module Profiles.
Import Regex Text Routes.

(** [[A-Za-z0-9._:-]] *)
Definition anon_char (c : ascii) : bool :=
  is_upper c || is_lower c || is_digit c || one_of_chars "._:-"%js c.

(** [[A-Za-z0-9._-]] *)
Definition request_char (c : ascii) : bool :=
  is_upper c || is_lower c || is_digit c || one_of_chars "._-"%js c.

(** [safeAnonId]; [None] as argument is a value that is not a string. *)
Definition safeAnonId (value : option jsstring) : option jsstring :=
  match value with
  | None => None
  | Some value =>
      let v := trim value in
      if negb (truthy v) then None
      else if (200 <? length v)%nat then None
      else if negb (test (seqs [Bol; plus (Chr anon_char); Eol]) v) then None
      else Some v
  end.

(** [safeRequestId] of server/index.ts. *)
Definition safeRequestId (value : option jsstring) : option jsstring :=
  match value with
  | None => None
  | Some value =>
      let v := trim value in
      if negb (truthy v) then None
      else if (200 <? length v)%nat then None
      else if negb (test (seqs [Bol; plus (Chr request_char); Eol]) v) then None
      else Some v
  end.

Definition topic_patterns : list (re * jsstring) :=
  [ (words [liti "stock"%js; liti "crypto"%js; liti "bitcoin"%js; liti "finance"%js;
            liti "loan"%js; phrase ["interest"; "rate"]%js; liti "budget"%js], "finance"%js);
    (words [liti "health"%js; liti "symptom"%js; liti "medicine"%js; liti "doctor"%js;
            liti "treatment"%js; liti "disease"%js], "health"%js);
    (words [liti "law"%js; liti "legal"%js; liti "court"%js; liti "contract"%js;
            liti "ipc"%js; liti "crpc"%js;
            seqs [liti "section"%js; plus space; plus digit]], "legal"%js);
    (words [liti "code"%js; liti "program"%js; liti "javascript"%js; liti "typescript"%js;
            liti "python"%js; liti "react"%js; liti "node"%js; liti "api"%js; liti "bug"%js],
     "technology"%js);
    (words [liti "history"%js; liti "ancient"%js; liti "empire"%js;
            Seq (liti "war"%js) WordB; liti "king"%js; liti "dynasty"%js], "history"%js);
    (words [liti "design"%js; liti "ui"%js; liti "ux"%js; liti "logo"%js; liti "brand"%js;
            liti "typography"%js], "design"%js);
    (words [liti "science"%js; liti "physics"%js; liti "chemistry"%js; liti "biology"%js;
            liti "space"%js; liti "nasa"%js], "science"%js);
    (words [liti "business"%js; liti "startup"%js; liti "marketing"%js; liti "sales"%js;
            liti "strategy"%js], "business"%js) ].

(** [inferTopic]: the first pattern that matches decides. *)
Definition inferTopic (question : jsstring) : option jsstring :=
  let q := toLowerCase question in
  option_map snd (List.find (fun p => test (fst p) q) topic_patterns).

(** A [Map] or a record object with string keys, in insertion order. *)
Fixpoint get {A} (k : jsstring) (m : list (jsstring * A)) : option A :=
  match m with
  | [] => None
  | (k', v) :: m' => if JsString.eqb k' k then Some v else get k m'
  end.

(** [m.set(k, v)]: an entry that exists keeps its place. *)
Fixpoint set {A} (k : jsstring) (v : A) (m : list (jsstring * A)) : list (jsstring * A) :=
  match m with
  | [] => [(k, v)]
  | (k', v') :: m' => if JsString.eqb k' k then (k, v) :: m' else (k', v') :: set k v m'
  end.

Record UpsertParams := {
  param_anonId : jsstring;
  param_question : jsstring;
  param_style : option jsstring;
  param_language : option jsstring
}.

(** [upsertAnonProfile]; the state is [anonProfiles], [now] is what
    [Date.now()] returns. *)
Definition upsertAnonProfile (anonProfiles : list (jsstring * AnonProfile))
    (params : UpsertParams) (now : Z) : list (jsstring * AnonProfile) :=
  let existing := get (param_anonId params) anonProfiles in
  let profile :=
    match existing with
    | Some p => p
    | None => {| anonId := param_anonId params; createdAtMs := now; lastSeenAtMs := now;
                 askCount := 0; lastLanguage := None; lastStyle := None;
                 topicCounts := [] |}
    end in
  let topicCounts' :=
    match inferTopic (param_question params) with
    | Some topic =>
        if truthy topic
        then set topic (default 0 (get topic (topicCounts profile)) + 1) (topicCounts profile)
        else topicCounts profile
    | None => topicCounts profile
    end in
  let profile' :=
    {| anonId := anonId profile;
       createdAtMs := createdAtMs profile;
       lastSeenAtMs := now;
       askCount := askCount profile + 1;
       lastLanguage := match param_language params with
                       | Some l => Some l
                       | None => lastLanguage profile
                       end;
       lastStyle := match param_style params with
                    | Some s => Some s
                    | None => lastStyle profile
                    end;
       topicCounts := topicCounts' |} in
  set (param_anonId params) profile' anonProfiles.

(** The profile map after a sequence of upserts, each with its time. *)
Definition upserts (calls : list (Z * UpsertParams)) (anonProfiles : list (jsstring * AnonProfile))
  : list (jsstring * AnonProfile) :=
  fold_left (fun m c => upsertAnonProfile m c.2 c.1) calls anonProfiles.

(** The number of calls for [id]. *)
Definition asks_of (id : jsstring) (calls : list (Z * UpsertParams)) : Z :=
  Z.of_nat (length (List.filter (fun c => JsString.eqb (param_anonId c.2) id) calls)).

(** The sum of the topic counts of a profile. *)
Definition topics_total (p : AnonProfile) : Z :=
  fold_right Z.add 0 (map snd (topicCounts p)).

End Profiles.

(** ** Readings of the limiter's answers *)

Module RateLimiterViews.
Import RateLimiter.

Definition passed (out : Outcome) : bool :=
  match out with Next _ => true | Respond _ _ _ => false end.

Definition headers (out : Outcome) : Headers :=
  match out with Next h => h | Respond _ h _ => h end.

(** The calls that are counted under the key [k]. *)
Definition for_key (o : RateLimitOptions) (k : jsstring) (call : Z * Request) : bool :=
  JsString.eqb (hit_key o call.2) k.

(** What a limiter with the options [o] answers to the [n]-th request of a
    window that ends at [reset]. *)
Definition answer_in_window (o : RateLimitOptions) (n reset now : Z) (r : Request) : Outcome :=
  let h retry :=
    {| X_RateLimit_Limit := max o;
       X_RateLimit_Remaining := Z.max 0 (max o - n);
       X_RateLimit_Reset := ceil_div_1000 reset;
       Retry_After := retry |} in
  if (n =? 1) || (n <=? max o) then Next (h None)
  else Respond 429 (h (Some (Z.max 1 (ceil_div_1000 (reset - now)))))
         {| message := "Too Many Requests, please try again later"%js;
            body_requestId := requestId r |}.

End RateLimiterViews.

(** ** Readings of the pruning passes *)

Module RoutesViews.
Import Routes.

(** The pass over the response cache runs on every 50th call and whenever
    the cache holds 200 entries or more. *)
Definition cache_pass_due (st : Z * list (jsstring * AskCacheEntry)) : bool :=
  ((st.1 + 1) mod 50 =? 0) || (200 <=? length st.2)%nat.

Definition unexpired (now : Z) (e : jsstring * AskCacheEntry) : bool :=
  now <? expiresAtMs e.2.

Definition profiles_pass_due (st : Z * list (jsstring * AnonProfile)) : bool :=
  ((st.1 + 1) mod 50 =? 0) || (2000 <=? length st.2)%nat.

(** Seen within the last thirty days. *)
Definition recent (now : Z) (e : jsstring * AnonProfile) : bool :=
  now - 2592000000 <=? lastSeenAtMs e.2.

End RoutesViews.

(** ** Readings of the evidence *)

Module EvidenceViews.
Import Evidence.

(** A source as the prompt can hold it: a URL that is not empty and, if
    any, an extracted text of at most 1200 characters and an ellipsis. *)
Definition bounded_source (s : EvidenceSource) : Prop :=
  url s <> [] /\ forall t, extractedText s = Some t -> (length t <= 1203)%nat.

(** The number of sources the selection aims at. *)
Definition source_limit (fresh : bool) : nat := if fresh then 8%nat else 6%nat.

Section WithPlatform.
Context {P : Platform}.

Definition no_slash (p : jsstring) : bool :=
  forallb (fun c => negb (chr_eqb c "/")) p.

(** The protocol of a parsed URL, a scheme and a colon, has no slash. *)
Definition plain_protocols : Prop :=
  forall raw u, new_URL raw = Some u -> no_slash (protocol u) = true.

(** [new URL(url)] does not throw. *)
Definition parses (url : jsstring) : Prop := new_URL url <> None.

End WithPlatform.

End EvidenceViews.

(** ** Readings of a run: calls by kind, and what every run satisfies *)

Module Traces.

(** The outbound calls by kind. *)
Inductive Kind := model_list | tavily_search | brave_search | page_fetch | chat_completion.

Definition kind_of {X} (e : Event X) : option Kind :=
  match e with
  | Now | LocalClock _ => None
  | ListFreeModels => Some model_list
  | TavilySearch _ => Some tavily_search
  | BraveSearch _ _ => Some brave_search
  | FetchPage _ => Some page_fetch
  | ChatCompletion _ => Some chat_completion
  end.

Definition Kind_eqb (a b : Kind) : bool :=
  match a, b with
  | model_list, model_list | tavily_search, tavily_search | brave_search, brave_search
  | page_fetch, page_fetch | chat_completion, chat_completion => true
  | _, _ => false
  end.

Definition is_kind (k : Kind) (l : LogEntry) : bool :=
  match l with
  | Entry e _ => match kind_of e with Some k' => Kind_eqb k k' | None => false end
  end.

(** The number of calls of kind [k] in a log. *)
Definition calls (k : Kind) (log : list LogEntry) : nat :=
  length (List.filter (is_kind k) log).

(** [always p Q]: the log and the outcome of every run of [p] satisfy
    [Q], whatever the world answers. *)
Fixpoint always {A} (p : Prog A) (Q : list LogEntry -> Thrown + A -> Prop) : Prop :=
  match p with
  | Ret a => Q [] (inr a)
  | Throw e => Q [] (inl e)
  | Vis e k => forall x, always (k x) (fun log r => Q (Entry e x :: log) r)
  end.

(** A budget of calls for each kind. *)
Definition Budget := Kind -> nat.

Definition none : Budget := fun _ => 0%nat.
Definition only (k : Kind) (n : nat) : Budget := fun k' => if Kind_eqb k k' then n else 0%nat.
Definition plus (a b : Budget) : Budget := fun k => (a k + b k)%nat.

Definition within (b : Budget) (log : list LogEntry) : Prop :=
  forall k, (calls k log <= b k)%nat.

(** Every run of [p] stays within the budget. *)
Definition spends {A} (b : Budget) (p : Prog A) : Prop :=
  always p (fun log _ => within b log).

(** The budget of evidence gathering and of a whole request. *)
Definition gather_budget : Budget :=
  plus (only tavily_search 3) (plus (only brave_search 2) (only page_fetch 5)).

Definition pipeline_budget : Budget :=
  fun k =>
    match k with
    | model_list => 1%nat
    | tavily_search => 3%nat
    | brave_search => 2%nat
    | page_fetch => 5%nat
    | chat_completion => 4%nat
    end.

(** The chat requests of the composition: the direct answer, the answer
    from facts and the strict re-call; not the extraction of facts and
    not the follow-ups. *)
Definition composes (req : ChatRequest) : bool :=
  match user req with
  | FactsPrompt _ _ _ | FollowUpsPrompt _ _ _ => false
  | _ => true
  end.

(** The log entry is a call that rejected with [err] and whose rejection
    the pipeline does not catch. *)
Definition fatal (err : Thrown) (l : LogEntry) : Prop :=
  match l with
  | Entry e x =>
      match e in Event X return X -> Prop with
      | ListFreeModels => fun x => x = inl err
      | ChatCompletion req => fun x => composes req = true /\ x = inl err
      | _ => fun _ => False
      end x
  end.

Definition not_configured (err : Thrown) : Prop :=
  err = HttpError 503 "OPENROUTER_API_KEY is not configured"%js
  \/ err = HttpError 503 "No free OpenRouter models available"%js.

(** [p] returns in every run. *)
Definition never_fails {A} (p : Prog A) : Prop :=
  always p (fun _ r => forall err, r <> inl err).

(** Every failure of [p] is a missing configuration or stems from a fatal
    call of the run. *)
Definition fails_only_fatally {A} (p : Prog A) : Prop :=
  always p (fun log r =>
              forall err, r = inl err -> not_configured err \/ Exists (fatal err) log).

End Traces.

(** ** Readings of a text: white space *)

Module TextViews.

(** Every run of white space becomes one space; [in_run] tells that the
    previous character was white space. *)
Fixpoint squeeze (in_run : bool) (s : jsstring) : jsstring :=
  match s with
  | [] => []
  | c :: r =>
      if is_space c then (if in_run then squeeze true r else " "%char :: squeeze true r)
      else c :: squeeze false r
  end.

(** Every white-space character of [s] is a space that is followed by a
    character that is not white space, or by the end. *)
Fixpoint spaced_once (s : jsstring) : bool :=
  match s with
  | [] => true
  | c :: r =>
      (if is_space c
       then chr_eqb c " " && match r with d :: _ => negb (is_space d) | [] => true end
       else true)
      && spaced_once r
  end.

(** The characters of [s] that are not white space. *)
Definition ink (s : jsstring) : jsstring := List.filter (fun c => negb (is_space c)) s.

End TextViews.

(** ** The guard against requests to private addresses (lib/ssrf.ts) *)

Module Ssrf.
Import JsNumber.

(** [net.isIP]: 4, 6, or 0 when the text is no IP address. *)
Class Net := { isIP : jsstring -> Z }.

(** [s.split(sep)] for a separator of one character; [cur] is the current
    piece, reversed. *)
Fixpoint split_on (sep : ascii) (cur s : jsstring) : list jsstring :=
  match s with
  | [] => [rev cur]
  | c :: r =>
      if chr_eqb c sep then rev cur :: split_on sep [] r
      else split_on sep (c :: cur) r
  end.

Definition is_nan (n : num) : bool :=
  match n with NaN => true | _ => false end.

(** [n === z] *)
Definition num_is (n : num) (z : Z) : bool :=
  match n with Finite v => v =? z | _ => false end.

(** [n >= lo && n <= hi] *)
Definition num_within (n : num) (lo hi : Z) : bool :=
  match n with
  | Finite v => (lo <=? v) && (v <=? hi)
  | Infinite | NaN => false
  end.

Definition isPrivateIpv4 (ip : jsstring) : bool :=
  let parts := map parseInt10 (split_on "." [] ip) in
  if negb (length parts =? 4)%nat || existsb is_nan parts then true
  else
    match parts with
    | a :: b :: _ =>
        if num_is a 10 then true
        else if num_is a 127 then true
        else if num_is a 169 && num_is b 254 then true
        else if num_is a 192 && num_is b 168 then true
        else if num_is a 172 && num_within b 16 31 then true
        else false
    | _ => false
    end.

Definition isPrivateIpv6 (ip : jsstring) : bool :=
  let normalized := toLowerCase ip in
  if JsString.eqb normalized "::1"%js then true
  else if startsWith normalized "fc"%js || startsWith normalized "fd"%js then true
  else if startsWith normalized "fe80"%js then true
  else false.

Section WithPlatform.
Context {P : Platform} {net : Net}.

Definition isPrivateIp (ip : jsstring) : bool :=
  let version := isIP ip in
  if version =? 4 then isPrivateIpv4 ip
  else if version =? 6 then isPrivateIpv6 ip
  else true.

(** The calls that leave the process. *)
Inductive Call :=
| Lookup (host : jsstring)
| Get (url : jsstring).

(** [assertSafeUrl]; [lookup host] is the outcome of
    [dns.promises.lookup(host, { all: true })]: the rejection, or the
    addresses of the entries. *)
Definition assertSafeUrl (lookup : jsstring -> Thrown + list jsstring) (urlString : jsstring)
  : list Call * (Thrown + URL) :=
  match new_URL urlString with
  | None => ([], inl (HttpError 400 "Invalid URL"%js))
  | Some url =>
      if negb (JsString.eqb (protocol url) "https:"%js)
         && negb (JsString.eqb (protocol url) "http:"%js)
      then ([], inl (HttpError 400 "Only http/https URLs are allowed"%js))
      else if negb (truthy (hostname url))
      then ([], inl (HttpError 400 "Invalid URL hostname"%js))
      else
        let host := hostname url in
        if JsString.eqb host "localhost"%js || endsWith host ".local"%js
        then ([], inl (HttpError 400 "Unsafe URL host"%js))
        else if negb (isIP host =? 0)
        then
          if isPrivateIp host
          then ([], inl (HttpError 400 "Unsafe URL IP"%js))
          else ([], inr url)
        else
          match lookup host with
          | inl e => ([Lookup host], inl e)
          | inr lookups =>
              if (length lookups =? 0)%nat
              then ([Lookup host], inl (HttpError 400 "Unable to resolve URL host"%js))
              else if existsb isPrivateIp lookups
              then ([Lookup host], inl (HttpError 400 "Unsafe URL resolved IP"%js))
              else ([Lookup host], inr url)
          end
  end.

End WithPlatform.
End Ssrf.

(** ** Page text (services/web/fetchPageText.ts, extractText.ts) *)

Module PageText.
Import Regex Ssrf.

Definition decodeHtmlEntities (input : jsstring) : jsstring :=
  let s := replace_all (lit "&nbsp;"%js) " "%js input in
  let s := replace_all (lit "&amp;"%js) "&"%js s in
  let s := replace_all (lit "&lt;"%js) "<"%js s in
  let s := replace_all (lit "&gt;"%js) ">"%js s in
  let s := replace_all (lit "&quot;"%js) [Replies.quote] s in
  replace_all (lit "&#39;"%js) "'"%js s.

(** [<name[\s\S]*?<\/name>] under the [i] flag *)
Definition block (name : jsstring) : re :=
  seqs [liti ("<"%js ++ name); lazy any; liti ("</"%js ++ name ++ ">"%js)].

(** [<[^>]+>] *)
Definition tag : re :=
  seqs [chr "<"; plus (Chr (fun c => negb (chr_eqb c ">"))); chr ">"].

Definition extractTextFromHtml (html : jsstring) : jsstring :=
  let text := replace_all (block "script"%js) " "%js html in
  let text := replace_all (block "style"%js) " "%js text in
  let text := replace_all (block "noscript"%js) " "%js text in
  let text := replace_all tag " "%js text in
  let text := decodeHtmlEntities text in
  trim (replace_all (plus space) " "%js text).

(** What [fetchWithTimeout] resolves to, as far as [fetchPageText] reads
    it; [res_body] is the outcome of [res.arrayBuffer()]: the rejection,
    or the byte length and the text decoded as UTF-8. *)
Record PageResponse := {
  res_ok : bool;
  res_status : N;
  content_type : option jsstring;
  res_body : Thrown + (Z * jsstring)
}.

Section WithPlatform.
Context {P : Platform} {net : Net}.

Definition readResponseTextWithLimit (res : PageResponse) (maxBytes : Z) : Thrown + jsstring :=
  match res_body res with
  | inl e => inl e
  | inr (byteLength, text) =>
      if maxBytes <? byteLength then inl (HttpError 413 "Fetched document too large"%js)
      else inr text
  end.

(** [fetchPageText]; [fetch url] is the outcome of the GET of the
    serialisation of [new URL(url)]. *)
Definition fetchPageText (lookup : jsstring -> Thrown + list jsstring)
    (fetch : jsstring -> Thrown + PageResponse) (url : jsstring) (maxBytes : Z)
  : list Call * (Thrown + jsstring) :=
  match assertSafeUrl lookup url with
  | (log, inl e) => (log, inl e)
  | (log, inr safeUrl) =>
      let log := log ++ [Get url] in
      match fetch url with
      | inl e => (log, inl e)
      | inr res =>
          if negb (res_ok res)
          then (log, inl (HttpError 502 ("Failed to fetch source ("%js
                                          ++ JsString.of_N (res_status res) ++ ")"%js)))
          else
            let contentType := default []%js (content_type res) in
            if negb (includes contentType "text/html"%js)
               && negb (includes contentType "application/xhtml"%js)
            then (log, inl (HttpError 415 "Unsupported content type"%js))
            else
              match readResponseTextWithLimit res maxBytes with
              | inl e => (log, inl e)
              | inr html => (log, inr (extractTextFromHtml html))
              end
      end
  end.

End WithPlatform.
End PageText.

(** ** Readings of the guard *)

Module SsrfViews.
Import Ssrf.

(** The dotted-decimal text of four octets. *)
Definition dotted (a b c d : N) : jsstring :=
  JsString.of_N a ++ "."%js ++ JsString.of_N b ++ "."%js
  ++ JsString.of_N c ++ "."%js ++ JsString.of_N d.

(** The blocks of IPv4 addresses that the guard treats as private:
    10/8, 127/8, 169.254/16, 192.168/16 and 172.16/12. *)
Definition in_private_block (a b : N) : Prop :=
  (a = 10 \/ a = 127 \/ (a = 169 /\ b = 254) \/ (a = 192 /\ b = 168)
   \/ (a = 172 /\ 16 <= b <= 31))%N.

Definition is_get (c : Call) : bool :=
  match c with Get _ => true | Lookup _ => false end.

End SsrfViews.

(** ** Observations on a run *)

Module Observe.

(** The strict re-call is the chat request whose user message carries the
    citation directive. *)
Definition is_strict_recall (l : LogEntry) : bool :=
  match l with
  | Entry e _ =>
      match e with
      | ChatCompletion req =>
          match user req with
          | ContentWithCitationDirective _ _ => true
          | _ => false
          end
      | _ => false
      end
  end.

Definition strict_recalls (log : list LogEntry) : list LogEntry :=
  List.filter is_strict_recall log.

End Observe.

(** ** Definitions that follow the words of the specification

    They are compared with the embedded code, never used in its place. *)

Module Claimed.
Import Canon Evidence.

Section WithPlatform.
Context {P : Platform}.

(** Host-cap selection in which "the empty string stands in for the
    hostname" of a URL that does not parse: the bucket of a candidate is
    [getHostnameSafe] of its URL, with no fallback. *)
Fixpoint pick_capped_by_hostname (maxSources preferredMaxPerHost : nat)
    (hostCounts : list (jsstring * nat)) (picked ranked : list SourceCandidate)
  : list SourceCandidate :=
  match ranked with
  | [] => picked
  | c :: rest =>
      if (maxSources <=? length picked)%nat then picked
      else
        let host := getHostnameSafe (url (source c)) in
        let count := host_count host hostCounts in
        if (preferredMaxPerHost <=? count)%nat
        then pick_capped_by_hostname maxSources preferredMaxPerHost hostCounts picked rest
        else pick_capped_by_hostname maxSources preferredMaxPerHost
               ((host, S count) :: hostCounts) (picked ++ [c]) rest
  end.

Definition pick_by_hostname (fresh : bool) (byNormUrl : list SourceCandidate)
  : list SourceCandidate :=
  let ranked := rank byNormUrl in
  let maxSources := if fresh then 8%nat else 6%nat in
  let preferredMaxPerHost := if fresh then 1%nat else 2%nat in
  let picked := pick_capped_by_hostname maxSources preferredMaxPerHost [] [] ranked in
  if (length picked <? maxSources)%nat then backfill maxSources picked ranked else picked.

(** The query parameters that canonicalisation keeps. *)
Definition kept (l : list (jsstring * jsstring)) : list (jsstring * jsstring) :=
  List.filter (fun e => negb (is_tracking (fst e))) l.

(** Two parsed URLs of one page: the same path, the same parameters apart
    from tracking ones, and the same host apart from one leading [www.] in
    front of a host that does not itself begin with [www.].  The scheme is
    free; the fragment is not part of what is read. *)
Definition www_added (h1 h2 : jsstring) : Prop :=
  h1 = "www."%js ++ h2 /\ startsWith (toLowerCase h2) "www."%js = false.

Definition same_page (r1 r2 : URL) : Prop :=
  pathname r1 = pathname r2
  /\ kept (searchParams r1) = kept (searchParams r2)
  /\ (hostname r1 = hostname r2
      \/ www_added (hostname r1) (hostname r2)
      \/ www_added (hostname r2) (hostname r1)).

End WithPlatform.
End Claimed.

(** ** Concrete runs on the reference platform *)

Module Scenarios.
Import Canon Evidence Pipeline.

#[local] Existing Instance Reference.platform.

Definition request (q : jsstring) (md : option Mode) : AskRequest :=
  {| question := q; model := None; mode := md; language := None; style := None;
     useWeb := None; webTopic := None; webTimeRange := None |}.

(** The model key and one search provider are configured. *)
Definition configured : Env :=
  {| OPENROUTER_API_KEY := Some "sk-or-test"%js;
     OPENROUTER_DEFAULT_MODEL := Some "vendor/model:free"%js;
     BRAVE_SEARCH_API_KEY := None;
     TAVILY_API_KEY := Some "tvly-test"%js |}.

Definition item (u t : jsstring) : TavilyItem :=
  {| tavily_title := t; tavily_url := u; tavily_content := "About gravity."%js;
     raw_content := None; rawContent := None; published_date := None; publishedDate := None |}.

Definition unreachable : Thrown := HttpError 502 "Failed to fetch source (503)"%js.

(** A world in which the first search query returns [items], no page can
    be fetched, the model answers every composition request with [reply]
    and the follow-up request with [followups]. *)
Definition world (first_query : jsstring) (items : list TavilyItem) (reply : jsstring)
    (followups : Thrown + jsstring) : World :=
  {| respond := fun X _ e =>
       match e in Event X return X with
       | Now => 1793526060000
       | LocalClock _ => {| dateStr := "Sunday, November 1, 2026"%js;
                            timeStr := "9:41:00 AM"%js; tz := "UTC"%js |}
       | ListFreeModels => inr []
       | TavilySearch req =>
           if JsString.eqb (tavily_query req) first_query then inr items else inr []
       | BraveSearch _ _ => inr []
       | FetchPage _ => inl unreachable
       | ChatCompletion req =>
           match user req with
           | FollowUpsPrompt _ _ _ => followups
           | _ => inr reply
           end
       end |}.

Definition no_followups : Thrown + jsstring := inl (HttpError 502 "LLM provider error (500)"%js).

Definition gravity : jsstring := "Explain gravity"%js.

(** Two results whose hosts are [www.www.example.com] and
    [www.example.com]. *)
Definition www_twice : list TavilyItem :=
  [ item "https://www.www.example.com/"%js "Gravity A"%js;
    item "https://www.example.com/"%js "Gravity B"%js ].

(** A result with the host [www.] and a result whose URL is the cleaned
    form of the first, which does not parse. *)
Definition empty_host : list TavilyItem :=
  [ item "http://www./"%js "Gravity A"%js;
    item "http:///"%js "Gravity B"%js ].

(** A result whose URL has no scheme. *)
Definition no_scheme : list TavilyItem :=
  [ item "example.com/gravity"%js "Gravity A"%js ].

Definition candidate (u k : jsstring) (sc : Z) : SourceCandidate :=
  {| source := {| title := "T"%js; url := u; snippet := "S"%js; extractedText := None |};
     score := sc; normUrl := k |}.

(** Two candidates whose URLs do not parse, ranked above one that does. *)
Definition two_unparseable : list SourceCandidate :=
  [ candidate "example.com/a"%js "example.com/a"%js 5;
    candidate "example.org/b"%js "example.org/b"%js 4;
    candidate "https://c.example/"%js "c.example/"%js 3 ].

(** A follow-up reply in plain text: one line of 172 characters. *)
Definition long_line : jsstring :=
  "Could you walk me through how general relativity changes the Newtonian picture of gravity, and which of the two I should use for everyday engineering calculations on Earth?"%js.

Definition one_source : list EvidenceSource :=
  [ {| title := "Gravity"%js; url := "https://a.example/1"%js;
       snippet := "About gravity."%js; extractedText := None |} ].

Definition noKeys : Env :=
  {| OPENROUTER_API_KEY := None; OPENROUTER_DEFAULT_MODEL := None;
     BRAVE_SEARCH_API_KEY := None; TAVILY_API_KEY := None |}.

Definition clock_question : AskRequest :=
  {| question := "What time is it?"%js; model := None; mode := None; language := None;
     style := None; useWeb := None; webTopic := None; webTimeRange := None |}.

(** A world in which every outbound call fails. *)
Definition offline : World :=
  {| respond := fun X _ e =>
       match e in Event X return X with
       | Now => 0
       | LocalClock _ => {| dateStr := "Sunday, November 1, 2026"%js;
                            timeStr := "9:41:00 AM"%js; tz := "UTC"%js |}
       | ListFreeModels => inl (Foreign NotAnObject)
       | TavilySearch _ => inl (Foreign NotAnObject)
       | BraveSearch _ _ => inl (Foreign NotAnObject)
       | FetchPage _ => inl (Foreign NotAnObject)
       | ChatCompletion _ => inl (Foreign NotAnObject)
       end |}.

(** The model key and a default model, and no search provider. *)
Definition model_only : Env :=
  {| OPENROUTER_API_KEY := Some "sk-or-test"%js;
     OPENROUTER_DEFAULT_MODEL := Some "vendor/model:free"%js;
     BRAVE_SEARCH_API_KEY := None;
     TAVILY_API_KEY := None |}.

(** The model key alone. *)
Definition key_only : Env :=
  {| OPENROUTER_API_KEY := Some "sk-or-test"%js;
     OPENROUTER_DEFAULT_MODEL := None;
     BRAVE_SEARCH_API_KEY := None;
     TAVILY_API_KEY := None |}.

(** The reference platform, which reads no IPv4 host, extended by the
    reading of one URL with such a host. *)
Definition with_intranet_url : Platform :=
  {| new_URL := fun raw =>
       if JsString.eqb raw "http://192.168.1.10/admin"%js
       then Some {| protocol := "http:"%js; hostname := "192.168.1.10"%js;
                    pathname := "/admin"%js; searchParams := [] |}
       else Reference.parse raw;
     search_of := Reference.serialize;
     localeCompare := Reference.compare;
     date_parse := Reference.parse_date;
     json_parse := Reference.parse_json |}.

(** The reference platform, which reads http and https URLs only, extended
    by the reading of a mail address and of its cleaned URL: without [//]
    the text after the scheme is the path, with [//] it is an authority,
    of which [user@] is the credentials and the rest the host. *)
Definition with_mail_address : Platform :=
  {| new_URL := fun raw =>
       if JsString.eqb raw "mailto:user@example.com"%js
       then Some {| protocol := "mailto:"%js; hostname := []%js;
                    pathname := "user@example.com"%js; searchParams := [] |}
       else if JsString.eqb raw "mailto://user@example.com"%js
       then Some {| protocol := "mailto:"%js; hostname := "example.com"%js;
                    pathname := []%js; searchParams := [] |}
       else Reference.parse raw;
     search_of := Reference.serialize;
     localeCompare := Reference.compare;
     date_parse := Reference.parse_date;
     json_parse := Reference.parse_json |}.

End Scenarios.

(** * Properties *)

(** ** Strings *)

Module JsStringFacts.

Lemma chr_eqb_eq a b : chr_eqb a b = true <-> a = b.
Proof. apply Ascii.eqb_eq. Qed.

Lemma chr_eqb_refl a : chr_eqb a a = true.
Proof. now apply chr_eqb_eq. Qed.

Lemma eqb_eq (a b : jsstring) : JsString.eqb a b = true <-> a = b.
Proof.
  revert b. induction a as [|x a IH]; intros [|y b]; cbn; split; try congruence.
  - intros [Hx Hab]%andb_prop. apply chr_eqb_eq in Hx. apply IH in Hab. congruence.
  - intros [= -> ->]. rewrite chr_eqb_refl. now apply IH.
Qed.

Lemma eqb_refl (a : jsstring) : JsString.eqb a a = true.
Proof. now apply eqb_eq. Qed.

End JsStringFacts.

(** ** [String.prototype.trim] *)

Module TrimFacts.
Import JsString.

Lemma trimStart_split s :
  exists pre, s = pre ++ trimStart s /\ forallb is_space pre = true.
Proof.
  induction s as [|c r IH]; cbn [trimStart]; [now exists []|].
  destruct (is_space c) eqn:E; [|now exists []].
  destruct IH as (pre & Hr & Hpre). exists (c :: pre). cbn. rewrite E, Hpre.
  split; [now f_equal | reflexivity].
Qed.

Lemma trimStart_head s : head (trimStart s) = None \/ exists c, head (trimStart s) = Some c /\ is_space c = false.
Proof.
  induction s as [|c r IH]; cbn [trimStart]; [now left|].
  destruct (is_space c) eqn:E; [exact IH|]. right. now exists c.
Qed.

Lemma trimStart_fix s :
  (forall c, head s = Some c -> is_space c = false) -> trimStart s = s.
Proof.
  destruct s as [|c r]; cbn; [reflexivity|]. intros H. now rewrite (H c eq_refl).
Qed.

Lemma trimStart_idem s : trimStart (trimStart s) = trimStart s.
Proof.
  apply trimStart_fix. intros c Hc.
  destruct (trimStart_head s) as [H|(c' & H & Hs)]; congruence.
Qed.

Lemma trimStart_length s : (length (trimStart s) <= length s)%nat.
Proof.
  destruct (trimStart_split s) as (pre & H & _).
  rewrite H at 2. rewrite length_app. lia.
Qed.

Lemma trim_length s : (length (trim s) <= length s)%nat.
Proof.
  unfold trim, trimEnd. rewrite length_rev.
  etransitivity; [apply trimStart_length|]. rewrite length_rev. apply trimStart_length.
Qed.

Lemma head_rev_app_last {A} (l : list A) x : head (rev (l ++ [x])) = Some x.
Proof. now rewrite rev_app_distr. Qed.

Lemma head_app_ne {A} (l r : list A) : l <> [] -> head (l ++ r) = head l.
Proof. now destruct l. Qed.

(** A trimmed string neither starts nor ends with white space. *)
Lemma trim_ends s :
  (forall c, head (trim s) = Some c -> is_space c = false)
  /\ (forall c, head (rev (trim s)) = Some c -> is_space c = false).
Proof.
  unfold trim, trimEnd. set (t := trimStart s). set (u := trimStart (rev t)).
  split.
  - intros c Hc.
    destruct (trimStart_split (rev t)) as (pre & Hpre & _). fold u in Hpre.
    assert (Ht : t = rev u ++ rev pre).
    { rewrite <- (rev_involutive t), Hpre, rev_app_distr. reflexivity. }
    destruct (rev u) as [|c' r] eqn:E; [discriminate|]. cbn in Hc. injection Hc as ->.
    destruct (trimStart_head s) as [H|(c' & H & Hs)]; fold t in H; rewrite Ht in H; cbn in H;
      congruence.
  - rewrite rev_involutive. intros c Hc.
    destruct (trimStart_head (rev t)) as [H|(c' & H & Hs)]; fold u in H; congruence.
Qed.

Lemma trim_idem s : trim (trim s) = trim s.
Proof.
  destruct (trim_ends s) as [Hh Hl].
  unfold trim at 1, trimEnd. rewrite (trimStart_fix (trim s) Hh).
  rewrite (trimStart_fix _ Hl). apply rev_involutive.
Qed.

End TrimFacts.

(** ** Rounding to a double *)

Module NumberFacts.
Import JsNumber.

Lemma doubles_reach_2_53 : 2 ^ 53 < overflow_bound.
Proof. reflexivity. Qed.

Lemma round_double_small v : v < 2 ^ 53 -> round_double v = v.
Proof.
  intros H. unfold round_double.
  destruct (Z.ltb_spec v (2 ^ 53)); [reflexivity|lia].
Qed.

(** From 2^53 on the doubles are even numbers, and rounding does not
    fall below 2^53. *)
Lemma round_double_large v : 2 ^ 53 <= v -> 2 ^ 53 <= round_double v.
Proof.
  intros H. unfold round_double.
  destruct (Z.ltb_spec v (2 ^ 53)); [lia|].
  assert (Hpos : 0 < v) by lia.
  destruct (Z.log2_spec v Hpos) as [Hlo _].
  assert (HL : 53 <= Z.log2 v).
  { change 53 with (Z.log2 (2 ^ 53)). apply Z.log2_le_mono. lia. }
  set (e := Z.log2 v - 52) in *.
  assert (Hulp : 2 <= 2 ^ e).
  { change 2 with (2 ^ 1) at 1. apply Z.pow_le_mono_r; lia. }
  assert (Hsplit : 2 ^ Z.log2 v = 2 ^ 52 * 2 ^ e).
  { rewrite <- Z.pow_add_r by lia. f_equal. lia. }
  assert (Hq : 2 ^ 52 <= v / 2 ^ e).
  { apply Z.div_le_lower_bound; lia. }
  cbv zeta.
  remember (2 ^ e) as ulp eqn:Eulp.
  remember (v / ulp) as q eqn:Eq.
  clear Eulp Eq Hsplit Hlo HL.
  assert (2 ^ 53 <= q * ulp) by nia.
  assert (2 ^ 53 <= (q + 1) * ulp) by nia.
  destruct (2 * (v mod ulp) <? ulp); [assumption|].
  destruct (ulp <? 2 * (v mod ulp)); [assumption|].
  destruct (Z.even q); assumption.
Qed.

(** A result below 2^53 is the number that was rounded. *)
Lemma round_double_exact v n : n < 2 ^ 53 -> round_double v = n -> v = n.
Proof.
  intros Hn Hr. destruct (Z.lt_ge_cases v (2 ^ 53)) as [Hv|Hv].
  - now rewrite (round_double_small v Hv) in Hr.
  - pose proof (round_double_large v Hv). lia.
Qed.

End NumberFacts.

(** ** The embedding evaluated on examples *)

Module Examples.
Import Regex Canon Reference Text Citations Replies.

#[local] Existing Instance Reference.platform.

Example trim_both_ends : trim " ab c  "%js = "ab c"%js.
Proof. reflexivity. Qed.

Example decimal_rendering :
  of_nat 1205 = "1205"%js /\ of_nat 0 = "0"%js /\ of_nat 8 = "8"%js.
Proof. vm_compute. auto. Qed.

(** [/\[(\d+)\]/g] *)
Example regex_markers :
  match_all (seqs [chr "["; group (plus digit); chr "]"]) "a [1] b[22][x] [3"%js
  = ["[1]"%js; "[22]"%js].
Proof. vm_compute. reflexivity. Qed.

(** [/\n\s*\n/] *)
Example regex_split_blocks :
  split (seqs [chr "010"; star space; chr "010"])
    ("a" ++ ["010"%char; " "%char; "010"%char; "010"%char] ++ "b" ++ ["010"%char] ++ "c")%js
  = ["a"%js; ("b" ++ ["010"%char] ++ "c")%js].
Proof. vm_compute. reflexivity. Qed.

Example regex_collapse_spaces :
  replace_all (plus space) " "%js "a   b  c "%js = "a b c "%js.
Proof. vm_compute. reflexivity. Qed.

Example regex_word_boundaries :
  test (seqs [WordB;
              alts [phrase ["what"%js; "time"%js; "is"%js; "it"%js];
                    phrase ["time"%js; "now"%js]];
              WordB]) "so what  time is it?"%js = true.
Proof. vm_compute. reflexivity. Qed.

(** [/^www\./] and [strip_www] agree, as do [/\/+$/] and
    [strip_trailing_slashes]. *)
Example regex_strip_www :
  replace (seqs [Bol; lit "www."%js]) [] "www.www.a.com"%js = strip_www "www.www.a.com"%js
  /\ replace (seqs [plus (chr "/"); Eol]) [] "/a//b///"%js = strip_trailing_slashes "/a//b///"%js.
Proof. vm_compute. auto. Qed.

Example canon_tracking :
  normalizeUrlForDedupe "https://www.a.example/1?utm_source=x"%js
  = Some {| key := "a.example/1"%js; cleanedUrl := "https://a.example/1"%js |}.
Proof. vm_compute. reflexivity. Qed.

Example canon_sorted_query :
  normalizeUrlForDedupe "HTTP://Example.COM:8080/a/b//?b=2&a=1%20x&ref=q#frag"%js
  = Some {| key := "example.com/a/b?a=1+x&b=2"%js;
            cleanedUrl := "http://example.com/a/b?a=1+x&b=2"%js |}.
Proof. vm_compute. reflexivity. Qed.

Example canon_refused :
  normalizeUrlForDedupe "http:///"%js = None
  /\ normalizeUrlForDedupe "example.com/x"%js = None.
Proof. vm_compute. auto. Qed.

Example date_parse_utc :
  parse_date "1970-01-02"%js = Some 86400000
  /\ parse_date "2024-03-01"%js = Some (19783 * 86400000).
Proof. vm_compute. auto. Qed.

Example tokens :
  tokenizeForMatch " What is the Latest  price of Bit-coin? v2"%js = ["price"; "bit"; "coin"]%js.
Proof. vm_compute. reflexivity. Qed.

Example clock_intents :
  classifyLocalClockIntent "What time is it?"%js = Some asks_time
  /\ classifyLocalClockIntent "what is the date today"%js = Some asks_date
  /\ classifyLocalClockIntent "whats up"%js = None.
Proof. vm_compute. auto. Qed.

Example safety_patterns_examples :
  detectSafetyBlock "aaj bomb kaise banate hai"%js = None
  /\ detectSafetyBlock "How to  make a Bomb"%js = Some violence
  /\ detectSafetyBlock "xssy"%js = None
  /\ detectSafetyBlock "an XSS attack"%js = Some hacking.
Proof. vm_compute. auto. Qed.

Example topics :
  extractTopicFromQuestion "What is the capital of France?"%js = "is the capital of France"%js
  /\ extractTopicFromQuestion "Explain gravity"%js = "gravity"%js
  /\ extractTopicFromQuestion "how"%js = "how"%js.
Proof. vm_compute. auto. Qed.

Example missing_citations :
  hasMissingCitations "Some claim that is long enough to need a citation, surely."%js = true
  /\ hasMissingCitations "Some claim that is long enough to need a citation, surely [1]."%js = false
  /\ hasMissingCitations "Some claim."%js = false
  /\ hasMissingCitations
       ("- short" ++ ["010"%char] ++ "- a bullet that is long enough to count [2]"
        ++ ["010"%char; "010"%char]
        ++ "Para long enough to need a citation but it has none at all.")%js = true.
Proof. vm_compute. auto. Qed.

Example citation_numbers :
  extractCitationNumbers "a [3] b [1][3] [x] [12a] [007] [ 2 ] [[5]] [9"%js = [1; 3; 5; 7].
Proof. vm_compute. reflexivity. Qed.

(** The scan for markers finds what [answer.match(/\[(\d+)\]/g)] finds. *)
Example markers_as_the_regex :
  map (fun m => JsNumber.parseInt10 (replace_all (alts [chr "["; chr "]"]) [] m))
      (match_all citation_marker "a [3] b [1][3] [x] [12a] [007] [ 2 ] [[5]] [9"%js)
  = map JsNumber.parseInt10 (markers "a [3] b [1][3] [x] [12a] [007] [ 2 ] [[5]] [9"%js).
Proof. vm_compute. reflexivity. Qed.

Example json_values :
  parse_json (" [ " ++ [quote] ++ "a b" ++ [quote] ++ ", 12, {" ++ [quote] ++ "k" ++ [quote]
              ++ ": [1.5, null]} ] ")%js
  = Some (JArray [JString "a b"%js; JNumber (Some 12);
                  JObject [("k"%js, JArray [JNumber None; JNull])]]).
Proof. vm_compute. reflexivity. Qed.

(** Numbers are doubles: a fraction or an exponent may denote an integer,
    2^53 + 1 is read as 2^53, and a number too large is no integer.  An
    escape denotes a code unit. *)
Example json_numbers :
  parse_json "[1.0, 2e0, 25e-1, -3.00e2, 9007199254740993, 1e999]"%js
  = Some (JArray [JNumber (Some 1); JNumber (Some 2); JNumber None;
                  JNumber (Some (-300)); JNumber (Some 9007199254740992);
                  JNumber None])
  /\ parse_json ([quote] ++ "caf\u00e9" ++ [quote])%js
     = Some (JString ("caf" ++ ["233"%char])%js).
Proof. split; vm_compute; reflexivity. Qed.

(** A fenced JSON reply goes through the schema. *)
Example followUps_strict :
  followUps_of_reply
    ("```json" ++ ["010"%char] ++ "[" ++ [quote] ++ "1. What next?" ++ [quote] ++ ", "
     ++ [quote] ++ "- what NEXT?" ++ [quote] ++ "," ++ [quote] ++ " Why? " ++ [quote] ++ "]"
     ++ ["010"%char] ++ "```")%js
  = Some ["What next?"%js; "Why?"%js].
Proof. vm_compute. reflexivity. Qed.

(** A reply in lines goes through the loose parser. *)
Example followUps_loose :
  followUps_of_reply
    ("Here you go:" ++ ["010"%char] ++ "1. " ++ [quote] ++ "First one?" ++ [quote]
     ++ ["010"%char] ++ "* second" ++ ["010"%char; "010"%char] ++ "3) third"
     ++ ["010"%char] ++ "fourth")%js
  = Some ["Here you go:"%js; "First one?"%js; "second"%js].
Proof. vm_compute. reflexivity. Qed.

Example followUps_heuristic :
  buildHeuristicFollowUps (Scenarios.request "What is gravity?"%js None)
  = ["What are the key facts about is gravity?"%js;
     "Any recent updates or news about is gravity?"%js;
     "Summarize is gravity in 5 bullet points."%js].
Proof. vm_compute. reflexivity. Qed.

Example grounded_facts :
  parseGroundedFacts
    ("[{" ++ [quote] ++ "fact" ++ [quote] ++ ": " ++ [quote] ++ " A. " ++ [quote] ++ ", "
     ++ [quote] ++ "citations" ++ [quote] ++ ": [2, " ++ [quote] ++ "1" ++ [quote] ++ ", 9]}]")%js 3
  = Some [{| fact := "A."%js; fact_citations := [1; 2] |}].
Proof. vm_compute. reflexivity. Qed.

End Examples.

(** ** Rate limiter *)

Module RateLimiterFacts.
Import RateLimiter.

Lemma hit_key_ip r1 r2 :
  ip r1 = ip r2 -> hit_key askRateLimit r1 = hit_key askRateLimit r2.
Proof. unfold hit_key. now intros ->. Qed.

Lemma hit_key_inj o r1 r2 :
  (forall a, ip r1 = Some a -> a <> "undefined"%js) ->
  (forall a, ip r2 = Some a -> a <> "undefined"%js) ->
  hit_key o r1 = hit_key o r2 -> ip r1 = ip r2.
Proof.
  unfold hit_key. intros H1 H2 H.
  apply app_inv_head in H. simpl in H. injection H as H.
  destruct (ip r1) as [a|], (ip r2) as [b|]; subst; try reflexivity.
  - now destruct (H1 _ eq_refl).
  - now destruct (H2 _ eq_refl).
Qed.

Lemma first_of_window hits now r :
  (forall e, hits !! hit_key askRateLimit r = Some e -> resetAtMs e <= now) ->
  rateLimiter askRateLimit hits now r =
    (<[hit_key askRateLimit r := {| count := 1; resetAtMs := now + 60000 |}]> hits,
     expected 1 (now + 60000) now r).
Proof.
  intros Hfresh. unfold rateLimiter.
  destruct (hits !! hit_key askRateLimit r) as [e|] eqn:He; [|reflexivity].
  specialize (Hfresh e eq_refl).
  destruct (Z.leb_spec (resetAtMs e) now); [reflexivity | lia].
Qed.

Lemma later_in_window hits now r c reset :
  hits !! hit_key askRateLimit r = Some {| count := c; resetAtMs := reset |} ->
  now < reset ->
  rateLimiter askRateLimit hits now r =
    (<[hit_key askRateLimit r := {| count := c + 1; resetAtMs := reset |}]> hits,
     expected (c + 1) reset now r).
Proof.
  intros He Hlt. unfold rateLimiter. rewrite He. cbn [resetAtMs count].
  destruct (Z.leb_spec reset now); [lia|].
  unfold expected. cbn [max askRateLimit].
  destruct (Z.ltb_spec 10 (c + 1)), (Z.leb_spec (c + 1) 10); try lia; reflexivity.
Qed.

Lemma serve_in_window a reset calls : forall hits c,
  Forall (from_ip a reset) calls ->
  (forall call, call ∈ calls ->
     hits !! hit_key askRateLimit (snd call) = Some {| count := c; resetAtMs := reset |}) ->
  forall i now r, calls !! i = Some (now, r) ->
    (serve askRateLimit hits calls).2 !! i = Some (expected (c + Z.of_nat i + 1) reset now r).
Proof.
  induction calls as [|[t q] calls IH]; intros hits c Hall Hkey i now r Hi; [done|].
  apply Forall_cons in Hall as [[Hip Ht] Hall']. cbn in Hip, Ht.
  assert (Hq : hits !! hit_key askRateLimit q = Some {| count := c; resetAtMs := reset |}).
  { apply (Hkey (t, q)). left. }
  cbn [serve]. rewrite (later_in_window _ _ _ _ _ Hq Ht).
  destruct (serve askRateLimit _ calls) as [hits2 outs] eqn:Hs.
  destruct i as [|i]; cbn in Hi |- *.
  - injection Hi as -> ->. do 2 f_equal. lia.
  - specialize (IH (<[hit_key askRateLimit q := {| count := c + 1; resetAtMs := reset |}]> hits)
                  (c + 1) Hall').
    rewrite Hs in IH. rewrite (IH) with (now := now) (r := r); [| |exact Hi].
    + do 2 f_equal. lia.
    + intros [t' q'] Hin.
      rewrite Forall_forall in Hall'. destruct (Hall' _ Hin) as [Hip' _]. cbn [snd] in Hip' |- *.
      rewrite (hit_key_ip q' q) by congruence.
      apply lookup_insert_eq.
Qed.

(** C5.  With the limiter of [/api/ask] (window 60 s, max 10) and one
    client IP: when a request at [t0] opens a window (no counter for the
    key, or a counter whose [resetAtMs] is at or before [t0]) and the later
    requests of that IP arrive before [t0 + 60000], request number [n]
    (counting from 1) passes for [n <= 10] and is answered 429 with the
    [{message, requestId}] envelope and [Retry-After] = max(1,
    ceil((reset - now)/1000)) >= 1 for [n >= 11]; every answer carries
    [X-RateLimit-Limit] = 10, [X-RateLimit-Remaining] = max(0, 10 - n) and
    [X-RateLimit-Reset] = ceil((t0 + 60000)/1000); the opening request
    leaves the counter at count 1 with [resetAtMs] = [t0 + 60000]. *)
Theorem rate_limit_fixed_window :
  forall hits a t0 r0 calls,
    ip r0 = a ->
    (forall e, hits !! hit_key askRateLimit r0 = Some e -> resetAtMs e <= t0) ->
    Forall (from_ip a (t0 + 60000)) calls ->
    forall i now r, ((t0, r0) :: calls) !! i = Some (now, r) ->
      let n := Z.of_nat i + 1 in
      (serve askRateLimit hits ((t0, r0) :: calls)).2 !! i
        = Some (expected n (t0 + 60000) now r)
      /\ (n <= 10 -> exists h, expected n (t0 + 60000) now r = Next h)
      /\ (10 < n -> exists h s b,
            expected n (t0 + 60000) now r = Respond 429 h b
            /\ Retry_After h = Some s /\ 1 <= s
            /\ b = {| message := "Too Many Requests, please try again later"%js;
                      body_requestId := requestId r |})
      /\ (rateLimiter askRateLimit hits t0 r0).1 !! hit_key askRateLimit r0
          = Some {| count := 1; resetAtMs := t0 + 60000 |}.
Proof.
  intros hits a t0 r0 calls Hip Hfresh Hall i now r Hi n.
  split; [|split; [|split]]; [| | |rewrite (first_of_window _ _ _ Hfresh); apply lookup_insert_eq].
  - cbn [serve]. rewrite (first_of_window _ _ _ Hfresh).
    destruct (serve askRateLimit _ calls) as [hits2 outs] eqn:Hs.
    destruct i as [|i]; cbn in Hi |- *.
    + injection Hi as -> ->. reflexivity.
    + pose proof (serve_in_window a (t0 + 60000) calls
        (<[hit_key askRateLimit r0 := {| count := 1; resetAtMs := t0 + 60000 |}]> hits) 1 Hall) as H.
      rewrite Hs in H. rewrite H with (now := now) (r := r); [| |exact Hi].
      * subst n. do 2 f_equal. lia.
      * intros [t' q'] Hin. rewrite Forall_forall in Hall.
        destruct (Hall _ Hin) as [Hip' _]. cbn [snd] in Hip' |- *.
        rewrite (hit_key_ip q' r0) by congruence. apply lookup_insert_eq.
  - intros Hn. unfold expected. destruct (Z.leb_spec n 10); [eauto | lia].
  - intros Hn. unfold expected. destruct (Z.leb_spec n 10); [lia|].
    eexists _, _, _. split; [reflexivity|]. cbn. split; [reflexivity|]. split; [lia | reflexivity].
Qed.

(** A request arriving at or after [resetAtMs] starts a
    fresh window with count 1 (and so passes with nine requests left). *)
Lemma rate_limit_new_window hits now r e :
  hits !! hit_key askRateLimit r = Some e ->
  resetAtMs e <= now ->
  exists hits',
    rateLimiter askRateLimit hits now r = (hits', expected 1 (now + 60000) now r)
    /\ hits' !! hit_key askRateLimit r = Some {| count := 1; resetAtMs := now + 60000 |}.
Proof.
  intros He Hle. eexists. split.
  - apply first_of_window. intros e' He'. congruence.
  - apply lookup_insert_eq.
Qed.

(** The window of one client: twelve requests within a minute. *)
Lemma rate_limit_fixed_window_witness :
  let r := {| ip := Some "10.0.0.1"%js; requestId := Some "req-12"%js |} in
  let calls := map (fun t => (t, r)) [1; 2; 3; 4; 5; 6; 7; 8; 9; 10; 59999] in
  (serve askRateLimit ∅ ((0, r) :: calls)).2 !! 11%nat
  = Some (Respond 429
            {| X_RateLimit_Limit := 10; X_RateLimit_Remaining := 0;
               X_RateLimit_Reset := 60; Retry_After := Some 1 |}
            {| message := "Too Many Requests, please try again later"%js;
               body_requestId := Some "req-12"%js |}).
Proof.
  intros r calls.
  refine (proj1 (rate_limit_fixed_window ∅ (Some "10.0.0.1"%js) 0 r calls
                   eq_refl _ _ 11%nat 59999 r eq_refl)).
  - intros e He. rewrite lookup_empty in He. discriminate He.
  - repeat constructor; cbn; lia.
Defined.

(** *** The hit table *)

Lemma rateLimiter_dom o hits now r :
  dom (rateLimiter o hits now r).1 = {[hit_key o r]} ∪ dom hits.
Proof.
  unfold rateLimiter.
  destruct (hits !! hit_key o r) as [e|]; [destruct (resetAtMs e <=? now)|];
    [|destruct (max o <? count e + 1)|]; cbn [fst]; apply dom_insert_L.
Qed.

Lemma serve_dom o calls : forall hits,
  dom (serve o hits calls).1 = list_to_set (map (fun c => hit_key o c.2) calls) ∪ dom hits.
Proof.
  induction calls as [|[t r] calls IH]; intros hits; cbn [serve map list_to_set].
  - now rewrite (left_id_L ∅ (∪)).
  - pose proof (rateLimiter_dom o hits t r) as H1.
    destruct (rateLimiter o hits t r) as [hits1 out].
    specialize (IH hits1). destruct (serve o hits1 calls) as [hits2 outs].
    cbn [fst snd] in *. rewrite IH, H1.
    rewrite !(assoc_L (∪)). f_equal. apply (comm_L (∪)).
Qed.

(** C8.  The hit table of the limiter is never pruned: it has neither a
    capacity cap nor an eviction of expired counters.  After requests from
    pairwise distinct client addresses, whenever they arrive, it holds one
    counter for each of them, so its size is the number of clients seen. *)
Theorem hit_table_grows_with_every_client (calls : list (Z * jsstring)) :
  NoDup (map snd calls) ->
  size (serve askRateLimit ∅ (map client calls)).1 = length calls.
Proof.
  intros Hnd. rewrite <- size_dom, serve_dom, dom_empty_L, (right_id_L ∅ (∪)).
  assert (E : map (fun c => hit_key askRateLimit c.2) (map client calls)
              = (fun a : list ascii => "ask:"%js ++ a) <$> map snd calls).
  { clear. induction calls as [|c l IH]; [reflexivity|]. cbn. f_equal. exact IH. }
  rewrite E, size_list_to_set.
  - now rewrite length_fmap, length_map.
  - apply NoDup_fmap_2; try exact Hnd. intros a b. apply app_inv_head.
Qed.

(** Three clients, the first two long after their windows have ended. *)
Lemma hit_table_grows_with_every_client_witness :
  size (serve askRateLimit ∅
          (map client [(0, "10.0.0.1"%js); (1, "10.0.0.2"%js);
                       (86400000, "10.0.0.3"%js)])).1 = 3%nat.
Proof.
  apply (hit_table_grows_with_every_client
           [(0, "10.0.0.1"%js); (1, "10.0.0.2"%js); (86400000, "10.0.0.3"%js)]).
  cbn [map snd]. refine (bool_decide_unpack _ _). vm_compute. exact I.
Defined.

End RateLimiterFacts.

(** ** The pruned maps of server/routes.ts *)

Module RoutesFacts.
Import Routes.

Lemma delete_oldest_length {A} maxEntries (m : list A) :
  (length (delete_oldest maxEntries m) <= maxEntries)%nat.
Proof. unfold delete_oldest. rewrite length_skipn. lia. Qed.

(** After every call the response cache holds at most 500 entries, none
    of them expired when the pruning pass ran. *)
Lemma ask_cache_is_bounded st now :
  (length (maybePruneAskCache st now).2 <= 500)%nat.
Proof.
  unfold maybePruneAskCache.
  destruct (negb _ && (length st.2 <? 200)%nat) eqn:E; cbn [snd].
  - apply andb_prop in E as [_ E]. apply Nat.ltb_lt in E. lia.
  - destruct (Nat.leb_spec (length (List.filter (fun e => negb (expiresAtMs e.2 <=? now)) st.2)) 500);
      cbn [snd]; [assumption | apply delete_oldest_length].
Qed.

(** After every call the profile map holds at most 5000 entries. *)
Lemma anon_profiles_are_bounded st now :
  (length (maybePruneAnonProfiles st now).2 <= 5000)%nat.
Proof.
  unfold maybePruneAnonProfiles.
  destruct (negb _ && (length st.2 <? 2000)%nat) eqn:E; cbn [snd].
  - apply andb_prop in E as [_ E]. apply Nat.ltb_lt in E. lia.
  - match goal with |- context [(length ?l <=? 5000)%nat] =>
      destruct (Nat.leb_spec (length l) 5000) end;
      cbn [snd]; [assumption | apply delete_oldest_length].
Qed.

End RoutesFacts.

(** ** LLM adapter *)

Module OpenRouterFacts.
Import JsNumber OpenRouter JsStringFacts.

Lemma has_spec o s : has o s = true <-> o = Some s.
Proof.
  destruct o as [x|]; cbn; [|split; congruence].
  rewrite eqb_eq. split; congruence.
Qed.

(** The retryable network errors: an [AbortError] (the timeout of
    [fetchWithTimeout] aborts the request) or one of five errno codes. *)
Lemma isRetryableNetworkError_spec err :
  isRetryableNetworkError err = true <->
  exists name code, err = ErrorObject name code /\
    (name = Some "AbortError"%js \/
     In code [Some "ETIMEDOUT"%js; Some "ECONNRESET"%js; Some "EAI_AGAIN"%js;
              Some "ENOTFOUND"%js; Some "ECONNREFUSED"%js]).
Proof.
  destruct err as [|name code]; cbn [isRetryableNetworkError].
  - split; [discriminate | intros (? & ? & [=] & _)].
  - rewrite !orb_true_iff, !has_spec. split.
    + intros H. exists name, code. split; [reflexivity|]. cbn. intuition auto.
    + intros (? & ? & [= <- <-] & H). cbn in H. intuition auto.
Qed.

Lemma retry_after_absent : getRetryAfterMs None = None.
Proof. reflexivity. Qed.


Lemma retry_after_bounds o ms : getRetryAfterMs o = Some ms -> 1000 <= ms <= 10000.
Proof.
  unfold getRetryAfterMs. destruct o as [h|]; [|discriminate].
  destruct (negb (truthy h)); [discriminate|].
  destruct (parseInt10 h) as [s| |]; try discriminate.
  destruct (Z.leb_spec s 0); [discriminate|]. intros [= <-]. lia.
Qed.

Lemma attempts_bounded remaining : forall attempt world,
  (fetches (attempt_loop remaining attempt world).1 <= remaining)%nat.
Proof.
  induction remaining as [|rem IH]; intros attempt world; [cbn; lia|].
  cbn [attempt_loop].
  pose proof (IH (S attempt) world) as Hrec.
  destruct (attempt_loop rem (S attempt) world) as [log r].
  cbn [fst] in Hrec.
  destruct (world attempt) as [err|status ra body].
  - destruct (_ && _); cbn; unfold fetches in *; cbn; lia.
  - destruct (negb (ok status)).
    + destruct (_ || _); [cbn; lia|].
      destruct (_ && _); cbn; unfold fetches in *; cbn; lia.
    + destruct body; try destruct (_ <? _)%nat; cbn; unfold fetches in *; cbn; lia.
Qed.

Lemma ok_spec s : ok s = true <-> 200 <= s <= 299.
Proof. unfold ok. lia. Qed.

Lemma auth_spec s : (s =? 401) || (s =? 403) = true <-> s = 401 \/ s = 403.
Proof. lia. Qed.


Lemma second_attempt world :
  attempt_loop 1 2 world = ([Fetch], last_attempt (world 2%nat)).
Proof.
  cbn. destruct (world 2%nat) as [err|status ra body]; cbn.
  - reflexivity.
  - destruct (negb (ok status)); [destruct (_ || _)|destruct body]; reflexivity.
Qed.

Lemma two_attempts world :
  openRouterChatCompletion world =
    match first_attempt (world 1%nat) with
    | inl (Some ms) => ([Fetch; Sleep ms; Fetch], last_attempt (world 2%nat))
    | inl None => ([], inl (HttpError 502 "LLM provider error"%js))
    | inr r => ([Fetch], r)
    end.
Proof.
  unfold openRouterChatCompletion, maxAttempts.
  change (attempt_loop 2 1 world) with
    (let retry ms :=
        let '(log, r) := attempt_loop 1 2 world in (Fetch :: Sleep ms :: log, r) in
     let throw e : list Action * (Thrown + jsstring) := ([Fetch], inl e) in
     match world 1%nat with
     | Rejected err =>
         if (1 <? 2)%nat && isRetryableNetworkError err then retry 350 else throw (Foreign err)
     | Responded status retry_after body =>
         if negb (ok status) then
           if (status =? 401) || (status =? 403)
           then throw (HttpError 401 "LLM provider authentication failed"%js)
           else if (1 <? 2)%nat && isTransientStatus status
           then retry (default 350 (getRetryAfterMs retry_after))
           else throw (HttpError 502 ("LLM provider error ("%js ++ of_N (Z.to_N status) ++ ")"%js))
         else match body with
              | InvalidJson =>
                  if (1 <? 2)%nat then retry 200
                  else throw (HttpError 502 "Invalid JSON from LLM provider"%js)
              | UnexpectedShape =>
                  if (1 <? 2)%nat then retry 200
                  else throw (HttpError 502 "Unexpected response from LLM provider"%js)
              | Completion content => ([Fetch], inr content)
              end
     end).
  rewrite second_attempt. cbv zeta. change (1 <? 2)%nat with true. cbn [andb].
  unfold first_attempt.
  destruct (world 1%nat) as [err|status ra body].
  - destruct (isRetryableNetworkError err); reflexivity.
  - destruct (negb (ok status)).
    + destruct (_ || _); [reflexivity|]. destruct (isTransientStatus status); reflexivity.
    + destruct body; reflexivity.
Qed.



(** The single-attempt revision agrees on what needs no retry: one fetch,
    401 for 401/403, 502 for any other failure, the content on success. *)
Lemma single_attempt_policy (world : nat -> FetchOutcome) :
  let '(log, result) := OpenRouterSingleAttempt.openRouterChatCompletion world in
  log = [Fetch]
  /\ (forall status ra body,
        world 1%nat = Responded status ra body -> status = 401 \/ status = 403 ->
        exists m, result = inl (HttpError 401 m))
  /\ (forall status ra body,
        world 1%nat = Responded status ra body -> isTransientStatus status = true ->
        exists m, result = inl (HttpError 502 m))
  /\ (forall status ra content,
        world 1%nat = Responded status ra (Completion content) -> ok status = true ->
        result = inr content).
Proof.
  unfold OpenRouterSingleAttempt.openRouterChatCompletion.
  destruct (world 1%nat) as [err|status ra body].
  - repeat split; intros; discriminate.
  - destruct (ok status) eqn:Hok; cbn [negb].
    + destruct body; repeat split; try (intros ? ? ? [= <- <- <-]; intros);
        try discriminate; try (unfold ok, isTransientStatus in *; lia); try congruence.
    + destruct ((status =? 401) || (status =? 403)) eqn:Hauth;
        repeat split; try (intros ? ? ? [= <- <- <-]; intros);
        try (unfold ok, isTransientStatus in *; lia); try congruence; eauto.
Qed.

End OpenRouterFacts.

(** ** Canonicalisation on the reference platform *)

Module CanonFacts.
Import Canon Reference CanonicalForm JsStringFacts.

#[local] Existing Instance Reference.platform.

(** *** Splitting *)

Lemma split_at_app p a b :
  forallb (fun c => negb (p c)) a = true ->
  match b with [] => True | c :: _ => p c = true end ->
  split_at p (a ++ b) = (a, b).
Proof.
  intros Ha Hb. induction a as [|c a IH].
  - destruct b as [|c b]; [reflexivity|]. cbn. now rewrite Hb.
  - cbn in Ha. apply andb_prop in Ha as [Hc Ha]. apply negb_true_iff in Hc.
    cbn. rewrite Hc. now rewrite (IH Ha).
Qed.

Lemma split_at_spec p s :
  let '(a, b) := split_at p s in
  s = a ++ b
  /\ forallb (fun c => negb (p c)) a = true
  /\ match b with [] => True | c :: _ => p c = true end.
Proof.
  induction s as [|c s IH]; cbn; [auto|].
  destruct (p c) eqn:Hc; [cbn; auto|].
  destruct (split_at p s) as [a b]. destruct IH as (-> & Ha & Hb).
  cbn. rewrite Hc. auto.
Qed.

(** *** Lower case *)

Lemma lower_chr_idem c : lower_chr (lower_chr c) = lower_chr c.
Proof. destruct c as [[] [] [] [] [] [] [] []]; reflexivity. Qed.

Lemma toLowerCase_idem s : toLowerCase (toLowerCase s) = toLowerCase s.
Proof.
  unfold toLowerCase. rewrite map_map. apply map_ext. intros c. apply lower_chr_idem.
Qed.

Lemma toLowerCase_skipn k s : toLowerCase (skipn k s) = skipn k (toLowerCase s).
Proof. unfold toLowerCase. now rewrite skipn_map. Qed.

Lemma strip_www_lower s :
  toLowerCase s = s -> toLowerCase (strip_www s) = strip_www s.
Proof.
  intros Hs. unfold strip_www. destruct (startsWith s "www."%js); [|assumption].
  rewrite toLowerCase_skipn. now rewrite Hs.
Qed.

(** *** Paths *)

Lemma drop_slashes_suffix s : exists t, s = t ++ drop_slashes s.
Proof.
  induction s as [|c s IH]; cbn; [now exists []|].
  destruct (chr_eqb c "/"); [|now exists []].
  destruct IH as [t Ht]. exists (c :: t). cbn. now rewrite <- Ht.
Qed.

Lemma drop_slashes_idem s : drop_slashes (drop_slashes s) = drop_slashes s.
Proof.
  induction s as [|c s IH]; cbn; [reflexivity|].
  destruct (chr_eqb c "/") eqn:E; [assumption|]. cbn. now rewrite E.
Qed.

Lemma strip_trailing_prefix s : exists t, s = strip_trailing_slashes s ++ t.
Proof.
  unfold strip_trailing_slashes. destruct (drop_slashes_suffix (rev s)) as [t Ht].
  exists (rev t). rewrite <- rev_app_distr, <- Ht. now rewrite rev_involutive.
Qed.

Lemma strip_trailing_idem s :
  strip_trailing_slashes (strip_trailing_slashes s) = strip_trailing_slashes s.
Proof.
  unfold strip_trailing_slashes. now rewrite rev_involutive, drop_slashes_idem.
Qed.

Lemma canonical_path_idem p : canonical_path (canonical_path p) = canonical_path p.
Proof.
  unfold canonical_path.
  destruct (truthy (strip_trailing_slashes p)) eqn:E.
  - now rewrite strip_trailing_idem, E.
  - reflexivity.
Qed.

Lemma startsWith_app s t p : startsWith s p = true -> startsWith (s ++ t) p = true.
Proof.
  revert s. induction p as [|x p IH]; intros [|y s]; cbn; try congruence.
  intros [Hx Hp]%andb_prop. rewrite Hx. now apply IH.
Qed.

Lemma includes_app s t p : includes s p = true -> includes (s ++ t) p = true.
Proof.
  induction s as [|c s IH]; cbn.
  - rewrite orb_false_r. intros H. destruct p; [now destruct t|discriminate].
  - intros [H|H]%orb_prop; apply orb_true_iff; [left; now apply (startsWith_app (c :: s))|right; auto].
Qed.

Lemma includes_suffix s t p : includes t p = true -> includes (s ++ t) p = true.
Proof.
  intros H. induction s as [|c s IH]; cbn; [assumption|].
  apply orb_true_iff. now right.
Qed.

Lemma path_ok_prefix a b : path_ok (a ++ b) = true -> path_ok a = true.
Proof.
  unfold path_ok. rewrite !andb_true_iff, !negb_true_iff, forallb_app, andb_true_iff.
  intros [[[[Ha _] H1] H2] H3]. repeat split; [assumption| | |];
    match goal with |- includes a ?p = false =>
      destruct (includes a p) eqn:E; [|reflexivity];
      apply (includes_app a b) in E; congruence end.
Qed.

Lemma canonical_path_ok p :
  path_ok p = true -> (exists r, p = "/"%char :: r) ->
  path_ok (canonical_path p) = true
  /\ (exists r, canonical_path p = "/"%char :: r)
  /\ truthy (canonical_path p) = true.
Proof.
  intros Hok [r ->]. unfold canonical_path.
  destruct (strip_trailing_prefix ("/"%char :: r)) as [t Ht].
  destruct (strip_trailing_slashes ("/"%char :: r)) as [|c s] eqn:E; cbn [truthy].
  - repeat split; eauto.
  - rewrite Ht in Hok. apply path_ok_prefix in Hok.
    cbn in Ht. injection Ht as <- _. repeat split; eauto.
Qed.

(** *** Hosts *)

Lemma forallb_weaken {A} (p q : A -> bool) l :
  (forall x, p x = true -> q x = true) -> forallb p l = true -> forallb q l = true.
Proof.
  intros Hpq. induction l as [|x l IH]; cbn; [auto|].
  intros [Hx Hl]%andb_prop. rewrite (Hpq _ Hx). now apply IH.
Qed.

Lemma startsWith_split s p : startsWith s p = true -> s = p ++ skipn (length p) s.
Proof.
  revert s. induction p as [|x p IH]; intros [|y s]; cbn; try congruence.
  intros [Hx Hp]%andb_prop. apply chr_eqb_eq in Hx as ->. f_equal. now apply IH.
Qed.

Lemma host_char_plain c :
  host_char c = true ->
  one_of "/\?#"%js c = false /\ chr_eqb ":" c = false /\ one_of "/\"%js c = false.
Proof.
  destruct c as [[] [] [] [] [] [] [] []]; vm_compute; intros H;
    try discriminate H; repeat split.
Qed.

Lemma path_char_plain c : path_char c = true -> one_of "?#"%js c = false.
Proof.
  destruct c as [[] [] [] [] [] [] [] []]; vm_compute; intros H;
    try discriminate H; reflexivity.
Qed.

Lemma host_ok_www h :
  host_ok ("www."%js ++ h) = true -> h <> [] -> host_ok h = true.
Proof.
  unfold host_ok. rewrite !andb_true_iff, !negb_true_iff.
  intros [[[[_ Hc] Hl] _] Hx] Hne.
  destruct h as [|c h]; [congruence|].
  repeat split.
  - cbn in Hc. exact Hc.
  - cbn in Hl. exact Hl.
  - destruct (startsWith (c :: h) "xn--"%js) eqn:E; [|reflexivity].
    rewrite <- Hx. symmetry.
    change (includes ("www."%js ++ c :: h) ".xn--"%js)
      with (false || (false || (false || (startsWith (c :: h) "xn--"%js
              || includes (c :: h) ".xn--"%js)))).
    now rewrite E.
  - destruct (includes (c :: h) ".xn--"%js) eqn:E; [|reflexivity].
    rewrite <- Hx. symmetry. now apply includes_suffix.
Qed.

Lemma host_ok_strip h :
  host_ok h = true -> strip_www h <> [] -> host_ok (strip_www h) = true.
Proof.
  unfold strip_www. destruct (startsWith h "www."%js) eqn:E; [|auto].
  apply startsWith_split in E. cbn [length] in E.
  intros Hok Hne. apply host_ok_www; [|assumption]. now rewrite <- E.
Qed.

Lemma host_ok_chars h : host_ok h = true -> forallb host_char h = true.
Proof. unfold host_ok. rewrite !andb_true_iff. tauto. Qed.

(** *** Queries *)

Lemma decode_encode_chr c r : decode (encode_chr c ++ r) = c :: decode r.
Proof. destruct c as [[] [] [] [] [] [] [] []]; reflexivity. Qed.

Lemma decode_encode s : decode (encode s) = s.
Proof.
  induction s as [|c s IH]; [reflexivity|].
  cbn [encode flat_map]. rewrite decode_encode_chr. f_equal. exact IH.
Qed.

Lemma encode_chr_plain c : forallb plain (encode_chr c) = true.
Proof. destruct c as [[] [] [] [] [] [] [] []]; reflexivity. Qed.

Lemma encode_plain s : forallb plain (encode s) = true.
Proof.
  induction s as [|c s IH]; [reflexivity|].
  cbn [encode flat_map]. rewrite forallb_app, encode_chr_plain. exact IH.
Qed.

Lemma encode_chr_escapes c r :
  ascii7 c = true -> escapes_ok (encode_chr c ++ r) = escapes_ok r.
Proof.
  destruct c as [[] [] [] [] [] [] [] []]; intros H; try discriminate H; reflexivity.
Qed.

Lemma encode_escapes s r :
  forallb ascii7 s = true -> escapes_ok (encode s ++ r) = escapes_ok r.
Proof.
  induction s as [|c s IH]; [reflexivity|].
  cbn [encode flat_map forallb]. intros [Hc Hs]%andb_prop.
  rewrite <- app_assoc, encode_chr_escapes by assumption. now apply IH.
Qed.

Lemma plain_query c : plain c = true -> query_char c = true.
Proof. unfold plain. rewrite !andb_true_iff. tauto. Qed.

Lemma plain_not_amp c : plain c = true -> negb (chr_eqb "&" c) = true.
Proof. unfold plain. rewrite !andb_true_iff. tauto. Qed.

Lemma plain_not_eq c : plain c = true -> negb (chr_eqb "=" c) = true.
Proof. unfold plain. rewrite !andb_true_iff. tauto. Qed.

Lemma query_char_not_hash c : query_char c = true -> negb (chr_eqb "#" c) = true.
Proof.
  destruct c as [[] [] [] [] [] [] [] []]; vm_compute; intros H;
    try discriminate H; reflexivity.
Qed.

Lemma parse_pair_encode e : parse_pair (encode_pair e) = e.
Proof.
  destruct e as [k v]. unfold parse_pair, encode_pair. cbn [fst snd].
  rewrite split_at_app.
  - cbn [tl app]. now rewrite !decode_encode.
  - apply (forallb_weaken plain); [apply plain_not_eq | apply encode_plain].
  - reflexivity.
Qed.

Lemma encode_pair_plain e :
  forallb (fun c => negb (chr_eqb "&" c)) (encode_pair e) = true.
Proof.
  unfold encode_pair. rewrite forallb_app. apply andb_true_iff. split.
  - apply (forallb_weaken plain); [apply plain_not_amp | apply encode_plain].
  - cbn. apply (forallb_weaken plain); [apply plain_not_amp | apply encode_plain].
Qed.

Lemma encode_pair_query e : forallb query_char (encode_pair e) = true.
Proof.
  unfold encode_pair. rewrite forallb_app. apply andb_true_iff. split.
  - apply (forallb_weaken plain); [apply plain_query | apply encode_plain].
  - cbn. apply (forallb_weaken plain); [apply plain_query | apply encode_plain].
Qed.

Lemma encode_pair_escapes e r :
  ascii_entry e -> escapes_ok (encode_pair e ++ r) = escapes_ok r.
Proof.
  intros [Hk Hv]. unfold encode_pair. rewrite <- !app_assoc.
  rewrite encode_escapes by assumption. cbn [app escapes_ok].
  change (chr_eqb "=" "%") with false. cbn [andb].
  now apply encode_escapes.
Qed.

Lemma encode_pair_nonempty e : exists c s, encode_pair e = c :: s.
Proof.
  unfold encode_pair. destruct (encode (fst e)) as [|c s]; cbn; eauto.
Qed.

Lemma parse_pieces_join l fuel :
  (length l <= fuel)%nat -> l <> [] ->
  parse_pieces fuel (join "&"%js (map encode_pair l)) = l.
Proof.
  revert fuel. induction l as [|e l IH]; intros fuel Hf Hne; [congruence|].
  destruct fuel as [|f]; [cbn in Hf; lia|].
  destruct (encode_pair_nonempty e) as (c & s & Hcs).
  destruct l as [|e' l].
  - cbn [map join parse_pieces].
    rewrite <- (app_nil_r (encode_pair e)), split_at_app;
      [|apply encode_pair_plain|exact I].
    rewrite Hcs at 1. now rewrite parse_pair_encode.
  - change (join "&"%js (map encode_pair (e :: e' :: l)))
      with (encode_pair e ++ "&"%js ++ join "&"%js (map encode_pair (e' :: l))).
    cbn [parse_pieces]. rewrite split_at_app; [|apply encode_pair_plain|reflexivity].
    cbn [app]. rewrite Hcs at 1. rewrite parse_pair_encode.
    rewrite IH; [reflexivity| cbn in *; lia | congruence].
Qed.

Lemma join_length l :
  (length l <= S (length (join "&"%js (map encode_pair l))))%nat.
Proof.
  induction l as [|e l IH]; [cbn; lia|].
  destruct (encode_pair_nonempty e) as (c & s & Hcs).
  destruct l as [|e' l].
  - cbn. lia.
  - change (join "&"%js (map encode_pair (e :: e' :: l)))
      with (encode_pair e ++ "&"%js ++ join "&"%js (map encode_pair (e' :: l))).
    rewrite Hcs. cbn [length app] in *. rewrite length_app. cbn [length]. lia.
Qed.

Lemma parse_query_join l :
  l <> [] -> parse_query (join "&"%js (map encode_pair l)) = l.
Proof.
  intros Hne. unfold parse_query. apply parse_pieces_join; [|assumption].
  pose proof (join_length l). lia.
Qed.

Lemma join_clean l :
  Forall ascii_entry l -> clean (join "&"%js (map encode_pair l)) = true.
Proof.
  unfold clean. induction 1 as [|e l He Hl IH]; [reflexivity|].
  destruct l as [|e' l].
  - cbn [map join]. apply andb_true_iff. split; [apply encode_pair_query|].
    rewrite <- (app_nil_r (encode_pair e)). now rewrite encode_pair_escapes.
  - change (join "&"%js (map encode_pair (e :: e' :: l)))
      with (encode_pair e ++ "&"%js ++ join "&"%js (map encode_pair (e' :: l))).
    apply andb_prop in IH as [IH1 IH2]. apply andb_true_iff. split.
    + rewrite forallb_app, encode_pair_query. cbn. exact IH1.
    + rewrite encode_pair_escapes by assumption. cbn. exact IH2.
Qed.

(** **** What a parsed query decodes to *)

Lemma escapes_ok_app_r a b : escapes_ok (a ++ b) = true -> escapes_ok b = true.
Proof.
  induction a as [|c a IH]; [auto|]. cbn [app escapes_ok].
  intros [_ H]%andb_prop. auto.
Qed.

Lemma escapes_ok_app_l a b : escapes_ok (a ++ b) = true -> escapes_ok a = true.
Proof.
  induction a as [|c a IH]; [auto|]. cbn [app escapes_ok].
  intros [H1 H2]%andb_prop. rewrite (IH H2), andb_true_r.
  destruct (chr_eqb c "%"); [|reflexivity].
  destruct a as [|h [|l a]]; try reflexivity. exact H1.
Qed.

Lemma clean_app a b : clean (a ++ b) = true -> clean a = true /\ clean b = true.
Proof.
  unfold clean. rewrite forallb_app, !andb_true_iff. intros [[Ha Hb] He].
  repeat split; eauto using escapes_ok_app_l, escapes_ok_app_r.
Qed.

Lemma clean_tl s : clean s = true -> clean (tl s) = true.
Proof.
  destruct s as [|c s]; [auto|]. intros H. now apply (clean_app [c] s) in H.
Qed.

Lemma clean_split p s :
  clean s = true ->
  clean (fst (split_at p s)) = true /\ clean (snd (split_at p s)) = true.
Proof.
  intros H. pose proof (split_at_spec p s) as Hs.
  destruct (split_at p s) as [a b]. destruct Hs as (-> & _). now apply clean_app.
Qed.

Lemma query_char_ascii c : query_char c = true -> ascii7 c = true.
Proof.
  destruct c as [[] [] [] [] [] [] [] []]; vm_compute; intros H;
    try discriminate H; reflexivity.
Qed.

Lemma hex_value_small c : is_hex c = true -> (hex_value c < 16)%N.
Proof.
  destruct c as [[] [] [] [] [] [] [] []]; vm_compute; intros H;
    try discriminate H; reflexivity.
Qed.

Lemma unescaped_ascii h l :
  is_hex l = true -> (hex_value h <? 8)%N = true ->
  ascii7 (ascii_of_N (16 * hex_value h + hex_value l)) = true.
Proof.
  intros Hl Hh. apply hex_value_small in Hl. apply N.ltb_lt in Hh.
  unfold ascii7, code. rewrite N_ascii_embedding by lia. apply N.ltb_lt. lia.
Qed.

Lemma decode_ascii_bounded n s :
  (length s <= n)%nat -> clean s = true -> forallb ascii7 (decode s) = true.
Proof.
  revert s. induction n as [|n IH]; intros [|c r] Hn Hc; try reflexivity;
    [cbn in Hn; lia|].
  assert (Hr : clean r = true) by exact (clean_tl (c :: r) Hc).
  assert (IHr : forallb ascii7 (decode r) = true) by (apply IH; [cbn in Hn; lia|exact Hr]).
  assert (Hq : ascii7 c = true).
  { apply query_char_ascii. unfold clean in Hc. cbn in Hc.
    now apply andb_prop in Hc as [[? _]%andb_prop _]. }
  cbn [decode].
  destruct (chr_eqb c "+"); [cbn [forallb]; now rewrite IHr|].
  destruct (chr_eqb c "%") eqn:Hp; [|cbn [forallb]; now rewrite Hq, IHr].
  destruct r as [|h [|l r']]; try (cbn [forallb]; now rewrite Hq, IHr).
  destruct (is_hex h && is_hex l) eqn:Hhex; [|cbn [forallb]; now rewrite Hq, IHr].
  cbn [forallb]. apply andb_true_iff. split.
  - apply andb_prop in Hhex as [Hh Hl]. apply unescaped_ascii; [exact Hl|].
    unfold clean in Hc. apply andb_prop in Hc as [_ He].
    cbn [escapes_ok] in He. rewrite Hp in He.
    apply andb_prop in He as [He _].
    rewrite Hh, Hl in He. exact He.
  - apply IH; [cbn in Hn; lia|]. now apply clean_tl, clean_tl in Hr.
Qed.

Lemma decode_ascii s : clean s = true -> forallb ascii7 (decode s) = true.
Proof. now apply (decode_ascii_bounded (length s)). Qed.

Lemma parse_pair_ascii piece : clean piece = true -> ascii_entry (parse_pair piece).
Proof.
  intros H. unfold parse_pair.
  destruct (clean_split (chr_eqb "=") piece H) as [Ha Hb].
  destruct (split_at (chr_eqb "=") piece) as [a b]. cbn [fst snd] in *.
  split; cbn [fst snd]; apply decode_ascii; [assumption|now apply clean_tl].
Qed.

Lemma parse_pieces_ascii fuel q :
  clean q = true -> Forall ascii_entry (parse_pieces fuel q).
Proof.
  revert q. induction fuel as [|f IH]; intros q H; cbn [parse_pieces]; [constructor|].
  destruct (clean_split (chr_eqb "&") q H) as [Ha Hb].
  destruct (split_at (chr_eqb "&") q) as [a b]. cbn [fst snd] in *.
  assert (Hhere : Forall ascii_entry
            match a with [] => [] | _ => [parse_pair a] end).
  { destruct a; [constructor|]. constructor; [now apply parse_pair_ascii|constructor]. }
  destruct b as [|c q']; [exact Hhere|].
  apply Forall_app. split; [exact Hhere|]. apply IH. exact (clean_tl _ Hb).
Qed.

(** *** Sorting *)

Lemma compare_units_total a b :
  (compare_units a b <=? 0) = false -> (compare_units b a <=? 0) = true.
Proof.
  revert b. induction a as [|x a IH]; intros [|y b]; cbn; try (intros; lia).
  destruct (code x <? code y)%N eqn:E1, (code y <? code x)%N eqn:E2;
    try (intros; lia). apply IH.
Qed.

Lemma compare_total a b : (compare a b <=? 0) = false -> (compare b a <=? 0) = true.
Proof. apply compare_units_total. Qed.

Lemma insert_entry_ordered e l : ordered l -> ordered (insert_entry e l).
Proof.
  induction l as [|f l IH]; [cbn; auto|].
  intros Hl. cbn [insert_entry]. change localeCompare with compare.
  destruct (compare (fst e) (fst f) <=? 0) eqn:E; [cbn; auto|].
  apply compare_total in E.
  destruct l as [|g l]; [cbn; auto|].
  destruct Hl as [Hfg Hl]. specialize (IH Hl). cbn [insert_entry] in *.
  change localeCompare with compare in *.
  destruct (compare (fst e) (fst g) <=? 0); cbn [ordered] in *; auto.
Qed.

Lemma sort_entries_ordered l : ordered (sort_entries l).
Proof.
  induction l as [|e l IH]; [exact I|]. cbn. now apply insert_entry_ordered.
Qed.

Lemma sort_entries_fixed l : ordered l -> sort_entries l = l.
Proof.
  induction l as [|e l IH]; [reflexivity|].
  intros Hl. cbn [sort_entries fold_right]. fold (sort_entries l).
  destruct l as [|f l]; [reflexivity|]. destruct Hl as [Hef Hl].
  rewrite (IH Hl). cbn [insert_entry]. change localeCompare with compare.
  now rewrite Hef.
Qed.

Lemma insert_entry_In e l x : In x (insert_entry e l) <-> x = e \/ In x l.
Proof.
  induction l as [|f l IH]; cbn [insert_entry].
  - cbn. intuition congruence.
  - destruct (localeCompare (fst e) (fst f) <=? 0); cbn [In]; [intuition congruence|].
    rewrite IH. cbn [In]. intuition congruence.
Qed.

Lemma sort_entries_In l x : In x (sort_entries l) <-> In x l.
Proof.
  induction l as [|e l IH]; [reflexivity|].
  cbn [sort_entries fold_right]. fold (sort_entries l).
  rewrite insert_entry_In, IH. cbn [In]. intuition congruence.
Qed.

Lemma filter_fixed {A} (p : A -> bool) l :
  (forall x, In x l -> p x = true) -> List.filter p l = l.
Proof.
  induction l as [|x l IH]; [reflexivity|]. intros H. cbn.
  rewrite (H x) by now left. f_equal. apply IH. intros y Hy. apply H. now right.
Qed.

Lemma canonical_entries_idem l :
  canonical_entries (canonical_entries l) = canonical_entries l.
Proof.
  unfold canonical_entries at 1. rewrite filter_fixed.
  - apply sort_entries_fixed, sort_entries_ordered.
  - intros x Hx. unfold canonical_entries in Hx.
    apply sort_entries_In, List.filter_In in Hx. tauto.
Qed.

Lemma canonical_entries_ascii l :
  Forall ascii_entry l -> Forall ascii_entry (canonical_entries l).
Proof.
  intros H. apply List.Forall_forall. intros x Hx.
  apply sort_entries_In, List.filter_In in Hx as [Hx _].
  rewrite List.Forall_forall in H. now apply H.
Qed.

(** *** The parser on a canonical form *)

Lemma parse_scheme scheme x :
  scheme = "http"%js \/ scheme = "https"%js ->
  parse (scheme ++ ":"%char :: x) = parse_rest scheme x.
Proof. intros [-> | ->]; reflexivity. Qed.

Lemma parse_scheme_inv raw u :
  parse raw = Some u ->
  exists scheme rest,
    (scheme = "http"%js \/ scheme = "https"%js) /\ parse_rest scheme rest = Some u.
Proof.
  unfold parse. destruct (split_at (chr_eqb ":") raw) as [scheme [|c rest]];
    [discriminate|].
  destruct (JsString.eqb (toLowerCase scheme) "http"%js) eqn:E1.
  - apply eqb_eq in E1. cbn [orb]. eauto.
  - destruct (JsString.eqb (toLowerCase scheme) "https"%js) eqn:E2; [|discriminate].
    apply eqb_eq in E2. cbn [orb]. eauto.
Qed.

Lemma path_start c :
  one_of "/\?#"%js c = true -> path_char c = true -> c = "/"%char.
Proof.
  destruct c as [[] [] [] [] [] [] [] []]; vm_compute; intros H1 H2;
    try discriminate H1; try discriminate H2; reflexivity.
Qed.

Lemma parse_rest_inv scheme rest u :
  parse_rest scheme rest = Some u ->
  exists path query,
    protocol u = scheme ++ ":"%js
    /\ host_ok (hostname u) = true
    /\ toLowerCase (hostname u) = hostname u
    /\ path_ok path = true
    /\ (path = [] \/ exists r, path = "/"%char :: r)
    /\ pathname u = (if truthy path then path else "/"%js)
    /\ clean query = true
    /\ searchParams u = parse_query query.
Proof.
  unfold parse_rest.
  pose proof (split_at_spec (one_of "/\?#"%js) (skip_slashes rest)) as H3.
  destruct (split_at (one_of "/\?#"%js) (skip_slashes rest)) as [authority rest3].
  destruct H3 as (_ & _ & H3).
  pose proof (split_at_spec (one_of "?#"%js) rest3) as H4.
  destruct (split_at (one_of "?#"%js) rest3) as [path rest4].
  destruct H4 as (Hrest3 & _ & _).
  destruct (match rest4 with
            | [] => ([], [])
            | c :: r => if chr_eqb c "?" then split_at (chr_eqb "#") r else ([], rest4)
            end) as [query fragment].
  unfold parse_authority.
  destruct (split_at (chr_eqb ":") authority) as [host port].
  match goal with |- context [host_ok ?h && ?p] =>
    destruct (host_ok h) eqn:Hhost; cbn [andb]; [destruct p|]; try discriminate end.
  destruct (path_ok path) eqn:Hpath; cbn [andb]; [|discriminate].
  destruct (forallb query_char query) eqn:Hq; cbn [andb]; [|discriminate].
  destruct (escapes_ok query) eqn:He; cbn [andb]; [|discriminate].
  destruct (forallb (in_range 33 126) (tl fragment)); [|discriminate].
  intros [= <-]. exists path, query. cbn [protocol hostname pathname searchParams].
  repeat split; try assumption; try reflexivity.
  - apply toLowerCase_idem.
  - destruct path as [|c r]; [now left|right]. subst rest3. cbn [app] in H3.
    assert (Hc : path_char c = true).
    { unfold path_ok in Hpath. cbn [forallb] in Hpath.
      rewrite !andb_true_iff in Hpath. tauto. }
    rewrite (path_start c H3 Hc). eauto.
  - unfold clean. now rewrite Hq, He.
Qed.

Lemma skip_slashes_host h r :
  host_ok h = true -> skip_slashes ("//"%js ++ h ++ r) = h ++ r.
Proof.
  intros Hok. pose proof (host_ok_chars h Hok) as Hc.
  destruct h as [|c h]; [discriminate Hok|].
  cbn [forallb] in Hc. apply andb_prop in Hc as [Hc _].
  apply host_char_plain in Hc as (_ & _ & Hc).
  change (skip_slashes ("//"%js ++ (c :: h) ++ r)) with (skip_slashes (c :: h ++ r)).
  cbn [skip_slashes]. now rewrite Hc.
Qed.

Lemma parse_authority_host h :
  host_ok h = true -> toLowerCase h = h -> parse_authority h = Some h.
Proof.
  intros Hok Hl. unfold parse_authority.
  rewrite <- (app_nil_r h) at 1. rewrite split_at_app; [|
    apply (forallb_weaken host_char);
      [intros c Hc; apply host_char_plain in Hc as (_ & -> & _); reflexivity
      |now apply host_ok_chars] | exact I].
  now rewrite Hl, Hok.
Qed.

Lemma parse_query_serialized ents :
  Forall ascii_entry ents ->
  match serialize ents with
  | [] => ([], [])
  | c :: r => if chr_eqb c "?" then split_at (chr_eqb "#") r else ([], serialize ents)
  end = (tl (serialize ents), [])
  /\ clean (tl (serialize ents)) = true
  /\ parse_query (tl (serialize ents)) = ents.
Proof.
  intros Hents. destruct ents as [|e l]; [repeat split|].
  set (l' := e :: l) in *.
  assert (Hclean := join_clean l' Hents).
  change (serialize l') with ("?"%char :: join "&"%js (map encode_pair l')).
  cbn [tl]. change (chr_eqb "?" "?") with true. cbv iota.
  repeat split; [|assumption|now apply parse_query_join].
  rewrite <- (app_nil_r (join _ _)) at 1. apply split_at_app; [|exact I].
  unfold clean in Hclean. apply andb_prop in Hclean as [Hq _].
  revert Hq. apply forallb_weaken. apply query_char_not_hash.
Qed.

Lemma parse_canonical scheme host path ents :
  scheme = "http"%js \/ scheme = "https"%js ->
  host_ok host = true -> toLowerCase host = host ->
  path_ok path = true -> (exists r, path = "/"%char :: r) ->
  Forall ascii_entry ents ->
  parse ((scheme ++ ":"%js) ++ "//"%js ++ host ++ path ++ serialize ents)
  = Some {| protocol := scheme ++ ":"%js; hostname := host;
            pathname := path; searchParams := ents |}.
Proof.
  intros Hs Hhost Hlow Hpath [r ->] Hents.
  rewrite <- app_assoc. change (":"%js ++ ?x) with (":"%char :: x).
  rewrite (parse_scheme _ _ Hs). unfold parse_rest.
  rewrite skip_slashes_host by assumption.
  rewrite split_at_app; [| |reflexivity].
  2:{ apply (forallb_weaken host_char); [|now apply host_ok_chars].
      intros c Hc. now apply host_char_plain in Hc as (-> & _). }
  rewrite split_at_app.
  2:{ apply (forallb_weaken path_char).
      - intros c Hc. now rewrite (path_char_plain c Hc).
      - unfold path_ok in Hpath. rewrite !andb_true_iff in Hpath. tauto. }
  2:{ destruct ents; [exact I|reflexivity]. }
  destruct (parse_query_serialized ents Hents) as (-> & Hclean & ->).
  rewrite parse_authority_host by assumption.
  unfold clean in Hclean. apply andb_prop in Hclean as [-> ->].
  rewrite Hpath. reflexivity.
Qed.

Lemma normalize_parsed_eq u :
  normalize_parsed u =
  let rest := strip_www (toLowerCase (hostname u)) ++ canonical_path (pathname u)
              ++ serialize (canonical_entries (searchParams u)) in
  {| key := rest; cleanedUrl := protocol u ++ "//"%js ++ rest |}.
Proof. reflexivity. Qed.

(** C7 as claimed fails in three ways.  With a doubled [www.] the cleaned
    URL is canonicalised to a shorter key.  With the host [www.] the
    cleaned URL has no host left and is not canonicalised at all.  And a
    URL without an authority, such as a mail address, has no host and the
    address as its path; in its cleaned URL [//] precedes the address,
    which is then read as credentials and host, so the key changes. *)
Lemma canonicalization_is_not_idempotent :
  (exists n n',
     normalizeUrlForDedupe "https://www.www.example.com/"%js = Some n
     /\ normalizeUrlForDedupe (cleanedUrl n) = Some n'
     /\ key n = "www.example.com/"%js
     /\ key n' = "example.com/"%js
     /\ cleanedUrl n <> cleanedUrl n')
  /\ (exists n,
        normalizeUrlForDedupe "http://www./"%js = Some n
        /\ normalizeUrlForDedupe (cleanedUrl n) = None)
  /\ (exists n n',
        normalizeUrlForDedupe (P := Scenarios.with_mail_address)
          "mailto:user@example.com"%js = Some n
        /\ cleanedUrl n = "mailto://user@example.com"%js
        /\ normalizeUrlForDedupe (P := Scenarios.with_mail_address) (cleanedUrl n)
           = Some n'
        /\ key n = "user@example.com"%js
        /\ key n' = "example.com/"%js).
Proof.
  split; [|split].
  - eexists _, _. split; [vm_compute; reflexivity|].
    split; [vm_compute; reflexivity|].
    split; [vm_compute; reflexivity|]. split; [vm_compute; reflexivity|].
    vm_compute. discriminate.
  - eexists. split; [vm_compute; reflexivity|]. vm_compute. reflexivity.
  - eexists _, _. split; [vm_compute; reflexivity|].
    split; [vm_compute; reflexivity|]. split; [vm_compute; reflexivity|].
    split; vm_compute; reflexivity.
Qed.

End CanonFacts.

(** ** Canonicalising a canonical form *)

Module CanonLaws.
Import Canon CanonParts JsStringFacts.

Section WithPlatform.
Context {P : Platform}.

Lemma normalize_parsed_parts u :
  normalize_parsed u =
  let rest := host_of u ++ path_of u ++ search_of (entries_of u) in
  {| key := rest; cleanedUrl := protocol u ++ "//"%js ++ rest |}.
Proof. reflexivity. Qed.

(** *** Sorting *)

Lemma comparable_spec l e f :
  comparable l = true -> In e l -> In f l ->
  (localeCompare (fst e) (fst f) <=? 0) = false ->
  (localeCompare (fst f) (fst e) <=? 0) = true.
Proof.
  unfold comparable. rewrite forallb_forall. intros H He Hf Hno.
  specialize (H e He). rewrite forallb_forall in H. specialize (H f Hf).
  now rewrite Hno in H.
Qed.

Lemma insert_entry_mem e l x : In x (insert_entry e l) <-> x = e \/ In x l.
Proof.
  induction l as [|f l IH]; cbn [insert_entry].
  - cbn. intuition congruence.
  - destruct (localeCompare (fst e) (fst f) <=? 0); cbn [In]; [intuition congruence|].
    rewrite IH. cbn [In]. intuition congruence.
Qed.

Lemma sort_entries_mem l x : In x (sort_entries l) <-> In x l.
Proof.
  induction l as [|e l IH]; [reflexivity|].
  cbn [sort_entries fold_right]. fold (sort_entries l).
  rewrite insert_entry_mem, IH. cbn [In]. intuition congruence.
Qed.

Lemma insert_entry_in_order e l :
  (forall f, In f l -> (localeCompare (fst e) (fst f) <=? 0) = false ->
             (localeCompare (fst f) (fst e) <=? 0) = true) ->
  in_order l -> in_order (insert_entry e l).
Proof.
  induction l as [|f l IH]; [cbn; auto|].
  intros Htot Hl. cbn [insert_entry].
  destruct (localeCompare (fst e) (fst f) <=? 0) eqn:E; [cbn; auto|].
  apply (Htot f (or_introl eq_refl)) in E.
  destruct l as [|g l]; [cbn; auto|].
  destruct Hl as [Hfg Hl].
  assert (IH' := IH (fun h Hh => Htot h (or_intror Hh)) Hl).
  cbn [insert_entry] in *.
  destruct (localeCompare (fst e) (fst g) <=? 0); cbn [in_order] in *; auto.
Qed.

Lemma sort_entries_in_order l :
  (forall e f, In e l -> In f l ->
               (localeCompare (fst e) (fst f) <=? 0) = false ->
               (localeCompare (fst f) (fst e) <=? 0) = true) ->
  in_order (sort_entries l).
Proof.
  induction l as [|e l IH]; [intros _; exact I|]. intros Htot.
  cbn [sort_entries fold_right]. fold (sort_entries l).
  apply insert_entry_in_order.
  - intros f Hf. apply Htot; [now left|]. right.
    now apply (proj1 (sort_entries_mem _ _)).
  - apply IH. intros a b Ha Hb. apply Htot; now right.
Qed.

Lemma sort_entries_of_in_order l : in_order l -> sort_entries l = l.
Proof.
  induction l as [|e l IH]; [reflexivity|].
  intros Hl. cbn [sort_entries fold_right]. fold (sort_entries l).
  destruct l as [|f l]; [reflexivity|]. destruct Hl as [Hef Hl].
  rewrite (IH Hl). cbn [insert_entry]. now rewrite Hef.
Qed.

Lemma filter_all {A} (p : A -> bool) l :
  (forall x, In x l -> p x = true) -> List.filter p l = l.
Proof.
  induction l as [|x l IH]; [reflexivity|]. intros H. cbn.
  rewrite (H x) by now left. f_equal. apply IH. intros y Hy. apply H. now right.
Qed.

(** *** The parts of a URL that was read back *)

Lemma lower_chr_fixed c : lower_chr (lower_chr c) = lower_chr c.
Proof. destruct c as [[] [] [] [] [] [] [] []]; reflexivity. Qed.

Lemma host_of_lower u : toLowerCase (host_of u) = host_of u.
Proof.
  unfold host_of, strip_www.
  assert (Hl : forall s, toLowerCase (toLowerCase s) = toLowerCase s).
  { intros s. unfold toLowerCase. rewrite map_map. apply map_ext, lower_chr_fixed. }
  destruct (startsWith (toLowerCase (hostname u)) "www."%js); [|apply Hl].
  unfold toLowerCase at 1. rewrite <- skipn_map.
  fold (toLowerCase (toLowerCase (hostname u))). now rewrite Hl.
Qed.

Lemma host_read_back u back :
  hostname back = host_of u -> startsWith (host_of u) "www."%js = false ->
  host_of back = host_of u.
Proof.
  intros Hh Hwww. unfold host_of at 1. rewrite Hh, host_of_lower.
  unfold strip_www. now rewrite Hwww.
Qed.

Lemma drop_slashes_fixed s : drop_slashes (drop_slashes s) = drop_slashes s.
Proof.
  induction s as [|c s IH]; cbn; [reflexivity|].
  destruct (chr_eqb c "/") eqn:E; [assumption|]. cbn. now rewrite E.
Qed.

Lemma path_read_back u back : pathname back = path_of u -> path_of back = path_of u.
Proof.
  intros Hp. unfold path_of at 1. rewrite Hp. unfold path_of. cbv zeta.
  destruct (truthy (strip_trailing_slashes (pathname u))) eqn:E; [|reflexivity].
  assert (Hfix : strip_trailing_slashes (strip_trailing_slashes (pathname u))
                 = strip_trailing_slashes (pathname u)).
  { unfold strip_trailing_slashes. now rewrite rev_involutive, drop_slashes_fixed. }
  now rewrite Hfix, E.
Qed.

Lemma entries_read_back u back :
  searchParams back = entries_of u -> comparable (searchParams u) = true ->
  entries_of back = entries_of u.
Proof.
  intros Hs Hcmp. unfold entries_of at 1. rewrite Hs. unfold entries_of.
  set (kept := List.filter (fun e => negb (is_tracking (fst e))) (searchParams u)).
  rewrite filter_all.
  - apply sort_entries_of_in_order, sort_entries_in_order.
    intros e f He Hf. apply (comparable_spec (searchParams u)); [assumption| |].
    + unfold kept in He. now apply List.filter_In in He.
    + unfold kept in Hf. now apply List.filter_In in Hf.
  - intros x Hx. apply (proj1 (sort_entries_mem _ _)) in Hx. unfold kept in Hx.
    now apply List.filter_In in Hx.
Qed.

(** C7, as the code has it, on every platform.  Let the canonicaliser
    succeed on [raw], which [new URL] reads as [u], and let [new URL] read
    the cleaned URL back as the parts it was assembled from: the protocol
    of [u], its host in lower case less one leading [www.], its path less
    the trailing slashes, and its query entries less the tracking
    parameters, sorted by name.  If that host does not start with another
    [www.], and [localeCompare] puts no two names of the query each after
    the other, then canonicalising the cleaned URL succeeds and gives the
    same key and the same cleaned URL. *)
Theorem canonical_form_is_a_fixed_point (raw : jsstring) (u back : URL) :
  new_URL raw = Some u ->
  new_URL (cleanedUrl (normalize_parsed u)) = Some back ->
  reads_back u back ->
  startsWith (host_of u) "www."%js = false ->
  comparable (searchParams u) = true ->
  normalizeUrlForDedupe raw = Some (normalize_parsed u)
  /\ normalizeUrlForDedupe (cleanedUrl (normalize_parsed u))
     = Some (normalize_parsed u).
Proof.
  intros Hraw Hback (Hproto & Hhost & Hpath & Hquery) Hwww Hcmp.
  unfold normalizeUrlForDedupe. rewrite Hraw. split; [reflexivity|].
  rewrite Hback. f_equal. rewrite !normalize_parsed_parts. cbv zeta.
  rewrite (host_read_back u back Hhost Hwww), (path_read_back u back Hpath),
    (entries_read_back u back Hquery Hcmp), Hproto.
  reflexivity.
Qed.

End WithPlatform.

(** *** On the reference platform *)

Section OnReference.
Import Reference CanonicalForm CanonFacts.
#[local] Existing Instance Reference.platform.

Lemma reference_comparable l : comparable l = true.
Proof.
  unfold comparable. apply forallb_forall. intros e _.
  apply forallb_forall. intros f _. change localeCompare with compare.
  destruct (compare (fst e) (fst f) <=? 0) eqn:E; [reflexivity|].
  now apply compare_total in E.
Qed.

(** An http or https URL whose key starts neither with [www.] nor with a
    slash: the reference parser reads its cleaned URL back. *)
Lemma reference_reads_back raw u :
  parse raw = Some u ->
  startsWith (key (normalize_parsed u)) "www."%js = false ->
  startsWith (key (normalize_parsed u)) "/"%js = false ->
  startsWith (host_of u) "www."%js = false
  /\ exists back, parse (cleanedUrl (normalize_parsed u)) = Some back
                  /\ reads_back u back.
Proof.
  intros Hu.
  destruct (parse_scheme_inv _ _ Hu) as (scheme & rest & Hs & Hr).
  destruct (parse_rest_inv _ _ _ Hr)
    as (path & query & Hproto & Hhost & Hlow & Hpath & Hstart & Hpn & Hclean & Hsp).
  rewrite normalize_parsed_eq. cbn zeta. cbn [key cleanedUrl].
  unfold host_of. rewrite Hlow, Hproto.
  set (host := strip_www (hostname u)).
  set (ents := canonical_entries (searchParams u)).
  assert (Hp : path_ok (pathname u) = true /\ exists r, pathname u = "/"%char :: r).
  { rewrite Hpn. destruct Hstart as [-> | [r ->]]; cbn [truthy]; eauto. }
  destruct Hp as [Hp1 Hp2].
  destruct (canonical_path_ok _ Hp1 Hp2) as (Hc1 & Hc2 & _).
  set (cpath := canonical_path (pathname u)) in *.
  intros Hwww Hslash.
  assert (Hne : host <> []).
  { intros E. rewrite E in Hslash. destruct Hc2 as [r Hr']. rewrite Hr' in Hslash.
    discriminate Hslash. }
  assert (Hwww' : startsWith host "www."%js = false).
  { destruct (startsWith host "www."%js) eqn:E; [|reflexivity].
    rewrite (startsWith_app _ _ _ E) in Hwww. discriminate Hwww. }
  assert (Hents : Forall ascii_entry ents).
  { apply canonical_entries_ascii. rewrite Hsp. now apply parse_pieces_ascii. }
  split; [assumption|].
  rewrite parse_canonical; try assumption.
  - eexists. split; [reflexivity|]. unfold reads_back, host_of.
    cbn [protocol hostname pathname searchParams]. rewrite Hlow, Hproto.
    repeat split.
  - now apply host_ok_strip.
  - now apply strip_www_lower.
Qed.

(** So on the reference platform the canonical form of such a URL is a
    fixed point of the canonicaliser. *)
Lemma reference_form_is_a_fixed_point (raw : jsstring) (n : Normalized) :
  normalizeUrlForDedupe raw = Some n ->
  startsWith (key n) "www."%js = false ->
  startsWith (key n) "/"%js = false ->
  normalizeUrlForDedupe (cleanedUrl n) = Some n.
Proof.
  unfold normalizeUrlForDedupe. change new_URL with parse.
  destruct (parse raw) as [u|] eqn:Hu; [|discriminate].
  intros [= <-] Hwww Hslash.
  destruct (reference_reads_back raw u Hu Hwww Hslash)
    as (Hhost & back & Hback & Hp & Hh & Hpa & Hq).
  rewrite Hback. f_equal. rewrite !normalize_parsed_parts. cbv zeta.
  rewrite (host_read_back u back Hh Hhost), (path_read_back u back Hpa),
    (entries_read_back u back Hq (reference_comparable _)), Hp.
  reflexivity.
Qed.

End OnReference.

(** The canonical form of a URL with a query and a fragment, on the
    reference platform. *)
Lemma canonical_form_is_a_fixed_point_witness :
  let raw := "HTTPS://WWW.Example.com:8080//a/b//?utm_source=x&b=2&a=1%20z#top"%js in
  exists n,
    normalizeUrlForDedupe (P := Reference.platform) raw = Some n
    /\ cleanedUrl n = "https://example.com//a/b?a=1+z&b=2"%js
    /\ normalizeUrlForDedupe (P := Reference.platform) (cleanedUrl n) = Some n.
Proof.
  pose (u := {| protocol := "https:"%js; hostname := "www.example.com"%js;
                pathname := "//a/b//"%js;
                searchParams := [("utm_source"%js, "x"%js); ("b"%js, "2"%js);
                                 ("a"%js, "1 z"%js)] |}).
  pose (back := {| protocol := "https:"%js; hostname := "example.com"%js;
                   pathname := "//a/b"%js;
                   searchParams := [("a"%js, "1 z"%js); ("b"%js, "2"%js)] |}).
  assert (Hraw : new_URL (Platform := Reference.platform)
                   "HTTPS://WWW.Example.com:8080//a/b//?utm_source=x&b=2&a=1%20z#top"%js
                 = Some u) by (vm_compute; reflexivity).
  assert (Hback : new_URL (Platform := Reference.platform)
                    (cleanedUrl (normalize_parsed (P := Reference.platform) u))
                  = Some back) by (vm_compute; reflexivity).
  assert (Hparts : reads_back (P := Reference.platform) u back)
    by (repeat split; vm_compute; reflexivity).
  assert (Hwww : startsWith (host_of u) "www."%js = false) by (vm_compute; reflexivity).
  assert (Hcmp : comparable (P := Reference.platform) (searchParams u) = true)
    by (vm_compute; reflexivity).
  destruct (canonical_form_is_a_fixed_point (P := Reference.platform)
              _ u back Hraw Hback Hparts Hwww Hcmp) as [H1 H2].
  exists (normalize_parsed (P := Reference.platform) u).
  split; [exact H1|]. split; [vm_compute; reflexivity|exact H2].
Defined.

End CanonLaws.

(** ** Programs and runs *)

Module EffectsFacts.

Lemma post_mono {A} (p : Prog A) (Q R : A -> Prop) :
  (forall a, Q a -> R a) -> post p Q -> post p R.
Proof. intros HQR. induction p as [a|e|X e k IH]; cbn; auto. Qed.

Lemma post_bind {A B} (p : Prog A) (f : A -> Prog B) (Q : B -> Prop) :
  post p (fun a => post (f a) Q) -> post (p ≫= f) Q.
Proof.
  unfold mbind, prog_bind.
  induction p as [a|e|X e k IH]; cbn; auto.
Qed.

Lemma post_catch {A} (p : Prog A) (h : Thrown -> Prog A) (Q : A -> Prop) :
  post p Q -> (forall e, post (h e) Q) -> post (catch p h) Q.
Proof. intros Hp Hh. induction p as [a|e|X e k IH]; cbn in *; auto. Qed.

Lemma post_true {A} (p : Prog A) : post p (fun _ => True).
Proof. induction p; cbn; auto. Qed.

Lemma post_and {A} (p : Prog A) (Q R : A -> Prop) :
  post p Q -> post p R -> post p (fun a => Q a /\ R a).
Proof. induction p as [a|e|X e k IH]; cbn; auto. Qed.

Lemma post_run {A} (p : Prog A) (Q : A -> Prop) w : forall n a,
  post p Q -> (run p w n).2 = inr a -> Q a.
Proof.
  induction p as [b|e|X e k IH]; cbn; intros n a Hp Hr.
  - now injection Hr as <-.
  - discriminate.
  - destruct (run (k (respond w X n e)) w (S n)) as [log r] eqn:Hk.
    cbn in Hr. apply (IH (respond w X n e) (S n)); [apply Hp|]. now rewrite Hk.
Qed.

Lemma nothrow_run {A} (p : Prog A) w : forall n,
  nothrow p -> exists a, (run p w n).2 = inr a.
Proof.
  induction p as [b|e|X e k IH]; cbn; intros n Hp.
  - eauto.
  - destruct Hp.
  - destruct (run (k (respond w X n e)) w (S n)) as [log r] eqn:Hk.
    destruct (IH (respond w X n e) (S n) (Hp _)) as [a Ha]. rewrite Hk in Ha. eauto.
Qed.

Lemma silent_run {A} (p : Prog A) w : forall n,
  silent p -> outbound_calls (run p w n).1 = [].
Proof.
  induction p as [b|e|X e k IH]; cbn; intros n Hp; try reflexivity.
  destruct Hp as [He Hk].
  destruct (run (k (respond w X n e)) w (S n)) as [log r] eqn:Hr.
  cbn. rewrite He. specialize (IH (respond w X n e) (S n) (Hk _)). now rewrite Hr in IH.
Qed.

Lemma nothrow_bind {A B} (p : Prog A) (f : A -> Prog B) :
  nothrow p -> post p (fun a => nothrow (f a)) -> nothrow (p ≫= f).
Proof.
  unfold mbind, prog_bind.
  induction p as [a|e|X e k IH]; cbn; auto.
Qed.

Lemma silent_bind {A B} (p : Prog A) (f : A -> Prog B) :
  silent p -> post p (fun a => silent (f a)) -> silent (p ≫= f).
Proof.
  unfold mbind, prog_bind.
  induction p as [a|e|X e k IH]; cbn; auto.
  intros [He Hk] Hp. split; auto.
Qed.

(** The run of a sequence: the second part starts where the first one
    stopped. *)
Lemma run_bind {A B} (p : Prog A) (f : A -> Prog B) w : forall n,
  run (p ≫= f) w n =
    match run p w n with
    | (log1, inl e) => (log1, inl e)
    | (log1, inr a) =>
        let '(log2, r) := run (f a) w (n + length log1) in (log1 ++ log2, r)
    end.
Proof.
  unfold mbind, prog_bind.
  induction p as [a|e|X e k IH]; intros n; cbn.
  - rewrite Nat.add_0_r. now destruct (run (f a) w n).
  - reflexivity.
  - rewrite IH.
    destruct (run (k (respond w X n e)) w (S n)) as [log1 [err|a]]; [reflexivity|].
    cbn [length]. replace (n + S (length log1))%nat with (S n + length log1)%nat by lia.
    now destruct (run (f a) w (S n + length log1)).
Qed.

Lemma run_catch {A} (p : Prog A) (h : Thrown -> Prog A) w : forall n,
  run (catch p h) w n =
    match run p w n with
    | (log1, inl e) =>
        let '(log2, r) := run (h e) w (n + length log1) in (log1 ++ log2, r)
    | (log1, inr a) => (log1, inr a)
    end.
Proof.
  induction p as [a|e|X e k IH]; intros n; cbn.
  - reflexivity.
  - rewrite Nat.add_0_r. now destruct (run (h e) w n).
  - rewrite IH.
    destruct (run (k (respond w X n e)) w (S n)) as [log1 [err|a]]; [|reflexivity].
    cbn [length]. replace (n + S (length log1))%nat with (S n + length log1)%nat by lia.
    now destruct (run (h err) w (S n + length log1)).
Qed.

End EffectsFacts.

(** ** Citation numbers *)

Module CitationFacts.
Import JsNumber Citations JsStringFacts.

Lemma digit_not_bracket c : is_digit c = true -> chr_eqb c "[" = false.
Proof.
  intros H. destruct (chr_eqb c "[") eqn:E; [|reflexivity].
  apply chr_eqb_eq in E. subst. discriminate.
Qed.

Lemma scan_digits ds : forall acc post,
  forallb is_digit ds = true -> rev acc ++ ds <> [] ->
  scan_markers (Some acc) (ds ++ "]"%char :: post) = (rev acc ++ ds) :: scan_markers None post.
Proof.
  induction ds as [|c ds IH]; intros acc post Hd Hne; cbn.
  - rewrite app_nil_r in *. destruct acc as [|a acc]; [now destruct Hne|]. reflexivity.
  - cbn in Hd. apply andb_prop in Hd as [Hc Hd].
    rewrite (digit_not_bracket _ Hc), Hc.
    rewrite IH; [|assumption|].
    + change (rev (c :: acc)) with (rev acc ++ [c]). now rewrite <- app_assoc.
    + change (rev (c :: acc)) with (rev acc ++ [c]). rewrite <- app_assoc.
      now destruct (rev acc).
Qed.

Lemma scan_step st c s :
  exists st', scan_markers st (c :: s) = scan_markers st' s
              \/ exists ds, scan_markers st (c :: s) = ds :: scan_markers st' s.
Proof.
  cbn. destruct (chr_eqb c "["); [eauto|].
  destruct st as [acc|]; [|eauto].
  destruct (is_digit c); [eauto|].
  destruct (chr_eqb c "]" && truthy acc); eauto.
Qed.

Lemma scan_complete pre : forall st ds post,
  ds <> [] -> forallb is_digit ds = true ->
  In ds (scan_markers st (pre ++ "["%char :: ds ++ "]"%char :: post)).
Proof.
  induction pre as [|c pre IH]; intros st ds post Hne Hd.
  - cbn [app scan_markers]. change (chr_eqb "[" "[") with true. cbn iota.
    rewrite (scan_digits ds [] post Hd) by (cbn; assumption). now left.
  - cbn [app]. destruct (scan_step st c (pre ++ "["%char :: ds ++ "]"%char :: post))
      as (st' & [-> | (x & ->)]); [|right]; now apply IH.
Qed.

Lemma scan_sound s : forall st consumed ds,
  In ds (scan_markers st s) ->
  (forall acc, st = Some acc ->
     forallb is_digit acc = true /\ exists x, consumed = x ++ "["%char :: rev acc) ->
  exists pre post,
    consumed ++ s = pre ++ "["%char :: ds ++ "]"%char :: post
    /\ ds <> [] /\ forallb is_digit ds = true.
Proof.
  induction s as [|c s IH]; intros st consumed ds Hin Hst; [destruct Hin|].
  cbn in Hin.
  replace (consumed ++ c :: s) with ((consumed ++ [c]) ++ s) by now rewrite <- app_assoc.
  destruct (chr_eqb c "[") eqn:Hopen.
  - apply chr_eqb_eq in Hopen. subst c.
    apply (IH (Some []) _ _ Hin). intros acc [= <-]. split; [reflexivity|].
    exists consumed. reflexivity.
  - destruct st as [acc|]; [|apply (IH None _ _ Hin); discriminate].
    destruct (Hst acc eq_refl) as (Hacc & x & ->).
    destruct (is_digit c) eqn:Hdig.
    + apply (IH (Some (c :: acc)) _ _ Hin). intros ? [= <-]. split.
      * cbn. now rewrite Hdig.
      * exists x. change (rev (c :: acc)) with (rev acc ++ [c]).
        now rewrite <- !app_assoc.
    + destruct (chr_eqb c "]" && truthy acc) eqn:Hclose.
      * apply andb_prop in Hclose as [Hc Hne]. apply chr_eqb_eq in Hc. subst c.
        destruct Hin as [<- | Hin].
        -- exists x, s. split; [|split].
           ++ rewrite <- !app_assoc. cbn. rewrite <- ?app_assoc. reflexivity.
           ++ destruct acc; [discriminate|]. cbn. now destruct (rev acc).
           ++ rewrite forallb_forall in *. intros a Ha. apply Hacc. now apply in_rev.
        -- apply (IH None _ _ Hin). discriminate.
      * apply (IH None _ _ Hin). discriminate.
Qed.

(** The markers found are exactly the bracketed digit runs of the text. *)
Lemma markers_spec answer ds :
  In ds (markers answer) <->
  exists pre post,
    answer = pre ++ "["%char :: ds ++ "]"%char :: post
    /\ ds <> [] /\ forallb is_digit ds = true.
Proof.
  split.
  - intros Hin. apply (scan_sound answer None [] ds Hin). discriminate.
  - intros (pre & post & -> & Hne & Hd). now apply scan_complete.
Qed.

Lemma digit_not_space c : is_digit c = true -> is_space c = false.
Proof.
  unfold is_digit, is_space, in_range, chr_eqb. intros H.
  destruct (Ascii.eqb c " ") eqn:E.
  - apply Ascii.eqb_eq in E. subst. discriminate.
  - rewrite orb_false_r. lia.
Qed.

Lemma digit_not_sign c :
  is_digit c = true -> chr_eqb c "-" = false /\ chr_eqb c "+" = false.
Proof.
  intros H. split.
  - destruct (chr_eqb c "-") eqn:E; [|reflexivity]. apply chr_eqb_eq in E. now subst.
  - destruct (chr_eqb c "+") eqn:E; [|reflexivity]. apply chr_eqb_eq in E. now subst.
Qed.

Lemma take_digits_all ds : forallb is_digit ds = true -> take_digits ds = ds.
Proof.
  induction ds as [|c ds IH]; cbn; [reflexivity|].
  intros [Hc Hd]%andb_prop. rewrite Hc. now rewrite IH.
Qed.

Lemma parseInt10_digits ds :
  ds <> [] -> forallb is_digit ds = true ->
  parseInt10 ds = of_magnitude false (digits_value 0 ds).
Proof.
  intros Hne Hd. destruct ds as [|c ds]; [now destruct Hne|].
  pose proof Hd as Hd'. cbn in Hd'. apply andb_prop in Hd' as [Hc _].
  unfold parseInt10. cbn [trimStart]. rewrite (digit_not_space _ Hc).
  destruct (digit_not_sign _ Hc) as [-> ->].
  now rewrite (take_digits_all _ Hd).
Qed.

(** *** Dedupe and sort *)

Lemma dedupe_In l : forall seen n,
  In n (dedupe seen l) <-> In n l /\ ~ In n seen.
Proof.
  induction l as [|k l IH]; intros seen n; cbn; [tauto|].
  destruct (existsb (Z.eqb k) seen) eqn:E.
  - apply existsb_exists in E as (x & Hx & ->%Z.eqb_eq).
    rewrite IH. split; [tauto|]. intros [[->|H] Hn]; [contradiction | tauto].
  - assert (Hk : ~ In k seen).
    { intros Hin. apply not_true_iff_false in E. apply E.
      apply existsb_exists. exists k. split; [assumption | apply Z.eqb_refl]. }
    cbn. rewrite IH. cbn. destruct (Z.eq_dec k n) as [->|Hne]; tauto.
Qed.

Lemma dedupe_NoDup l : forall seen, NoDup (dedupe seen l).
Proof.
  induction l as [|k l IH]; intros seen; cbn; [constructor|].
  destruct (existsb (Z.eqb k) seen); [apply IH|].
  apply NoDup_cons_2; [|apply IH].
  rewrite list_elem_of_In, dedupe_In. cbn. tauto.
Qed.

Lemma insert_number_In n l x : In x (insert_number n l) <-> x = n \/ In x l.
Proof.
  induction l as [|k l IH]; cbn; [intuition|].
  destruct (n <=? k); cbn; [intuition|]. rewrite IH. intuition.
Qed.

Lemma sort_numbers_In l x : In x (sort_numbers l) <-> In x l.
Proof.
  induction l as [|k l IH]; cbn; [tauto|].
  rewrite insert_number_In, IH. intuition.
Qed.

Lemma insert_number_sorted n l :
  StronglySorted Z.lt l -> ~ In n l -> StronglySorted Z.lt (insert_number n l).
Proof.
  induction l as [|k l IH]; cbn; intros Hs Hn.
  - repeat constructor.
  - apply StronglySorted_inv in Hs as [Hs Hk].
    destruct (Z.leb_spec n k).
    + constructor; [now constructor|].
      assert (n < k) by (destruct (Z.eq_dec n k) as [->|]; [exfalso; apply Hn; now left | lia]).
      constructor; [assumption|].
      rewrite Forall_forall in *. intros x Hx. specialize (Hk x Hx). lia.
    + constructor; [apply IH; [assumption | intros Hin; apply Hn; now right]|].
      rewrite Forall_forall in *. intros x Hx%list_elem_of_In.
      apply insert_number_In in Hx as [->|Hx]; [lia|].
      apply Hk. now apply list_elem_of_In.
Qed.

Lemma sort_numbers_sorted l : NoDup l -> StronglySorted Z.lt (sort_numbers l).
Proof.
  induction l as [|k l IH]; cbn; intros Hnd; [constructor|].
  apply NoDup_cons in Hnd as [Hk Hnd].
  apply insert_number_sorted; [now apply IH|].
  rewrite sort_numbers_In, <- list_elem_of_In. exact Hk.
Qed.

Lemma sorted_NoDup l : StronglySorted Z.lt l -> NoDup l.
Proof.
  induction l as [|k l IH]; intros Hs; [constructor|].
  apply StronglySorted_inv in Hs as [Hs Hk].
  apply NoDup_cons_2; [|now apply IH].
  intros Hin. rewrite Forall_forall in Hk. specialize (Hk _ Hin). lia.
Qed.

Lemma finite_values_In l z : In z (finite_values l) <-> In (Finite z) l.
Proof.
  unfold finite_values. rewrite in_flat_map. split.
  - intros ([x| |] & Hx & Hz); cbn in Hz; try tauto.
    destruct Hz as [<-|[]]. assumption.
  - intros H. exists (Finite z). split; [assumption | now left].
Qed.

Lemma extract_sorted answer : StronglySorted Z.lt (extractCitationNumbers answer).
Proof. apply sort_numbers_sorted, dedupe_NoDup. Qed.

(** The extracted numbers are the finite values of the markers. *)
Lemma extract_In answer n :
  In n (extractCitationNumbers answer) <->
  exists ds, In ds (markers answer) /\ parseInt10 ds = Finite n.
Proof.
  unfold extractCitationNumbers.
  rewrite sort_numbers_In, dedupe_In, finite_values_In, in_map_iff. cbn.
  split.
  - intros [(ds & Hp & Hin) _]. eauto.
  - intros (ds & Hin & Hp). split; [eauto | tauto].
Qed.

Lemma sanitize_sorted nums max : StronglySorted Z.lt (sanitizeCitationNumbers nums max).
Proof. apply sort_numbers_sorted, dedupe_NoDup. Qed.

Lemma sanitize_In nums max n :
  In n (sanitizeCitationNumbers nums max) <-> In n nums /\ 1 <= n <= Z.of_nat max.
Proof.
  unfold sanitizeCitationNumbers.
  rewrite sort_numbers_In, dedupe_In, List.filter_In. cbn. split.
  - intros [[H Hr] _]. split; [assumption | lia].
  - intros [H Hr]. repeat split; [assumption | lia | tauto].
Qed.

(** Citation sanitisation never introduces a number and is idempotent. *)
Lemma sort_sorted l : StronglySorted Z.lt l -> sort_numbers l = l.
Proof.
  induction l as [|k l IH]; intros Hs; [reflexivity|].
  apply StronglySorted_inv in Hs as [Hs Hk].
  change (sort_numbers (k :: l)) with (insert_number k (sort_numbers l)).
  rewrite (IH Hs).
  destruct l as [|j l]; cbn; [reflexivity|].
  apply Forall_cons in Hk as [Hj _].
  destruct (Z.leb_spec k j); [reflexivity | lia].
Qed.

Lemma dedupe_NoDup_id l : forall seen,
  NoDup l -> (forall x, In x l -> ~ In x seen) -> dedupe seen l = l.
Proof.
  induction l as [|k l IH]; intros seen Hnd Hseen; cbn; [reflexivity|].
  apply NoDup_cons in Hnd as [Hk Hnd].
  destruct (existsb (Z.eqb k) seen) eqn:E.
  - apply existsb_exists in E as (x & Hx & ->%Z.eqb_eq).
    destruct (Hseen x); [now left | assumption].
  - f_equal. apply IH; [assumption|].
    intros x Hx [<-|Hin].
    + apply Hk. now apply list_elem_of_In.
    + apply (Hseen x); [now right | assumption].
Qed.

Lemma sanitize_idempotent nums max :
  sanitizeCitationNumbers (sanitizeCitationNumbers nums max) max
  = sanitizeCitationNumbers nums max.
Proof.
  set (s := sanitizeCitationNumbers nums max).
  assert (Hs : StronglySorted Z.lt s) by apply sanitize_sorted.
  assert (Hin : forall n, In n s -> 1 <= n <= Z.of_nat max)
    by (intros n Hn; now apply sanitize_In in Hn).
  unfold sanitizeCitationNumbers at 1.
  replace (List.filter _ s) with s.
  - rewrite dedupe_NoDup_id; [now apply sort_sorted | now apply sorted_NoDup | tauto].
  - symmetry. apply forallb_filter_id. apply forallb_forall.
    intros n Hn. specialize (Hin n Hn). lia.
Qed.

(** *** Citation defects *)

Lemma filter_sorted p l :
  StronglySorted Z.lt l -> StronglySorted Z.lt (List.filter p l).
Proof.
  induction 1 as [|k l Hs IH Hk]; cbn; [constructor|].
  destruct (p k); [|assumption]. constructor; [assumption|].
  apply List.Forall_forall. intros x [Hx _]%List.filter_In.
  rewrite List.Forall_forall in Hk. now apply Hk.
Qed.

Lemma sanitize_of_sorted l max :
  StronglySorted Z.lt l ->
  sanitizeCitationNumbers l max
  = List.filter (fun n => (1 <=? n) && (n <=? Z.of_nat max)) l.
Proof.
  intros Hs. unfold sanitizeCitationNumbers.
  pose proof (filter_sorted (fun n => (1 <=? n) && (n <=? Z.of_nat max)) l Hs) as Hf.
  rewrite dedupe_NoDup_id; [now apply sort_sorted | now apply sorted_NoDup | tauto].
Qed.

Lemma filter_none {A} (p : A -> bool) l :
  length (List.filter p l) = 0%nat <-> forall x, In x l -> p x = false.
Proof.
  induction l as [|a l IH]; cbn; [tauto|].
  destruct (p a) eqn:E; cbn.
  - split; [discriminate|]. intros H. specialize (H a (or_introl eq_refl)). congruence.
  - rewrite IH. split; [intros H x [<-|Hx]; auto | auto].
Qed.

Lemma filter_dropped {A} (p : A -> bool) l :
  length l <> length (List.filter p l) <-> exists x, In x l /\ p x = false.
Proof.
  induction l as [|a l IH]; cbn; [split; [congruence | intros (x & [] & _)]|].
  pose proof (List.filter_length_le p l) as Hle.
  destruct (p a) eqn:E; cbn.
  - split.
    + intros H. destruct (proj1 IH) as (x & Hx & Hp); [congruence | eauto].
    + intros (x & [<-|Hx] & Hp); [congruence|].
      intros [= H]. apply (proj2 IH); eauto.
  - split; [eauto | intros _; lia].
Qed.

(** The defects as the pipeline computes them: some extracted number is
    out of range, or no extracted number is in range, or a factual block
    has no citation. *)
Lemma citation_defect_spec sources answer :
  citation_defect sources answer = true <->
    (exists n, In n (extractCitationNumbers answer)
               /\ ~ (1 <= n <= Z.of_nat (length sources)))
    \/ (forall n, In n (extractCitationNumbers answer) ->
                  ~ (1 <= n <= Z.of_nat (length sources)))
    \/ Text.hasMissingCitations answer = true.
Proof.
  unfold citation_defect. rewrite (sanitize_of_sorted _ _ (extract_sorted answer)).
  set (l := extractCitationNumbers answer).
  set (p := fun n => (1 <=? n) && (n <=? Z.of_nat (length sources))).
  assert (Hp : forall n, p n = false <-> ~ (1 <= n <= Z.of_nat (length sources)))
    by (intros n; unfold p; lia).
  rewrite !orb_true_iff, negb_true_iff, Nat.eqb_eq, Nat.eqb_neq, filter_none, filter_dropped.
  split.
  - intros [[H|(n & Hn & H)]|H]; [right; left|left|right; right]; try assumption.
    + intros n Hn. now apply Hp, H.
    + exists n. split; [assumption | now apply Hp].
  - intros [(n & Hn & H)|[H|H]]; [left; right|left; left|right]; try assumption.
    + exists n. split; [assumption | now apply Hp].
    + intros n Hn. now apply Hp, H.
Qed.

(** *** The citation mapping *)

Lemma used_In sources answer n :
  Z.of_nat (length sources) < 2 ^ 53 ->
  In n (used sources answer) <->
  1 <= n <= Z.of_nat (length sources) /\ appears answer n.
Proof.
  intros Hsmall. unfold used. rewrite sanitize_In, extract_In. split.
  - intros [(ds & Hin & Hp) Hr]. split; [assumption|].
    apply markers_spec in Hin as (pre & post & -> & Hne & Hd).
    exists pre, ds, post. repeat split; try assumption.
    rewrite (parseInt10_digits _ Hne Hd) in Hp. unfold of_magnitude in Hp.
    destruct (overflow_bound <=? digits_value 0 ds); [discriminate|].
    injection Hp as Hp. apply NumberFacts.round_double_exact; [lia|assumption].
  - intros [Hr (pre & ds & post & -> & Hne & Hd & Hv)]. split; [|assumption].
    exists ds. split; [apply markers_spec; eauto|].
    rewrite (parseInt10_digits _ Hne Hd). unfold of_magnitude.
    pose proof NumberFacts.doubles_reach_2_53.
    destruct (Z.leb_spec overflow_bound (digits_value 0 ds)); [lia|].
    rewrite NumberFacts.round_double_small by lia. congruence.
Qed.

Lemma citationsOf_map sources answer :
  Forall2 (fun n c => exists s, nth_error sources (Z.to_nat (n - 1)) = Some s /\ c = cite s)
    (used sources answer) (citationsOf sources answer).
Proof.
  unfold citationsOf. fold (used sources answer).
  assert (Hr : forall n, In n (used sources answer) -> 1 <= n <= Z.of_nat (length sources))
    by (intros n Hn; now apply sanitize_In in Hn).
  induction (used sources answer) as [|n l IH]; cbn; [constructor|].
  destruct (nth_error sources (Z.to_nat (n - 1))) as [s|] eqn:Hs.
  - cbn. constructor; [eauto|]. apply IH. intros k Hk. apply Hr. now right.
  - apply nth_error_None in Hs. specialize (Hr n (or_introl eq_refl)). lia.
Qed.

Lemma citationsOf_NoDup sources answer :
  NoDup (map url sources) -> NoDup (map cite_url (citationsOf sources answer)).
Proof.
  intros Hnd. unfold citationsOf. fold (used sources answer).
  assert (Hs : StronglySorted Z.lt (used sources answer)) by apply sanitize_sorted.
  assert (Hr : forall n, In n (used sources answer) -> 1 <= n)
    by (intros n Hn; apply sanitize_In in Hn; lia).
  induction (used sources answer) as [|n l IH]; cbn; [constructor|].
  apply StronglySorted_inv in Hs as [Hs Hn].
  specialize (IH Hs (fun k Hk => Hr k (or_intror Hk))).
  destruct (nth_error sources (Z.to_nat (n - 1))) as [s|] eqn:Hsrc; [|exact IH].
  cbn. apply NoDup_cons_2; [|exact IH].
  rewrite list_elem_of_In, in_map_iff. intros (c & Hc & Hin).
  apply in_map_iff in Hin as (s' & <- & Hin).
  apply in_flat_map in Hin as (k & Hk & Hin).
  destruct (nth_error sources (Z.to_nat (k - 1))) as [s2|] eqn:Hsrc2; [|destruct Hin].
  destruct Hin as [<-|[]]. cbn in Hc.
  rewrite Forall_forall in Hn. specialize (Hn k ltac:(now apply list_elem_of_In)).
  specialize (Hr n (or_introl eq_refl)).
  assert (Hidx : Z.to_nat (n - 1) <> Z.to_nat (k - 1)) by lia.
  apply Hidx.
  apply (proj1 (List.NoDup_nth_error (map url sources)) ltac:(now apply NoDup_ListNoDup)).
  - rewrite length_map. apply nth_error_Some. congruence.
  - rewrite !nth_error_map, Hsrc, Hsrc2. cbn. congruence.
Qed.

End CitationFacts.

(** ** Evidence: dedupe and selection *)

Module EvidenceFacts.
Import Canon Evidence EffectsFacts JsStringFacts.

Section WithPlatform.
Context {P : Platform}.

Lemma map_get_None k m :
  map_get k m = None <-> ~ In k (map normUrl m).
Proof.
  unfold map_get. induction m as [|c m IH]; cbn; [tauto|].
  destruct (JsString.eqb (normUrl c) k) eqn:E.
  - apply eqb_eq in E. split; [discriminate | tauto].
  - rewrite IH. split; [|tauto]. intros H [Hk|Hk]; [|tauto].
    rewrite <- Hk, eqb_refl in E. discriminate.
Qed.

Lemma map_get_Some k m c : map_get k m = Some c -> In c m /\ normUrl c = k.
Proof.
  unfold map_get. intros H. apply List.find_some in H as [Hin E].
  now apply eqb_eq in E.
Qed.

Lemma map_set_keys c m :
  map normUrl (map_set c m) =
    match map_get (normUrl c) m with
    | Some _ => map normUrl m
    | None => map normUrl m ++ [normUrl c]
    end.
Proof.
  unfold map_get. induction m as [|c' m IH]; cbn; [reflexivity|].
  destruct (JsString.eqb (normUrl c') (normUrl c)) eqn:E; cbn.
  - apply eqb_eq in E. now rewrite E.
  - rewrite IH. now destruct (List.find _ m).
Qed.

Lemma map_set_In c m x : In x (map_set c m) -> x = c \/ In x m.
Proof.
  induction m as [|c' m IH]; cbn; [intros [<-|[]]; now left|].
  destruct (JsString.eqb (normUrl c') (normUrl c)); cbn.
  - intros [<-|H]; auto.
  - intros [<-|H]; auto. apply IH in H as [->|H]; auto.
Qed.

Lemma map_set_distinct c m : distinct_keys m -> distinct_keys (map_set c m).
Proof.
  unfold distinct_keys. intros Hnd. rewrite map_set_keys.
  destruct (map_get (normUrl c) m) eqn:E; [assumption|].
  apply map_get_None in E. apply NoDup_app. repeat split; [assumption| |].
  - intros x Hx ->%list_elem_of_singleton. apply E.
    now apply list_elem_of_In.
  - apply NoDup_singleton.
Qed.

Lemma map_set_well_formed c m : keyed c -> well_formed m -> well_formed (map_set c m).
Proof.
  intros Hc [Hd Hk]. split; [now apply map_set_distinct|].
  rewrite Forall_forall in *. intros x Hx%list_elem_of_In%map_set_In.
  destruct Hx as [->|Hx]; [assumption|]. apply Hk. now apply list_elem_of_In.
Qed.

Lemma upsertCandidate_post q fresh m src :
  post (upsertCandidate q fresh m src) (fun m' => exists sc, m' = upserted src sc m).
Proof.
  unfold upsertCandidate. apply post_bind.
  apply (post_mono _ (fun _ => True)); [|apply post_true]. intros sc _.
  unfold upserted.
  destruct (map_get _ m) as [existing|]; [destruct (score existing <? sc) eqn:Hlt|];
    cbn; exists sc; rewrite ?Hlt; reflexivity.
Qed.

Lemma upserted_well_formed src sc m : well_formed m -> well_formed (upserted src sc m).
Proof.
  intros Hm. unfold upserted.
  set (c := {| source := _; score := sc; normUrl := _ |}).
  assert (Hc : keyed c).
  { exists (url src). subst c. cbn.
    destruct (normalizeUrlForDedupe (url src)); split; reflexivity. }
  destruct (map_get _ m) as [existing|]; [destruct (score existing <? sc)|];
    try assumption; now apply map_set_well_formed.
Qed.

Lemma upsert_loop_post q fresh srcs : forall m,
  well_formed m -> post (upsert_loop q fresh srcs m) well_formed.
Proof.
  induction srcs as [|src srcs IH]; intros m Hm; cbn; [assumption|].
  apply post_bind. apply post_catch; [|intros; cbn; assumption].
  apply post_bind.
  apply (post_mono _ (fun m' => exists sc, m' = upserted src sc m));
    [|apply upsertCandidate_post].
  intros m' (sc & ->). cbn. apply IH. now apply upserted_well_formed.
Qed.

(** *** Selection *)

Lemma insert_by_perm {A} (before : A -> A -> bool) x l :
  Permutation (insert_by before x l) (x :: l).
Proof.
  induction l as [|y l IH]; cbn; [reflexivity|].
  destruct (before x y); [reflexivity|].
  rewrite IH. apply perm_swap.
Qed.

Lemma sort_by_perm {A} (before : A -> A -> bool) l : Permutation (sort_by before l) l.
Proof.
  induction l as [|x l IH]; cbn; [reflexivity|].
  rewrite insert_by_perm. now constructor.
Qed.

Lemma rank_perm m : Permutation (rank m) m.
Proof. apply sort_by_perm. Qed.

Lemma NoDup_map_inj {A B} (f : A -> B) l x y :
  NoDup (map f l) -> In x l -> In y l -> f x = f y -> x = y.
Proof.
  induction l as [|a l IH]; cbn; [tauto|].
  intros [Ha Hnd]%NoDup_cons [<-|Hx] [<-|Hy] Hf; try reflexivity.
  - exfalso. apply Ha. rewrite Hf. apply list_elem_of_In, in_map, Hy.
  - exfalso. apply Ha. rewrite <- Hf. apply list_elem_of_In, in_map, Hx.
  - now apply IH.
Qed.

Lemma pick_capped_spec maxSources cap ranked : forall hostCounts picked,
  distinct_keys (picked ++ ranked) ->
  let r := pick_capped maxSources cap hostCounts picked ranked in
  distinct_keys r
  /\ (forall c, In c r -> In c (picked ++ ranked))
  /\ (length picked <= maxSources -> length r <= maxSources)%nat.
Proof.
  unfold distinct_keys.
  induction ranked as [|c rest IH]; intros hostCounts picked Hnd; cbn.
  - rewrite app_nil_r in *. auto.
  - destruct (Nat.leb_spec maxSources (length picked)).
    + rewrite map_app in Hnd. apply NoDup_app in Hnd as (Hp & _ & _).
      repeat split; [assumption | intros; apply in_or_app; now left | lia].
    + set (h := getHostnameSafe (url (source c))).
      set (host := if truthy h then h else url (source c)).
      destruct (cap <=? host_count host hostCounts)%nat.
      * destruct (IH hostCounts picked) as (H1 & H2 & H3).
        { rewrite map_app in *. cbn in Hnd.
          apply NoDup_app in Hnd as (Hp & Hdisj & Hr).
          apply NoDup_cons in Hr as [_ Hr].
          apply NoDup_app. repeat split; try assumption.
          intros x Hx Hx'. apply (Hdisj x Hx). now right. }
        repeat split; [assumption| |assumption].
        intros x Hx. apply H2 in Hx. apply in_app_or in Hx as [Hx|Hx];
          apply in_or_app; [now left | right; now right].
      * destruct (IH ((host, S (host_count host hostCounts)) :: hostCounts) (picked ++ [c]))
          as (H1 & H2 & H3).
        { now rewrite <- app_assoc. }
        repeat split; [assumption| |].
        -- intros x Hx. apply H2 in Hx. now rewrite <- app_assoc in Hx.
        -- intros _. apply H3. rewrite length_app. cbn. lia.
Qed.

Lemma backfill_spec maxSources all ranked : forall picked,
  distinct_keys all -> incl picked all -> incl ranked all -> distinct_keys picked ->
  let r := backfill maxSources picked ranked in
  distinct_keys r /\ incl r all
  /\ (length picked <= maxSources -> length r <= maxSources)%nat.
Proof.
  unfold distinct_keys.
  induction ranked as [|c rest IH]; intros picked Hall Hp Hr Hnd; cbn; [auto|].
  destruct (Nat.leb_spec maxSources (length picked)); [auto|].
  assert (Hrest : incl rest all) by (intros x Hx; apply Hr; now right).
  destruct (existsb _ picked) eqn:E; [now apply IH|].
  destruct (IH (picked ++ [c])) as (H1 & H2 & H3); try assumption.
  - intros x [Hx|[<-|[]]]%in_app_or; [now apply Hp | apply Hr; now left].
  - rewrite map_app. apply NoDup_app. repeat split; [assumption| |apply NoDup_singleton].
    intros k Hk ->%list_elem_of_singleton.
    apply list_elem_of_In, in_map_iff in Hk as (p & Hkey & Hin).
    assert (p = c).
    { apply (NoDup_map_inj normUrl all); auto. apply Hr. now left. }
    subst p. apply not_true_iff_false in E. apply E.
    apply existsb_exists. exists c. split; [assumption | apply eqb_refl].
  - repeat split; [assumption | assumption |].
    intros _. apply H3. rewrite length_app. cbn. lia.
Qed.

(** Rank, host cap and backfill keep the candidates distinct, take them
    from the map, and take at most eight. *)
Lemma pick_spec fresh m :
  distinct_keys m ->
  distinct_keys (pick fresh m)
  /\ incl (pick fresh m) m
  /\ (length (pick fresh m) <= 8)%nat.
Proof.
  intros Hm. unfold pick.
  set (maxSources := if fresh then 8%nat else 6%nat).
  set (cap := if fresh then 1%nat else 2%nat).
  assert (Hmax : (maxSources <= 8)%nat) by (subst maxSources; destruct fresh; lia).
  assert (Hrank : distinct_keys (rank m)).
  { unfold distinct_keys. apply NoDup_ListNoDup.
    eapply Permutation_NoDup; [|apply NoDup_ListNoDup; exact Hm].
    apply Permutation_map. symmetry. apply rank_perm. }
  assert (Hincl : incl (rank m) m).
  { intros x Hx. eapply Permutation_in; [apply rank_perm | exact Hx]. }
  destruct (pick_capped_spec maxSources cap (rank m) [] [] Hrank) as (H1 & H2 & H3).
  cbn in H2, H3.
  destruct (_ <? maxSources)%nat.
  - destruct (backfill_spec maxSources (rank m) (rank m)
                (pick_capped maxSources cap [] [] (rank m))) as (B1 & B2 & B3);
      try assumption; try (intros x Hx; auto).
    repeat split; [assumption | intros x Hx; apply Hincl, B2, Hx |].
    specialize (H3 ltac:(lia)). specialize (B3 H3). lia.
  - repeat split; [assumption | intros x Hx; apply Hincl, H2, Hx |].
    specialize (H3 ltac:(lia)). lia.
Qed.

(** *** The gathering stage *)

Lemma mapM_trigger_post {A X} (f : A -> Event X) (l : list A) (Q : list X -> Prop) :
  (forall xs, Q xs) -> post (mapM (fun a => trigger (f a)) l) Q.
Proof.
  revert Q. induction l as [|a l IH]; intros Q HQ; cbn; [apply HQ|].
  intros x. apply post_bind. apply IH. intros xs. cbn. apply HQ.
Qed.

Lemma tavilyStage_post input recency queries m :
  well_formed m -> post (Pipeline.tavilyStage input recency queries m) well_formed.
Proof.
  intros Hm. unfold Pipeline.tavilyStage. apply post_bind.
  apply mapM_trigger_post. intros settled. now apply upsert_loop_post.
Qed.

Lemma braveStage_post input recency queries m :
  well_formed m -> post (Pipeline.braveStage input recency queries m) well_formed.
Proof.
  intros Hm. unfold Pipeline.braveStage. apply post_bind.
  apply mapM_trigger_post. intros settled. now apply upsert_loop_post.
Qed.

Lemma fetchStage_post q cands toFetch : forall sources,
  Forall2 same_but_text sources cands ->
  post (Pipeline.fetchStage q toFetch sources)
       (fun sources' => Forall2 same_but_text sources' cands).
Proof.
  induction toFetch as [|idx rest IH]; intros sources HR; cbn; [assumption|].
  destruct (sources !! idx) as [s|] eqn:Hs; [|now apply IH].
  cbn. intros [e|pageText]; apply IH; [assumption|].
  destruct (Forall2_lookup_l _ _ _ _ _ HR Hs) as (c & Hc & Hsc).
  rewrite <- (list_insert_id cands idx c Hc).
  apply Forall2_insert; [assumption|]. exact Hsc.
Qed.

Lemma gatherEvidence_post env input :
  post (Pipeline.gatherEvidence env input) from_candidates.
Proof.
  assert (Hnil : well_formed []) by (split; constructor).
  assert (Hempty : from_candidates []).
  { exists []. repeat split; try constructor. cbn. lia. }
  unfold Pipeline.gatherEvidence.
  destruct (default true (useWeb input)); [|exact Hempty].
  apply post_bind.
  apply (post_mono _ well_formed).
  2:{ destruct (TAVILY_API_KEY env); [now apply tavilyStage_post | exact Hnil]. }
  intros m1 Hm1. apply post_bind.
  apply (post_mono _ well_formed).
  2:{ destruct (BRAVE_SEARCH_API_KEY env); [now apply braveStage_post | exact Hm1]. }
  intros m2 [Hd Hk].
  set (fresh := wantsFresh (Text.detectRecencyIntent (question input))).
  destruct (pick_spec fresh m2 Hd) as (Hpd & Hincl & Hlen).
  assert (HR : Forall2 same_but_text (select_sources fresh m2) (pick fresh m2)).
  { unfold select_sources. clear. induction (pick fresh m2) as [|c l IHl]; cbn;
      constructor; [repeat split | exact IHl]. }
  eapply post_mono; [|apply (fetchStage_post _ (pick fresh m2)); exact HR].
  intros sources HS. exists (pick fresh m2). repeat split; try assumption.
  - rewrite Forall_forall in *. intros c Hc. apply Hk.
    apply list_elem_of_In, Hincl, list_elem_of_In, Hc.
  - rewrite (Forall2_length _ _ _ HS). exact Hlen.
Qed.

End WithPlatform.
End EvidenceFacts.

(** ** Canonical keys of the sources *)

Module KeyFacts.
Import Canon Evidence Pipeline EffectsFacts JsStringFacts EvidenceFacts Claimed.

Section WithPlatform.
Context {P : Platform}.

Lemma toLowerCase_app a b : toLowerCase (a ++ b) = toLowerCase a ++ toLowerCase b.
Proof. apply map_app. Qed.

Lemma same_page_key r1 r2 :
  same_page r1 r2 -> key (normalize_parsed r1) = key (normalize_parsed r2).
Proof.
  intros (Hpath & Hq & Hhost). unfold normalize_parsed. cbn [key].
  fold (kept (searchParams r1)). fold (kept (searchParams r2)).
  rewrite Hpath, Hq. f_equal.
  assert (Hwww : forall h1 h2, www_added h1 h2 ->
            strip_www (toLowerCase h1) = strip_www (toLowerCase h2)).
  { intros h1 h2 [-> Hno]. rewrite toLowerCase_app.
    unfold strip_www at 2. rewrite Hno.
    change (toLowerCase "www."%js) with "www."%js.
    unfold strip_www. cbn. reflexivity. }
  destruct Hhost as [-> | [H | H]]; [reflexivity | now apply Hwww | symmetry; now apply Hwww].
Qed.

Lemma map_get_app_absent k m c :
  map_get k m = None -> normUrl c = k -> map_get k (m ++ [c]) = Some c.
Proof.
  unfold map_get. intros Hm Hc. induction m as [|c' m IH]; cbn in *.
  - now rewrite Hc, eqb_refl.
  - destruct (JsString.eqb (normUrl c') k); [discriminate | now apply IH].
Qed.

Lemma map_set_absent c m :
  map_get (normUrl c) m = None -> map_set c m = m ++ [c].
Proof.
  unfold map_get. induction m as [|c' m IH]; cbn; [reflexivity|].
  destruct (JsString.eqb (normUrl c') (normUrl c)); [discriminate|].
  intros H. now rewrite IH.
Qed.

Lemma map_set_last c c' m :
  map_get (normUrl c) m = None -> normUrl c' = normUrl c ->
  map_set c' (m ++ [c]) = m ++ [c'].
Proof.
  unfold map_get. intros Hm Hk. induction m as [|x m IH]; cbn in *.
  - now rewrite Hk, eqb_refl.
  - rewrite Hk. destruct (JsString.eqb (normUrl x) (normUrl c)); [discriminate|].
    now rewrite IH.
Qed.

Lemma upserted_twice m src1 src2 sc1 sc2 :
  normKey src1 = normKey src2 -> map_get (normKey src1) m = None ->
  upserted src2 sc2 (upserted src1 sc1 m)
  = m ++ [if sc1 <? sc2 then stored src2 sc2 else stored src1 sc1].
Proof.
  intros Hk Hm.
  assert (H1 : upserted src1 sc1 m = m ++ [stored src1 sc1]).
  { unfold upserted. fold (normKey src1). rewrite Hm. now apply map_set_absent. }
  rewrite H1. unfold upserted at 1. fold (normKey src2). rewrite <- Hk.
  rewrite (map_get_app_absent _ _ (stored src1 sc1) Hm eq_refl). cbn [score stored].
  destruct (sc1 <? sc2); [|reflexivity].
  rewrite Hk. apply (map_set_last (stored src1 sc1)); [exact Hm | cbn; congruence].
Qed.

(** C3, as the code has it.  For every source list that evidence
    gathering returns:
    - it stems, position by position, from candidates that are stored under
      pairwise distinct canonical keys, each key being the one computed
      from the result URL the candidate came from (the raw URL when it does
      not parse);
    - rank, host cap and backfill keep the keys distinct and take
      candidates of the map only;
    - two parsed URLs of one page (same path, same parameters apart from
      tracking ones, same host apart from one leading [www.] in front of a
      host that does not begin with [www.]; any scheme, any fragment) have
      the same key;
    - two results with the same key, upserted into a map without that key,
      leave one entry: the higher-scored variant, the first on a tie. *)
Theorem sources_have_distinct_keys (env : Env) (input : AskRequest) (w : World) (k : nat)
    (sources : list EvidenceSource) :
  (run (gatherEvidence env input) w k).2 = inr sources ->
  (exists cands,
     Forall2 same_but_text sources cands /\ distinct_keys cands /\ Forall keyed cands)
  /\ (forall fresh m,
        distinct_keys m -> distinct_keys (pick fresh m) /\ incl (pick fresh m) m)
  /\ (forall r1 r2,
        same_page r1 r2 -> key (normalize_parsed r1) = key (normalize_parsed r2))
  /\ (forall m src1 src2 sc1 sc2,
        normKey src1 = normKey src2 -> map_get (normKey src1) m = None ->
        upserted src2 sc2 (upserted src1 sc1 m)
        = m ++ [if sc1 <? sc2 then stored src2 sc2 else stored src1 sc1]).
Proof.
  intros Hrun. split; [|split; [|split]].
  - destruct (post_run _ _ w k sources (gatherEvidence_post env input) Hrun)
      as (cands & H1 & H2 & H3 & _). eauto.
  - intros fresh m Hm. destruct (pick_spec fresh m Hm) as (H1 & H2 & _). auto.
  - apply same_page_key.
  - apply upserted_twice.
Qed.

(** *** URLs that do not parse *)

Lemma scoreSource_nothrow u ttl snip q fresh :
  new_URL u = None -> nothrow (scoreSource u ttl snip q fresh).
Proof.
  intros Hu. unfold scoreSource, score_host, normalizeUrlForDedupe. rewrite Hu.
  destruct fresh; cbn; [|exact I].
  destruct (published snip); cbn; [|exact I].
  destruct (date_parse _); cbn; auto.
Qed.

Lemma unparseable_upsert q fresh m src :
  new_URL (url src) = None ->
  nothrow (upsertCandidate q fresh m src)
  /\ post (upsertCandidate q fresh m src)
       (fun m' => exists sc,
          let c := {| source := {| title := title src; url := url src;
                                   snippet := snippet src;
                                   extractedText := extractedText src |};
                      score := sc; normUrl := url src |} in
          m' = match map_get (url src) m with
               | Some existing => if score existing <? sc then map_set c m else m
               | None => map_set c m
               end
          /\ (map_get (url src) m = None -> In c m')).
Proof.
  intros Hu. split.
  - unfold upsertCandidate, normalizeUrlForDedupe. rewrite Hu.
    apply nothrow_bind; [now apply scoreSource_nothrow|].
    apply (post_mono _ (fun _ => True)); [|apply post_true]. intros sc _.
    destruct (map_get _ m) as [existing|]; [destruct (_ <? _)|]; exact I.
  - eapply post_mono; [|apply upsertCandidate_post].
    intros m' (sc & ->). exists sc. unfold upserted, normalizeUrlForDedupe. rewrite Hu.
    split; [reflexivity|]. intros Hnone. rewrite Hnone.
    rewrite map_set_absent by exact Hnone. apply in_or_app. right. now left.
Qed.

Lemma unparseable_bucket maxSources cap hostCounts picked rest c :
  new_URL (url (source c)) = None -> truthy (url (source c)) = true ->
  getHostnameSafe (url (source c)) = []
  /\ pick_capped maxSources cap hostCounts picked (c :: rest) =
       if (maxSources <=? length picked)%nat then picked
       else if (cap <=? host_count (url (source c)) hostCounts)%nat
       then pick_capped maxSources cap hostCounts picked rest
       else pick_capped maxSources cap
              ((url (source c), S (host_count (url (source c)) hostCounts)) :: hostCounts)
              (picked ++ [c]) rest.
Proof.
  intros Hu Ht. unfold getHostnameSafe. cbn [pick_capped].
  unfold getHostnameSafe. rewrite Hu. cbn [truthy]. split; reflexivity.
Qed.

End WithPlatform.

Import Scenarios.
#[local] Existing Instance Reference.platform.

(** C10, as the code has it.  On every platform, for a result whose URL
    does not parse: the upsert returns without throwing; the raw string is
    the key and the URL of the stored candidate, which enters the map when
    the key is new (and replaces a lower-scored entry of that key
    otherwise); [getHostnameSafe] gives the empty string, and the host-cap
    bucket of the candidate is then the raw URL itself.  And such a URL can
    reach a response: in the run [no_scheme] the URL of the citation is the
    raw text of the search result. *)
Theorem unparseable_url_is_kept :
  (forall (P : Platform) q fresh m src,
     new_URL (url src) = None ->
     nothrow (upsertCandidate q fresh m src)
     /\ post (upsertCandidate q fresh m src)
          (fun m' => exists sc,
             let c := {| source := {| title := title src; url := url src;
                                      snippet := snippet src;
                                      extractedText := extractedText src |};
                         score := sc; normUrl := url src |} in
             m' = match map_get (url src) m with
                  | Some existing => if score existing <? sc then map_set c m else m
                  | None => map_set c m
                  end
             /\ (map_get (url src) m = None -> In c m')))
  /\ (forall (P : Platform) maxSources cap hostCounts picked rest c,
        new_URL (url (source c)) = None -> truthy (url (source c)) = true ->
        getHostnameSafe (url (source c)) = []
        /\ pick_capped maxSources cap hostCounts picked (c :: rest) =
             if (maxSources <=? length picked)%nat then picked
             else if (cap <=? host_count (url (source c)) hostCounts)%nat
             then pick_capped maxSources cap hostCounts picked rest
             else pick_capped maxSources cap
                    ((url (source c), S (host_count (url (source c)) hostCounts))
                       :: hostCounts)
                    (picked ++ [c]) rest)
  /\ (new_URL "example.com/gravity"%js = None
      /\ exists resp,
           (run (askPipeline configured (request gravity None))
                (world gravity no_scheme "Gravity pulls [1]."%js no_followups) 0).2 = inr resp
           /\ map cite_url (citations resp) = ["example.com/gravity"%js]).
Proof.
  split; [|split].
  - intros P q fresh m src. apply unparseable_upsert.
  - intros P maxSources cap hostCounts picked rest c. apply unparseable_bucket.
  - split; [reflexivity|]. eexists. split; vm_compute; reflexivity.
Qed.

(** A result whose URL does not parse, upserted into an empty map. *)
Lemma unparseable_url_is_kept_witness :
  let src := {| title := "Gravity A"%js; url := "example.com/gravity"%js;
                snippet := "About gravity."%js; extractedText := None |} in
  new_URL (url src) = None
  /\ nothrow (upsertCandidate gravity false [] src).
Proof.
  cbv zeta. split; [reflexivity|].
  destruct unparseable_url_is_kept as (H & _).
  apply (H Reference.platform). reflexivity.
Defined.

(** C10, the claim as stated fails: if the empty string stood in for the
    hostname of every URL that does not parse, two such candidates would
    share one host-cap bucket; with a cap of 1 the code picks both in rank
    order, ahead of a lower-ranked parseable one. *)
Lemma empty_string_is_not_the_bucket :
  map (fun c => url (source c)) (pick true two_unparseable)
    = ["example.com/a"; "example.org/b"; "https://c.example/"]%js
  /\ map (fun c => url (source c)) (pick_by_hostname true two_unparseable)
    = ["example.com/a"; "https://c.example/"; "example.org/b"]%js
  /\ pick true two_unparseable <> pick_by_hostname true two_unparseable.
Proof.
  split; [vm_compute; reflexivity|]. split; [vm_compute; reflexivity|].
  vm_compute. discriminate.
Qed.

(** C3, the claim as stated fails: the hosts of two results differ only
    in a leading [www.], yet they do not collapse; both reach the source
    list, and the URLs of the two sources have one canonical key. *)
Lemma leading_www_does_not_always_collapse :
  exists s1 s2,
    (run (gatherEvidence configured (request gravity (Some mode_fast)))
         (world gravity www_twice "Gravity."%js no_followups) 0).2 = inr [s1; s2]
    /\ url s1 = "https://www.example.com/"%js
    /\ url s2 = "https://example.com/"%js
    /\ option_map key (normalizeUrlForDedupe (url s1))
       = option_map key (normalizeUrlForDedupe (url s2)).
Proof.
  eexists _, _. split; [vm_compute; reflexivity|].
  split; [reflexivity|]. split; reflexivity.
Qed.

Lemma ex_intro_and {A} (P : Prop) (Q : A -> Prop) : P /\ (P -> exists x, Q x) -> exists x, P /\ Q x.
Proof. intros [HP HQ]. destruct (HQ HP) as [x Hx]. eauto. Defined.

(** The source list of a run with two results. *)
Lemma sources_have_distinct_keys_witness :
  exists sources cands,
    (run (gatherEvidence configured (request gravity (Some mode_fast)))
         (world gravity www_twice "Gravity."%js no_followups) 0).2 = inr sources
    /\ Forall2 same_but_text sources cands /\ distinct_keys cands /\ Forall keyed cands.
Proof.
  eexists. apply ex_intro_and. split; [vm_compute; reflexivity|].
  intros Hrun.
  exact (proj1 (sources_have_distinct_keys configured (request gravity (Some mode_fast))
                  (world gravity www_twice "Gravity."%js no_followups) 0 _ Hrun)).
Defined.

(** C1 at a run where the code repeats a URL.  The first result has the
    host [www.]: it is stored under the key [/] with the cleaned URL
    [http:///], which has no host and does not parse.  The second result
    is this very text: it does not parse and is stored under itself.  The
    two keys differ, both results become sources, and the response cites
    one URL twice. *)
Lemma citations_can_repeat_a_url :
  exists resp,
    (run (askPipeline configured (request gravity (Some mode_fast)))
         (world gravity empty_host "Gravity pulls [1][2]."%js no_followups) 0).2 = inr resp
    /\ answer resp = "Gravity pulls [1][2]."%js
    /\ map cite_url (citations resp) = ["http:///"; "http:///"]%js
    /\ ~ NoDup (map cite_url (citations resp)).
Proof.
  eexists. split; [vm_compute; reflexivity|]. cbn [answer citations].
  split; [reflexivity|]. split; [reflexivity|].
  cbn. intros H. apply NoDup_cons in H as [H _]. apply H. left.
Qed.

End KeyFacts.

(** ** Follow-up questions *)

Module FollowUpFacts.
Import Replies Pipeline Scenarios.

#[local] Existing Instance Reference.platform.

Lemma sanitizeFollowUps_length items : (length (sanitizeFollowUps items) <= 3)%nat.
Proof. unfold sanitizeFollowUps. rewrite length_firstn. lia. Qed.

Lemma parseFollowUpsLoose_length raw l :
  parseFollowUpsLoose raw = Some l -> (1 <= length l <= 3)%nat.
Proof.
  unfold parseFollowUpsLoose.
  match goal with |- context [sanitizeFollowUps ?x] =>
    pose proof (sanitizeFollowUps_length x) as H; destruct (sanitizeFollowUps x) end;
    [discriminate|].
  intros [= <-]. cbn in *. lia.
Qed.

(** Whatever the model replies, one to three follow-ups are kept. *)
Lemma followUps_of_reply_length raw l :
  followUps_of_reply raw = Some l -> (1 <= length l <= 3)%nat.
Proof.
  unfold followUps_of_reply.
  destruct (extractJsonArrayString (trim raw)) as [text|];
    [|apply parseFollowUpsLoose_length].
  destruct (json_parse text) as [json|]; [|apply parseFollowUpsLoose_length].
  destruct (followUpsSchema json) as [data|]; [|apply parseFollowUpsLoose_length].
  pose proof (sanitizeFollowUps_length data) as H.
  destruct (sanitizeFollowUps data) as [|s r]; [apply parseFollowUpsLoose_length|].
  intros [= <-]. cbn in *. lia.
Qed.

(** C9, at a failing input.  The model answers the follow-up request with
    one line of plain text, 172 characters long.  The reply holds no JSON
    array, so it goes to the loose line parser, which has no length cap:
    the line is the one follow-up of the response.  The same line sent as a
    JSON array is refused by the schema for its length, and the loose
    parser then keeps the whole JSON text, 176 characters, as a
    follow-up. *)
Theorem loose_follow_up_is_longer_than_140 :
  let w := world gravity no_scheme "Gravity pulls masses together [1]."%js (inr long_line) in
  let as_json := "["%js ++ [quote] ++ long_line ++ [quote] ++ "]"%js in
  (exists resp,
     (run (askPipeline configured (request gravity None)) w 0).2 = inr resp
     /\ followUps resp = [long_line])
  /\ length long_line = 172%nat
  /\ followUps_of_reply long_line = Some [long_line]
  /\ followUps_of_reply as_json = Some [as_json]
  /\ length as_json = 176%nat.
Proof.
  cbv zeta. split; [|repeat split; vm_compute; reflexivity].
  eexists. split; [vm_compute; reflexivity|]. vm_compute. reflexivity.
Qed.

End FollowUpFacts.

(** ** The shortcuts of the pipeline *)

Module ShortcutFacts.
Import Text Replies Pipeline EffectsFacts Scenarios.

Section WithPlatform.
Context {P : Platform}.

(** C4.  When the question matches the local-clock intent or a safety
    pattern, the pipeline returns a response and its run contains no
    outbound call (no search, no page fetch, no model call, no model
    listing), whatever the environment holds, also without any API key.
    The response has no citations; for the clock intent its model is
    "local-clock" and its follow-ups are the heuristic ones; otherwise, for
    a safety pattern, its model is "policy-<reason>" and its follow-ups are
    the fixed ones. *)
Theorem shortcuts_make_no_outbound_call (env : Env) (input : AskRequest) (w : World) (n : nat) :
  classifyLocalClockIntent (question input) <> None
  \/ detectSafetyBlock (question input) <> None ->
  outbound_calls (run (askPipeline env input) w n).1 = []
  /\ exists resp,
       (run (askPipeline env input) w n).2 = inr resp
       /\ provider resp = "openrouter"%js
       /\ citations resp = []
       /\ (forall intent,
             classifyLocalClockIntent (question input) = Some intent ->
             response_model resp = "local-clock"%js
             /\ followUps resp = buildHeuristicFollowUps input
             /\ exists c, answer resp = localClockAnswer (clockLooksHindi input) intent c)
       /\ (classifyLocalClockIntent (question input) = None ->
           forall reason,
             detectSafetyBlock (question input) = Some reason ->
             response_model resp = "policy-"%js ++ reason_name reason
             /\ followUps resp = safety_followUps (looksHindiQuestion input)
             /\ answer resp = safety_message (looksHindiQuestion input)).
Proof.
  intros Hmatch. unfold askPipeline.
  destruct (classifyLocalClockIntent (question input)) as [intent|] eqn:Hclock.
  - cbn. split; [reflexivity|]. eexists. split; [reflexivity|]. cbn.
    split; [reflexivity|]. split; [reflexivity|]. split; [|discriminate].
    intros ? [= <-]. split; [reflexivity|]. split; [reflexivity|]. eauto.
  - destruct (detectSafetyBlock (question input)) as [reason|] eqn:Hsafe.
    + cbn. split; [reflexivity|]. eexists. split; [reflexivity|]. cbn.
      split; [reflexivity|]. split; [reflexivity|]. split; [discriminate|].
      intros _ ? [= <-]. split; [reflexivity|]. split; reflexivity.
    + destruct Hmatch as [H|H]; now destruct H.
Qed.

End WithPlatform.

Lemma shortcuts_make_no_outbound_call_witness :
  outbound_calls (run (askPipeline (P := Reference.platform) noKeys clock_question) offline 0).1 = []
  /\ exists resp,
       (run (askPipeline (P := Reference.platform) noKeys clock_question) offline 0).2 = inr resp
       /\ response_model resp = "local-clock"%js
       /\ citations resp = []
       /\ answer resp = "The current time is 9:41:00 AM (local time: UTC)."%js.
Proof.
  destruct (shortcuts_make_no_outbound_call (P := Reference.platform)
              noKeys clock_question offline 0) as (Hlog & resp & Hrun & _ & Hc & Hclock & _).
  - left. vm_compute. discriminate.
  - split; [exact Hlog|]. exists resp. split; [exact Hrun|].
    destruct (Hclock asks_time) as (Hm & _ & _); [vm_compute; reflexivity|].
    repeat split; [exact Hm | exact Hc |].
    revert Hrun. vm_compute. intros [= <-]. reflexivity.
Defined.

End ShortcutFacts.

(** ** Citation verification and the strict re-call *)

Module RetryFacts.
Import Text Citations Replies Pipeline EffectsFacts CitationFacts Observe.

Section WithPlatform.
Context {P : Platform}.

Lemma strict_recalls_app l1 l2 :
  strict_recalls (l1 ++ l2) = strict_recalls l1 ++ strict_recalls l2.
Proof. apply List.filter_app. Qed.

(** The last stage: one clock reading, one follow-up request, and a
    response in every case. *)
Lemma finish_run m input sources start ans w n :
  exists now reply fu,
    run (finish m input sources start ans) w n =
      ([Entry Now now; Entry (ChatCompletion (followUpsRequest m input ans)) reply],
       inr {| provider := provider_name; response_model := m; answer := ans;
              citations := citationsOf sources ans; followUps := fu;
              latencyMs := now - start |})
    /\ (fu = buildHeuristicFollowUps input
        \/ exists raw, reply = inr raw /\ followUps_of_reply raw = Some fu).
Proof.
  unfold finish, generateFollowUps, chat. cbn.
  exists (respond w Z n Now),
         (respond w (Thrown + jsstring) (S n) (ChatCompletion (followUpsRequest m input ans))).
  destruct (respond w (Thrown + jsstring) (S n) _) as [e|raw]; cbn.
  - eexists. split; [reflexivity|]. now left.
  - destruct (followUps_of_reply raw) as [[|f fs]|] eqn:Hfu; cbn.
    + eexists. split; [reflexivity|]. now left.
    + eexists. split; [reflexivity|]. right. eauto.
    + eexists. split; [reflexivity|]. now left.
Qed.

#[local] Arguments finish : simpl never.

Ltac use_finish_run :=
  match goal with
  | |- context [run (finish ?m ?i ?s ?t ?a) ?w ?k] =>
      let H := fresh "Hfinish" in
      destruct (finish_run m i s t a w k) as (? & ? & ? & H & _); rewrite H
  end.

(** The composition stage sends no strict re-call. *)
Lemma compose_no_recall m input sources w n :
  strict_recalls (run (composeAnswer m input sources) w n).1 = [].
Proof.
  unfold composeAnswer, generateGroundedFacts, chat.
  destruct (wantsRetryForCitations input sources); cbn.
  - destruct (respond w (Thrown + jsstring) n _) as [e|raw]; cbn.
    + destruct (respond w (Thrown + jsstring) (S n) _) as [e'|a]; reflexivity.
    + destruct (parseGroundedFacts raw (length sources)) as [[|f fs]|]; cbn;
        destruct (respond w (Thrown + jsstring) (S n) _) as [e'|a]; reflexivity.
  - destruct (respond w (Thrown + jsstring) n _) as [e|a]; reflexivity.
Qed.

Lemma wants_retry_spec input sources :
  wantsRetryForCitations input sources = true <->
  effective_mode input = mode_verified /\ sources <> [].
Proof.
  unfold wantsRetryForCitations.
  destruct (effective_mode input), sources; split; try discriminate;
    try (intros [? ?]; congruence); intros _; split; congruence.
Qed.

(** C2.  Everything after evidence gathering, in verified mode, against
    every world.
    - With at least one source: whenever the composition stage returns a
      first answer, that stage sent no strict re-call; if the first answer
      has a citation defect (some extracted number out of range, no
      in-range number, or a factual block without citation) the next call
      is the strict re-call, it is the only one of the run, and its reply
      is the answer of the response, whether or not it is defective too (a
      re-call that fails fails the request); without a defect no strict
      re-call is sent and the first answer is returned.
    - Without sources: the first call is the direct composition, no strict
      re-call is sent, and the composed answer is returned.
    - The strict re-call has strictCitations = true, temperature 0.2 and
      the user content followed by the citation directive.
    - An answer has a citation defect exactly when some extracted number is
      out of range, or no extracted number is in range, or a factual block
      lacks a citation. *)
Theorem strict_recall_exactly_once m input start sources w n :
  effective_mode input = mode_verified ->
  let whole := run (afterGather m input start sources) w n in
  (sources <> [] ->
   forall log1 first,
     run (composeAnswer m input sources) w n = (log1, inr first) ->
     strict_recalls log1 = []
     /\ (citation_defect sources first = true ->
         exists reply rest,
           whole.1 = log1 ++ Entry (ChatCompletion (strictRequest m input sources)) reply :: rest
           /\ strict_recalls rest = []
           /\ (forall retried, reply = inr retried ->
                 exists resp, whole.2 = inr resp /\ answer resp = retried)
           /\ (forall e, reply = inl e -> whole.2 = inl e))
     /\ (citation_defect sources first = false ->
         strict_recalls whole.1 = []
         /\ exists resp, whole.2 = inr resp /\ answer resp = first))
  /\ (sources = [] ->
      exists reply rest,
        whole.1 = Entry (ChatCompletion (directRequest m input [])) reply :: rest
        /\ strict_recalls whole.1 = []
        /\ (forall first, reply = inr first ->
              exists resp, whole.2 = inr resp /\ answer resp = first))
  /\ system (strictRequest m input sources)
       = systemPrompt input true (Some (length sources))
  /\ temperature (strictRequest m input sources) = 2
  /\ user (strictRequest m input sources)
       = ContentWithCitationDirective (userContent input sources) (length sources)
  /\ (forall a,
        citation_defect sources a = true <->
          (exists k, In k (extractCitationNumbers a)
                     /\ ~ (1 <= k <= Z.of_nat (length sources)))
          \/ (forall k, In k (extractCitationNumbers a) ->
                        ~ (1 <= k <= Z.of_nat (length sources)))
          \/ hasMissingCitations a = true).
Proof.
  intros Hmode whole. subst whole.
  split; [|split; [|split; [reflexivity|split; [reflexivity|split; [reflexivity|]]]]];
    [| |intros a; apply citation_defect_spec].
  - intros Hsrc log1 first Hcompose.
    pose proof (compose_no_recall m input sources w n) as Hno1.
    rewrite Hcompose in Hno1. cbn [fst] in Hno1. split; [exact Hno1|].
    unfold afterGather. rewrite run_bind, Hcompose.
    unfold afterCompose. rewrite run_bind. unfold verifyCitations.
    replace (wantsRetryForCitations input sources) with true
      by (symmetry; now apply wants_retry_spec).
    cbn [andb].
    split.
    + intros ->. unfold chat. cbn.
      set (reply := respond w (Thrown + jsstring) (n + length log1)
                      (ChatCompletion (strictRequest m input sources))).
      exists reply. destruct reply as [e|retried] eqn:Hreply; cbn.
      * exists [].
        split; [reflexivity|]. split; [reflexivity|]. split; intros; congruence.
      * use_finish_run. cbn. eexists. split; [reflexivity|]. split; [reflexivity|].
        split; [|intros; congruence].
        intros ? [= <-]. eexists. split; reflexivity.
    + intros ->. cbn. use_finish_run. cbn.
      rewrite strict_recalls_app, Hno1. split; [reflexivity|].
      eexists. split; reflexivity.
  - intros ->. unfold afterGather, composeAnswer, afterCompose, verifyCitations, chat.
    unfold wantsRetryForCitations. rewrite Hmode. cbn.
    set (reply := respond w (Thrown + jsstring) n (ChatCompletion (directRequest m input []))).
    exists reply. destruct reply as [e|first]; cbn.
    + exists []. split; [reflexivity|]. split; [reflexivity|]. intros; congruence.
    + use_finish_run. cbn. eexists. split; [reflexivity|]. split; [reflexivity|].
      intros ? [= <-]. eexists. split; reflexivity.
Qed.

End WithPlatform.
(** A verified run with one source whose first answer cites nothing: the
    composition stage sends no strict re-call, and the request that follows
    is the strict one. *)
Lemma strict_recall_exactly_once_witness :
  let input := Scenarios.request Scenarios.gravity (Some mode_verified) in
  let w := Scenarios.world Scenarios.gravity [] "Gravity pulls masses together."%js
             Scenarios.no_followups in
  effective_mode input = mode_verified
  /\ forall log1 first,
       run (composeAnswer (P := Reference.platform) "vendor/model:free"%js input
              Scenarios.one_source) w 0 = (log1, inr first) ->
       strict_recalls log1 = [].
Proof.
  cbv zeta. split; [reflexivity|].
  intros log1 first H.
  destruct (strict_recall_exactly_once (P := Reference.platform) "vendor/model:free"%js
              (Scenarios.request Scenarios.gravity (Some mode_verified)) 0
              Scenarios.one_source
              (Scenarios.world Scenarios.gravity [] "Gravity pulls masses together."%js
                 Scenarios.no_followups)
              0 eq_refl) as (Hsome & _).
  destruct (Hsome ltac:(discriminate) log1 first H) as (Hno & _). exact Hno.
Defined.

End RetryFacts.

(** ** The citations of a response *)

Module ResponseFacts.
Import JsNumber Text Canon Citations Evidence EvidenceViews Replies Pipeline EffectsFacts CitationFacts EvidenceFacts.

Section WithPlatform.
Context {P : Platform}.

Lemma finish_post m input sources start ans :
  post (finish m input sources start ans)
       (fun resp => answer resp = ans /\ citations resp = citationsOf sources ans).
Proof.
  unfold finish, generateFollowUps, chat. cbn.
  intros now [e|raw]; cbn; split; reflexivity.
Qed.

Lemma afterGather_post m input start sources :
  post (afterGather m input start sources)
       (fun resp => citations resp = citationsOf sources (answer resp)).
Proof.
  unfold afterGather. apply post_bind.
  apply (post_mono _ (fun _ => True)); [|apply post_true]. intros first _.
  unfold afterCompose. apply post_bind.
  apply (post_mono _ (fun _ => True)); [|apply post_true]. intros ans _.
  eapply post_mono; [|apply finish_post]. cbn. intros resp [-> ->]. reflexivity.
Qed.

Lemma citationsOf_nil ans : citationsOf [] ans = [].
Proof.
  unfold citationsOf.
  assert (H : sanitizeCitationNumbers (extractCitationNumbers ans) 0 = []).
  { destruct (sanitizeCitationNumbers _ 0) as [|n l] eqn:E; [reflexivity|].
    assert (Hn : In n (sanitizeCitationNumbers (extractCitationNumbers ans) 0))
      by (rewrite E; now left).
    apply sanitize_In in Hn. lia. }
  cbn [length]. now rewrite H.
Qed.

Lemma askPipeline_sources env input w k resp :
  (run (askPipeline env input) w k).2 = inr resp ->
  exists sources,
    sources_of_run env input w sources
    /\ from_candidates sources
    /\ citations resp = citationsOf sources (answer resp).
Proof.
  unfold askPipeline. cbn.
  destruct (classifyLocalClockIntent (question input)) as [intent|] eqn:Hclock.
  { unfold clockShortcut. cbn. intros Hr. injection Hr as <-. exists [].
    split; [left; split; [reflexivity|left; congruence]|].
    split; [|cbn [citations answer]; now rewrite citationsOf_nil].
    exists []. repeat split; try constructor. cbn. lia. }
  destruct (detectSafetyBlock (question input)) as [reason|] eqn:Hsafe.
  { unfold buildSafetyRefusal. cbn. intros Hr. injection Hr as <-. exists [].
    split; [left; split; [reflexivity|right; congruence]|].
    split; [|cbn [citations answer]; now rewrite citationsOf_nil].
    exists []. repeat split; try constructor. cbn. lia. }
  destruct (OPENROUTER_API_KEY env); [|cbn; discriminate].
  set (start := respond w Z k Now).
  destruct (run (_ ≫= _) w (S k)) as [log r] eqn:Hrun. cbn. intros ->.
  rewrite run_bind in Hrun.
  destruct (run (selectModel env input) w (S k)) as [log1 [e|m]]; [discriminate|].
  destruct (run (_ ≫= _) w (S k + length log1)) as [log2 r2] eqn:Hrun2.
  injection Hrun as _ ->.
  rewrite run_bind in Hrun2.
  destruct (run (gatherEvidence env input) w (S k + length log1)) as [log3 [e|sources]] eqn:Hg;
    [discriminate|].
  destruct (run (afterGather m input start sources) w _) as [log4 r4] eqn:Hafter.
  injection Hrun2 as _ ->.
  exists sources. split; [|split].
  - right. exists (S k + length log1)%nat. now rewrite Hg.
  - apply (post_run _ _ w (S k + length log1) sources (gatherEvidence_post env input)).
    now rewrite Hg.
  - apply (post_run _ _ w (S k + length log1 + length log3) resp
             (afterGather_post m input start sources)).
    now rewrite Hafter.
Qed.

(** *** Distinct keys give distinct URLs *)

Lemma no_slash_split p1 k1 p2 k2 :
  no_slash p1 = true -> no_slash p2 = true ->
  p1 ++ "//"%js ++ k1 = p2 ++ "//"%js ++ k2 -> k1 = k2.
Proof.
  revert p2. induction p1 as [|c p1 IH]; intros [|d p2] H1 H2 E.
  - now injection E.
  - cbn in E. injection E as <- _. discriminate H2.
  - cbn in E. injection E as -> _. discriminate H1.
  - cbn in E. injection E as _ E. cbn in H1, H2.
    apply andb_prop in H1 as [_ H1]. apply andb_prop in H2 as [_ H2]. eauto.
Qed.

Lemma cleaned_of_key raw n :
  normalizeUrlForDedupe raw = Some n ->
  exists u, new_URL raw = Some u /\ cleanedUrl n = protocol u ++ "//"%js ++ key n.
Proof.
  unfold normalizeUrlForDedupe. destruct (new_URL raw) as [u|]; [|discriminate].
  intros [= <-]. now exists u.
Qed.

Lemma keyed_clash c1 c2 :
  plain_protocols -> keyed c1 -> keyed c2 ->
  url (source c1) = url (source c2) -> parses (url (source c1)) ->
  normUrl c1 = normUrl c2.
Proof.
  intros Hplain [raw1 H1] [raw2 H2] Hurl Hparse.
  assert (Hnone : forall raw, normalizeUrlForDedupe raw = None -> ~ parses raw).
  { intros raw. unfold normalizeUrlForDedupe, parses.
    destruct (new_URL raw); [discriminate|]. intros _ H. now apply H. }
  destruct (normalizeUrlForDedupe raw1) as [n1|] eqn:E1.
  2:{ destruct H1 as [_ H1]. rewrite H1 in Hparse. now apply Hnone in E1. }
  destruct (normalizeUrlForDedupe raw2) as [n2|] eqn:E2.
  2:{ destruct H2 as [_ H2]. rewrite Hurl, H2 in Hparse. now apply Hnone in E2. }
  destruct H1 as [-> U1], H2 as [-> U2].
  destruct (cleaned_of_key _ _ E1) as (u1 & P1 & Q1).
  destruct (cleaned_of_key _ _ E2) as (u2 & P2 & Q2).
  rewrite U1, U2, Q1, Q2 in Hurl.
  exact (no_slash_split _ _ _ _ (Hplain _ _ P1) (Hplain _ _ P2) Hurl).
Qed.

Lemma Forall2_nth_error {A B} (R : A -> B -> Prop) l k i x :
  Forall2 R l k -> nth_error l i = Some x ->
  exists y, nth_error k i = Some y /\ R x y.
Proof.
  intros H. revert i. induction H as [|a b l k Hab _ IH]; intros [|i]; cbn;
    try discriminate.
  - intros [= <-]. eauto.
  - apply IH.
Qed.

(** Two sources of a run at different places have different URLs, unless
    the URL does not parse. *)
Lemma sources_differ sources i j s1 s2 :
  from_candidates sources -> plain_protocols -> i <> j ->
  nth_error sources i = Some s1 -> nth_error sources j = Some s2 ->
  parses (url s1) -> url s1 <> url s2.
Proof.
  intros (cands & Hsame & Hkeys & Hkeyed & _) Hplain Hij H1 H2 Hparse Hurl.
  destruct (Forall2_nth_error _ _ _ _ _ Hsame H1) as (c1 & Hc1 & _ & U1 & _).
  destruct (Forall2_nth_error _ _ _ _ _ Hsame H2) as (c2 & Hc2 & _ & U2 & _).
  rewrite List.Forall_forall in Hkeyed.
  assert (K : normUrl c1 = normUrl c2).
  { apply keyed_clash; try assumption.
    - eapply Hkeyed, nth_error_In, Hc1.
    - eapply Hkeyed, nth_error_In, Hc2.
    - congruence.
    - now rewrite <- U1. }
  apply Hij.
  apply (proj1 (List.NoDup_nth_error (map normUrl cands))
           ltac:(now apply NoDup_ListNoDup)).
  - rewrite length_map. apply nth_error_Some. congruence.
  - rewrite !nth_error_map, Hc1, Hc2. cbn. congruence.
Qed.

Lemma citationsOf_distinct sources answer :
  from_candidates sources -> plain_protocols ->
  Forall (fun c => parses (cite_url c)) (citationsOf sources answer) ->
  NoDup (map cite_url (citationsOf sources answer)).
Proof.
  intros Hfrom Hplain. unfold citationsOf. fold (used sources answer).
  assert (Hs : StronglySorted Z.lt (used sources answer)) by apply sanitize_sorted.
  assert (Hr : forall n, In n (used sources answer) -> 1 <= n)
    by (intros n Hn; apply sanitize_In in Hn; lia).
  induction (used sources answer) as [|n l IH]; cbn; [constructor|].
  apply StronglySorted_inv in Hs as [Hs Hn].
  specialize (IH Hs (fun k Hk => Hr k (or_intror Hk))).
  destruct (nth_error sources (Z.to_nat (n - 1))) as [s|] eqn:Hsrc; [|exact IH].
  cbn. intros Hall. apply Forall_cons_1 in Hall as [Hparse Hall].
  apply NoDup_cons_2; [|exact (IH Hall)].
  rewrite list_elem_of_In, in_map_iff. intros (c & Hc & Hin).
  apply in_map_iff in Hin as (s' & <- & Hin).
  apply in_flat_map in Hin as (k & Hk & Hin).
  destruct (nth_error sources (Z.to_nat (k - 1))) as [s2|] eqn:Hsrc2; [|destruct Hin].
  destruct Hin as [<-|[]]. cbn in Hc, Hparse.
  rewrite Forall_forall in Hn. specialize (Hn k ltac:(now apply list_elem_of_In)).
  specialize (Hr n (or_introl eq_refl)).
  assert (Hidx : Z.to_nat (n - 1) <> Z.to_nat (k - 1)) by lia.
  now apply (sources_differ sources _ _ s s2 Hfrom Hplain Hidx Hsrc Hsrc2 Hparse).
Qed.

(** The citations of a response.  For every response that the pipeline
    returns there is the source list of that run (at most eight sources,
    stemming from candidates with pairwise distinct canonical keys) such
    that the citations are the projection of the answer's markers on it:
    the numbers [used] are strictly ascending; a number is among them
    exactly when it lies in 1..number-of-sources and appears as [[n]] in
    the answer; the k-th citation is the [{url, title}] of
    [sources[n-1]] for the k-th such number, so no source is cited twice.
    The citation URLs are pairwise distinct whenever the source URLs are,
    and also whenever each of them parses, protocols having no slash. *)
Theorem citations_project_the_answer (env : Env) (input : AskRequest) (w : World) (k : nat)
    (resp : AskResponse) :
  (run (askPipeline env input) w k).2 = inr resp ->
  exists sources,
    sources_of_run env input w sources
    /\ from_candidates sources
    /\ StronglySorted Z.lt (used sources (answer resp))
    /\ (forall n, In n (used sources (answer resp)) <->
                  1 <= n <= Z.of_nat (length sources) /\ appears (answer resp) n)
    /\ Forall2 (fun n c => exists s, nth_error sources (Z.to_nat (n - 1)) = Some s
                                     /\ c = {| cite_url := url s; cite_title := title s |})
         (used sources (answer resp)) (citations resp)
    /\ (NoDup (map url sources) -> NoDup (map cite_url (citations resp)))
    /\ (plain_protocols -> Forall (fun c => parses (cite_url c)) (citations resp) ->
        NoDup (map cite_url (citations resp))).
Proof.
  intros Hrun.
  destruct (askPipeline_sources env input w k resp Hrun) as (sources & Hsrc & Hfrom & Hc).
  exists sources. split; [assumption|]. split; [assumption|].
  assert (Hlen : Z.of_nat (length sources) < 2 ^ 53).
  { destruct Hfrom as (cands & _ & _ & _ & Hlen). lia. }
  split; [apply sanitize_sorted|]. split; [intros n; now apply used_In|].
  rewrite Hc. split; [apply citationsOf_map|].
  split; [apply citationsOf_NoDup|]. now apply citationsOf_distinct.
Qed.

End WithPlatform.

(** The reference platform reads http and https URLs only. *)
Lemma reference_protocols : plain_protocols (P := Reference.platform).
Proof.
  intros raw u Hu. change (Reference.parse raw = Some u) in Hu.
  destruct (CanonFacts.parse_scheme_inv _ _ Hu) as (scheme & rest & Hs & Hr).
  destruct (CanonFacts.parse_rest_inv _ _ _ Hr) as (path & query & -> & _).
  now destruct Hs as [-> | ->].
Qed.

(** A run on the reference platform: two search results, both cited; their
    URLs parse and differ. *)
Lemma citations_project_the_answer_witness :
  let w := Scenarios.world Scenarios.gravity Scenarios.www_twice
             "Gravity pulls [1][2]."%js Scenarios.no_followups in
  let input := Scenarios.request Scenarios.gravity None in
  exists resp,
    (run (askPipeline (P := Reference.platform) Scenarios.configured input) w 0).2 = inr resp
    /\ map cite_url (citations resp)
       = ["https://www.example.com/"%js; "https://example.com/"%js]
    /\ NoDup (map cite_url (citations resp))
    /\ exists sources,
         Forall2 (fun n c => exists s, nth_error sources (Z.to_nat (n - 1)) = Some s
                                       /\ c = {| cite_url := url s; cite_title := title s |})
           (used sources (answer resp)) (citations resp).
Proof.
  cbv zeta. eexists.
  match goal with |- ?A /\ ?B => assert (Hrun : A) by (vm_compute; reflexivity) end.
  split; [exact Hrun|]. split; [vm_compute; reflexivity|].
  destruct (citations_project_the_answer (P := Reference.platform) _ _ _ _ _ Hrun)
    as (sources & _ & _ & _ & _ & H & _ & Hdistinct).
  split; [|exists sources; exact H].
  apply Hdistinct; [exact reference_protocols|].
  repeat constructor; vm_compute; discriminate.
Defined.

End ResponseFacts.

(** ** The limiter with any options, and several clients *)

Module RateLimiterLaws.
Import RateLimiter RateLimiterViews JsStringFacts.

Lemma opening_request o hits now r :
  (forall e, hits !! hit_key o r = Some e -> resetAtMs e <= now) ->
  rateLimiter o hits now r =
    (<[hit_key o r := {| count := 1; resetAtMs := now + windowMs o |}]> hits,
     answer_in_window o 1 (now + windowMs o) now r).
Proof.
  intros Hfresh. unfold rateLimiter.
  destruct (hits !! hit_key o r) as [e|] eqn:He; [|reflexivity].
  specialize (Hfresh e eq_refl).
  destruct (Z.leb_spec (resetAtMs e) now); [reflexivity | lia].
Qed.

Lemma later_request o hits now r c reset :
  hits !! hit_key o r = Some {| count := c; resetAtMs := reset |} ->
  now < reset -> 1 <= c ->
  rateLimiter o hits now r =
    (<[hit_key o r := {| count := c + 1; resetAtMs := reset |}]> hits,
     answer_in_window o (c + 1) reset now r).
Proof.
  intros He Hlt Hc. unfold rateLimiter. rewrite He. cbn [resetAtMs count].
  destruct (Z.leb_spec reset now); [lia|].
  unfold answer_in_window.
  destruct (Z.eqb_spec (c + 1) 1); [lia|]. cbn [orb].
  destruct (Z.ltb_spec (max o) (c + 1)), (Z.leb_spec (c + 1) (max o)); try lia; reflexivity.
Qed.

Lemma serve_window o k reset calls : forall hits c,
  1 <= c ->
  Forall (fun call => hit_key o call.2 = k /\ call.1 < reset) calls ->
  hits !! k = Some {| count := c; resetAtMs := reset |} ->
  forall i now r, calls !! i = Some (now, r) ->
    (serve o hits calls).2 !! i
    = Some (answer_in_window o (c + Z.of_nat i + 1) reset now r).
Proof.
  induction calls as [|[t q] calls IH]; intros hits c Hc Hall Hk i now r Hi; [done|].
  apply Forall_cons in Hall as [[Hkey Ht] Hall']. cbn [fst snd] in Hkey, Ht.
  rewrite <- Hkey in Hk.
  cbn [serve]. rewrite (later_request _ _ _ _ _ _ Hk Ht Hc).
  destruct (serve o _ calls) as [hits2 outs] eqn:Hs.
  destruct i as [|i]; cbn in Hi |- *.
  - injection Hi as -> ->. do 2 f_equal. lia.
  - specialize (IH (<[hit_key o q := {| count := c + 1; resetAtMs := reset |}]> hits)
                  (c + 1) ltac:(lia) Hall').
    rewrite Hs in IH. rewrite IH with (now := now) (r := r); [| |exact Hi].
    + do 2 f_equal. lia.
    + rewrite Hkey. apply lookup_insert_eq.
Qed.

Lemma ceil_div_1000_mono a b : a <= b -> ceil_div_1000 a <= ceil_div_1000 b.
Proof.
  intros H. unfold ceil_div_1000.
  assert (- b / 1000 <= - a / 1000) by (apply Z.div_le_mono; lia). lia.
Qed.

(** Whatever the options: the request that opens a window passes, also
    when [max] is zero or negative; a later request of the window passes
    exactly when its number is at most [max]; every answer carries the
    limit, the remaining count [max(0, max - n)] and the end of the window;
    a refusal carries a [Retry-After] of at least one second and, when the
    clock has not gone back behind the opening request, of at most
    [max(1, ceil(windowMs / 1000))] seconds. *)
Theorem window_of_any_limiter (o : RateLimitOptions) hits k t0 r0 calls :
  hit_key o r0 = k ->
  (forall e, hits !! k = Some e -> resetAtMs e <= t0) ->
  Forall (fun call => hit_key o call.2 = k /\ call.1 < t0 + windowMs o) calls ->
  forall i now r, ((t0, r0) :: calls) !! i = Some (now, r) ->
    exists out,
      (serve o hits ((t0, r0) :: calls)).2 !! i = Some out
      /\ (passed out = true <-> i = 0%nat \/ Z.of_nat i + 1 <= max o)
      /\ X_RateLimit_Limit (headers out) = max o
      /\ X_RateLimit_Remaining (headers out) = Z.max 0 (max o - (Z.of_nat i + 1))
      /\ X_RateLimit_Reset (headers out) = ceil_div_1000 (t0 + windowMs o)
      /\ (passed out = true -> Retry_After (headers out) = None)
      /\ (passed out = false ->
          exists s, Retry_After (headers out) = Some s /\ 1 <= s
                    /\ (t0 <= now -> s <= Z.max 1 (ceil_div_1000 (windowMs o)))).
Proof.
  intros Hk Hfresh Hall i now r Hi.
  exists (answer_in_window o (Z.of_nat i + 1) (t0 + windowMs o) now r).
  split.
  - cbn [serve]. rewrite <- Hk in Hfresh. rewrite (opening_request _ _ _ _ Hfresh).
    destruct (serve o _ calls) as [hits2 outs] eqn:Hs.
    destruct i as [|i]; cbn in Hi |- *.
    + injection Hi as -> ->. reflexivity.
    + pose proof (serve_window o k (t0 + windowMs o) calls
        (<[hit_key o r0 := {| count := 1; resetAtMs := t0 + windowMs o |}]> hits) 1
        ltac:(lia) Hall) as H.
      rewrite Hs in H. rewrite H with (now := now) (r := r); [| |exact Hi].
      * do 2 f_equal. lia.
      * rewrite Hk. apply lookup_insert_eq.
  - unfold answer_in_window.
    destruct ((Z.of_nat i + 1 =? 1) || (Z.of_nat i + 1 <=? max o)) eqn:E; cbn.
    + repeat split; try reflexivity; try discriminate. intros _. lia.
    + repeat split; try reflexivity; try discriminate; try (intros; lia).
      intros _. eexists. split; [reflexivity|]. split; [lia|].
      intros Hnow. apply Z.max_lub; [lia|].
      etransitivity; [apply (ceil_div_1000_mono _ (windowMs o)); lia|]. lia.
Qed.

(** A limiter that allows nothing still lets the opening request pass. *)
Lemma window_of_any_limiter_witness :
  let o := {| windowMs := 1000; max := 0; keyPrefix := "x"%js |} in
  let r := {| ip := Some "10.0.0.1"%js; requestId := None |} in
  exists out1 out2,
    (serve o ∅ [(0, r); (10, r)]).2 = [out1; out2]
    /\ passed out1 = true /\ passed out2 = false.
Proof.
  cbv zeta.
  set (o := {| windowMs := 1000; max := 0; keyPrefix := "x"%js |}).
  set (r := {| ip := Some "10.0.0.1"%js; requestId := None |}).
  assert (Hfresh : forall e : HitCounter,
             (∅ : gmap (list ascii) HitCounter) !! hit_key o r = Some e -> resetAtMs e <= 0).
  { intros e He. rewrite lookup_empty in He. discriminate He. }
  assert (Hall : Forall (fun call : Z * Request =>
                           hit_key o call.2 = hit_key o r /\ call.1 < 0 + windowMs o)
                   [(10, r)]).
  { repeat constructor. }
  destruct (window_of_any_limiter o ∅ (hit_key o r) 0 r [(10, r)] eq_refl Hfresh Hall
              0%nat 0 r eq_refl) as (out1 & H1 & Hp1 & _).
  destruct (window_of_any_limiter o ∅ (hit_key o r) 0 r [(10, r)] eq_refl Hfresh Hall
              1%nat 10 r eq_refl) as (out2 & H2 & Hp2 & _).
  exists out1, out2. split; [|split].
  - destruct (serve o ∅ [(0, r); (10, r)]).2 as [|a [|b [|c l]]] eqn:E;
      cbn in H1, H2; try discriminate; congruence.
  - apply Hp1. now left.
  - destruct (passed out2) eqn:E; [|reflexivity].
    destruct (proj1 Hp2 eq_refl) as [H|H]; [discriminate | cbn in H; lia].
Defined.

(** *** Clients do not interfere *)

Lemma rateLimiter_other_key o hits now r k :
  k <> hit_key o r -> (rateLimiter o hits now r).1 !! k = hits !! k.
Proof.
  intros Hk. unfold rateLimiter.
  destruct (hits !! hit_key o r) as [e|]; [destruct (resetAtMs e <=? now)|];
    [|destruct (max o <? count e + 1)|]; cbn [fst]; now apply lookup_insert_ne.
Qed.

Lemma rateLimiter_local o hits1 hits2 now r :
  hits1 !! hit_key o r = hits2 !! hit_key o r ->
  (rateLimiter o hits1 now r).2 = (rateLimiter o hits2 now r).2
  /\ (rateLimiter o hits1 now r).1 !! hit_key o r
     = (rateLimiter o hits2 now r).1 !! hit_key o r.
Proof.
  intros H. unfold rateLimiter. rewrite <- H.
  destruct (hits1 !! hit_key o r) as [e|]; [destruct (resetAtMs e <=? now)|];
    [|destruct (max o <? count e + 1)|]; cbn [fst snd];
    rewrite !lookup_insert_eq; auto.
Qed.

(** The answers that the calls of one key get do not depend on the calls
    of the other keys: they are the answers that the limiter gives when it
    sees the calls of that key alone. *)
Theorem clients_do_not_interfere (o : RateLimitOptions) (k : jsstring)
    (calls : list (Z * Request)) (hits : gmap (list ascii) HitCounter) :
  map snd (List.filter (fun p => for_key o k p.1) (combine calls (serve o hits calls).2))
  = (serve o hits (List.filter (for_key o k) calls)).2.
Proof.
  enough (H : forall hits1 hits2, hits1 !! k = hits2 !! k ->
            map snd (List.filter (fun p => for_key o k p.1)
                       (combine calls (serve o hits1 calls).2))
            = (serve o hits2 (List.filter (for_key o k) calls)).2) by now apply H.
  induction calls as [|[t r] calls IH]; intros hits1 hits2 Hh; [reflexivity|].
  cbn [serve].
  destruct (rateLimiter o hits1 t r) as [h1 out1] eqn:E1.
  destruct (serve o h1 calls) as [h1' outs1] eqn:Es1.
  cbn [snd combine List.filter fst].
  change (for_key o k (t, r)) with (JsString.eqb (hit_key o r) k).
  destruct (JsString.eqb (hit_key o r) k) eqn:Ek.
  - apply eqb_eq in Ek. subst k.
    destruct (rateLimiter_local o hits1 hits2 t r Hh) as [Hout Hnew].
    rewrite E1 in Hout, Hnew. cbn [fst snd] in Hout, Hnew.
    cbn [serve]. destruct (rateLimiter o hits2 t r) as [h2 out2] eqn:E2.
    cbn [fst snd] in Hout, Hnew.
    specialize (IH h1 h2 Hnew). rewrite Es1 in IH. cbn [snd] in IH.
    destruct (serve o h2 _) as [h2' outs2]. cbn [snd map] in *. congruence.
  - assert (Hne : k <> hit_key o r).
    { intros ->. rewrite eqb_refl in Ek. discriminate. }
    pose proof (rateLimiter_other_key o hits1 t r k Hne) as Hsame.
    rewrite E1 in Hsame. cbn [fst] in Hsame.
    specialize (IH h1 hits2 ltac:(congruence)). rewrite Es1 in IH. exact IH.
Qed.

End RateLimiterLaws.

(** ** What the pruning passes keep *)

Module RoutesLaws.
Import Routes RoutesViews RoutesFacts.

Lemma delete_oldest_spec {A} maxEntries (m : list A) :
  exists dropped,
    m = dropped ++ delete_oldest maxEntries m
    /\ length (delete_oldest maxEntries m) = Nat.min maxEntries (length m).
Proof.
  unfold delete_oldest. exists (firstn (length m - maxEntries) m). split.
  - symmetry. apply firstn_skipn.
  - rewrite length_skipn. lia.
Qed.

Lemma filter_ext_eq {A} (p q : A -> bool) l :
  (forall x, p x = q x) -> List.filter p l = List.filter q l.
Proof. intros H. induction l as [|x l IH]; cbn; [reflexivity|]. now rewrite H, IH. Qed.

Lemma pruned_shape {A} (ops : Z) (cap threshold : nat) (m live : list A) :
  let out :=
    (if negb (ops mod 50 =? 0) && (length m <? threshold)%nat then (ops, m)
     else if (length live <=? cap)%nat then (ops, live)
          else (ops, delete_oldest cap live)).2 in
  ((ops mod 50 =? 0) || (threshold <=? length m)%nat = false -> out = m)
  /\ ((ops mod 50 =? 0) || (threshold <=? length m)%nat = true ->
      exists oldest, live = oldest ++ out /\ length out = Nat.min cap (length live)).
Proof.
  cbv zeta.
  assert (Hpass : exists oldest,
             live = oldest ++ (if (length live <=? cap)%nat then (ops, live)
                               else (ops, delete_oldest cap live)).2
             /\ length (if (length live <=? cap)%nat then (ops, live)
                        else (ops, delete_oldest cap live)).2
                = Nat.min cap (length live)).
  { destruct (Nat.leb_spec (length live) cap); cbn [snd].
    - exists []. split; [reflexivity | lia].
    - apply delete_oldest_spec. }
  destruct (ops mod 50 =? 0); cbn [negb andb orb].
  - split; [discriminate | auto].
  - destruct (Nat.ltb_spec (length m) threshold), (Nat.leb_spec threshold (length m));
      try lia; cbn [snd]; split; try discriminate; auto.
Qed.

(** [maybePruneAskCache]: the call counter goes up by one; unless a pass
    is due (every 50th call, or 200 entries and more) the cache is left as
    it is, expired entries included; a pass keeps the unexpired entries in
    their order, and of those the newest 500 when there are more; so the
    cache never holds more than 500 entries after a call. *)
Theorem ask_cache_pruning (st : Z * list (jsstring * AskCacheEntry)) (now : Z) :
  let st' := maybePruneAskCache st now in
  let live := List.filter (unexpired now) st.2 in
  st'.1 = st.1 + 1
  /\ (length st'.2 <= 500)%nat
  /\ (cache_pass_due st = false -> st'.2 = st.2)
  /\ (cache_pass_due st = true ->
      exists oldest,
        live = oldest ++ st'.2 /\ length st'.2 = Nat.min 500 (length live)).
Proof.
  cbv zeta. split; [|split; [apply ask_cache_is_bounded|]].
  - unfold maybePruneAskCache.
    destruct (negb _ && _); [reflexivity|]. now destruct (_ <=? _)%nat.
  - unfold maybePruneAskCache, cache_pass_due.
    rewrite (filter_ext_eq (fun e => negb (expiresAtMs e.2 <=? now)) (unexpired now))
      by (intros e; unfold unexpired; lia).
    generalize 500%nat 200%nat. intros cap threshold.
    apply pruned_shape.
Qed.

(** [maybePruneAnonProfiles]: as for the cache, with a pass on every 50th
    call or from 2000 profiles on, profiles kept when seen within thirty
    days, and the capacity 5000.  The profiles dropped for capacity are the
    ones inserted first, whenever they were last seen. *)
Theorem anon_profile_pruning (st : Z * list (jsstring * AnonProfile)) (now : Z) :
  let st' := maybePruneAnonProfiles st now in
  let live := List.filter (recent now) st.2 in
  st'.1 = st.1 + 1
  /\ (length st'.2 <= 5000)%nat
  /\ (profiles_pass_due st = false -> st'.2 = st.2)
  /\ (profiles_pass_due st = true ->
      exists oldest,
        live = oldest ++ st'.2 /\ length st'.2 = Nat.min 5000 (length live)).
Proof.
  cbv zeta. split; [|split; [apply anon_profiles_are_bounded|]].
  - unfold maybePruneAnonProfiles.
    destruct (negb _ && _); [reflexivity|]. now destruct (_ <=? _)%nat.
  - unfold maybePruneAnonProfiles, profiles_pass_due. cbv zeta.
    rewrite (filter_ext_eq (fun e => negb (lastSeenAtMs e.2 <? now - 30 * 24 * 60 * 60 * 1000))
               (recent now))
      by (intros e; unfold recent; lia).
    generalize 5000%nat. generalize 2000%nat. intros threshold cap.
    apply pruned_shape.
Qed.

End RoutesLaws.

(** ** Citation numbers: the two clean-up functions *)

Module CitationLaws.
Import JsNumber Citations CitationFacts.

(** [extractCitationNumbers]: the numbers come out strictly ascending.  A
    number is among them exactly when it is the double nearest to a number
    [m] that appears as a marker [[m]] in the answer, [m] being below the
    magnitude that [parseInt] rounds to [Infinity]; markers that round to
    the same double give one number.  Below 2^53 nothing is rounded: such
    a number is among them exactly when it appears as a marker. *)
Theorem extracted_citation_numbers (answer : jsstring) :
  StronglySorted Z.lt (extractCitationNumbers answer)
  /\ (forall n, In n (extractCitationNumbers answer)
               <-> exists m, appears answer m /\ m < overflow_bound
                             /\ n = round_double m)
  /\ (forall n, n < 2 ^ 53 ->
                 (In n (extractCitationNumbers answer) <-> appears answer n)).
Proof.
  assert (Hin : forall n, In n (extractCitationNumbers answer)
               <-> exists m, appears answer m /\ m < overflow_bound
                             /\ n = round_double m).
  { intros n. rewrite extract_In. split.
    - intros (ds & Hin & Hp).
      apply markers_spec in Hin as (pre & post & -> & Hne & Hd).
      rewrite (parseInt10_digits _ Hne Hd) in Hp. unfold of_magnitude in Hp.
      destruct (Z.leb_spec overflow_bound (digits_value 0 ds)); [discriminate|].
      injection Hp as <-. exists (digits_value 0 ds).
      split; [|split; [assumption|reflexivity]].
      exists pre, ds, post. auto.
    - intros (m & (pre & ds & post & -> & Hne & Hd & Hv) & Hsmall & ->).
      exists ds. split; [apply markers_spec; eauto|].
      rewrite (parseInt10_digits _ Hne Hd). unfold of_magnitude.
      destruct (Z.leb_spec overflow_bound (digits_value 0 ds)); [lia | congruence]. }
  split; [apply extract_sorted|]. split; [exact Hin|].
  intros n Hn. rewrite Hin. split.
  - intros (m & Hm & _ & Hr). symmetry in Hr.
    now rewrite <- (NumberFacts.round_double_exact m n Hn Hr).
  - intros Hm. exists n. split; [assumption|].
    pose proof NumberFacts.doubles_reach_2_53.
    split; [lia|]. symmetry. now apply NumberFacts.round_double_small.
Qed.

(** Above 2^53 the marker's number is rounded: 2^53 + 1 is read as 2^53,
    and two markers that round alike give a single number. *)
Example extracted_numbers_are_doubles :
  extractCitationNumbers "[9007199254740993]"%js = [9007199254740992]
  /\ extractCitationNumbers "[9007199254740993] [9007199254740992]"%js
     = [9007199254740992].
Proof. split; vm_compute; reflexivity. Qed.

Lemma sorted_in_range l : forall lo hi,
  StronglySorted Z.lt l -> (forall n, In n l -> lo <= n <= hi) ->
  Z.of_nat (length l) <= Z.max 0 (hi - lo + 1).
Proof.
  induction l as [|k l IH]; intros lo hi Hs Hr; [cbn; lia|].
  apply StronglySorted_inv in Hs as [Hs Hk].
  pose proof (Hr k (or_introl eq_refl)) as Hk'.
  specialize (IH (k + 1) hi Hs).
  assert (forall n, In n l -> k + 1 <= n <= hi).
  { intros n Hn. rewrite List.Forall_forall in Hk. specialize (Hk n Hn).
    specialize (Hr n (or_intror Hn)). lia. }
  specialize (IH H). cbn [length]. lia.
Qed.

(** [sanitizeCitationNumbers]: the result is strictly ascending, holds
    exactly the numbers of the input that lie in [1..max], so at most
    [max] of them, and sanitising it again changes nothing. *)
Theorem sanitized_citation_numbers (nums : list Z) (max : nat) :
  let out := sanitizeCitationNumbers nums max in
  StronglySorted Z.lt out
  /\ (forall n, In n out <-> In n nums /\ 1 <= n <= Z.of_nat max)
  /\ (length out <= max)%nat
  /\ sanitizeCitationNumbers out max = out.
Proof.
  cbv zeta. split; [apply sanitize_sorted|]. split; [apply sanitize_In|].
  split; [|apply sanitize_idempotent].
  pose proof (sorted_in_range (sanitizeCitationNumbers nums max) 1 (Z.of_nat max)
                (sanitize_sorted nums max)) as H.
  assert (forall n, In n (sanitizeCitationNumbers nums max) -> 1 <= n <= Z.of_nat max)
    by (intros n Hn; now apply sanitize_In in Hn).
  specialize (H H0). lia.
Qed.

End CitationLaws.

(** ** Follow-ups and grounded facts read from a reply *)

Module ReplyLaws.
Import JsNumber Citations Replies CitationFacts CitationLaws FollowUpFacts Text JsStringFacts.

Section WithPlatform.
Context {P : Platform}.

Lemma member_In t l : member t l = true <-> In t l.
Proof.
  unfold member. rewrite existsb_exists. split.
  - intros (x & Hx & ->%eqb_eq). exact Hx.
  - intros H. exists t. split; [assumption | apply eqb_refl].
Qed.

Lemma unique_ci_spec l : forall seen,
  NoDup (map toLowerCase (unique_ci seen l))
  /\ (forall s, In s (unique_ci seen l) -> In s l /\ ~ In (toLowerCase s) seen).
Proof.
  induction l as [|s r IH]; intros seen; cbn [unique_ci map].
  - split; [constructor | intros s []].
  - destruct (member (toLowerCase s) seen) eqn:E.
    + destruct (IH seen) as [Hnd Hin]. split; [assumption|].
      intros x Hx. destruct (Hin x Hx). split; [now right | assumption].
    + destruct (IH (toLowerCase s :: seen)) as [Hnd Hin]. split.
      * cbn [map]. apply NoDup_cons_2; [|assumption].
        rewrite list_elem_of_In, in_map_iff. intros (x & Hx & Hxin).
        destruct (Hin x Hxin) as [_ Hnot]. apply Hnot. left. congruence.
      * intros x [<-|Hx].
        -- split; [now left|]. intros Hs. apply member_In in Hs. congruence.
        -- destruct (Hin x Hx) as [H1 H2]. split; [now right|].
           intros Hs. apply H2. now right.
Qed.

Lemma firstn_In {A} n (l : list A) x : In x (firstn n l) -> In x l.
Proof.
  revert n. induction l as [|y l IH]; intros [|n]; cbn; try tauto.
  intros [->|H]; [now left | right; eauto].
Qed.

Lemma NoDup_firstn {A} n (l : list A) : NoDup l -> NoDup (firstn n l).
Proof.
  revert n. induction l as [|y l IH]; intros [|n] Hnd; cbn; try constructor.
  - apply NoDup_cons in Hnd as [Hy Hnd]. rewrite list_elem_of_In. intros H.
    apply Hy, list_elem_of_In. now apply firstn_In in H.
  - apply NoDup_cons in Hnd as [_ Hnd]. now apply IH.
Qed.

Lemma sanitizeFollowUps_clean (items : list jsstring) :
  let out := sanitizeFollowUps items in
  (length out <= 3)%nat
  /\ Forall (fun s => s <> []) out
  /\ NoDup (map toLowerCase out).
Proof.
  cbv zeta. split; [apply sanitizeFollowUps_length|].
  unfold sanitizeFollowUps.
  match goal with |- context [unique_ci [] ?c] => set (cleaned := c) end.
  destruct (unique_ci_spec cleaned []) as [Hnd Hin]. split.
  - apply List.Forall_forall. intros s Hs%firstn_In.
    destruct (Hin s Hs) as [Hc _]. unfold cleaned in Hc.
    apply firstn_In, List.filter_In in Hc as [_ Ht]. now destruct s.
  - rewrite <- firstn_map. now apply NoDup_firstn.
Qed.


(** [generateFollowUps], whatever the model replied: when follow-ups come
    out of the reply, through the schema or through the loose line parser,
    they are between one and three, none is empty, and no two are equal
    when letter case is ignored. *)
Theorem follow_ups_of_any_reply (raw : jsstring) (l : list jsstring) :
  followUps_of_reply raw = Some l ->
  (1 <= length l <= 3)%nat
  /\ Forall (fun s => s <> []) l
  /\ NoDup (map toLowerCase l).
Proof.
  intros H.
  assert (Hsan : exists items, l = sanitizeFollowUps items /\ l <> []).
  { revert H. unfold followUps_of_reply, parseFollowUpsLoose.
    repeat match goal with
           | |- context [match ?x with _ => _ end] =>
               match x with
               | sanitizeFollowUps ?i =>
                   let E := fresh "E" in destruct x eqn:E
               | _ => destruct x
               end
           end; try discriminate; intros [= <-]; eexists; (split; [eauto | discriminate]). }
  destruct Hsan as (items & -> & Hne).
  destruct (sanitizeFollowUps_clean items) as (Hlen & Hrest).
  split; [|exact Hrest].
  destruct (sanitizeFollowUps items); [congruence | cbn in *; lia].
Qed.

Lemma all_some_spec {A B} (f : A -> option B) l out :
  all_some (map f l) = Some out -> Forall2 (fun x y => f x = Some y) l out.
Proof.
  revert out. induction l as [|x l IH]; intros out; cbn.
  - intros [= <-]. constructor.
  - destruct (f x) as [y|] eqn:E; [|discriminate].
    destruct (all_some (map f l)) as [ys|]; [|discriminate].
    intros [= <-]. constructor; auto.
Qed.

Lemma insert_number_length n l : length (insert_number n l) = S (length l).
Proof.
  induction l as [|k l IH]; cbn; [reflexivity|].
  destruct (n <=? k); cbn; congruence.
Qed.

Lemma sort_numbers_length l : length (sort_numbers l) = length l.
Proof.
  induction l as [|k l IH]; cbn; [reflexivity|].
  fold (sort_numbers l). now rewrite insert_number_length, IH.
Qed.

Lemma dedupe_length l : forall seen, (length (dedupe seen l) <= length l)%nat.
Proof.
  induction l as [|k l IH]; intros seen; cbn; [lia|].
  destruct (existsb (Z.eqb k) seen); cbn; [specialize (IH seen) | specialize (IH (k :: seen))]; lia.
Qed.

Lemma sanitize_length nums max :
  (length (sanitizeCitationNumbers nums max) <= length nums)%nat.
Proof.
  unfold sanitizeCitationNumbers. rewrite sort_numbers_length.
  etransitivity; [apply dedupe_length | apply List.filter_length_le].
Qed.

Lemma trimmed_string_spec lo hi j t :
  trimmed_string lo hi j = Some t -> (lo <= length t <= hi)%nat.
Proof.
  destruct j; cbn; try discriminate.
  unfold between. destruct (Nat.leb_spec lo (length (trim s))), (Nat.leb_spec (length (trim s)) hi);
    cbn; try discriminate. intros [= <-]. lia.
Qed.

Lemma groundedFactSchema_spec j f :
  groundedFactSchema j = Some f ->
  (1 <= length (fact f) <= 500)%nat /\ (1 <= length (fact_citations f) <= 3)%nat.
Proof.
  destruct j as [| | | | |fields]; cbn; try discriminate.
  destruct (field "fact"%js fields) as [ft|]; [|discriminate].
  destruct (field "citations"%js fields) as [[| | | |cs|]|]; try discriminate.
  destruct (trimmed_string 1 500 ft) as [text|] eqn:Et; [|discriminate].
  destruct (all_some (map citationNumberSchema cs)) as [nums|] eqn:En; [|discriminate].
  unfold between.
  destruct (Nat.leb_spec 1 (length cs)), (Nat.leb_spec (length cs) 3); cbn; try discriminate.
  intros [= <-]. cbn. split; [now apply (trimmed_string_spec 1 500 ft)|].
  apply all_some_spec, Forall2_length in En. lia.
Qed.

(** [parseGroundedFacts]: the facts that come out are between one and
    fifteen; each has a text of 1 to 500 characters and between one and
    three citation numbers, strictly ascending and all within
    [1..maxSource]. *)
Theorem grounded_facts_are_clean (raw : jsstring) (maxSource : nat)
    (facts : list GroundedFact) :
  parseGroundedFacts raw maxSource = Some facts ->
  (1 <= length facts <= 15)%nat
  /\ Forall (fun f =>
               (1 <= length (fact f) <= 500)%nat
               /\ (1 <= length (fact_citations f) <= 3)%nat
               /\ StronglySorted Z.lt (fact_citations f)
               /\ Forall (fun n => 1 <= n <= Z.of_nat maxSource) (fact_citations f)) facts.
Proof.
  unfold parseGroundedFacts.
  destruct (extractJsonArrayString raw) as [text|]; [|discriminate].
  destruct (json_parse text) as [json|]; [|discriminate].
  destruct (groundedFactsSchema json) as [parsed|] eqn:Hs; [|discriminate].
  set (clean := fun f : GroundedFact =>
                  match sanitizeCitationNumbers (fact_citations f) maxSource with
                  | [] => []
                  | cites => [{| fact := fact f; fact_citations := cites |}]
                  end).
  assert (Hparsed : (length parsed <= 15)%nat
                    /\ Forall (fun f => (1 <= length (fact f) <= 500)%nat
                                        /\ (1 <= length (fact_citations f) <= 3)%nat) parsed).
  { destruct json as [| | | |l|]; cbn in Hs; try discriminate.
    unfold between in Hs.
    destruct (Nat.leb_spec 1 (length l)), (Nat.leb_spec (length l) 15); cbn in Hs;
      try discriminate.
    apply all_some_spec in Hs. split; [apply Forall2_length in Hs; lia|].
    clear -Hs. induction Hs as [|j f l out Hj Hs IH]; constructor; [|exact IH].
    now apply (groundedFactSchema_spec j). }
  destruct Hparsed as [Hlen Hall].
  assert (Hclean : (length (flat_map clean parsed) <= length parsed)%nat
                   /\ Forall (fun f =>
                        (1 <= length (fact f) <= 500)%nat
                        /\ (1 <= length (fact_citations f) <= 3)%nat
                        /\ StronglySorted Z.lt (fact_citations f)
                        /\ Forall (fun n => 1 <= n <= Z.of_nat maxSource) (fact_citations f))
                        (flat_map clean parsed)).
  { clear Hlen Hs. induction Hall as [|f l [Hf Hc] Hall IH]; cbn; [split; [lia | constructor]|].
    destruct IH as [IH1 IH2]. unfold clean at 1 3.
    pose proof (sanitize_length (fact_citations f) maxSource) as Hle.
    pose proof (sanitize_sorted (fact_citations f) maxSource) as Hso.
    assert (Hin : Forall (fun n => 1 <= n <= Z.of_nat maxSource)
                    (sanitizeCitationNumbers (fact_citations f) maxSource)).
    { apply List.Forall_forall. intros n Hn. now apply sanitize_In in Hn. }
    destruct (sanitizeCitationNumbers (fact_citations f) maxSource) as [|c cs] eqn:E; cbn.
    - split; [lia | assumption].
    - split; [lia|]. constructor; [|assumption]. cbn. repeat split; try assumption; cbn in *; lia. }
  destruct Hclean as [Hl Hc].
  destruct (flat_map clean parsed) as [|f fs] eqn:E; [discriminate|].
  intros [= <-]. split; [cbn in *; lia | assumption].
Qed.

End WithPlatform.

#[local] Existing Instance Reference.platform.

(** A reply in lines, read by the loose parser. *)
Lemma follow_ups_of_any_reply_witness :
  let raw := ("1. First one?" ++ ["010"%char] ++ "* second" ++ ["010"%char] ++ "- SECOND")%js in
  followUps_of_reply raw = Some ["First one?"%js; "second"%js]
  /\ NoDup (map toLowerCase ["First one?"%js; "second"%js]).
Proof.
  cbv zeta.
  assert (H : followUps_of_reply
                ("1. First one?" ++ ["010"%char] ++ "* second" ++ ["010"%char] ++ "- SECOND")%js
              = Some ["First one?"%js; "second"%js]) by (vm_compute; reflexivity).
  split; [exact H|].
  exact (proj2 (proj2 (follow_ups_of_any_reply _ _ H))).
Defined.

(** A reply with one fact whose citations are out of order and partly out
    of range. *)
Lemma grounded_facts_are_clean_witness :
  let raw := ("[{" ++ [quote] ++ "fact" ++ [quote] ++ ": " ++ [quote] ++ " A. " ++ [quote]
              ++ ", " ++ [quote] ++ "citations" ++ [quote] ++ ": [2, " ++ [quote] ++ "1"
              ++ [quote] ++ ", 9]}]")%js in
  parseGroundedFacts raw 3 = Some [{| fact := "A."%js; fact_citations := [1; 2] |}]
  /\ (1 <= length [{| fact := "A."%js; fact_citations := [1; 2]%Z |}] <= 15)%nat.
Proof.
  cbv zeta.
  match goal with |- ?A /\ _ => assert (H : A) by (vm_compute; reflexivity) end.
  split; [exact H|].
  exact (proj1 (grounded_facts_are_clean _ _ _ H)).
Defined.

End ReplyLaws.

(** ** What a match consumes, and the length of the heuristic follow-ups *)

Module HeuristicLaws.
Import Regex Text Replies JsStringFacts TrimFacts ReplyLaws.

(** The loop of a star hands to its continuation a cursor on a suffix of
    the input, when its body does. *)
Lemma star_consumes (greedy : bool) (a : re) (k : cursor -> option cursor)
    (IHa : forall k c c',
        exec a k c = Some c' ->
        exists c1, (exists pre, rest c = pre ++ rest c1) /\ k c1 = Some c') :
  forall fuel c c',
    (fix loop (fuel : nat) (c : cursor) {struct fuel} : option cursor :=
       match fuel with
       | O => k c
       | S f =>
           let more c' :=
             if (length (rest c') <? length (rest c))%nat then loop f c' else None in
           if greedy then
             match exec a more c with
             | Some c' => Some c'
             | None => k c
             end
           else
             match k c with
             | Some c' => Some c'
             | None => exec a more c
             end
       end) fuel c = Some c' ->
    exists c1, (exists pre, rest c = pre ++ rest c1) /\ k c1 = Some c'.
Proof.
  induction fuel as [|f IHf]; intros c c' H.
  - exists c. split; [now exists []|exact H].
  - cbv zeta in H.
    match type of H with
    | (if greedy then match exec a ?more c with _ => _ end else _) = _ =>
        assert (Hmore : forall c'', exec a more c = Some c'' ->
                  exists c1, (exists pre, rest c = pre ++ rest c1) /\ k c1 = Some c'')
    end.
    { intros c'' Hex. apply IHa in Hex as (c1 & (pre1 & H1) & Hex).
      destruct (length (rest c1) <? length (rest c))%nat; [|discriminate].
      apply IHf in Hex as (c2 & (pre2 & H2) & Hex).
      exists c2. split; [|exact Hex]. exists (pre1 ++ pre2). now rewrite H1, H2, app_assoc. }
    destruct greedy.
    + match type of H with
      | match ?o with Some _ => _ | None => _ end = _ => destruct o as [c''|] eqn:E
      end.
      * injection H as <-. now apply Hmore.
      * exists c. split; [now exists []|exact H].
    + destruct (k c) as [c''|] eqn:E.
      * injection H as <-. exists c. split; [now exists []|exact E].
      * now apply Hmore.
Qed.

(** A match hands to its continuation a cursor on a suffix of the input. *)
Lemma exec_consumes (r : re) : forall k c c',
  exec r k c = Some c' ->
  exists c1, (exists pre, rest c = pre ++ rest c1) /\ k c1 = Some c'.
Proof.
  induction r as [|p|a IHa b IHb|a IHa b IHb|greedy a IHa| | | |]; intros k c c'.
  - cbn [exec]. intros H. exists c. split; [now exists []|exact H].
  - cbn [exec]. destruct (rest c) as [|x s] eqn:E; [discriminate|].
    destruct (p x); [|discriminate]. intros H.
    exists (Cursor (Some x) s (marks c)). split; [now exists [x]|exact H].
  - cbn [exec]. intros H. apply IHa in H as (c1 & (pre1 & H1) & H).
    apply IHb in H as (c2 & (pre2 & H2) & H).
    exists c2. split; [|exact H]. exists (pre1 ++ pre2). now rewrite H1, H2, app_assoc.
  - cbn [exec]. destruct (exec a k c) eqn:E.
    + intros [= <-]. now apply IHa in E.
    + apply IHb.
  - intros H. exact (star_consumes greedy a k IHa (S (length (rest c))) c c' H).
  - cbn [exec]. destruct (prev c); [discriminate|]. intros H. exists c.
    split; [now exists []|exact H].
  - cbn [exec]. destruct (rest c) eqn:E; [|discriminate]. intros H. exists c.
    split; [exists []; now rewrite E|exact H].
  - cbn [exec]. destruct (xorb _ _); [|discriminate]. intros H. exists c.
    split; [now exists []|exact H].
  - cbn [exec]. intros H. eexists. split; [|exact H]. now exists [].
Qed.

Lemma match_here_consumes r p s c :
  match_here r p s = Some c -> exists pre, s = pre ++ rest c.
Proof.
  unfold match_here. intros H. apply exec_consumes in H as (c1 & (pre & H1) & [= ->]).
  now exists pre.
Qed.

Lemma matched_prefix (t pre r : jsstring) :
  t = pre ++ r -> t = firstn (length t - length r) t ++ r.
Proof.
  intros ->. rewrite length_app.
  replace (length pre + length r - length r)%nat with (length pre) by lia.
  now rewrite firstn_app, Nat.sub_diag, firstn_all, firstn_O, app_nil_r.
Qed.

(** The parts of a leftmost match: what was skipped, what matched and
    what is left make up the input. *)
Lemma find_parts r : forall s p skipped m c,
  find r p s = Some (skipped, m, c) -> s = skipped ++ m ++ rest c.
Proof.
  induction s as [|a s IH]; intros p skipped m c; cbn [find].
  - destruct (match_here r p []) as [c0|] eqn:E; [|discriminate].
    intros [= <- <- <-]. apply match_here_consumes in E as (pre & E).
    cbn [app]. now apply (matched_prefix [] pre).
  - destruct (match_here r p (a :: s)) as [c0|] eqn:E.
    + intros [= <- <- <-]. apply match_here_consumes in E as (pre & E).
      cbn [app]. now apply (matched_prefix (a :: s) pre).
    + destruct (find r (Some a) s) as [[[sk m0] c0]|] eqn:Ef; [|discriminate].
      intros [= <- <- <-]. apply IH in Ef. cbn [app]. now f_equal.
Qed.

Lemma replace_shorter r s : (length (replace r [] s) <= length s)%nat.
Proof.
  unfold replace. destruct (find r None s) as [[[sk m] c]|] eqn:E; [|lia].
  apply find_parts in E. apply (f_equal (@length _)) in E.
  rewrite !length_app in *. cbn [app length]. lia.
Qed.

Lemma replace_all_from_shorter r : forall fuel p s,
  (length (replace_all_from fuel r [] p s) <= length s)%nat.
Proof.
  induction fuel as [|f IH]; intros p s; cbn [replace_all_from]; [lia|].
  destruct (find r p s) as [[[sk m] c]|] eqn:E; [|lia].
  apply find_parts in E. apply (f_equal (@length _)) in E. rewrite !length_app in E.
  destruct m as [|x m]; [destruct (rest c) as [|a s'] eqn:Er|].
  - rewrite !length_app. cbn [app length] in *. lia.
  - rewrite !length_app. cbn [app length] in *. specialize (IH (Some a) s'). lia.
  - rewrite !length_app. cbn [app length] in *. specialize (IH (prev c) (rest c)). lia.
Qed.

Lemma replace_all_shorter r s : (length (replace_all r [] s) <= length s)%nat.
Proof. apply replace_all_from_shorter. Qed.

Section WithPlatform.
Context {P : Platform}.

Lemma unique_ci_In l : forall seen s, In s (unique_ci seen l) -> In s l.
Proof. intros seen s H. now apply (unique_ci_spec l seen). Qed.

(** Cleaning never lengthens: every item that [sanitizeFollowUps] returns
    comes from an item of the input that is at least as long. *)
Lemma sanitized_from_items items s :
  In s (sanitizeFollowUps items) ->
  exists item, In item items /\ (length s <= length item)%nat.
Proof.
  unfold sanitizeFollowUps. intros H.
  apply firstn_In, unique_ci_In, firstn_In in H.
  apply filter_In in H as [H _].
  apply in_map_iff in H as (x & <- & H). apply in_map_iff in H as (item & <- & H).
  exists item. split; [exact H|].
  etransitivity; [apply trim_length|]. etransitivity; [apply replace_all_shorter|].
  etransitivity; [apply trim_length|]. apply replace_shorter.
Qed.

(** [sanitizeFollowUps]: at most three items come out, none of them
    empty, no two of them equal when letter case is ignored, and each of
    them comes from an item of the input that is at least as long. *)
Theorem sanitized_follow_ups (items : list jsstring) :
  let out := sanitizeFollowUps items in
  (length out <= 3)%nat
  /\ Forall (fun s => s <> []
                      /\ exists item, In item items /\ (length s <= length item)%nat) out
  /\ NoDup (map toLowerCase out).
Proof.
  cbv zeta. destruct (sanitizeFollowUps_clean items) as (Hlen & Hne & Hnd). cbv zeta in *.
  split; [exact Hlen|]. split; [|exact Hnd].
  apply List.Forall_forall. intros s Hs. split.
  - rewrite List.Forall_forall in Hne. now apply Hne.
  - now apply sanitized_from_items.
Qed.

(** The heuristic follow-ups, which stand in when the model gives none:
    at most three, none of them empty, no two equal when letter case is
    ignored, and none longer than 117 characters, the topic being cut to
    80. *)
Theorem heuristic_follow_ups_fit (input : AskRequest) :
  let out := buildHeuristicFollowUps input in
  (length out <= 3)%nat
  /\ Forall (fun s => (1 <= length s <= 117)%nat) out
  /\ NoDup (map toLowerCase out).
Proof.
  cbv zeta. unfold buildHeuristicFollowUps.
  set (topic := slice _ 0 80).
  assert (Htopic : (length topic <= 80)%nat).
  { unfold topic, slice. rewrite length_firstn. lia. }
  match goal with |- context [sanitizeFollowUps ?l] => set (items := l) end.
  destruct (sanitizeFollowUps_clean items) as (Hlen & Hne & Hnd). cbv zeta in *.
  split; [exact Hlen|]. split; [|exact Hnd].
  apply List.Forall_forall. intros s Hs.
  rewrite List.Forall_forall in Hne. specialize (Hne s Hs).
  split; [destruct s; [congruence|cbn; lia]|].
  destruct (sanitized_from_items items s Hs) as (item & Hitem & Hle).
  assert (length item <= 117)%nat; [|lia].
  unfold items in Hitem. destruct (looksHindiQuestion input);
    repeat (destruct Hitem as [<-|Hitem]; [rewrite ?length_app; cbn [length]; lia|]);
    destruct Hitem.
Qed.

End WithPlatform.
End HeuristicLaws.

(** ** Excerpts, selection and the evidence handed to the model *)

Module EvidenceLaws.
Import Text Canon Evidence EvidenceViews EffectsFacts JsStringFacts EvidenceFacts.

Lemma truncate_shape (s : jsstring) (maxChars : nat) :
  (truncate s maxChars = s /\ (length s <= maxChars)%nat)
  \/ (exists body, truncate s maxChars = body ++ "..."%js
                   /\ length body = maxChars /\ (maxChars < length s)%nat).
Proof.
  unfold truncate. destruct (Nat.leb_spec (length s) maxChars); [now left|].
  right. exists (slice s 0 maxChars). repeat split; [|assumption].
  unfold slice. rewrite length_firstn, length_skipn. lia.
Qed.

Section WithPlatform.
Context {P : Platform}.

Lemma buildRelevantExcerpt_length (text question : jsstring) (maxTotalChars maxChunks : nat) :
  (length (buildRelevantExcerpt text question maxTotalChars maxChunks) <= maxTotalChars + 3)%nat.
Proof.
  assert (H : forall s, (length (truncate s maxTotalChars) <= maxTotalChars + 3)%nat).
  { intros s. destruct (truncate_shape s maxTotalChars) as [[-> Hl]|(body & -> & Hb & _)];
      [lia|]. rewrite length_app. cbn. lia. }
  unfold buildRelevantExcerpt.
  destruct (negb (truthy (normalizeForMatching text))); [cbn; lia|].
  destruct (tokenizeForMatch question); [apply H|].
  destruct (windows _ _ _ _); apply H.
Qed.

(** [buildRelevantExcerpt]: the excerpt either fits in [maxTotalChars], or
    it is cut to exactly [maxTotalChars] characters followed by three
    dots; so it can be three characters longer than the limit, never
    more. *)
Theorem excerpt_is_bounded (text question : jsstring) (maxTotalChars maxChunks : nat) :
  let out := buildRelevantExcerpt text question maxTotalChars maxChunks in
  ((length out <= maxTotalChars)%nat
   \/ exists body, out = body ++ "..."%js /\ length body = maxTotalChars)
  /\ (length out <= maxTotalChars + 3)%nat.
Proof.
  cbv zeta.
  assert (H : forall s,
             ((length (truncate s maxTotalChars) <= maxTotalChars)%nat
              \/ exists body, truncate s maxTotalChars = body ++ "..."%js
                              /\ length body = maxTotalChars)
             /\ (length (truncate s maxTotalChars) <= maxTotalChars + 3)%nat).
  { intros s. destruct (truncate_shape s maxTotalChars) as [[-> Hl]|(body & -> & Hb & _)].
    - split; [now left | lia].
    - split; [right; eauto|]. rewrite length_app. cbn. lia. }
  unfold buildRelevantExcerpt.
  destruct (negb (truthy (normalizeForMatching text))); [cbn; split; [left|]; lia|].
  destruct (tokenizeForMatch question); [apply H|].
  destruct (windows _ _ _ _); apply H.
Qed.

(** *** Selection *)

Lemma pick_capped_length maxSources cap ranked : forall hostCounts picked,
  (length picked <= maxSources)%nat ->
  (length (pick_capped maxSources cap hostCounts picked ranked) <= maxSources)%nat.
Proof.
  induction ranked as [|c rest IH]; intros hostCounts picked Hp; cbn; [assumption|].
  destruct (Nat.leb_spec maxSources (length picked)); [assumption|].
  destruct (_ <=? _)%nat; [now apply IH|].
  apply IH. rewrite length_app. cbn. lia.
Qed.

Lemma backfill_length maxSources ranked : forall picked,
  (length picked <= maxSources)%nat ->
  (length (backfill maxSources picked ranked) <= maxSources)%nat.
Proof.
  induction ranked as [|c rest IH]; intros picked Hp; cbn; [assumption|].
  destruct (Nat.leb_spec maxSources (length picked)); [assumption|].
  destruct (existsb _ picked); [now apply IH|].
  apply IH. rewrite length_app. cbn. lia.
Qed.

Lemma pick_capped_incl maxSources cap ranked : forall hostCounts picked c,
  In c (pick_capped maxSources cap hostCounts picked ranked) -> In c picked \/ In c ranked.
Proof.
  induction ranked as [|x rest IH]; intros hostCounts picked c; cbn; [auto|].
  destruct (maxSources <=? length picked)%nat; [auto|].
  destruct (_ <=? _)%nat; intros H%IH.
  - tauto.
  - destruct H as [H|H]; [|tauto]. apply in_app_or in H as [H|[<-|[]]]; tauto.
Qed.

Lemma pick_capped_keeps maxSources cap ranked : forall hostCounts picked c,
  In c picked -> In c (pick_capped maxSources cap hostCounts picked ranked).
Proof.
  induction ranked as [|x rest IH]; intros hostCounts picked c Hc; cbn; [assumption|].
  destruct (maxSources <=? length picked)%nat; [assumption|].
  destruct (_ <=? _)%nat; apply IH; [assumption|]. apply in_or_app. now left.
Qed.

Lemma backfill_incl maxSources ranked : forall picked c,
  In c (backfill maxSources picked ranked) -> In c picked \/ In c ranked.
Proof.
  induction ranked as [|x rest IH]; intros picked c; cbn; [auto|].
  destruct (maxSources <=? length picked)%nat; [auto|].
  destruct (existsb _ picked); intros H%IH.
  - tauto.
  - destruct H as [H|H]; [|tauto]. apply in_app_or in H as [H|[<-|[]]]; tauto.
Qed.

Lemma backfill_keeps maxSources ranked : forall picked c,
  In c picked -> In c (backfill maxSources picked ranked).
Proof.
  induction ranked as [|x rest IH]; intros picked c Hc; cbn; [assumption|].
  destruct (maxSources <=? length picked)%nat; [assumption|].
  destruct (existsb _ picked); apply IH; [assumption|]. apply in_or_app. now left.
Qed.

(** After the second loop the list is full, or every candidate of
    [ranked] has its URL in it. *)
Lemma backfill_covers maxSources ranked : forall picked,
  let r := backfill maxSources picked ranked in
  (maxSources <= length r)%nat
  \/ forall c, In c ranked -> exists p, In p r /\ url (source p) = url (source c).
Proof.
  induction ranked as [|x rest IH]; intros picked; cbn; [right; intros c []|].
  destruct (Nat.leb_spec maxSources (length picked)); [now left|].
  destruct (existsb _ picked) eqn:E.
  - destruct (IH picked) as [Hfull|Hall]; [now left|right].
    intros c [<-|Hc]; [|now apply Hall].
    apply existsb_exists in E as (p & Hp & Heq%eqb_eq).
    exists p. split; [now apply backfill_keeps | assumption].
  - destruct (IH (picked ++ [x])) as [Hfull|Hall]; [now left|right].
    intros c [<-|Hc]; [|now apply Hall].
    exists x. split; [|reflexivity]. apply backfill_keeps, in_or_app. right. now left.
Qed.

Lemma pick_capped_sublist maxSources cap ranked : forall hostCounts picked,
  exists l, pick_capped maxSources cap hostCounts picked ranked = picked ++ l
            /\ l `sublist_of` ranked.
Proof.
  induction ranked as [|x rest IH]; intros hostCounts picked; cbn.
  - exists []. split; [now rewrite app_nil_r | constructor].
  - destruct (maxSources <=? length picked)%nat.
    + exists []. split; [now rewrite app_nil_r | apply sublist_nil_l].
    + destruct (_ <=? _)%nat.
      * destruct (IH hostCounts picked) as (l & -> & Hl).
        exists l. split; [reflexivity | now apply sublist_cons].
      * match goal with |- context [pick_capped _ _ ?hc (picked ++ [x]) rest] =>
          destruct (IH hc (picked ++ [x])) as (l & -> & Hl) end.
        exists (x :: l). split; [now rewrite <- app_assoc | now apply sublist_skip].
Qed.

Lemma backfill_NoDup_urls maxSources ranked : forall picked,
  NoDup (map (fun c => url (source c)) picked) ->
  NoDup (map (fun c => url (source c)) (backfill maxSources picked ranked)).
Proof.
  induction ranked as [|x rest IH]; intros picked Hnd; cbn; [assumption|].
  destruct (maxSources <=? length picked)%nat; [assumption|].
  destruct (existsb _ picked) eqn:E; [now apply IH|].
  apply IH. rewrite map_app. apply NoDup_app. repeat split; [assumption| |apply NoDup_singleton].
  intros u Hu ->%list_elem_of_singleton.
  apply list_elem_of_In, in_map_iff in Hu as (p & Hpu & Hp).
  apply not_true_iff_false in E. apply E. apply existsb_exists.
  exists p. split; [assumption | now apply eqb_eq].
Qed.

Lemma NoDup_incl_length_urls (f : SourceCandidate -> jsstring) l r :
  NoDup (map f l) -> (forall c, In c l -> exists p, In p r /\ f p = f c) ->
  (length l <= length r)%nat.
Proof.
  intros Hnd Hall.
  assert (Hincl : incl (map f l) (map f r)).
  { intros u (c & <- & Hc)%in_map_iff. destruct (Hall c Hc) as (p & Hp & <-).
    now apply in_map. }
  apply NoDup_ListNoDup in Hnd.
  pose proof (List.NoDup_incl_length Hnd Hincl) as H. now rewrite !length_map in H.
Qed.

(** The selection of sources: never more than the limit (eight for a
    question that wants fresh results, six otherwise), only candidates of
    the map, and, when the candidates carry pairwise distinct URLs, as many
    as the limit allows: the cap per host is a preference of the first
    loop, and the second loop fills up with what the cap held back. *)
Theorem selection_fills_up (fresh : bool) (m : list SourceCandidate) :
  NoDup (map (fun c => url (source c)) m) ->
  length (pick fresh m) = Nat.min (source_limit fresh) (length m)
  /\ incl (pick fresh m) m
  /\ NoDup (map (fun c => url (source c)) (pick fresh m)).
Proof.
  intros Hurls. unfold pick. fold (source_limit fresh).
  set (maxSources := source_limit fresh).
  set (cap := if fresh then 1%nat else 2%nat).
  set (ranked := rank m).
  set (u := fun c : SourceCandidate => url (source c)) in *.
  assert (Hperm : Permutation ranked m) by apply rank_perm.
  assert (Hrurls : NoDup (map u ranked)).
  { apply NoDup_ListNoDup. eapply Permutation_NoDup; [|apply NoDup_ListNoDup; exact Hurls].
    apply Permutation_map. now symmetry. }
  assert (Hlenr : length ranked = length m) by now apply Permutation_length.
  assert (Hrm : incl ranked m).
  { intros c Hc. eapply Permutation_in; [exact Hperm | exact Hc]. }
  destruct (pick_capped_sublist maxSources cap ranked [] []) as (picked & Hpicked & Hsub).
  cbn [app] in Hpicked. rewrite Hpicked.
  assert (Hpl : (length picked <= maxSources)%nat).
  { rewrite <- Hpicked. apply pick_capped_length. cbn. lia. }
  assert (Hpurls : NoDup (map u picked)).
  { apply (sublist_NoDup (map u picked) (map u ranked)); [exact Hrurls|].
    clear -Hsub. induction Hsub; cbn; constructor; assumption. }
  assert (Hpin : incl picked ranked).
  { intros c Hc. rewrite <- Hpicked in Hc. apply pick_capped_incl in Hc as [[]|Hc].
    exact Hc. }
  assert (Hbound : forall r, incl r ranked -> NoDup (map u r) -> (length r <= length m)%nat).
  { intros r Hr Hnd. rewrite <- Hlenr.
    apply (NoDup_incl_length_urls u); [assumption|].
    intros c Hc. exists c. split; [now apply Hr | reflexivity]. }
  destruct (Nat.ltb_spec (length picked) maxSources).
  - set (r := backfill maxSources picked ranked).
    assert (Hrl : (length r <= maxSources)%nat) by (apply backfill_length; lia).
    assert (Hrurl : NoDup (map u r)) by now apply backfill_NoDup_urls.
    assert (Hrin : incl r ranked).
    { intros c Hc. apply backfill_incl in Hc as [Hc|Hc]; [now apply Hpin | assumption]. }
    pose proof (Hbound r Hrin Hrurl) as Hle.
    split; [|split; [intros c Hc; now apply Hrm, Hrin | assumption]].
    destruct (backfill_covers maxSources ranked picked) as [Hfull|Hall];
      [fold r in Hfull | fold r in Hall].
    + lia.
    + pose proof (NoDup_incl_length_urls u ranked r Hrurls Hall). lia.
  - pose proof (Hbound picked Hpin Hpurls).
    split; [lia|]. split; [intros c Hc; now apply Hrm, Hpin | assumption].
Qed.

Lemma cleaned_url_not_empty (parsed : URL) : cleanedUrl (normalize_parsed parsed) <> [].
Proof.
  unfold normalize_parsed. cbn [cleanedUrl].
  destruct (protocol parsed); discriminate.
Qed.

Lemma upserted_bounded src sc m :
  bounded_source src -> Forall (fun c => bounded_source (source c)) m ->
  Forall (fun c => bounded_source (source c)) (upserted src sc m).
Proof.
  intros [Hu Ht] Hm. unfold upserted.
  set (c := {| source := _; score := sc; normUrl := _ |}).
  assert (Hc : bounded_source (source c)).
  { subst c. cbn [source]. split; cbn [url extractedText]; [|exact Ht].
    unfold normalizeUrlForDedupe. destruct (new_URL (url src)); [|exact Hu].
    apply cleaned_url_not_empty. }
  assert (Hset : Forall (fun c => bounded_source (source c)) (map_set c m)).
  { apply List.Forall_forall. intros x Hx%map_set_In.
    destruct Hx as [->|Hx]; [assumption|]. rewrite List.Forall_forall in Hm. now apply Hm. }
  destruct (map_get _ m) as [existing|]; [destruct (score existing <? sc)|]; assumption.
Qed.

Lemma upsert_loop_bounded q fresh srcs : forall m,
  Forall bounded_source srcs -> Forall (fun c => bounded_source (source c)) m ->
  post (upsert_loop q fresh srcs m) (Forall (fun c => bounded_source (source c))).
Proof.
  induction srcs as [|src srcs IH]; intros m Hs Hm; cbn; [assumption|].
  apply Forall_cons in Hs as [Hsrc Hs].
  apply post_bind. apply post_catch; [|intros; cbn; assumption].
  apply post_bind.
  apply (post_mono _ (fun m' => exists sc, m' = upserted src sc m));
    [|apply upsertCandidate_post].
  intros m' (sc & ->). cbn. apply IH; [assumption|]. now apply upserted_bounded.
Qed.

Lemma tavily_sources_bounded q items maxResults :
  Forall bounded_source (tavily_sources q items maxResults).
Proof.
  unfold tavily_sources. apply List.Forall_forall.
  intros s (r & <- & Hr)%in_map_iff. apply List.filter_In in Hr as [_ Hu].
  split; cbn [url extractedText]; [now destruct (result_url r)|].
  intros t. destruct (rawByUrl_get items (result_url r)) as [raw|]; [|discriminate].
  destruct (truthy (trim raw)); [|discriminate]. intros [= <-].
  apply (buildRelevantExcerpt_length raw q 1200 3).
Qed.

Lemma brave_sources_bounded items count :
  Forall bounded_source (brave_sources items count).
Proof.
  unfold brave_sources. apply List.Forall_forall.
  intros s (r & <- & Hr)%in_map_iff. apply List.filter_In in Hr as [_ Hu].
  split; cbn [url extractedText]; [now destruct (result_url r) | discriminate].
Qed.

Lemma flat_map_Forall {A B} (f : A -> list B) (Q : B -> Prop) l :
  (forall a, Forall Q (f a)) -> Forall Q (flat_map f l).
Proof.
  intros H. induction l as [|a l IH]; cbn; [constructor|].
  apply Forall_app. split; [apply H | exact IH].
Qed.

Lemma fetchStage_bounded q toFetch : forall sources,
  Forall bounded_source sources ->
  post (Pipeline.fetchStage q toFetch sources) (Forall bounded_source).
Proof.
  induction toFetch as [|idx rest IH]; intros sources Hs; cbn; [assumption|].
  destruct (sources !! idx) as [s|] eqn:Hidx; [|now apply IH].
  cbn. intros [e|pageText]; apply IH; [assumption|].
  apply Forall_insert; [assumption|].
  assert (Hsb : bounded_source s).
  { rewrite Forall_forall in Hs. apply Hs. eapply list_elem_of_lookup_2, Hidx. }
  destruct Hsb as [Hu _]. split; cbn [url extractedText]; [assumption|].
  intros t [= <-]. apply (buildRelevantExcerpt_length pageText q 1200 3).
Qed.

Lemma fetchStage_length q toFetch : forall sources,
  post (Pipeline.fetchStage q toFetch sources) (fun r => length r = length sources).
Proof.
  induction toFetch as [|idx rest IH]; intros sources; cbn; [reflexivity|].
  destruct (sources !! idx) as [s|]; [|apply IH].
  cbn. intros [e|pageText]; [apply IH|].
  eapply post_mono; [|apply IH]. intros r ->. apply length_insert.
Qed.

Lemma gatherEvidence_bounded env input :
  post (Pipeline.gatherEvidence env input)
       (fun sources =>
          (length sources
           <= source_limit (wantsFresh (detectRecencyIntent (question input))))%nat
          /\ Forall bounded_source sources).
Proof.
  unfold Pipeline.gatherEvidence.
  destruct (default true (useWeb input)); [|cbn; split; [lia | constructor]].
  set (fresh := wantsFresh (detectRecencyIntent (question input))).
  set (good := Forall (fun c : SourceCandidate => bounded_source (source c))).
  apply post_bind. apply (post_mono _ good).
  2:{ destruct (TAVILY_API_KEY env); [|constructor].
      unfold Pipeline.tavilyStage. apply post_bind. apply mapM_trigger_post.
      intros settled. apply upsert_loop_bounded; [|constructor].
      apply flat_map_Forall. intros items. apply tavily_sources_bounded. }
  intros m1 Hm1. apply post_bind. apply (post_mono _ good).
  2:{ destruct (BRAVE_SEARCH_API_KEY env); [|exact Hm1].
      unfold Pipeline.braveStage. apply post_bind. apply mapM_trigger_post.
      intros settled. apply upsert_loop_bounded; [|exact Hm1].
      apply flat_map_Forall. intros items. apply brave_sources_bounded. }
  intros m2 Hm2.
  assert (Hsel : Forall bounded_source (select_sources fresh m2)).
  { unfold select_sources. apply List.Forall_forall. intros s (c & <- & Hc)%in_map_iff.
    unfold good in Hm2. rewrite List.Forall_forall in Hm2. apply Hm2.
    unfold pick in Hc.
    assert (Hr : forall x, In x (rank m2) -> In x m2).
    { intros x Hx. eapply Permutation_in; [apply rank_perm | exact Hx]. }
    destruct (_ <? _)%nat.
    - apply backfill_incl in Hc as [Hc|Hc]; [|now apply Hr].
      apply pick_capped_incl in Hc as [[]|Hc]. now apply Hr.
    - apply pick_capped_incl in Hc as [[]|Hc]. now apply Hr. }
  assert (Hlen : (length (select_sources fresh m2) <= source_limit fresh)%nat).
  { unfold select_sources. rewrite length_map. unfold pick. fold (source_limit fresh).
    destruct (_ <? _)%nat; [apply backfill_length|]; apply pick_capped_length; cbn; lia. }
  eapply post_mono; [|apply (post_and _ (fun s => length s = length (select_sources fresh m2))
                                     (Forall bounded_source))].
  - intros sources [Hl Hb]. split; [lia | assumption].
  - apply fetchStage_length.
  - now apply fetchStage_bounded.
Qed.

End WithPlatform.

(** Three candidates with distinct URLs, two of them on hosts that do not
    parse: all three are selected. *)
Lemma selection_fills_up_witness :
  length (pick (P := Reference.platform) false Scenarios.two_unparseable) = 3%nat
  /\ incl (pick (P := Reference.platform) false Scenarios.two_unparseable)
          Scenarios.two_unparseable
  /\ NoDup (map (fun c => url (source c))
              (pick (P := Reference.platform) false Scenarios.two_unparseable)).
Proof.
  apply (selection_fills_up (P := Reference.platform) false Scenarios.two_unparseable).
  refine (bool_decide_unpack _ _). vm_compute. exact I.
Defined.

End EvidenceLaws.

(** ** Runs of the pipeline: calls made, failures, configuration *)

Module PipelineLaws.
Import Text Citations Evidence Replies Pipeline Traces EvidenceViews.
Import EffectsFacts EvidenceFacts JsStringFacts TrimFacts.

Lemma always_mono {A} (p : Prog A) (Q R : list LogEntry -> Thrown + A -> Prop) :
  (forall log r, Q log r -> R log r) -> always p Q -> always p R.
Proof.
  revert Q R. induction p as [a|e|X e k IH]; intros Q R HQR; cbn; auto.
  intros H x. eapply IH; [|apply H]. cbn. auto.
Qed.

Lemma always_run {A} (p : Prog A) w : forall Q n,
  always p Q -> Q (run p w n).1 (run p w n).2.
Proof.
  induction p as [a|e|X e k IH]; intros Q n H; cbn; try assumption.
  specialize (IH (respond w X n e) _ (S n) (H _)).
  now destruct (run (k (respond w X n e)) w (S n)).
Qed.

Lemma always_bind {A B} (p : Prog A) (f : A -> Prog B) : forall Q,
  always p (fun log1 r =>
              match r with
              | inl e => Q log1 (inl e)
              | inr a => always (f a) (fun log2 r2 => Q (log1 ++ log2) r2)
              end) ->
  always (p ≫= f) Q.
Proof.
  unfold mbind, prog_bind.
  induction p as [a|e|X e k IH]; intros Q H; cbn in *; auto.
Qed.

Lemma always_catch {A} (p : Prog A) (h : Thrown -> Prog A) : forall Q,
  always p (fun log1 r =>
              match r with
              | inl e => always (h e) (fun log2 r2 => Q (log1 ++ log2) r2)
              | inr a => Q log1 (inr a)
              end) ->
  always (catch p h) Q.
Proof.
  induction p as [a|e|X e k IH]; intros Q H; cbn in *; auto.
Qed.

Lemma post_always {A} (p : Prog A) (Q : A -> Prop) :
  post p Q -> always p (fun _ r => forall a, r = inr a -> Q a).
Proof.
  induction p as [a|e|X e k IH]; cbn; intros H.
  - now intros ? [= <-].
  - discriminate.
  - intros x. apply IH, H.
Qed.

Lemma always_and {A} (p : Prog A) (Q R : list LogEntry -> Thrown + A -> Prop) :
  always p Q -> always p R -> always p (fun log r => Q log r /\ R log r).
Proof.
  revert Q R. induction p as [a|e|X e k IH]; intros Q R; cbn; auto.
Qed.

(** *** Budgets *)

Lemma calls_app k l1 l2 : calls k (l1 ++ l2) = (calls k l1 + calls k l2)%nat.
Proof. unfold calls. now rewrite List.filter_app, length_app. Qed.

Lemma within_app b1 b2 l1 l2 :
  within b1 l1 -> within b2 l2 -> within (plus b1 b2) (l1 ++ l2).
Proof.
  intros H1 H2 k. rewrite calls_app. unfold plus. specialize (H1 k). specialize (H2 k). lia.
Qed.

Lemma within_weaken (b b' : Budget) l :
  (forall k, (b k <= b' k)%nat) -> within b l -> within b' l.
Proof. intros Hb H k. specialize (Hb k). specialize (H k). lia. Qed.

Lemma spends_weaken {A} (b b' : Budget) (p : Prog A) :
  (forall k, (b k <= b' k)%nat) -> spends b p -> spends b' p.
Proof.
  intros Hb. apply always_mono. intros log r. now apply within_weaken.
Qed.

Lemma spends_ret {A} (a : A) : spends none (Ret a).
Proof. intros k. cbn. lia. Qed.

Lemma spends_throw {A} e : spends none (Throw e : Prog A).
Proof. intros k. cbn. lia. Qed.

Lemma spends_bind {A B} b1 b2 (p : Prog A) (f : A -> Prog B) :
  spends b1 p -> (forall a, spends b2 (f a)) -> spends (plus b1 b2) (p ≫= f).
Proof.
  intros Hp Hf. apply always_bind. eapply always_mono; [|exact Hp].
  intros log1 [e|a] H1; cbn.
  - rewrite <- (app_nil_r log1). apply within_app; [assumption|]. intros k. cbn. lia.
  - eapply always_mono; [|apply Hf]. intros log2 r2 H2. now apply within_app.
Qed.

Lemma spends_catch {A} b1 b2 (p : Prog A) (h : Thrown -> Prog A) :
  spends b1 p -> (forall e, spends b2 (h e)) -> spends (plus b1 b2) (catch p h).
Proof.
  intros Hp Hh. apply always_catch. eapply always_mono; [|exact Hp].
  intros log1 [e|a] H1; cbn.
  - eapply always_mono; [|apply Hh]. intros log2 r2 H2. now apply within_app.
  - rewrite <- (app_nil_r log1). apply within_app; [assumption|]. intros k. cbn. lia.
Qed.

Lemma spends_trigger {X} (e : Event X) :
  spends (match kind_of e with Some k => only k 1 | None => none end) (trigger e).
Proof.
  intros x k. unfold calls. cbn [List.filter is_kind].
  destruct (kind_of e) as [k'|]; [|cbn; lia].
  unfold only. destruct k, k'; cbn; lia.
Qed.

Lemma spends_mapM {A X} (f : A -> Event X) (kd : Kind) (l : list A) :
  (forall a, kind_of (f a) = Some kd) ->
  spends (only kd (length l)) (mapM (fun a => trigger (f a)) l).
Proof.
  intros Hk. induction l as [|a l IH]; [intros k; cbn; lia|].
  cbn [mapM].
  eapply spends_weaken; [|apply (spends_bind (only kd 1) (only kd (length l)))].
  - intros k. unfold plus, only. cbn [length]. destruct (Kind_eqb kd k); lia.
  - pose proof (spends_trigger (f a)) as H. now rewrite Hk in H.
  - intros b. eapply spends_weaken; [|apply (spends_bind (only kd (length l)) none)].
    + intros k. unfold plus, none. lia.
    + exact IH.
    + intros bs. apply spends_ret.
Qed.

Ltac within_budget :=
  let k := fresh "k" in
  intros k; destruct k;
  cbv [plus only none Kind_eqb kind_of gather_budget pipeline_budget]; cbn [length]; lia.

Lemma spends_await {A} (r : Thrown + A) : spends none (await r).
Proof. destruct r; [apply spends_throw | apply spends_ret]. Qed.

Lemma spends_chat req : spends (only chat_completion 1) (chat req).
Proof.
  unfold chat. eapply spends_weaken;
    [|eapply spends_bind; [apply (spends_trigger (ChatCompletion req))|
                          intros r; apply spends_await]].
  within_budget.
Qed.

Section WithPlatform.
Context {P : Platform}.

Lemma spends_scoreSource u ttl snip q fresh : spends none (scoreSource u ttl snip q fresh).
Proof.
  unfold scoreSource. destruct (score_host u); [|apply spends_throw].
  destruct fresh; [|apply spends_ret].
  destruct (published snip); [|apply spends_ret].
  destruct (date_parse _); [|apply spends_ret].
  eapply spends_weaken; [|eapply spends_bind; [apply (spends_trigger Now)|
                                              intros now; apply spends_ret]].
  within_budget.
Qed.

Lemma spends_upsertCandidate q fresh m src : spends none (upsertCandidate q fresh m src).
Proof.
  unfold upsertCandidate.
  eapply spends_weaken; [|eapply spends_bind; [apply spends_scoreSource|]].
  2:{ intros sc. destruct (map_get _ m) as [existing|];
        [destruct (score existing <? sc)|]; apply spends_ret. }
  within_budget.
Qed.

Lemma spends_upsert_loop q fresh srcs : forall m, spends none (upsert_loop q fresh srcs m).
Proof.
  induction srcs as [|src srcs IH]; intros m; cbn [upsert_loop]; [apply spends_ret|].
  eapply spends_weaken; [|eapply spends_bind].
  - instantiate (1 := none). instantiate (1 := none). within_budget.
  - eapply spends_weaken; [|eapply spends_catch].
    + instantiate (1 := none). instantiate (1 := none). within_budget.
    + eapply spends_weaken; [|eapply spends_bind; [apply spends_upsertCandidate|
                                                  intros m'; apply spends_ret]].
      within_budget.
    + intros e. apply spends_ret.
  - intros [m'|]; [apply IH | apply spends_ret].
Qed.

Lemma dedupe_queries_length candidates : forall seen queries,
  (length queries < 3)%nat ->
  (length (dedupe_queries seen queries candidates) <= 3)%nat.
Proof.
  induction candidates as [|q rest IH]; intros seen queries Hq; cbn [dedupe_queries]; [lia|].
  destruct (member (toLowerCase q) seen); [now apply IH|].
  destruct (Nat.leb_spec 3 (length (queries ++ [q]))) as [Hge|Hlt].
  - rewrite length_app. cbn [length]. lia.
  - now apply IH.
Qed.

Lemma buildQueries_length input recency : (length (buildQueries input recency) <= 3)%nat.
Proof. unfold buildQueries. apply dedupe_queries_length. cbn. lia. Qed.

Lemma member_iff t l : member t l = true <-> In t l.
Proof.
  unfold member. rewrite existsb_exists. split.
  - intros (x & Hx & ->%eqb_eq). exact Hx.
  - intros H. exists t. split; [assumption | apply eqb_refl].
Qed.

Lemma dedupe_queries_spec (Q : jsstring -> Prop) candidates : forall seen queries,
  (forall k, In k (map toLowerCase queries) -> In k seen) ->
  NoDup (map toLowerCase queries) ->
  Forall Q queries -> Forall Q candidates ->
  let out := dedupe_queries seen queries candidates in
  NoDup (map toLowerCase out) /\ Forall Q out /\ exists more, out = queries ++ more.
Proof.
  induction candidates as [|q rest IH]; intros seen queries Hseen Hnd HQ Hc;
    cbn [dedupe_queries]; cbv zeta.
  - repeat split; try assumption. exists []. now rewrite app_nil_r.
  - apply Forall_cons_iff in Hc as [Hq Hc].
    destruct (member (toLowerCase q) seen) eqn:E; [now apply IH|].
    assert (Hnd' : NoDup (map toLowerCase (queries ++ [q]))).
    { rewrite map_app. cbn [map]. apply NoDup_app. split; [assumption|].
      split; [|apply NoDup_singleton].
      intros k Hk%list_elem_of_In Hk'%list_elem_of_In. destruct Hk' as [<-|[]].
      apply Hseen in Hk. apply (proj2 (member_iff _ _)) in Hk. congruence. }
    assert (HQ' : Forall Q (queries ++ [q])) by (apply Forall_app; auto).
    destruct (3 <=? length (queries ++ [q]))%nat.
    + repeat split; try assumption. now exists [q].
    + destruct (IH (toLowerCase q :: seen) (queries ++ [q])) as (H1 & H2 & more & H3);
        try assumption.
      * intros k. rewrite map_app, in_app_iff. cbn. intros [Hk|[<-|[]]]; auto.
      * repeat split; try assumption. exists (q :: more).
        cbv zeta in H3. rewrite H3, <- app_assoc. reflexivity.
Qed.

(** The search queries of a request: at most three, none of them blank,
    no two of them equal when letter case is ignored, and the trimmed
    question comes first unless it is blank. *)
Theorem search_queries (input : AskRequest) (recency : RecencyIntent) :
  let queries := buildQueries input recency in
  (length queries <= 3)%nat
  /\ Forall (fun q => trim q <> []) queries
  /\ NoDup (map toLowerCase queries)
  /\ (trim (question input) <> [] -> head queries = Some (trim (question input))).
Proof.
  cbv zeta. split; [apply buildQueries_length|].
  unfold buildQueries.
  assert (Hblank : trim (question input) <> [] -> nonblank (trim (question input)) = true).
  { unfold nonblank. rewrite trim_idem.
    destruct (trim (question input)); [congruence|reflexivity]. }
  set (base := trim (question input)) in *.
  match goal with |- context [List.filter nonblank (?b ++ ?r)] => set (others := r) end.
  assert (Hnb : forall q, nonblank q = true -> trim q <> []).
  { intros q. unfold nonblank. rewrite andb_true_iff, Nat.ltb_lt.
    intros [_ H] E. rewrite E in H. cbn in H. lia. }
  destruct (dedupe_queries_spec (fun q => trim q <> []) (List.filter nonblank ([base] ++ others))
              [] []) as (Hnd & HQ & more & Hmore).
  - intros k [].
  - constructor.
  - constructor.
  - apply List.Forall_forall. intros q [_ Hq]%filter_In. now apply Hnb.
  - cbv zeta in Hnd, HQ. split; [exact HQ|]. split; [exact Hnd|].
    intros Hbase. pose proof (Hblank Hbase) as Hb.
    cbn [app List.filter]. rewrite Hb. cbn [dedupe_queries member existsb].
    destruct (3 <=? length ([] ++ [base]))%nat eqn:E; [reflexivity|]. cbn [app].
    destruct (dedupe_queries_spec (fun _ => True) (List.filter nonblank others)
                [toLowerCase base] [base]) as (_ & _ & more' & ->).
    + intros k [<-|[]]. now left.
    + cbn. apply NoDup_singleton.
    + repeat constructor.
    + apply List.Forall_forall. auto.
    + reflexivity.
Qed.

Lemma spends_tavilyStage input recency queries m :
  spends (only tavily_search (length queries)) (tavilyStage input recency queries m).
Proof.
  unfold tavilyStage.
  eapply spends_weaken; [|eapply spends_bind;
    [apply (spends_mapM (fun q => TavilySearch (tavilyRequest input recency q)) tavily_search);
     reflexivity
    |intros settled; apply spends_upsert_loop]].
  within_budget.
Qed.

Lemma spends_braveStage input recency queries m :
  spends (only brave_search 2) (braveStage input recency queries m).
Proof.
  unfold braveStage.
  eapply spends_weaken; [|eapply spends_bind;
    [apply (spends_mapM (fun q => BraveSearch q _) brave_search); reflexivity
    |intros settled; apply spends_upsert_loop]].
  pose proof (length_firstn 2 queries). within_budget.
Qed.

Lemma spends_fetchStage q toFetch : forall sources,
  spends (only page_fetch (length toFetch)) (fetchStage q toFetch sources).
Proof.
  induction toFetch as [|idx rest IH]; intros sources; cbn [fetchStage].
  - intros k. cbn. lia.
  - destruct (sources !! idx) as [s|].
    + eapply spends_weaken; [|eapply spends_bind;
        [apply (spends_trigger (FetchPage (url s)))|intros r; apply IH]].
      cbn [length]. within_budget.
    + eapply spends_weaken; [|apply IH]. cbn [length]. within_budget.
Qed.

Lemma spends_gatherEvidence env input : spends gather_budget (gatherEvidence env input).
Proof.
  unfold gatherEvidence.
  destruct (default true (useWeb input)).
  2:{ eapply spends_weaken; [|apply spends_ret]. within_budget. }
  set (recency := detectRecencyIntent (question input)).
  pose proof (buildQueries_length input recency) as Hq.
  eapply spends_weaken; [|eapply spends_bind; [|intros m1; eapply spends_bind; [|intros m2]]].
  2:{ instantiate (1 := only tavily_search 3).
      destruct (TAVILY_API_KEY env).
      - eapply spends_weaken; [|apply spends_tavilyStage]. within_budget.
      - eapply spends_weaken; [|apply spends_ret]. within_budget. }
  2:{ instantiate (1 := only brave_search 2).
      destruct (BRAVE_SEARCH_API_KEY env).
      - apply spends_braveStage.
      - eapply spends_weaken; [|apply spends_ret]. within_budget. }
  2:{ instantiate (1 := only page_fetch 5).
      eapply spends_weaken; [|apply spends_fetchStage].
      match goal with |- context [List.filter ?f (seq 0 (Nat.min ?mf ?n))] =>
        pose proof (List.filter_length_le f (seq 0 (Nat.min mf n))) as Hf;
        rewrite length_seq in Hf;
        assert (Hmf : (mf <= 5)%nat) by (destruct (sent_verified input), (wantsFresh recency); lia)
      end.
      within_budget. }
  unfold gather_budget. within_budget.
Qed.

Lemma spends_selectModel env input : spends (only model_list 1) (selectModel env input).
Proof.
  unfold selectModel.
  assert (Hlist : spends (only model_list 1)
                    (r ← trigger ListFreeModels; freeModels ← await r; Ret (head freeModels))).
  { eapply spends_weaken; [|eapply spends_bind; [apply (spends_trigger ListFreeModels)|
      intros r; eapply spends_bind; [apply spends_await|intros fm; apply spends_ret]]].
    within_budget. }
  eapply spends_weaken; [|eapply spends_bind].
  - instantiate (1 := none). instantiate (1 := only model_list 1). within_budget.
  - destruct (match model input with Some m => Some m | None => OPENROUTER_DEFAULT_MODEL env end)
      as [m|]; [destruct (truthy m)|]; try exact Hlist.
    eapply spends_weaken; [|apply spends_ret]. within_budget.
  - intros [m|]; [destruct (truthy m)|]; first [apply spends_ret | apply spends_throw].
Qed.

Lemma spends_composeAnswer m input sources :
  spends (only chat_completion 2) (composeAnswer m input sources).
Proof.
  unfold composeAnswer.
  destruct (wantsRetryForCitations input sources).
  2:{ eapply spends_weaken; [|apply spends_chat]. within_budget. }
  eapply spends_weaken; [|eapply spends_bind].
  - instantiate (1 := only chat_completion 1). instantiate (1 := only chat_completion 1).
    within_budget.
  - eapply spends_weaken; [|eapply spends_catch].
    + instantiate (1 := none). instantiate (1 := only chat_completion 1). within_budget.
    + unfold generateGroundedFacts.
      eapply spends_weaken; [|eapply spends_bind; [apply spends_chat|
                                                  intros raw; apply spends_ret]].
      within_budget.
    + intros e. apply spends_ret.
  - intros [[|f fs]|]; apply spends_chat.
Qed.

Lemma spends_verifyCitations m input sources ans :
  spends (only chat_completion 1) (verifyCitations m input sources ans).
Proof.
  unfold verifyCitations. destruct (_ && _); [apply spends_chat|].
  eapply spends_weaken; [|apply spends_ret]. within_budget.
Qed.

Lemma spends_finish m input sources start ans :
  spends (only chat_completion 1) (finish m input sources start ans).
Proof.
  unfold finish.
  eapply spends_weaken; [|eapply spends_bind; [apply (spends_trigger Now)|
    intros now; eapply spends_bind; [eapply spends_catch|intros g; apply spends_ret]]].
  2:{ unfold generateFollowUps.
      eapply spends_bind; [apply spends_chat|intros raw; apply spends_ret]. }
  2:{ intros e. apply spends_ret. }
  within_budget.
Qed.

Lemma spends_askPipeline_with (b : Budget) env input :
  spends b (gatherEvidence env input) ->
  spends (plus (only model_list 1) (plus b (only chat_completion 4))) (askPipeline env input).
Proof.
  intros Hg. unfold askPipeline.
  eapply spends_weaken; [|eapply spends_bind; [apply (spends_trigger Now)|intros start]].
  2:{ instantiate (1 := plus (only model_list 1) (plus b (only chat_completion 4))).
      destruct (classifyLocalClockIntent (question input)) as [intent|].
      { unfold clockShortcut.
        eapply spends_weaken; [|eapply spends_bind; [apply (spends_trigger (LocalClock _))|
          intros c; eapply spends_bind; [apply (spends_trigger Now)|
                                         intros fin; apply spends_ret]]].
        within_budget. }
      destruct (detectSafetyBlock (question input)) as [reason|].
      { unfold buildSafetyRefusal.
        eapply spends_weaken; [|eapply spends_bind; [apply (spends_trigger Now)|
          intros c; eapply spends_bind; [apply (spends_trigger Now)|
                                         intros fin; apply spends_ret]]].
        within_budget. }
      destruct (OPENROUTER_API_KEY env).
      2:{ eapply spends_weaken; [|apply spends_throw]. within_budget. }
      eapply spends_weaken; [|eapply spends_bind; [apply spends_selectModel|
        intros m; eapply spends_bind; [exact Hg|intros sources]]].
      2:{ unfold afterGather.
          eapply spends_bind; [apply spends_composeAnswer|intros first].
          unfold afterCompose.
          eapply spends_bind; [apply spends_verifyCitations|intros ans].
          apply spends_finish. }
      within_budget. }
  within_budget.
Qed.

Lemma spends_askPipeline env input : spends pipeline_budget (askPipeline env input).
Proof.
  eapply spends_weaken; [|apply spends_askPipeline_with, spends_gatherEvidence].
  within_budget.
Qed.

(** The calls of one request are bounded, whatever the request and
    whatever the providers answer: at most one listing of the free models,
    three Tavily searches, two Brave searches, five page fetches and four
    chat completions. *)
Theorem calls_are_bounded (env : Env) (input : AskRequest) (w : World) (n : nat) :
  let log := (run (askPipeline env input) w n).1 in
  (calls model_list log <= 1)%nat
  /\ (calls tavily_search log <= 3)%nat
  /\ (calls brave_search log <= 2)%nat
  /\ (calls page_fetch log <= 5)%nat
  /\ (calls chat_completion log <= 4)%nat.
Proof.
  pose proof (always_run _ w _ n (spends_askPipeline env input)) as H. cbv beta in H.
  cbv zeta. repeat split.
  - apply (H model_list).
  - apply (H tavily_search).
  - apply (H brave_search).
  - apply (H page_fetch).
  - apply (H chat_completion).
Qed.

(** *** Without the web *)

Lemma gatherEvidence_off env input :
  useWeb input = Some false
  \/ (TAVILY_API_KEY env = None /\ BRAVE_SEARCH_API_KEY env = None) ->
  gatherEvidence env input = Ret [].
Proof.
  unfold gatherEvidence. intros [->|[-> ->]]; [reflexivity|].
  destruct (default true (useWeb input)); [|reflexivity].
  cbv zeta. generalize (buildQueries input (detectRecencyIntent (question input))).
  intros queries.
  now destruct (sent_verified input), (wantsFresh (detectRecencyIntent (question input))).
Qed.

(** When the request turns the web off ([useWeb] is [false]) or no search
    provider is configured, a run makes no search and no page fetch, and
    every response it returns has no citations, whatever markers the
    answer holds. *)
Theorem without_web_no_search_no_citations (env : Env) (input : AskRequest) (w : World)
    (n : nat) :
  useWeb input = Some false
  \/ (TAVILY_API_KEY env = None /\ BRAVE_SEARCH_API_KEY env = None) ->
  calls tavily_search (run (askPipeline env input) w n).1 = 0%nat
  /\ calls brave_search (run (askPipeline env input) w n).1 = 0%nat
  /\ calls page_fetch (run (askPipeline env input) w n).1 = 0%nat
  /\ forall resp, (run (askPipeline env input) w n).2 = inr resp -> citations resp = [].
Proof.
  intros Hoff. pose proof (gatherEvidence_off env input Hoff) as Hg.
  assert (Hs : spends none (gatherEvidence env input)) by (rewrite Hg; apply spends_ret).
  pose proof (always_run _ w _ n (spends_askPipeline_with none env input Hs)) as H.
  cbv beta in H.
  split; [|split; [|split]].
  - specialize (H tavily_search). cbv [plus only none Kind_eqb] in H. lia.
  - specialize (H brave_search). cbv [plus only none Kind_eqb] in H. lia.
  - specialize (H page_fetch). cbv [plus only none Kind_eqb] in H. lia.
  - intros resp Hr.
    destruct (ResponseFacts.askPipeline_sources env input w n resp Hr)
      as (sources & Hsrc & _ & ->).
    assert (sources = []) as ->; [|apply ResponseFacts.citationsOf_nil].
    destruct Hsrc as [[-> _]|[k Hk]]; [reflexivity|].
    rewrite Hg in Hk. cbn in Hk. congruence.
Qed.

(** *** Missing configuration *)

(** A question that is neither a clock question nor blocked needs the
    OpenRouter key: without it the request fails with status 503 before
    any outbound call.  With the key, but with no model in the request and
    no default model, the free models are listed; when the list is empty
    the request fails with status 503 and that listing is its only
    outbound call. *)
Theorem missing_configuration_is_503 (env : Env) (input : AskRequest) (w : World) (n : nat) :
  classifyLocalClockIntent (question input) = None ->
  detectSafetyBlock (question input) = None ->
  (OPENROUTER_API_KEY env = None ->
   (run (askPipeline env input) w n).2
     = inl (HttpError 503 "OPENROUTER_API_KEY is not configured"%js)
   /\ outbound_calls (run (askPipeline env input) w n).1 = [])
  /\ (OPENROUTER_API_KEY env <> None ->
      model input = None -> OPENROUTER_DEFAULT_MODEL env = None ->
      respond w _ (S n) ListFreeModels = inr [] ->
      (run (askPipeline env input) w n).2
        = inl (HttpError 503 "No free OpenRouter models available"%js)
      /\ outbound_calls (run (askPipeline env input) w n).1
         = [Entry ListFreeModels (inr [])]).
Proof.
  intros Hclock Hsafe. unfold askPipeline. cbn. rewrite Hclock, Hsafe. split.
  - intros ->. cbn. split; reflexivity.
  - intros Hkey Hm Hd Hlist. destruct (OPENROUTER_API_KEY env); [|congruence].
    unfold selectModel. rewrite Hm, Hd. cbn. rewrite Hlist. cbn. split; reflexivity.
Qed.

(** *** Failures *)

Lemma never_fails_fatally {A} (p : Prog A) : never_fails p -> fails_only_fatally p.
Proof.
  apply always_mono. intros log r H err ->. now destruct (H err).
Qed.

Lemma fatally_bind {A B} (p : Prog A) (f : A -> Prog B) :
  fails_only_fatally p -> (forall a, fails_only_fatally (f a)) ->
  fails_only_fatally (p ≫= f).
Proof.
  intros Hp Hf. apply always_bind. eapply always_mono; [|exact Hp].
  intros log1 [e|a] H1; cbn.
  - intros err [= <-]. now apply H1.
  - eapply always_mono; [|apply Hf]. cbn. intros log2 r2 H2 err Hr.
    destruct (H2 err Hr) as [H|H]; [now left|right].
    apply Exists_app. now right.
Qed.

Lemma never_bind {A B} (p : Prog A) (f : A -> Prog B) :
  never_fails p -> (forall a, never_fails (f a)) -> never_fails (p ≫= f).
Proof.
  intros Hp Hf. apply always_bind. eapply always_mono; [|exact Hp].
  intros log1 [e|a] H1; cbn.
  - now destruct (H1 e).
  - apply Hf.
Qed.

Lemma never_catch {A} (p : Prog A) (h : Thrown -> Prog A) :
  (forall e, never_fails (h e)) -> never_fails (catch p h).
Proof.
  intros Hh. unfold never_fails. induction p as [a|e|X e k IH]; cbn.
  - discriminate.
  - apply Hh.
  - intros x. apply IH.
Qed.

Lemma never_ret {A} (a : A) : never_fails (Ret a).
Proof. cbn. discriminate. Qed.

Lemma never_trigger {X} (e : Event X) : never_fails (trigger e).
Proof. cbn. discriminate. Qed.

Lemma never_mapM {A X} (f : A -> Event X) (l : list A) :
  never_fails (mapM (fun a => trigger (f a)) l).
Proof.
  induction l as [|a l IH]; cbn [mapM]; [apply never_ret|].
  apply never_bind; [apply never_trigger|intros b].
  apply never_bind; [exact IH|intros bs; apply never_ret].
Qed.

Lemma never_upsert_loop q fresh srcs : forall m, never_fails (upsert_loop q fresh srcs m).
Proof.
  induction srcs as [|src srcs IH]; intros m; cbn [upsert_loop]; [apply never_ret|].
  apply never_bind; [apply never_catch; intros e; apply never_ret|].
  intros [m'|]; [apply IH|apply never_ret].
Qed.

Lemma never_fetchStage q toFetch : forall sources, never_fails (fetchStage q toFetch sources).
Proof.
  induction toFetch as [|idx rest IH]; intros sources; cbn [fetchStage]; [apply never_ret|].
  destruct (sources !! idx) as [s|]; [|apply IH].
  apply never_bind; [apply never_trigger|intros r; apply IH].
Qed.

(** Evidence gathering returns in every run: a search that fails, a
    result that cannot be scored and a page that cannot be fetched are
    passed over. *)
Lemma never_gatherEvidence env input : never_fails (gatherEvidence env input).
Proof.
  unfold gatherEvidence. destruct (default true (useWeb input)); [|apply never_ret].
  apply never_bind.
  { destruct (TAVILY_API_KEY env); [|apply never_ret].
    unfold tavilyStage. apply never_bind; [apply never_mapM|intros; apply never_upsert_loop]. }
  intros m1. apply never_bind.
  { destruct (BRAVE_SEARCH_API_KEY env); [|apply never_ret].
    unfold braveStage.
    apply never_bind; [apply (never_mapM (fun q => BraveSearch q _))|
                       intros; apply never_upsert_loop]. }
  intros m2. apply never_fetchStage.
Qed.

(** The evidence that reaches the prompt is bounded: whatever the search
    providers and the pages return, evidence gathering returns, and it
    yields at most eight sources (six unless the question asks for fresh
    results), each with a URL that is not empty and an extracted text of at
    most 1203 characters. *)
Theorem evidence_is_bounded (env : Env) (input : AskRequest) (w : World) (k : nat) :
  exists sources,
    (run (gatherEvidence env input) w k).2 = inr sources
    /\ (length sources
        <= source_limit (wantsFresh (detectRecencyIntent (question input))))%nat
    /\ Forall bounded_source sources.
Proof.
  pose proof (always_run _ w _ k (never_gatherEvidence env input)) as Hnever.
  cbv beta in Hnever.
  destruct (run (gatherEvidence env input) w k).2 as [err|sources] eqn:Hrun;
    [now destruct (Hnever err)|].
  exists sources. split; [reflexivity|].
  exact (post_run _ _ w k sources (EvidenceLaws.gatherEvidence_bounded env input) Hrun).
Qed.

Lemma never_finish m input sources start ans : never_fails (finish m input sources start ans).
Proof.
  unfold finish. apply never_bind; [apply never_trigger|intros now].
  apply never_bind; [apply never_catch; intros e; apply never_ret|].
  intros g. apply never_ret.
Qed.

Lemma fatally_chat req : composes req = true -> fails_only_fatally (chat req).
Proof.
  intros Hc. unfold chat. cbn. intros [e|a] err; cbn; [|discriminate].
  intros [= ->]. right. constructor. cbn. now split.
Qed.

Lemma fatally_selectModel env input : fails_only_fatally (selectModel env input).
Proof.
  unfold selectModel.
  assert (Hlist : fails_only_fatally
                    (r ← trigger ListFreeModels; freeModels ← await r; Ret (head freeModels))).
  { cbn. intros [e|fm] err; cbn; [|discriminate].
    intros [= ->]. right. constructor. reflexivity. }
  apply fatally_bind.
  - destruct (match model input with Some m => Some m | None => OPENROUTER_DEFAULT_MODEL env end)
      as [m|]; [destruct (truthy m)|]; try exact Hlist.
    apply never_fails_fatally, never_ret.
  - intros [m|]; [destruct (truthy m)|];
      first [apply never_fails_fatally, never_ret
            | cbn; intros err [= <-]; left; right; reflexivity].
Qed.

Lemma fatally_composeAnswer m input sources :
  fails_only_fatally (composeAnswer m input sources).
Proof.
  unfold composeAnswer.
  destruct (wantsRetryForCitations input sources); [|now apply fatally_chat].
  apply fatally_bind.
  - apply never_fails_fatally, never_catch. intros e. apply never_ret.
  - intros [[|f fs]|]; now apply fatally_chat.
Qed.

Lemma fatally_afterGather m input start sources :
  fails_only_fatally (afterGather m input start sources).
Proof.
  unfold afterGather. apply fatally_bind; [apply fatally_composeAnswer|intros first].
  unfold afterCompose. apply fatally_bind.
  - unfold verifyCitations. destruct (_ && _); [now apply fatally_chat|].
    apply never_fails_fatally, never_ret.
  - intros ans. apply never_fails_fatally, never_finish.
Qed.

Lemma fatally_askPipeline env input : fails_only_fatally (askPipeline env input).
Proof.
  unfold askPipeline.
  apply fatally_bind; [apply never_fails_fatally, never_trigger|intros start].
  destruct (classifyLocalClockIntent (question input)) as [intent|].
  { apply never_fails_fatally. unfold clockShortcut.
    apply never_bind; [apply never_trigger|intros c].
    apply never_bind; [apply never_trigger|intros fin; apply never_ret]. }
  destruct (detectSafetyBlock (question input)) as [reason|].
  { apply never_fails_fatally. unfold buildSafetyRefusal.
    apply never_bind; [apply never_trigger|intros c].
    apply never_bind; [apply never_trigger|intros fin; apply never_ret]. }
  destruct (OPENROUTER_API_KEY env).
  2:{ cbn. intros err [= <-]. left. left. reflexivity. }
  apply fatally_bind; [apply fatally_selectModel|intros m].
  apply fatally_bind; [apply never_fails_fatally, never_gatherEvidence|intros sources].
  apply fatally_afterGather.
Qed.

(** A request fails only for a missing configuration (no OpenRouter key,
    or no model and no free model: status 503) or with the rejection of
    the listing of free models or of a chat completion that composes the
    answer.  A search or a page fetch that fails, and a failed extraction
    of facts or generation of follow-ups, never fail the request. *)
Theorem failures_stem_from_model_calls (env : Env) (input : AskRequest) (w : World) (n : nat)
    (err : Thrown) :
  (run (askPipeline env input) w n).2 = inl err ->
  not_configured err \/ Exists (fatal err) (run (askPipeline env input) w n).1.
Proof.
  intros Hr.
  exact (always_run _ w _ n (fatally_askPipeline env input) err Hr).
Qed.

End WithPlatform.

Lemma without_web_no_search_no_citations_witness :
  let run := run (askPipeline (P := Reference.platform) Scenarios.model_only
                    (Scenarios.request Scenarios.gravity None))
               (Scenarios.world Scenarios.gravity Scenarios.www_twice
                  "Gravity pulls masses together [1]."%js Scenarios.no_followups) 0 in
  calls tavily_search run.1 = 0%nat
  /\ calls brave_search run.1 = 0%nat
  /\ calls page_fetch run.1 = 0%nat
  /\ forall resp, run.2 = inr resp -> citations resp = [].
Proof.
  cbv zeta. apply (without_web_no_search_no_citations (P := Reference.platform)).
  right. split; reflexivity.
Defined.

Lemma missing_configuration_is_503_witness :
  let w := Scenarios.world Scenarios.gravity [] "Gravity pulls masses together."%js
             Scenarios.no_followups in
  let input := Scenarios.request Scenarios.gravity None in
  ((run (askPipeline (P := Reference.platform) Scenarios.noKeys input) w 0).2
     = inl (HttpError 503 "OPENROUTER_API_KEY is not configured"%js)
   /\ outbound_calls (run (askPipeline (P := Reference.platform) Scenarios.noKeys input) w 0).1
      = [])
  /\ ((run (askPipeline (P := Reference.platform) Scenarios.key_only input) w 0).2
        = inl (HttpError 503 "No free OpenRouter models available"%js)
      /\ outbound_calls (run (askPipeline (P := Reference.platform) Scenarios.key_only input) w 0).1
         = [Entry ListFreeModels (inr [])]).
Proof.
  cbv zeta. split.
  - apply (missing_configuration_is_503 (P := Reference.platform) Scenarios.noKeys);
      vm_compute; reflexivity.
  - apply (missing_configuration_is_503 (P := Reference.platform) Scenarios.key_only);
      try (vm_compute; reflexivity).
    vm_compute. discriminate.
Defined.

Lemma failures_stem_from_model_calls_witness :
  let run := run (askPipeline (P := Reference.platform) Scenarios.configured
                    (Scenarios.request Scenarios.gravity None)) Scenarios.offline 0 in
  run.2 = inl (Foreign NotAnObject)
  /\ (not_configured (Foreign NotAnObject) \/ Exists (fatal (Foreign NotAnObject)) run.1).
Proof.
  cbv zeta.
  assert (H : (run (askPipeline (P := Reference.platform) Scenarios.configured
                      (Scenarios.request Scenarios.gravity None)) Scenarios.offline 0).2
              = inl (Foreign NotAnObject)) by (vm_compute; reflexivity).
  split; [exact H|].
  exact (failures_stem_from_model_calls (P := Reference.platform) _ _ _ _ _ H).
Defined.

End PipelineLaws.

(** ** White space in the text helpers *)

Module TextLaws.
Import Regex Text TextViews JsStringFacts TrimFacts.

(** The greedy star of a character class takes the longest prefix in the
    class. *)
Lemma star_space_loop : forall fuel c,
  (length (rest c) < fuel)%nat ->
  exists pv,
    (fix loop (fuel : nat) (c : cursor) {struct fuel} : option cursor :=
       match fuel with
       | O => Some c
       | S f =>
           let more c' :=
             if (length (rest c') <? length (rest c))%nat then loop f c' else None in
           match exec (Chr is_space) more c with
           | Some c' => Some c'
           | None => Some c
           end
       end) fuel c
    = Some (Cursor pv (trimStart (rest c)) (marks c)).
Proof.
  induction fuel as [|f IH]; intros [pv s mk] Hlen; cbn [rest marks] in *; [lia|].
  destruct s as [|a s]; cbn [exec rest marks trimStart].
  - now exists pv.
  - destruct (is_space a) eqn:E; [|now exists pv].
    cbn [length]. replace (length s <? S (length s))%nat with true
      by (symmetry; apply Nat.ltb_lt; lia).
    destruct (IH (Cursor (Some a) s mk)) as (pv' & H); [cbn in *; lia|].
    exists pv'.
    assert (Hm : forall (o : option cursor) v d,
               o = Some v -> match o with Some c' => Some c' | None => Some d end = Some v)
      by (intros ? ? ? ->; reflexivity).
    apply Hm. exact H.
Qed.

Lemma match_spaces p s :
  match s with
  | a :: s' =>
      if is_space a
      then exists pv, match_here (plus space) p s = Some (Cursor pv (trimStart s') [])
      else match_here (plus space) p s = None
  | [] => match_here (plus space) p s = None
  end.
Proof.
  unfold match_here, plus, space. destruct s as [|a s']; [reflexivity|].
  cbn [exec rest]. destruct (is_space a); [|reflexivity].
  destruct (star_space_loop (S (length s')) (Cursor (Some a) s' [])) as (pv & H);
    [cbn; lia|].
  exists pv. exact H.
Qed.

Lemma find_spaces s : forall p,
  (find (plus space) p s = None /\ forallb (fun c => negb (is_space c)) s = true)
  \/ (exists skipped a s' m pv,
        s = skipped ++ a :: s'
        /\ forallb (fun c => negb (is_space c)) skipped = true
        /\ is_space a = true
        /\ m <> []
        /\ find (plus space) p s = Some (skipped, m, Cursor pv (trimStart s') [])).
Proof.
  induction s as [|a s' IH]; intros p.
  - left. split; reflexivity.
  - pose proof (match_spaces p (a :: s')) as Hm. cbv beta iota in Hm.
    destruct (is_space a) eqn:E.
    + destruct Hm as (pv & Hm). right. exists [], a, s'. eexists. exists pv.
      cbn [find]. rewrite Hm. cbn [rest app forallb].
      repeat split; try reflexivity; try assumption.
      pose proof (trimStart_length s'). cbn [length].
      replace (S (length s') - length (trimStart s'))%nat
        with (S (length s' - length (trimStart s')))%nat by lia.
      discriminate.
    + cbn [find]. rewrite Hm. destruct (IH (Some a)) as [[Hf Hall]|Hsome].
      * left. rewrite Hf. cbn [forallb]. rewrite E, Hall. split; reflexivity.
      * destruct Hsome as (skipped & b & r & m & pv & -> & Hsk & Hb & Hne & Hf).
        right. exists (a :: skipped), b, r, m, pv. rewrite Hf. cbn [forallb].
        rewrite E, Hsk. repeat split; try reflexivity; assumption.
Qed.

Lemma squeeze_ink_prefix skipped : forall b r,
  forallb (fun c => negb (is_space c)) skipped = true ->
  skipped <> [] \/ b = false ->
  squeeze b (skipped ++ r) = skipped ++ squeeze false r
  \/ (skipped = [] /\ b = false).
Proof.
  induction skipped as [|c l IH]; intros b r Hall Hb.
  - right. destruct Hb as [H|H]; [congruence|]. now split.
  - left. cbn [forallb] in Hall. apply andb_true_iff in Hall as [Hc Hl].
    apply negb_true_iff in Hc. cbn [app squeeze]. rewrite Hc. f_equal.
    destruct (IH false r Hl (or_intror eq_refl)) as [H|[-> _]]; [exact H|reflexivity].
Qed.

Lemma squeeze_no_space s :
  forallb (fun c => negb (is_space c)) s = true -> forall b, squeeze b s = s.
Proof.
  induction s as [|c r IH]; intros Hall b; [reflexivity|].
  cbn [forallb] in Hall. apply andb_true_iff in Hall as [Hc Hl].
  apply negb_true_iff in Hc. cbn [squeeze]. rewrite Hc. f_equal. now apply IH.
Qed.

Lemma squeeze_in_run s : squeeze true s = squeeze false (trimStart s).
Proof.
  induction s as [|c r IH]; [reflexivity|]. cbn [squeeze trimStart].
  destruct (is_space c) eqn:E; [exact IH|]. cbn [squeeze]. now rewrite E.
Qed.

Lemma squeeze_skip skipped a r :
  forallb (fun c => negb (is_space c)) skipped = true -> is_space a = true ->
  squeeze false (skipped ++ a :: r) = skipped ++ " "%char :: squeeze false (trimStart r).
Proof.
  intros Hall Ha.
  assert (H : squeeze false (skipped ++ a :: r) = skipped ++ squeeze false (a :: r)).
  { destruct (squeeze_ink_prefix skipped false (a :: r) Hall (or_intror eq_refl))
      as [H|[-> _]]; [exact H|reflexivity]. }
  rewrite H. cbn [squeeze]. now rewrite Ha, squeeze_in_run.
Qed.

(** [s.replace(/\s+/g, " ")] turns every run of white space into one
    space. *)
Lemma replace_spaces_from : forall fuel p s,
  (length s < fuel)%nat ->
  replace_all_from fuel (plus space) " "%js p s = squeeze false s.
Proof.
  induction fuel as [|f IH]; intros p s Hlen; [lia|].
  cbn [replace_all_from].
  destruct (find_spaces s p) as [[Hf Hall]|(skipped & a & r & m & pv & -> & Hsk & Ha & Hne & Hf)];
    rewrite Hf.
  - symmetry. now apply squeeze_no_space.
  - cbn [rest prev]. destruct m as [|x m]; [congruence|].
    rewrite squeeze_skip by assumption. f_equal. cbn [app]. f_equal.
    apply IH. rewrite length_app in Hlen. cbn [length] in Hlen.
    pose proof (trimStart_length r). lia.
Qed.

Lemma replace_spaces s : replace_all (plus space) " "%js s = squeeze false s.
Proof. unfold replace_all. apply replace_spaces_from. lia. Qed.

Lemma squeeze_head_in_run s c : head (squeeze true s) = Some c -> is_space c = false.
Proof.
  induction s as [|a r IH]; cbn [squeeze]; [discriminate|].
  destruct (is_space a) eqn:E; [exact IH|]. cbn. congruence.
Qed.

Lemma spaced_once_squeeze s : forall b, spaced_once (squeeze b s) = true.
Proof.
  induction s as [|a r IH]; intros b; [reflexivity|]. cbn [squeeze].
  destruct (is_space a) eqn:E.
  - destruct b; [apply IH|]. cbn [spaced_once]. rewrite IH.
    change (is_space " "%char) with true. cbv iota.
    change (chr_eqb " "%char " "%char) with true.
    pose proof (squeeze_head_in_run r) as Hh.
    destruct (squeeze true r) as [|d t]; [reflexivity|].
    now rewrite (Hh d eq_refl).
  - cbn [spaced_once]. now rewrite E, IH.
Qed.

Lemma spaced_once_tail c r : spaced_once (c :: r) = true -> spaced_once r = true.
Proof. cbn [spaced_once]. now intros [_ H]%andb_true_iff. Qed.

Lemma spaced_once_suffix l r : spaced_once (l ++ r) = true -> spaced_once r = true.
Proof. induction l as [|c l IH]; [auto|]. intros H%spaced_once_tail. auto. Qed.

Lemma spaced_once_prefix l : forall r, spaced_once (l ++ r) = true -> spaced_once l = true.
Proof.
  induction l as [|c l IH]; intros r; [reflexivity|]. cbn [app spaced_once].
  intros [Hc Hr]%andb_true_iff. rewrite (IH r Hr), andb_true_r.
  destruct (is_space c); [|reflexivity].
  apply andb_true_iff in Hc as [-> Hn]. destruct l as [|d l]; [reflexivity|exact Hn].
Qed.

Lemma trimEnd_split s :
  exists post, s = trimEnd s ++ post /\ forallb is_space post = true.
Proof.
  unfold trimEnd. destruct (trimStart_split (rev s)) as (pre & H & Hpre).
  exists (rev pre). split.
  - rewrite <- (rev_involutive s) at 1. rewrite H at 1. now rewrite rev_app_distr.
  - rewrite forallb_forall in *. intros c Hc%in_rev. auto.
Qed.

Lemma spaced_once_trim s : spaced_once s = true -> spaced_once (trim s) = true.
Proof.
  intros H. unfold trim.
  destruct (trimStart_split s) as (pre & Hs & _).
  destruct (trimEnd_split (trimStart s)) as (post & Ht & _).
  rewrite Hs in H. apply spaced_once_suffix in H. rewrite Ht in H.
  now apply spaced_once_prefix in H.
Qed.

Lemma ink_spaces l : forallb is_space l = true -> ink l = [].
Proof.
  induction l as [|c l IH]; [reflexivity|]. cbn [forallb]. intros [Hc Hl]%andb_true_iff.
  unfold ink. cbn [List.filter]. rewrite Hc. cbn. now apply IH.
Qed.

Lemma ink_app l r : ink (l ++ r) = ink l ++ ink r.
Proof. unfold ink. apply List.filter_app. Qed.

Lemma ink_trim s : ink (trim s) = ink s.
Proof.
  unfold trim.
  destruct (trimStart_split s) as (pre & Hs & Hpre).
  destruct (trimEnd_split (trimStart s)) as (post & Ht & Hpost).
  rewrite Hs at 2. rewrite Ht at 2.
  rewrite !ink_app, (ink_spaces pre Hpre), (ink_spaces post Hpost). now rewrite app_nil_r.
Qed.

Lemma ink_squeeze s : forall b, ink (squeeze b s) = ink s.
Proof.
  induction s as [|c r IH]; intros b; [reflexivity|]. cbn [squeeze].
  destruct (is_space c) eqn:E.
  - destruct b; unfold ink in *; cbn [List.filter]; rewrite E; cbn [negb]; [apply IH|].
    change (is_space " "%char) with true. cbn [negb]. apply IH.
  - unfold ink in *. cbn [List.filter]. rewrite E. cbn [negb]. f_equal. apply IH.
Qed.

Lemma squeeze_length s : forall b, (length (squeeze b s) <= length s)%nat.
Proof.
  induction s as [|c r IH]; intros b; [reflexivity|].
  pose proof (IH true). pose proof (IH false). cbn [squeeze].
  destruct (is_space c); [destruct b|]; cbn [length]; lia.
Qed.

Lemma squeeze_fixed s : spaced_once s = true -> squeeze false s = s.
Proof.
  induction s as [|c r IH]; [reflexivity|]. cbn [spaced_once squeeze].
  intros [Hc Hr]%andb_true_iff. destruct (is_space c) eqn:E.
  - apply andb_true_iff in Hc as [Hc%chr_eqb_eq Hn]. subst c. f_equal.
    rewrite squeeze_in_run. rewrite trimStart_fix; [now apply IH|].
    intros d Hd. destruct r as [|d' r']; [discriminate|]. cbn in Hd. injection Hd as ->.
    now apply negb_true_iff in Hn.
  - f_equal. now apply IH.
Qed.

(** [normalizeForMatching]: the result is trimmed, its only white space
    is single spaces between other characters, it keeps the characters that
    are not white space, in their order, it is not longer than the input,
    and normalising it again changes nothing. *)
Theorem normalized_text (input : jsstring) :
  let out := normalizeForMatching input in
  spaced_once out = true
  /\ trim out = out
  /\ ink out = ink input
  /\ (length out <= length input)%nat
  /\ normalizeForMatching out = out.
Proof.
  cbv zeta. unfold normalizeForMatching. rewrite replace_spaces.
  assert (Hs : spaced_once (trim (squeeze false input)) = true)
    by apply spaced_once_trim, spaced_once_squeeze.
  split; [exact Hs|]. split; [apply trim_idem|].
  split; [now rewrite ink_trim, ink_squeeze|].
  split; [etransitivity; [apply trim_length | apply squeeze_length]|].
  rewrite replace_spaces, (squeeze_fixed _ Hs). apply trim_idem.
Qed.

(** *** Tokens *)

Lemma find_chr q s : forall p,
  (find (Chr q) p s = None /\ forallb (fun c => negb (q c)) s = true)
  \/ (exists skipped a s',
        s = skipped ++ a :: s'
        /\ forallb (fun c => negb (q c)) skipped = true
        /\ q a = true
        /\ find (Chr q) p s = Some (skipped, [a], Cursor (Some a) s' [])).
Proof.
  induction s as [|a s' IH]; intros p.
  - left. split; reflexivity.
  - cbn [find]. unfold match_here. cbn [exec rest marks]. destruct (q a) eqn:E.
    + right. exists [], a, s'. cbn [rest length app forallb].
      replace (S (length s') - length s')%nat with 1%nat by lia.
      repeat split; reflexivity || assumption.
    + destruct (IH (Some a)) as [[Hf Hall]|Hsome].
      * left. fold (match_here (Chr q) (Some a) s') in *. rewrite Hf. cbn [forallb].
        rewrite E, Hall. split; reflexivity.
      * destruct Hsome as (skipped & b & r & -> & Hsk & Hb & Hf).
        right. exists (a :: skipped), b, r. rewrite Hf. cbn [forallb].
        rewrite E, Hsk. repeat split; try reflexivity; assumption.
Qed.

(** [s.replace(/[class]/g, " ")] replaces the characters of the class,
    one by one. *)
Lemma replace_chr_from q : forall fuel p s,
  (length s < fuel)%nat ->
  replace_all_from fuel (Chr q) " "%js p s = map (fun c => if q c then " "%char else c) s.
Proof.
  induction fuel as [|f IH]; intros p s Hlen; [lia|].
  cbn [replace_all_from].
  assert (Hkeep : forall l, forallb (fun c => negb (q c)) l = true ->
                            map (fun c => if q c then " "%char else c) l = l).
  { induction l as [|c l IHl]; [reflexivity|]. cbn [forallb map].
    intros [Hc Hl]%andb_true_iff. apply negb_true_iff in Hc. rewrite Hc. f_equal. auto. }
  destruct (find_chr q s p) as [[Hf Hall]|(skipped & a & r & -> & Hsk & Ha & Hf)];
    rewrite Hf.
  - symmetry. now apply Hkeep.
  - cbn [rest prev]. rewrite map_app, (Hkeep _ Hsk). cbn [map]. rewrite Ha.
    f_equal. cbn [app]. f_equal. apply IH.
    rewrite length_app in Hlen. cbn [length] in Hlen. lia.
Qed.

Lemma split_spaces_pieces (Q : ascii -> Prop) : forall fuel p cur s,
  (length s < fuel)%nat ->
  Forall (fun c => Q c /\ is_space c = false) cur -> Forall Q s ->
  Forall (Forall (fun c => Q c /\ is_space c = false)) (split_from fuel (plus space) p cur s).
Proof.
  induction fuel as [|f IH]; intros p cur s Hlen Hcur Hs; [lia|].
  cbn [split_from]. destruct s as [|a s'].
  - constructor; [|constructor]. now apply Forall_rev.
  - pose proof (match_spaces p (a :: s')) as Hm. cbv beta iota in Hm.
    apply Forall_cons_iff in Hs as [Ha Hs']. cbn [length] in Hlen.
    destruct (is_space a) eqn:E.
    + destruct Hm as (pv & ->). cbn [rest prev].
      pose proof (trimStart_length s') as Ht.
      replace (length (trimStart s') =? length (a :: s'))%nat with false
        by (symmetry; apply Nat.eqb_neq; cbn [length]; lia).
      cbn [andb]. constructor; [now apply Forall_rev|].
      apply IH; [lia|constructor|].
      destruct (trimStart_split s') as (pre & Hpre & _). rewrite Hpre in Hs'.
      now apply Forall_app in Hs' as [_ H].
    + rewrite Hm. apply IH; [lia| |assumption]. constructor; [now split|assumption].
Qed.

Lemma Forall_trim (Q : ascii -> Prop) s : Forall Q s -> Forall Q (trim s).
Proof.
  intros H. unfold trim.
  destruct (trimStart_split s) as (pre & Hs & _).
  destruct (trimEnd_split (trimStart s)) as (post & Ht & _).
  rewrite Hs in H. apply Forall_app in H as [_ H]. rewrite Ht in H.
  now apply Forall_app in H as [H _].
Qed.

(** The tokens of a text: at least three characters, each of them a
    lower-case ASCII letter or a digit, and never a stop word. *)
Theorem tokens_are_words (text : jsstring) :
  Forall (fun t => (3 <= length t)%nat
                   /\ Forall (fun c => is_lower c || is_digit c = true) t
                   /\ ~ In t stop_words)
         (tokenizeForMatch text).
Proof.
  unfold tokenizeForMatch. unfold replace_all. rewrite replace_chr_from by lia.
  set (spaced := map _ (toLowerCase text)).
  assert (Hsp : Forall (fun c => is_lower c || is_digit c || is_space c = true) spaced).
  { unfold spaced. apply List.Forall_forall. intros c (x & <- & _)%in_map_iff.
    destruct (is_lower x || is_digit x || is_space x) eqn:E; [exact E|reflexivity]. }
  pose proof (split_spaces_pieces _ (2 * length spaced + 2) None [] spaced
                ltac:(lia) ltac:(constructor) Hsp) as Hpieces.
  fold (split (plus space) spaced) in Hpieces.
  apply List.Forall_forall. intros t [[Ht Hlen]%filter_In Hstop]%filter_In.
  apply in_map_iff in Ht as (piece & <- & Hpiece).
  split; [now apply Nat.leb_le in Hlen|]. split.
  - rewrite List.Forall_forall in Hpieces. specialize (Hpieces piece Hpiece).
    apply Forall_trim. eapply Forall_impl; [exact Hpieces|].
    cbv beta. intros c [Hc Hs]. rewrite Hs, orb_false_r in Hc. exact Hc.
  - apply negb_true_iff in Hstop. intros Hin.
    assert (member (trim piece) stop_words = true); [|congruence].
    unfold member. apply existsb_exists. exists (trim piece). split; [assumption|apply eqb_refl].
Qed.

End TextLaws.

(** ** The guard against private addresses, and the page fetch *)

Module SsrfLaws.
Import JsNumber Ssrf SsrfViews PageText TextViews JsStringFacts TrimFacts TextLaws.

Lemma octet_text (n : N) :
  (n < 256)%N ->
  forallb is_digit (JsString.of_N n) = true
  /\ parseInt10 (JsString.of_N n) = Finite (Z.of_N n).
Proof.
  intros Hn.
  assert (Hall : forallb (fun n => forallb is_digit (JsString.of_N n)
                                   && num_is (parseInt10 (JsString.of_N n)) (Z.of_N n))
                   (map N.of_nat (seq 0 256)) = true) by (vm_compute; reflexivity).
  rewrite forallb_forall in Hall.
  assert (Hin : In n (map N.of_nat (seq 0 256))).
  { apply in_map_iff. exists (N.to_nat n). split; [lia|]. apply in_seq. lia. }
  apply Hall in Hin. apply andb_true_iff in Hin as [Hd Hp]. split; [exact Hd|].
  destruct (parseInt10 (JsString.of_N n)) as [v| |]; try discriminate.
  cbn in Hp. apply Z.eqb_eq in Hp. now subst.
Qed.

Lemma split_on_digits s : forall cur,
  forallb is_digit s = true ->
  (forall r, split_on "." cur (s ++ "."%char :: r) = (rev cur ++ s) :: split_on "." [] r)
  /\ split_on "." cur s = [rev cur ++ s].
Proof.
  induction s as [|c s IH]; intros cur Hd.
  - split; [intros r|]; cbn; now rewrite app_nil_r.
  - cbn [forallb] in Hd. apply andb_true_iff in Hd as [Hc Hs].
    assert (Hdot : chr_eqb c "." = false).
    { destruct (chr_eqb c ".") eqn:E; [|reflexivity].
      apply chr_eqb_eq in E. subst c. discriminate. }
    destruct (IH (c :: cur) Hs) as [H1 H2].
    split; [intros r|]; cbn [app split_on]; rewrite Hdot;
      [rewrite H1|rewrite H2]; cbn [rev]; now rewrite <- app_assoc.
Qed.

Lemma isPrivateIpv4_dotted (a b c d : N) :
  (a < 256)%N -> (b < 256)%N -> (c < 256)%N -> (d < 256)%N ->
  isPrivateIpv4 (dotted a b c d)
  = ((a =? 10)%N || (a =? 127)%N || ((a =? 169)%N && (b =? 254)%N)
     || ((a =? 192)%N && (b =? 168)%N)
     || ((a =? 172)%N && ((16 <=? b)%N && (b <=? 31)%N))).
Proof.
  intros Ha Hb Hc Hd.
  destruct (octet_text a Ha) as [Da Pa], (octet_text b Hb) as [Db Pb],
    (octet_text c Hc) as [Dc Pc], (octet_text d Hd) as [Dd Pd].
  unfold isPrivateIpv4, dotted. cbn [app].
  rewrite (proj1 (split_on_digits _ [] Da)), (proj1 (split_on_digits _ [] Db)),
    (proj1 (split_on_digits _ [] Dc)), (proj2 (split_on_digits _ [] Dd)).
  cbn [rev app map]. rewrite Pa, Pb, Pc, Pd.
  cbn [length Nat.eqb negb existsb is_nan orb num_is num_within].
  replace (Z.of_N a =? 10) with (a =? 10)%N by lia.
  replace (Z.of_N a =? 127) with (a =? 127)%N by lia.
  replace (Z.of_N a =? 169) with (a =? 169)%N by lia.
  replace (Z.of_N b =? 254) with (b =? 254)%N by lia.
  replace (Z.of_N a =? 192) with (a =? 192)%N by lia.
  replace (Z.of_N b =? 168) with (b =? 168)%N by lia.
  replace (Z.of_N a =? 172) with (a =? 172)%N by lia.
  replace (16 <=? Z.of_N b) with (16 <=? b)%N by lia.
  replace (Z.of_N b <=? 31) with (b <=? 31)%N by lia.
  destruct (a =? 10)%N, (a =? 127)%N, ((a =? 169)%N && (b =? 254)%N),
    ((a =? 192)%N && (b =? 168)%N), ((a =? 172)%N && ((16 <=? b)%N && (b <=? 31)%N));
    reflexivity.
Qed.

(** [isPrivateIpv4] on a dotted quad: the address is private exactly
    when it lies in 10/8, 127/8, 169.254/16, 192.168/16 or 172.16/12. *)
Theorem private_ipv4_blocks (a b c d : N) :
  (a < 256)%N -> (b < 256)%N -> (c < 256)%N -> (d < 256)%N ->
  isPrivateIpv4 (dotted a b c d) = true <-> in_private_block a b.
Proof.
  intros Ha Hb Hc Hd. rewrite (isPrivateIpv4_dotted a b c d Ha Hb Hc Hd).
  unfold in_private_block.
  rewrite !orb_true_iff, !andb_true_iff, !N.eqb_eq, !N.leb_le. tauto.
Qed.

Lemma private_ipv4_blocks_witness :
  isPrivateIpv4 (dotted 172 16 0 1) = true <-> in_private_block 172 16.
Proof. apply private_ipv4_blocks; reflexivity. Defined.

(** The text extracted from a page is trimmed and its only white space is
    single spaces between other characters: no line break, no tab and no
    run of spaces is left, whatever the markup. *)
Theorem extracted_text_is_normalised (html : jsstring) :
  spaced_once (extractTextFromHtml html) = true
  /\ trim (extractTextFromHtml html) = extractTextFromHtml html.
Proof.
  unfold extractTextFromHtml. rewrite replace_spaces.
  split; [apply spaced_once_trim, spaced_once_squeeze | apply trim_idem].
Qed.

Section WithPlatform.
Context {P : Platform} {net : Net}.

Lemma assertSafeUrl_cases lookup urlString :
  (exists msg, assertSafeUrl lookup urlString = ([], inl (HttpError 400 msg)))
  \/ (exists e host, assertSafeUrl lookup urlString = ([Lookup host], inl e))
  \/ (exists url,
        new_URL urlString = Some url
        /\ (protocol url = "https:"%js \/ protocol url = "http:"%js)
        /\ hostname url <> "localhost"%js
        /\ endsWith (hostname url) ".local"%js = false
        /\ ((isIP (hostname url) <> 0
             /\ isPrivateIp (hostname url) = false
             /\ assertSafeUrl lookup urlString = ([], inr url))
            \/ (isIP (hostname url) = 0
                /\ exists addrs,
                     lookup (hostname url) = inr addrs
                     /\ addrs <> []
                     /\ Forall (fun a => isPrivateIp a = false) addrs
                     /\ assertSafeUrl lookup urlString = ([Lookup (hostname url)], inr url)))).
Proof.
  unfold assertSafeUrl.
  destruct (new_URL urlString) as [url|]; [|left; eauto].
  assert (Hproto : negb (JsString.eqb (protocol url) "https:"%js)
                   && negb (JsString.eqb (protocol url) "http:"%js) = false ->
                   protocol url = "https:"%js \/ protocol url = "http:"%js).
  { destruct (JsString.eqb (protocol url) "https:"%js) eqn:E1; [left; now apply eqb_eq|].
    destruct (JsString.eqb (protocol url) "http:"%js) eqn:E2; [right; now apply eqb_eq|].
    discriminate. }
  destruct (_ && _); [left; eauto|]. specialize (Hproto eq_refl).
  destruct (truthy (hostname url)); cbn [negb]; [|left; eauto].
  destruct (JsString.eqb (hostname url) "localhost"%js) eqn:Elocal; cbn [orb];
    [left; eauto|].
  destruct (endsWith (hostname url) ".local"%js) eqn:Edot; [left; eauto|].
  assert (Hlocal : hostname url <> "localhost"%js)
    by (intros H; apply eqb_eq in H; congruence).
  destruct (Z.eqb_spec (isIP (hostname url)) 0) as [Hip|Hip]; cbn [negb].
  - destruct (lookup (hostname url)) as [e|addrs] eqn:Hl; [right; left; eauto|].
    destruct addrs as [|a addrs]; cbn [length Nat.eqb]; [right; left; eauto|].
    destruct (existsb isPrivateIp (a :: addrs)) eqn:Hex; [right; left; eauto|].
    right. right. exists url. repeat split; try assumption.
    right. split; [assumption|]. exists (a :: addrs).
    split; [exact Hl|]. split; [discriminate|]. split; [|reflexivity].
    apply List.Forall_forall. intros x Hx.
    destruct (isPrivateIp x) eqn:Ex; [|reflexivity].
    assert (existsb isPrivateIp (a :: addrs) = true)
      by (apply existsb_exists; eauto). congruence.
  - destruct (isPrivateIp (hostname url)) eqn:Epriv; [left; eauto|].
    right. right. exists url. repeat split; try assumption. left. repeat split; assumption.
Qed.

(** [fetchPageText] sends its request only when the guard has cleared the
    URL: if the run contains a GET, it is the GET of the given URL, the URL
    parses with the protocol http or https and a host other than
    [localhost] and [*.local], and either the host is an IP literal that
    [isPrivateIp] does not flag (then the GET is the only call) or one DNS
    lookup came before the GET and returned at least one address and none
    that [isPrivateIp] flags. *)
Theorem get_only_after_clearance (lookup : jsstring -> Thrown + list jsstring)
    (fetch : jsstring -> Thrown + PageResponse) (url : jsstring) (maxBytes : Z) (c : Call) :
  is_get c = true ->
  In c (fetchPageText lookup fetch url maxBytes).1 ->
  c = Get url
  /\ exists parsed,
       new_URL url = Some parsed
       /\ (protocol parsed = "https:"%js \/ protocol parsed = "http:"%js)
       /\ hostname parsed <> "localhost"%js
       /\ endsWith (hostname parsed) ".local"%js = false
       /\ ((isIP (hostname parsed) <> 0
            /\ isPrivateIp (hostname parsed) = false
            /\ (fetchPageText lookup fetch url maxBytes).1 = [Get url])
           \/ (isIP (hostname parsed) = 0
               /\ (exists addrs,
                     lookup (hostname parsed) = inr addrs
                     /\ addrs <> []
                     /\ Forall (fun a => isPrivateIp a = false) addrs)
               /\ (fetchPageText lookup fetch url maxBytes).1
                  = [Lookup (hostname parsed); Get url])).
Proof.
  intros Hget Hin. unfold fetchPageText in *.
  assert (Hlog : forall log (r : Thrown + jsstring) (x : list Call * (Thrown + jsstring)),
             x.1 = log -> x.1 = log) by auto.
  destruct (assertSafeUrl_cases lookup url)
    as [(msg & H)|[(e & host & H)|(parsed & Hp & Hproto & Hlocal & Hdot & Hcase)]].
  - rewrite H in Hin. destruct Hin.
  - rewrite H in Hin. destruct Hin as [<-|[]]. discriminate.
  - assert (Hfst : forall log,
               (match fetch url with
                | inl e => (log ++ [Get url], inl e)
                | inr res =>
                    if negb (res_ok res)
                    then (log ++ [Get url],
                          inl (HttpError 502 ("Failed to fetch source ("%js
                                              ++ JsString.of_N (res_status res) ++ ")"%js)))
                    else if negb (includes (default []%js (content_type res)) "text/html"%js)
                            && negb (includes (default []%js (content_type res))
                                       "application/xhtml"%js)
                    then (log ++ [Get url], inl (HttpError 415 "Unsupported content type"%js))
                    else match readResponseTextWithLimit res maxBytes with
                         | inl e => (log ++ [Get url], inl e)
                         | inr html => (log ++ [Get url], inr (extractTextFromHtml html))
                         end
                end).1 = log ++ [Get url]).
    { intros log. destruct (fetch url) as [e|res]; [reflexivity|].
      destruct (negb (res_ok res)); [reflexivity|].
      destruct (_ && _); [reflexivity|].
      now destruct (readResponseTextWithLimit res maxBytes). }
    destruct Hcase as [(Hip & Hpriv & H)|(Hip & addrs & Hl & Hne & Hall & H)];
      rewrite H in *; cbv zeta in *; rewrite Hfst in *; cbn [app] in *.
    + destruct Hin as [<-|[]]. split; [reflexivity|]. exists parsed.
      repeat split; try assumption. left. repeat split; assumption.
    + destruct Hin as [<-|[<-|[]]]; [discriminate|]. split; [reflexivity|]. exists parsed.
      repeat split; try assumption. right. repeat split; try assumption.
      exists addrs. repeat split; assumption.
Qed.

(** A private IPv4 literal is refused before any call: when the host of
    the URL is a dotted quad in one of the private blocks, [fetchPageText]
    fails with status 400 and makes neither a DNS lookup nor a request. *)
Theorem private_literal_is_refused (lookup : jsstring -> Thrown + list jsstring)
    (fetch : jsstring -> Thrown + PageResponse) (url : jsstring) (maxBytes : Z)
    (parsed : URL) (a b c d : N) :
  new_URL url = Some parsed ->
  hostname parsed = dotted a b c d ->
  (a < 256)%N -> (b < 256)%N -> (c < 256)%N -> (d < 256)%N ->
  isIP (dotted a b c d) = 4 ->
  in_private_block a b ->
  exists msg, fetchPageText lookup fetch url maxBytes = ([], inl (HttpError 400 msg)).
Proof.
  intros Hp Hhost Ha Hb Hc Hd Hip Hblock.
  unfold fetchPageText.
  destruct (assertSafeUrl_cases lookup url)
    as [(msg & H)|[(e & host & H)|(parsed' & Hp' & _ & _ & _ & Hcase)]].
  - rewrite H. now exists msg.
  - exfalso. revert H. unfold assertSafeUrl. rewrite Hp, Hhost.
    destruct (_ && _); [discriminate|]. destruct (negb (truthy _)); [discriminate|].
    destruct (_ || _); [discriminate|]. rewrite Hip. cbn [Z.eqb negb].
    destruct (isPrivateIp _); discriminate.
  - exfalso. assert (parsed' = parsed) by congruence. subst parsed'.
    rewrite Hhost in Hcase.
    assert (Hpriv : isPrivateIp (dotted a b c d) = true).
    { unfold isPrivateIp. rewrite Hip. change (isPrivateIpv4 (dotted a b c d) = true).
      rewrite (isPrivateIpv4_dotted a b c d Ha Hb Hc Hd).
      unfold in_private_block in Hblock.
      rewrite !orb_true_iff, !andb_true_iff, !N.eqb_eq, !N.leb_le. tauto. }
    destruct Hcase as [(_ & Hn & _)|(H0 & _)]; [congruence|]. rewrite Hip in H0. discriminate.
Qed.

(** [fetchPageText] returns a text only for a response with an ok status
    and an HTML content type whose body has at most [maxBytes] bytes; the
    text is the extraction of that body, and the GET was sent. *)
Theorem page_text_conditions (lookup : jsstring -> Thrown + list jsstring)
    (fetch : jsstring -> Thrown + PageResponse) (url : jsstring) (maxBytes : Z)
    (text : jsstring) :
  (fetchPageText lookup fetch url maxBytes).2 = inr text ->
  exists res size html ct,
    fetch url = inr res
    /\ res_ok res = true
    /\ content_type res = Some ct
    /\ (includes ct "text/html"%js = true \/ includes ct "application/xhtml"%js = true)
    /\ res_body res = inr (size, html)
    /\ size <= maxBytes
    /\ text = extractTextFromHtml html
    /\ In (Get url) (fetchPageText lookup fetch url maxBytes).1.
Proof.
  unfold fetchPageText.
  destruct (assertSafeUrl lookup url) as [log [e|safeUrl]]; [discriminate|]. cbv zeta.
  destruct (fetch url) as [e|res]; [discriminate|].
  destruct (res_ok res) eqn:Hok; cbn [negb]; [|discriminate].
  destruct (content_type res) as [ct|] eqn:Hct; cbn [default from_option id].
  2:{ change (includes []%js "text/html"%js) with false.
      change (includes []%js "application/xhtml"%js) with false.
      cbn [negb andb]. discriminate. }
  destruct (includes ct "text/html"%js) eqn:Hhtml,
    (includes ct "application/xhtml"%js) eqn:Hxhtml; cbn [negb andb]; try discriminate.
  all: unfold readResponseTextWithLimit;
    destruct (res_body res) as [e|[size html]] eqn:Hbody; cbv beta iota;
      [discriminate|];
    destruct (Z.ltb_spec maxBytes size); cbv beta iota; [discriminate|];
    cbn [snd]; intros [= <-]; exists res, size, html, ct;
    repeat split; try reflexivity; try assumption; try lia; auto;
    apply in_app_iff; right; now left.
Qed.

End WithPlatform.

Lemma get_only_after_clearance_witness :
  let net := {| isIP := fun s => if JsString.eqb s "93.184.216.34"%js then 4 else 0 |} in
  let lookup := fun _ : jsstring => inr ["93.184.216.34"%js] : Thrown + list jsstring in
  exists parsed,
    new_URL (Platform := Reference.platform) "https://example.com/page"%js = Some parsed
    /\ (exists addrs,
          lookup (hostname parsed) = inr addrs
          /\ Forall (fun a => isPrivateIp (net := net) a = false) addrs).
Proof.
  cbv zeta.
  assert (Hin : In (Get "https://example.com/page"%js)
                  (fetchPageText (P := Reference.platform)
                     (net := {| isIP := fun s => if JsString.eqb s "93.184.216.34"%js
                                                 then 4 else 0 |})
                     (fun _ => inr ["93.184.216.34"%js]) (fun _ => inl (Foreign NotAnObject))
                     "https://example.com/page"%js 1000000).1)
    by (vm_compute; right; left; reflexivity).
  destruct (get_only_after_clearance (P := Reference.platform) _ _ _ _
              (Get "https://example.com/page"%js) eq_refl Hin)
    as (_ & parsed & Hp & _ & _ & _ & [(Hip & _)|(_ & (addrs & Hl & _ & Hall) & _)]).
  - exfalso. apply Hip. revert Hp. vm_compute. intros [= <-]. reflexivity.
  - exists parsed. split; [exact Hp|]. exists addrs. split; [exact Hl|exact Hall].
Defined.

Lemma private_literal_is_refused_witness :
  exists msg,
    fetchPageText (P := Scenarios.with_intranet_url) (net := {| isIP := fun _ => 4 |})
      (fun _ => inr []) (fun _ => inl (Foreign NotAnObject))
      "http://192.168.1.10/admin"%js 1000000
    = ([], inl (HttpError 400 msg)).
Proof.
  apply (private_literal_is_refused (P := Scenarios.with_intranet_url)
           (net := {| isIP := fun _ => 4 |}) _ _ "http://192.168.1.10/admin"%js _
           {| protocol := "http:"%js; hostname := "192.168.1.10"%js;
              pathname := "/admin"%js; searchParams := [] |} 192 168 1 10);
    try reflexivity.
  right. right. right. left. split; reflexivity.
Defined.

Lemma page_text_conditions_witness :
  let net := {| isIP := fun s => if JsString.eqb s "93.184.216.34"%js then 4 else 0 |} in
  let res := {| res_ok := true; res_status := 200;
                content_type := Some "text/html; charset=utf-8"%js;
                res_body := inr (31, "<p>Gravity &amp;  mass</p>"%js) |} in
  (fetchPageText (P := Reference.platform) (net := net) (fun _ => inr ["93.184.216.34"%js])
     (fun _ => inr res) "https://example.com/page"%js 1000000).2
  = inr "Gravity & mass"%js
  /\ exists size html,
       res_body res = inr (size, html)
       /\ size <= 1000000
       /\ "Gravity & mass"%js = extractTextFromHtml html.
Proof.
  cbv zeta.
  assert (Hrun : (fetchPageText (P := Reference.platform)
                    (net := {| isIP := fun s => if JsString.eqb s "93.184.216.34"%js
                                                then 4 else 0 |})
                    (fun _ => inr ["93.184.216.34"%js])
                    (fun _ => inr {| res_ok := true; res_status := 200;
                                     content_type := Some "text/html; charset=utf-8"%js;
                                     res_body := inr (31, "<p>Gravity &amp;  mass</p>"%js) |})
                    "https://example.com/page"%js 1000000).2
                 = inr "Gravity & mass"%js) by (vm_compute; reflexivity).
  split; [exact Hrun|].
  destruct (page_text_conditions (P := Reference.platform) _ _ _ _ _ Hrun)
    as (res & size & html & ct & [= <-] & _ & _ & _ & Hbody & Hsize & Htext & _).
  exists size, html. repeat split; assumption.
Defined.

End SsrfLaws.

(** ** Anonymous ids, request ids and profiles *)

Module ProfileLaws.
Import Regex Routes Profiles JsStringFacts TrimFacts.

(** A greedy star of a character class before the end of the input
    matches exactly the inputs that lie in the class. *)
Lemma star_class_to_end (p : ascii -> bool) : forall fuel c,
  (length (rest c) < fuel)%nat ->
  (fix loop (fuel : nat) (c : cursor) {struct fuel} : option cursor :=
     match fuel with
     | O => exec Eol Some c
     | S f =>
         let more c' :=
           if (length (rest c') <? length (rest c))%nat then loop f c' else None in
         match exec (Chr p) more c with
         | Some c' => Some c'
         | None => exec Eol Some c
         end
     end) fuel c
  <> None <-> forallb p (rest c) = true.
Proof.
  induction fuel as [|f IH]; intros [pv s mk] Hlen; cbn [rest marks] in *; [lia|].
  destruct s as [|a s]; cbn [exec rest marks forallb].
  - split; [reflexivity|discriminate].
  - destruct (p a) eqn:E; cbn [andb]; [|split; [congruence|discriminate]].
    cbn [length]. replace (length s <? S (length s))%nat with true
      by (symmetry; apply Nat.ltb_lt; lia).
    specialize (IH (Cursor (Some a) s mk) ltac:(cbn in *; lia)). cbn [rest] in IH.
    match goal with
    | |- match ?o with Some c' => Some c' | None => None end <> None <-> _ =>
        change (o <> None <-> forallb p s = true) in IH;
        destruct o; [|exact IH]
    end.
    split; [intros _; apply IH; discriminate|discriminate].
Qed.

Lemma find_anchored r a s : find (Seq Bol r) (Some a) s = None.
Proof.
  revert a. induction s as [|b s IH]; intros a; cbn [find]; unfold match_here; cbn [exec prev].
  - reflexivity.
  - now rewrite IH.
Qed.

Lemma test_whole_class (p : ascii -> bool) s :
  test (seqs [Bol; plus (Chr p); Eol]) s = truthy s && forallb p s.
Proof.
  unfold test. cbn [seqs]. destruct s as [|a s].
  - reflexivity.
  - cbn [find truthy andb]. rewrite find_anchored.
    unfold match_here, plus. cbn [exec prev rest marks forallb].
    destruct (p a) eqn:E; cbn [andb]; [|reflexivity].
    pose proof (star_class_to_end p (S (length s)) (Cursor (Some a) s []) ltac:(cbn; lia)) as H.
    cbn [rest] in H.
    match goal with
    | |- match match ?o with Some c => _ | None => _ end with Some _ => true | None => false end
         = _ =>
        change (o <> None <-> forallb p s = true) in H; destruct o
    end.
    + symmetry. apply H. discriminate.
    + destruct (forallb p s); [|reflexivity]. now destruct (proj2 H eq_refl).
Qed.

Lemma safe_id_spec (p : ascii -> bool) (value : option jsstring) (v : jsstring) :
  match value with
  | None => None
  | Some value =>
      let v := trim value in
      if negb (truthy v) then None
      else if (200 <? length v)%nat then None
      else if negb (test (seqs [Bol; plus (Chr p); Eol]) v) then None
      else Some v
  end = Some v
  <-> exists raw,
        value = Some raw /\ trim raw = v
        /\ (1 <= length v <= 200)%nat /\ forallb p v = true.
Proof.
  destruct value as [raw|]; [|split; [discriminate|intros (? & ? & _); discriminate]].
  cbv zeta. rewrite test_whole_class.
  destruct (trim raw) as [|c t] eqn:Et; cbn [truthy negb andb].
  - split; [discriminate|]. intros (raw' & [= <-] & <- & Hlen & _). rewrite Et in Hlen.
    cbn in Hlen. lia.
  - destruct (Nat.ltb_spec 200 (length (c :: t))).
    + split; [discriminate|]. intros (raw' & [= <-] & <- & Hlen & _). rewrite Et in Hlen. lia.
    + destruct (forallb p (c :: t)) eqn:Hall; cbn [negb].
      * split.
        -- intros [= <-]. exists raw. repeat split; try assumption. cbn [length]. lia.
        -- intros (raw' & [= <-] & <- & _). now rewrite Et.
      * split; [discriminate|]. intros (raw' & [= <-] & <- & _ & Hp). rewrite Et in Hp.
        congruence.
Qed.

(** The ids taken from request headers: [safeAnonId] and [safeRequestId]
    return the trimmed header exactly when it has 1 to 200 characters, all
    of them ASCII letters, digits, [.], [_], [-] (and [:] for the anonymous
    id); anything else, also a value that is not a string, gives
    [undefined]. *)
Theorem header_ids_are_plain_tokens (value : option jsstring) (v : jsstring) :
  (safeAnonId value = Some v
   <-> exists raw, value = Some raw /\ trim raw = v
                   /\ (1 <= length v <= 200)%nat /\ forallb anon_char v = true)
  /\ (safeRequestId value = Some v
      <-> exists raw, value = Some raw /\ trim raw = v
                      /\ (1 <= length v <= 200)%nat /\ forallb request_char v = true).
Proof. split; apply safe_id_spec. Qed.

(** *** Profiles *)

Lemma get_set {A} (k k' : jsstring) (v : A) m :
  get k' (set k v m) = if JsString.eqb k k' then Some v else get k' m.
Proof.
  induction m as [|[k0 v0] m IH]; cbn [set get].
  - reflexivity.
  - destruct (JsString.eqb k0 k) eqn:E0; cbn [get].
    + apply eqb_eq in E0. subst k0. now destruct (JsString.eqb k k').
    + rewrite IH. destruct (JsString.eqb k0 k') eqn:E1; [|reflexivity].
      apply eqb_eq in E1. subst k0. destruct (JsString.eqb k k') eqn:E2; [|reflexivity].
      apply eqb_eq in E2. subst k'. now rewrite eqb_refl in E0.
Qed.

Lemma set_keys {A} (k : jsstring) (v : A) m :
  map fst (set k v m) = map fst m /\ get k m <> None
  \/ map fst (set k v m) = map fst m ++ [k] /\ get k m = None.
Proof.
  induction m as [|[k0 v0] m IH]; cbn [set get map fst].
  - right. split; reflexivity.
  - destruct (JsString.eqb k0 k) eqn:E0; cbn [map fst].
    + apply eqb_eq in E0. subst k0. left. split; [reflexivity|discriminate].
    + destruct IH as [[-> Hn]|[-> Hn]]; [left|right]; split; assumption || reflexivity.
Qed.

Lemma get_None_keys {A} (k : jsstring) (m : list (jsstring * A)) :
  get k m = None -> ~ In k (map fst m).
Proof.
  induction m as [|[k0 v0] m IH]; cbn [get map fst]; [tauto|].
  destruct (JsString.eqb k0 k) eqn:E0; [discriminate|].
  intros Hn [->|Hin]; [|now apply IH]. now rewrite eqb_refl in E0.
Qed.

Lemma set_NoDup {A} (k : jsstring) (v : A) m :
  NoDup (map fst m) -> NoDup (map fst (set k v m)).
Proof.
  intros Hnd. destruct (set_keys k v m) as [[-> _]|[-> Hn]]; [assumption|].
  apply NoDup_app. split; [assumption|]. split; [|apply NoDup_singleton].
  intros x Hx%list_elem_of_In Hk%list_elem_of_In. destruct Hk as [<-|[]].
  now apply (get_None_keys _ _ Hn).
Qed.

Lemma total_set (topic : jsstring) (tc : list (jsstring * Z)) :
  fold_right Z.add 0 (map snd (set topic (default 0 (get topic tc) + 1) tc))
  = fold_right Z.add 0 (map snd tc) + 1.
Proof.
  induction tc as [|[k0 v0] tc IH]; cbn [set get map snd fold_right default from_option id].
  - lia.
  - destruct (JsString.eqb k0 topic); cbn [map snd fold_right default from_option id];
      [|rewrite IH]; lia.
Qed.

Lemma asks_of_snoc id calls c :
  asks_of id (calls ++ [c])
  = asks_of id calls + (if JsString.eqb (param_anonId c.2) id then 1 else 0).
Proof.
  unfold asks_of. rewrite List.filter_app, length_app. cbn [List.filter].
  destruct (JsString.eqb (param_anonId c.2) id); cbn [length]; lia.
Qed.

(** The profile map counts the requests of every id: after any sequence
    of upserts that starts from the empty map, an id has a profile exactly
    when it made a request; the profile carries that id, its [askCount] is
    the number of requests of the id, its topic counts add up to at most
    [askCount], and no id has two entries. *)
Theorem profiles_count_requests (calls : list (Z * UpsertParams)) (id : jsstring) :
  NoDup (map fst (upserts calls []))
  /\ match get id (upserts calls []) with
     | Some p =>
         anonId p = id
         /\ askCount p = asks_of id calls
         /\ 0 < asks_of id calls
         /\ 0 <= topics_total p <= askCount p
     | None => asks_of id calls = 0
     end.
Proof.
  induction calls as [|c calls IH] using rev_ind.
  - split; [constructor|reflexivity].
  - destruct IH as [Hnd IH]. unfold upserts in *. rewrite fold_left_app. cbn [fold_left].
    set (m := fold_left _ calls []) in *.
    split; [now apply set_NoDup|].
    unfold upsertAnonProfile. rewrite get_set, asks_of_snoc.
    destruct (JsString.eqb (param_anonId c.2) id) eqn:E.
    + apply eqb_eq in E. rewrite E. cbn [anonId askCount].
      assert (Htotal : forall p : AnonProfile,
                 0 <= topics_total p <= askCount p ->
                 0 <= fold_right Z.add 0
                        (map snd
                           match inferTopic (param_question c.2) with
                           | Some topic =>
                               if truthy topic
                               then set topic (default 0 (get topic (topicCounts p)) + 1)
                                      (topicCounts p)
                               else topicCounts p
                           | None => topicCounts p
                           end)
                 <= askCount p + 1).
      { intros p Hp. unfold topics_total in Hp.
        destruct (inferTopic _) as [topic|]; [destruct (truthy topic)|];
          rewrite ?total_set; lia. }
      destruct (get id m) as [p|].
      * destruct IH as (Hid & Hcount & Hpos & Htot).
        unfold topics_total. cbn [topicCounts].
        repeat split; try assumption; try lia; apply Htotal; assumption.
      * unfold topics_total. cbn [topicCounts anonId askCount].
        repeat split; try lia;
          apply (Htotal {| anonId := id; createdAtMs := c.1; lastSeenAtMs := c.1;
                           askCount := 0; lastLanguage := None; lastStyle := None;
                           topicCounts := [] |}); cbn; lia.
    + rewrite Z.add_0_r. exact IH.
Qed.

End ProfileLaws.

(** ** The cached list of free models *)

Module FreeModelLaws.
Import OpenRouter FreeModels.

Section WithFloats.
Context {F : Floats}.

Lemma firstn_map_filter_In (n : nat) (all : list ModelInfo) id :
  In id (firstn n (map model_id (List.filter is_free all))) ->
  exists m, In m all /\ is_free m = true /\ model_id m = id.
Proof.
  intros Hin. assert (H : In id (map model_id (List.filter is_free all))).
  { rewrite <- (firstn_skipn n (map _ _)). apply in_app_iff. now left. }
  apply in_map_iff in H as (m & Hid & [Hm Hfree]%filter_In). eauto.
Qed.

(** The list of free models and its cache.  A call that fails leaves the
    cache as it was.  A call that returns either made no request and left
    the cache as it was, or made one request; in that case it returns at
    most 100 ids, each the id of a listed model whose prompt, completion
    and request prices are finite and not above zero (a missing price
    counts as zero), and for the next ten minutes every call returns the
    same list without a request, whatever the key and the provider. *)
Theorem free_models_are_cached (cachedFreeModels : option Cached) (key : option jsstring)
    (now : Z) (outcome : ListOutcome) :
  let '(cache', log, r) := listFreeOpenRouterModels cachedFreeModels key now outcome in
  match r with
  | inl _ => cache' = cachedFreeModels /\ log = [Fetch]
  | inr ms =>
      (log = [] /\ cache' = cachedFreeModels)
      \/ (log = [Fetch]
          /\ (length ms <= 100)%nat
          /\ (exists status data,
                outcome = ListResponded status (ModelList data)
                /\ Forall (fun id => exists m, In m (default [] data)
                                               /\ is_free m = true /\ model_id m = id) ms)
          /\ forall now' key' outcome',
               now' < now + 600000 ->
               listFreeOpenRouterModels cache' key' now' outcome' = (cache', [], inr ms))
  end.
Proof.
  unfold listFreeOpenRouterModels.
  destruct (match cachedFreeModels with
            | Some c => if now <? expiresAtMs c then Some (models c) else None
            | None => None
            end) as [ms|]; [left; split; reflexivity|].
  destruct (negb _); [left; split; reflexivity|].
  destruct outcome as [err|status body]; [split; reflexivity|].
  destruct (negb (ok status)); [split; reflexivity|].
  destruct body as [| |data]; try (split; reflexivity).
  right. split; [reflexivity|]. split; [apply firstn_le_length|]. split.
  - exists status, data. split; [reflexivity|]. apply List.Forall_forall.
    intros id Hid. now apply firstn_map_filter_In in Hid.
  - intros now' key' outcome' Hnow. cbn [expiresAtMs models].
    replace (now' <? now + 10 * 60 * 1000) with true by (symmetry; apply Z.ltb_lt; lia).
    reflexivity.
Qed.

End WithFloats.
End FreeModelLaws.

(** ** The two revisions of the chat-completion adapter *)

Module AdapterLaws.
Import JsNumber OpenRouter OpenRouterFacts.

(** The retrying revision of [openRouterChatCompletion] extends the
    single-attempt one: the single attempt makes exactly one request; a
    run of the retrying revision with one request has the outcome of the
    single attempt; every success and every authentication failure (401)
    of the single attempt is the outcome of the retrying revision too,
    after one request; and where the two differ, the retrying revision
    made two requests with one pause of 200 to 10000 ms between them. *)
Theorem retry_extends_single_attempt (world : nat -> FetchOutcome) :
  let single := OpenRouterSingleAttempt.openRouterChatCompletion world in
  let retrying := openRouterChatCompletion world in
  single.1 = [Fetch]
  /\ (fetches retrying.1 = 1%nat -> retrying = single)
  /\ (forall content, single.2 = inr content -> retrying = single)
  /\ (forall m, single.2 = inl (HttpError 401 m) -> retrying = single)
  /\ (retrying <> single ->
      exists ms, 200 <= ms <= 10000 /\ retrying.1 = [Fetch; Sleep ms; Fetch]).
Proof.
  cbv zeta. rewrite two_attempts.
  unfold OpenRouterSingleAttempt.openRouterChatCompletion, first_attempt.
  assert (Hpause : forall ra, 200 <= default 350 (getRetryAfterMs ra) <= 10000).
  { intros ra. destruct (getRetryAfterMs ra) as [ms|] eqn:E; cbn; [|lia].
    apply retry_after_bounds in E. lia. }
  destruct (world 1%nat) as [err|status ra body].
  - destruct (isRetryableNetworkError err); cbn [fst snd].
    + repeat split; try discriminate. intros _. exists 350. split; [lia|reflexivity].
    + repeat split; try reflexivity. intros H. now destruct H.
  - destruct (negb (ok status)).
    + destruct ((status =? 401) || (status =? 403)) eqn:Hauth; cbn [fst snd].
      * repeat split; try reflexivity. intros H. now destruct H.
      * destruct (isTransientStatus status); cbn [fst snd].
        -- repeat split; try discriminate.
           intros _. exists (default 350 (getRetryAfterMs ra)). split; [apply Hpause|reflexivity].
        -- repeat split; try reflexivity. intros H. now destruct H.
    + destruct body; cbn [fst snd].
      * repeat split; try discriminate. intros _. exists 200. split; [lia|reflexivity].
      * repeat split; try discriminate. intros _. exists 200. split; [lia|reflexivity].
      * repeat split; try reflexivity. intros H. now destruct H.
Qed.

End AdapterLaws.
